(** * CompareUtils: the data-shaping layer of the run comparison page

    A shallow embedding of [frontend/src/lib/v2/CompareUtils.ts], the
    properties its specification states about it, and further properties
    of its functions: what the cells, labels and path map hold, and when
    a call throws.

    The definitions come in four layers:
    - [JS]: the pieces of the JavaScript runtime the source relies on
      (exceptions, arrays with holes, plain objects with their prototype and
      own-key order, [Array.prototype.sort], [JSON.stringify]);
    - the collaborators the source imports ([jspb], [mlmd], [MlmdUtils],
      [apis], [CompareTable]);
    - the functions of [CompareUtils.ts] themselves, under the names of
      the source, as functions from values to values: the arrays and
      objects a call builds are threaded through its loops;
    - [Store]: the same functions over a store of objects passed by
      reference, for the properties that are about which objects a call
      writes; [Layout] and [PathLayout] name what the store holds during
      a call, for the proofs that the functions over the store compute
      what the functions over values compute.

    The theorems follow the definitions. *)

From Stdlib Require Import String Ascii DecimalString.
From Stdlib Require DecimalN DecimalPos.
From Stdlib Require Import List ZArith NArith Bool Lia Arith Permutation Sorted.
Import ListNotations.

Open Scope string_scope.
Open Scope nat_scope.
Open Scope list_scope.

(* ================================================================== *)
(** * The JavaScript runtime *)
(* ================================================================== *)

Module JS.

(** ** Abrupt completion *)

Inductive exn := TypeError | RangeError.

Inductive completion (A : Type) : Type :=
| Normal (a : A)
| Throw (e : exn).
Arguments Normal {A} a.
Arguments Throw {A} e.

Definition bind {A B} (c : completion A) (k : A -> completion B)
  : completion B :=
  match c with
  | Normal a => k a
  | Throw e => Throw e
  end.

(** [for (const x of l) body], the loop state threaded through [s]. *)
Fixpoint forOf {A S} (l : list A) (body : A -> S -> completion S) (s : S)
  : completion S :=
  match l with
  | [] => Normal s
  | x :: l' => bind (body x s) (forOf l' body)
  end.

(** ** Numbers

    A number is kept as the decimal that [Number::toString] prints: the
    finite value [(-1)^negative * s * 10^e].  Binary rounding is outside
    this model; every finite double has exactly one shortest such decimal
    and that is the one meant here. *)

Inductive number :=
| NaN
| Infinity (negative : bool)
| Finite (negative : bool) (s : N) (e : Z).

Definition ofZ (z : Z) : number := Finite (z <? 0)%Z (Z.abs_N z) 0.

Definition isZero (x : number) : bool :=
  match x with
  | Finite _ s _ => (s =? 0)%N
  | _ => false
  end.

Definition decimal (n : N) : string := NilZero.string_of_uint (N.to_uint n).

Fixpoint dropZeros (l : list ascii) : list ascii :=
  match l with
  | "0"%char :: l' => dropZeros l'
  | _ => l
  end.

Definition zeros (n : nat) : list ascii := repeat "0"%char n.

(** Steps 5 to 10 of [Number::toString]: [digits] are the [k] significant
    digits (no trailing zero) and [n] is the position of the decimal point.
    A decimal whose digits are all zero is the number 0. *)
Definition formatDigits (digits : list ascii) (n : Z) : list ascii :=
  let k := Z.of_nat (length digits) in
  if ((k <=? n) && (n <=? 21))%Z then
    digits ++ zeros (Z.to_nat (n - k))
  else if ((0 <? n) && (n <=? 21))%Z then
    firstn (Z.to_nat n) digits ++ "."%char :: skipn (Z.to_nat n) digits
  else if ((-6 <? n) && (n <=? 0))%Z then
    "0"%char :: "."%char :: zeros (Z.to_nat (- n)) ++ digits
  else
    let exponent :=
      "e"%char :: (if (n - 1 <? 0)%Z then "-"%char else "+"%char)
               :: list_ascii_of_string (decimal (Z.abs_N (n - 1))) in
    match digits with
    | [] => exponent
    | [d] => d :: exponent
    | d :: rest => d :: "."%char :: rest ++ exponent
    end.

Definition Number_toString (x : number) : string :=
  match x with
  | NaN => "NaN"
  | Infinity negative => if negative then "-Infinity" else "Infinity"
  | Finite negative s e =>
      let all := list_ascii_of_string (decimal s) in
      let n := (Z.of_nat (length all) + e)%Z in
      match rev (dropZeros (rev all)) with
      | [] => "0"
      | d :: rest =>
          ((if negative then "-" else "")
             ++ string_of_list_ascii (formatDigits (d :: rest) n))%string
      end
  end.

(** ** Values and [JSON.stringify] *)

(** The plain values a decoded property can hold ([JavaScriptValue] in the
    typings of google-protobuf).  The fields of an object are listed in
    the object's own-key order. *)
#[warnings="-register-all"]
Inductive JavaScriptValue :=
| JNull
| JNumber (x : number)
| JString (s : string)
| JBoolean (b : bool)
| JArray (items : list JavaScriptValue)
| JObject (fields : list (string * JavaScriptValue)).

(** [ToBoolean], as applied by [if (v)]; [None] is [undefined]. *)
Definition ToBoolean (v : option JavaScriptValue) : bool :=
  match v with
  | None => false
  | Some JNull => false
  | Some (JNumber NaN) => false
  | Some (JNumber x) => negb (isZero x)
  | Some (JString s) => negb (s =? "")%string
  | Some (JBoolean b) => b
  | Some (JArray _) => true
  | Some (JObject _) => true
  end.

Definition hexDigit (n : N) : ascii :=
  match n with
  | 0 => "0" | 1 => "1" | 2 => "2" | 3 => "3" | 4 => "4" | 5 => "5"
  | 6 => "6" | 7 => "7" | 8 => "8" | 9 => "9" | 10 => "a" | 11 => "b"
  | 12 => "c" | 13 => "d" | 14 => "e" | _ => "f"
  end%N%char.

(** One code unit of [QuoteJSONString]. *)
Definition quoteChar (c : ascii) : string :=
  match N_of_ascii c with
  | 8 => "\b"
  | 9 => "\t"
  | 10 => "\n"
  | 12 => "\f"
  | 13 => "\r"
  | 34 => String "\"%char (String c "")
  | 92 => "\\"
  | n =>
      if (n <? 32)%N then
        ("\u00" ++ String (hexDigit (n / 16))
                            (String (hexDigit (n mod 16)) ""))%string
      else String c ""
  end%N.

Fixpoint quoteChars (s : string) : string :=
  match s with
  | EmptyString => ""
  | String c s' => (quoteChar c ++ quoteChars s')%string
  end.

Definition doubleQuote : string := String (ascii_of_N 34) "".

Definition QuoteJSONString (s : string) : string :=
  (doubleQuote ++ quoteChars s ++ doubleQuote)%string.

Definition commaSeparated (parts : list string) : string :=
  match parts with
  | [] => ""
  | p :: ps => fold_left (fun acc q => (acc ++ "," ++ q)%string) ps p
  end.

Fixpoint JSON_stringify (v : JavaScriptValue) : string :=
  match v with
  | JNull => "null"
  | JNumber (Finite negative s e) => Number_toString (Finite negative s e)
  | JNumber _ => "null"
  | JString s => QuoteJSONString s
  | JBoolean b => if b then "true" else "false"
  | JArray items =>
      ("[" ++ commaSeparated (map JSON_stringify items) ++ "]")%string
  | JObject fields =>
      ("{" ++ commaSeparated
                (map (fun kv => QuoteJSONString (fst kv) ++ ":"
                                  ++ JSON_stringify (snd kv)) fields)
           ++ "}")%string
  end.

(** ** Arrays

    An array is the list of its slots; [None] is a hole (a slot that was
    never written and reads as [undefined]).  The 2^32-1 cap on the
    length of an existing array is not modelled. *)

Definition array (A : Type) := list (option A).

(** [Array(len).fill(v)]: [RangeError] unless [len] is a valid length. *)
Definition Array_fill {A} (len : Z) (v : A) : completion (array A) :=
  if ((0 <=? len) && (len <? 2 ^ 32))%Z
  then Normal (repeat (Some v) (Z.to_nat len))
  else Throw RangeError.

(** [a[i] = v]: writes the slot if it exists, otherwise grows the array,
    leaving holes below [i]. *)
Definition Array_set {A} (a : array A) (i : nat) (v : A) : array A :=
  if i <? length a
  then firstn i a ++ Some v :: skipn (S i) a
  else a ++ repeat None (i - length a) ++ [Some v].

(** [Array.prototype.sort(compareFn)].  The sort is stable, so for a
    consistent [compareFn] the result does not depend on the engine's
    algorithm; insertion from the right computes it. *)
Fixpoint sortInsert {A} (compareFn : A -> A -> Z) (x : A) (l : list A)
  : list A :=
  match l with
  | [] => [x]
  | y :: l' =>
      if (compareFn x y <=? 0)%Z then x :: y :: l'
      else y :: sortInsert compareFn x l'
  end.

Fixpoint Array_sort {A} (compareFn : A -> A -> Z) (l : list A) : list A :=
  match l with
  | [] => []
  | x :: l' => sortInsert compareFn x (Array_sort compareFn l')
  end.

(** ** Plain objects

    An object created by [{}] is the list of its own properties in
    creation order; reads fall back to [Object.prototype]. *)

Definition object (V : Type) := list (string * V).

Definition Object_prototype : list string :=
  [ "constructor"; "__defineGetter__"; "__defineSetter__";
    "hasOwnProperty"; "__lookupGetter__"; "__lookupSetter__";
    "isPrototypeOf"; "propertyIsEnumerable"; "toString"; "valueOf";
    "__proto__"; "toLocaleString" ].

Fixpoint getOwn {V} (o : object V) (k : string) : option V :=
  match o with
  | [] => None
  | (k', v) :: o' => if (k' =? k)%string then Some v else getOwn o' k
  end.

Inductive property (V : Type) : Type :=
| Own (v : V)
| Inherited
| Undefined.
Arguments Own {V} v.
Arguments Inherited {V}.
Arguments Undefined {V}.

(** [o[k]] *)
Definition get {V} (o : object V) (k : string) : property V :=
  match getOwn o k with
  | Some v => Own v
  | None =>
      if existsb (String.eqb k) Object_prototype then Inherited
      else Undefined
  end.

(** Every own value in this file is an object and every inherited one is
    a function or [Object.prototype]: only [undefined] is falsy. *)
Definition truthy {V} (p : property V) : bool :=
  match p with
  | Undefined => false
  | _ => true
  end.

(** [o[k] = v] for a key that is not inherited: an existing property
    keeps its place, a new one goes last. *)
Fixpoint set {V} (o : object V) (k : string) (v : V) : object V :=
  match o with
  | [] => [(k, v)]
  | (k', v') :: o' =>
      if (k' =? k)%string then (k', v) :: o' else (k', v') :: set o' k v
  end.

(** A key is an array index when it is the canonical decimal of an
    integer below 2^32-1. *)
Definition arrayIndex (k : string) : option N :=
  match NilZero.uint_of_string k with
  | Some u =>
      let n := N.of_uint u in
      if (decimal n =? k)%string && (n <? 2 ^ 32 - 1)%N then Some n
      else None
  | None => None
  end.

Definition isArrayIndex (k : string) : bool :=
  match arrayIndex k with Some _ => true | None => false end.

Definition indexOf (k : string) : Z :=
  match arrayIndex k with Some n => Z.of_N n | None => 0 end.

(** [Object.entries(o)]: array-index keys in ascending numeric order,
    then the other keys in creation order. *)
Definition Object_entries {V} (o : object V) : list (string * V) :=
  Array_sort (fun a b => (indexOf (fst a) - indexOf (fst b))%Z)
             (filter (fun kv => isArrayIndex (fst kv)) o)
    ++ filter (fun kv => negb (isArrayIndex (fst kv))) o.

(** ** Optional values

    [None] is [undefined].  [a || b] on strings takes [b] when [a] is
    [undefined] or empty; [o!.f] throws when [o] is [undefined]. *)

Definition or (a : option string) (b : string) : string :=
  match a with
  | Some s => if (s =? "")%string then b else s
  | None => b
  end.

Definition orM (a : option string) (b : completion string)
  : completion string :=
  match a with
  | Some s => if (s =? "")%string then b else Normal s
  | None => b
  end.

Definition optChain {A B} (o : option A) (f : A -> option B) : option B :=
  match o with
  | Some a => f a
  | None => None
  end.

Definition nonNull {A} (o : option A) : completion A :=
  match o with
  | Some a => Normal a
  | None => Throw TypeError
  end.

(** [l.map(f)] for a callback that also updates captured state [s]. *)
Fixpoint mapS {A B S} (l : list A) (f : A -> S -> completion (B * S))
  (s : S) : completion (list B * S) :=
  match l with
  | [] => Normal ([], s)
  | x :: l' =>
      bind (f x s) (fun bs =>
      bind (mapS l' f (snd bs)) (fun r =>
      Normal (fst bs :: fst r, snd r)))
  end.

End JS.

Import JS.

Notation "x <- c ;; k" := (JS.bind c (fun x => k))
  (at level 61, c at next level, right associativity).

(* ================================================================== *)
(** * Collaborators imported by the source *)
(* ================================================================== *)

(** [google-protobuf]: a map field is given by its entry list; the keys of
    a map are pairwise distinct ([wellFormed]). *)
Module jspb.

Definition Map (V : Type) := list (string * V).

Definition getEntryList {V} (m : Map V) : list (string * V) := m.

Definition get {V} (m : Map V) (k : string) : option V := JS.getOwn m k.

Definition wellFormed {V} (m : Map V) : Prop := NoDup (map fst m).

End jspb.

(** [src/third_party/mlmd] *)
Module mlmd.

Definition Struct := list (string * JavaScriptValue).

(** [Struct.toJavaScript()] always yields an object. *)
Definition toJavaScript (s : Struct) : JavaScriptValue := JObject s.

(** Modelled from the spec: the declaration of [Value] is missing; the
    spec gives it as a tagged variant that decodes to string, number,
    struct or null. *)
Inductive Value :=
| NullValue
| NumberValue (x : number)
| StringValue (s : string)
| StructValue (s : Struct).

(** Modelled from the spec: the struct getter of [Value] is missing;
    it yields the struct when the value holds one, else [undefined]. *)
Definition getStructValue (v : Value) : option Struct :=
  match v with
  | StructValue s => Some s
  | _ => None
  end.

Module Execution.
(** Modelled from the spec: the declaration of [Execution] is missing;
    executions expose [{ id, displayName? }]. *)
Record t := { getId : Z; displayName : option string }.
End Execution.

Module Artifact.
(** Modelled from the spec: the declaration of [Artifact] is missing;
    artifacts expose [{ id, displayName?, customProperties }]. *)
Record t := {
  getId : Z;
  displayName : option string;
  getCustomPropertiesMap : jspb.Map Value
}.
End Artifact.

Module Event.
(** Modelled from the spec: the declaration of [Event] is missing; an
    event links an execution id to an artifact id. *)
Record t := { getExecutionId : Z; getArtifactId : Z }.
End Event.

End mlmd.

(** [src/mlmd/Utils] *)
Module Utils.

(** Modelled from the spec: [getMetadataValue] is missing; it decodes a
    [Value] to string, number, struct or null.  An absent value decodes
    to null. *)
Definition getMetadataValue (value : option mlmd.Value) : JavaScriptValue :=
  match value with
  | Some (mlmd.NumberValue x) => JNumber x
  | Some (mlmd.StringValue s) => JString s
  | Some (mlmd.StructValue s) => mlmd.toJavaScript s
  | Some mlmd.NullValue => JNull
  | None => JNull
  end.

End Utils.

(** [src/mlmd/MlmdUtils] *)
Module MlmdUtils.

(** Modelled from the spec: the declaration of [LinkedArtifact] is
    missing; it is an artifact paired with the event that links it to an
    execution. *)
Record LinkedArtifact := {
  event : mlmd.Event.t;
  artifact : mlmd.Artifact.t
}.

(** Modelled from the spec: the display name of an execution, when it
    has one. *)
Definition getExecutionDisplayName (execution : mlmd.Execution.t)
  : option string :=
  mlmd.Execution.displayName execution.

(** Modelled from the spec: the display name of the linked artifact,
    when it has one. *)
Definition getArtifactName (linkedArtifact : LinkedArtifact)
  : option string :=
  mlmd.Artifact.displayName (artifact linkedArtifact).

End MlmdUtils.

(** [src/apis/run] *)
Module apis.

(** Modelled from the spec: the declaration of [ApiRun] is missing; runs
    carry [{ id, name }], and the source reads the name as optional and
    asserts the id ([id!]). *)
Record ApiRun := { id : string; name : option string }.

(** Modelled from the spec: the declaration of [ApiRunDetail] is
    missing; the source reads [run.run?.name] and [run.run!.id], so the
    run of a detail is optional. *)
Record ApiRunDetail := { run : option ApiRun }.

End apis.

(** [src/components/CompareTable] *)
Module CompareTable.

(** Modelled from the spec: the declaration of [xParentLabel] is
    missing; it is a group label with a column span. *)
Record xParentLabel := { label : string; colSpan : Z }.

(** Modelled from the spec: the declaration of [CompareTableProps] is
    missing; the assembler fills [{ xLabels, yLabels, xParentLabels,
    rows }]. *)
Record CompareTableProps := {
  xLabels : list string;
  yLabels : list string;
  xParentLabels : list xParentLabel;
  rows : list (array string)
}.

End CompareTable.

Import MlmdUtils.

(* ================================================================== *)
(** * CompareUtils.ts *)
(* ================================================================== *)

Record ExecutionArtifact := {
  execution : mlmd.Execution.t;
  linkedArtifacts : list LinkedArtifact
}.

Record RunArtifact := {
  run : apis.ApiRunDetail;
  executionArtifacts : list ExecutionArtifact
}.

Record ScalarRowData := {
  row : array string;
  dataCount : Z
}.

Record ScalarTableData := {
  xLabels : list string;
  xParentLabels : list CompareTable.xParentLabel;
  dataMap : object ScalarRowData
}.

Record NameId := { name : string; id : string }.

Module FullArtifactPath.
Record t := { run : NameId; execution : NameId; artifact : NameId }.
End FullArtifactPath.

Definition FullArtifactPathMap := object FullArtifactPath.t.

Record RocCurveArtifactData := {
  validLinkedArtifacts : list LinkedArtifact;
  fullArtifactPathMap : FullArtifactPathMap
}.

(** Template literals and [toString()] print a number with
    [Number::toString]. *)
Definition idText (n : Z) : string := Number_toString (ofZ n).

(** Lines 79-80. *)
Definition getRocCurveId (linkedArtifact : LinkedArtifact) : string :=
  (idText (mlmd.Event.getExecutionId (event linkedArtifact)) ++ "-"
     ++ idText (mlmd.Event.getArtifactId (event linkedArtifact)))%string.

(** Lines 111-124.  [forEach] with [push] is a left fold that appends. *)
Definition getValidArtifacts (executionArtifact : ExecutionArtifact)
  : list LinkedArtifact :=
  fold_left
    (fun validLinkedArtifacts linkedArtifact =>
       let customProperties :=
         mlmd.Artifact.getCustomPropertiesMap (artifact linkedArtifact) in
       let confidenceMetrics :=
         optChain
           (optChain (jspb.get customProperties "confidenceMetrics")
                     mlmd.getStructValue)
           (fun s => Some (mlmd.toJavaScript s)) in
       if ToBoolean confidenceMetrics
       then validLinkedArtifacts ++ [linkedArtifact]
       else validLinkedArtifacts)
    (linkedArtifacts executionArtifact) [].

(** Lines 127-146.  The object literal is evaluated in order: the name
    of the run, then its id, each reading [run.run!]. *)
Definition getFullArtifactPath (run : apis.ApiRunDetail)
  (execution : mlmd.Execution.t) (linkedArtifact : LinkedArtifact)
  : completion FullArtifactPath.t :=
  runName <- orM (optChain (apis.run run) apis.name)
                 (r <- nonNull (apis.run run) ;;
                  Normal ("Run ID #" ++ apis.id r)%string) ;;
  runId <- (r <- nonNull (apis.run run) ;; Normal (apis.id r)) ;;
  Normal {|
    FullArtifactPath.run := {| name := runName; id := runId |};
    FullArtifactPath.execution := {|
      name := JS.or (getExecutionDisplayName execution)
                ("Execution ID #"
                   ++ idText (mlmd.Execution.getId execution))%string;
      id := idText (mlmd.Execution.getId execution) |};
    FullArtifactPath.artifact := {|
      name := JS.or (getArtifactName linkedArtifact)
                ("Artifact ID #"
                   ++ idText (mlmd.Artifact.getId (artifact linkedArtifact)))%string;
      id := idText (mlmd.Artifact.getId (artifact linkedArtifact)) |}
  |}.

(** Lines 83-108.  The callbacks of the two [map]s update the captured
    [fullArtifactPathMap]; [flatMapDeep] flattens the two levels of
    arrays they return. *)
Definition getValidRocCurveArtifactData (rocCurveRunArtifacts : list RunArtifact)
  : completion RocCurveArtifactData :=
  r <- mapS rocCurveRunArtifacts
         (fun runArtifact =>
            mapS (executionArtifacts runArtifact)
              (fun executionArtifact fullArtifactPathMap =>
                 let validArtifacts := getValidArtifacts executionArtifact in
                 fullArtifactPathMap <-
                   forOf validArtifacts
                     (fun validArtifact fullArtifactPathMap =>
                        path <- getFullArtifactPath (run runArtifact)
                                  (execution executionArtifact) validArtifact ;;
                        Normal (JS.set fullArtifactPathMap
                                  (getRocCurveId validArtifact) path))
                     fullArtifactPathMap ;;
                 Normal (validArtifacts, fullArtifactPathMap)))
         [] ;;
  Normal {|
    validLinkedArtifacts := concat (concat (fst r));
    fullArtifactPathMap := snd r
  |}.

(** Lines 232-256.  The function changes [dataMap] in place; here it
    returns the changed map.  When [dataMap[scalarMetricName]] is
    inherited from [Object.prototype] it is truthy and has no [row]: the
    write to [row[artifactIndex]] throws. *)
Definition addScalarDataItems (customProperties : jspb.Map mlmd.Value)
  (dataMap : object ScalarRowData) (artifactIndex : nat) (artifactCount : Z)
  : completion (object ScalarRowData) :=
  forOf (jspb.getEntryList customProperties)
    (fun entry dataMap =>
       let scalarMetricName := fst entry in
       if (scalarMetricName =? "display_name")%string then Normal dataMap
       else
         dataMap <-
           (if negb (truthy (JS.get dataMap scalarMetricName)) then
              filled <- Array_fill artifactCount "" ;;
              Normal (JS.set dataMap scalarMetricName
                        {| row := filled; dataCount := 0 |})
            else Normal dataMap) ;;
         match JS.get dataMap scalarMetricName with
         | Own data =>
             Normal (JS.set dataMap scalarMetricName
                       {| row :=
                            Array_set (row data) artifactIndex
                              (JSON_stringify
                                 (Utils.getMetadataValue
                                    (jspb.get customProperties
                                       scalarMetricName)));
                          dataCount := dataCount data + 1 |})
         | _ => Throw TypeError
         end)
    dataMap.

(** Lines 209-229.  The function changes [xLabels] and [dataMap] in
    place and returns the new artifact index; here it returns all
    three. *)
Definition loadScalarExecutionArtifacts
  (executionArtifacts : list ExecutionArtifact) (xLabels : list string)
  (dataMap : object ScalarRowData) (artifactIndex : nat) (artifactCount : Z)
  : completion (list string * object ScalarRowData * nat) :=
  forOf executionArtifacts
    (fun executionArtifact =>
       let executionText :=
         JS.or (getExecutionDisplayName (execution executionArtifact)) "-" in
       forOf (linkedArtifacts executionArtifact)
         (fun linkedArtifact st =>
            let '(xLabels, dataMap, artifactIndex) := st in
            let linkedArtifactText :=
              JS.or (getArtifactName linkedArtifact) "-" in
            let xLabel :=
              (executionText ++ " > " ++ linkedArtifactText)%string in
            let xLabels := xLabels ++ [xLabel] in
            let customProperties :=
              mlmd.Artifact.getCustomPropertiesMap (artifact linkedArtifact) in
            dataMap <- addScalarDataItems customProperties dataMap
                         artifactIndex artifactCount ;;
            Normal (xLabels, dataMap, S artifactIndex)))
    (xLabels, dataMap, artifactIndex).

(** Lines 173-206. *)
Definition getScalarTableData (scalarMetricsArtifacts : list RunArtifact)
  (artifactCount : Z) : completion ScalarTableData :=
  st <- forOf scalarMetricsArtifacts
          (fun runArtifact st =>
             let '(xLabels, xParentLabels, dataMap, artifactIndex) := st in
             let runName :=
               JS.or (optChain (apis.run (run runArtifact)) apis.name) "-" in
             loaded <- loadScalarExecutionArtifacts
                         (executionArtifacts runArtifact) xLabels dataMap
                         artifactIndex artifactCount ;;
             let '(xLabels, dataMap, newArtifactIndex) := loaded in
             let xParentLabel := {|
               CompareTable.label := runName;
               CompareTable.colSpan :=
                 Z.of_nat newArtifactIndex - Z.of_nat artifactIndex |} in
             Normal (xLabels, xParentLabels ++ [xParentLabel], dataMap,
                     newArtifactIndex))
          ([], [], [], 0) ;;
  let '(xLabels, xParentLabels, dataMap, _) := st in
  Normal {| xLabels := xLabels;
            xParentLabels := xParentLabels;
            dataMap := dataMap |}.

(** [(a, b) => b[1].dataCount - a[1].dataCount] *)
Definition byDecreasingDataCount (a b : string * ScalarRowData) : Z :=
  dataCount (snd b) - dataCount (snd a).

(** Lines 148-170. *)
Definition getCompareTableProps (scalarMetricsArtifacts : list RunArtifact)
  (artifactCount : Z) : completion CompareTable.CompareTableProps :=
  scalarTableData <- getScalarTableData scalarMetricsArtifacts artifactCount ;;
  let sortedDataList :=
    Array_sort byDecreasingDataCount
      (Object_entries (dataMap scalarTableData)) in
  let '(yLabels, rows) :=
    fold_left
      (fun acc sortedDataItem =>
         (fst acc ++ [fst sortedDataItem],
          snd acc ++ [row (snd sortedDataItem)]))
      sortedDataList ([], []) in
  Normal {|
    CompareTable.xLabels := xLabels scalarTableData;
    CompareTable.yLabels := yLabels;
    CompareTable.xParentLabels := xParentLabels scalarTableData;
    CompareTable.rows := rows
  |}.

(** Lines 258-264.  The members of a numeric [enum] are the numbers 0, 1,
    ..., and any number can be passed where the enum is expected. *)
Module MetricsType.
Definition SCALAR_METRICS : Z := 0.
Definition CONFUSION_MATRIX : Z := 1.
Definition ROC_CURVE : Z := 2.
Definition HTML : Z := 3.
Definition MARKDOWN : Z := 4.
End MetricsType.

(** Lines 266-281. *)
Definition metricsTypeToString (metricsType : Z) : string :=
  if (metricsType =? MetricsType.SCALAR_METRICS)%Z then "Scalar Metrics"
  else if (metricsType =? MetricsType.CONFUSION_MATRIX)%Z
       then "Confusion Matrix"
  else if (metricsType =? MetricsType.ROC_CURVE)%Z then "ROC Curve"
  else if (metricsType =? MetricsType.HTML)%Z then "HTML"
  else if (metricsType =? MetricsType.MARKDOWN)%Z then "Markdown"
  else "".

(* ================================================================== *)
(** * Vocabulary of the specification *)
(* ================================================================== *)

Definition customPropertiesOf (linkedArtifact : LinkedArtifact)
  : jspb.Map mlmd.Value :=
  mlmd.Artifact.getCustomPropertiesMap (artifact linkedArtifact).

(** The linked artifacts of the input in traversal order: runs, then
    executions, then artifacts. *)
Definition artifactsOfRun (runArtifact : RunArtifact) : list LinkedArtifact :=
  flat_map linkedArtifacts (executionArtifacts runArtifact).

Definition artifactsOf (runArtifacts : list RunArtifact)
  : list LinkedArtifact :=
  flat_map artifactsOfRun runArtifacts.

Definition globalArtifactCount (runArtifacts : list RunArtifact) : nat :=
  length (artifactsOf runArtifacts).

Definition sumColSpan (labels : list CompareTable.xParentLabel) : Z :=
  fold_right (fun l acc => (CompareTable.colSpan l + acc)%Z) 0%Z labels.

(** ** Metric names *)

Definition isMetricName (k : string) : bool :=
  negb (k =? "display_name")%string.

Definition metricNamesOf (linkedArtifact : LinkedArtifact) : list string :=
  filter isMetricName
    (map fst (jspb.getEntryList (customPropertiesOf linkedArtifact))).

(** Every metric name of the input, in the order the aggregation meets
    them, repetitions included. *)
Definition metricNames (runArtifacts : list RunArtifact) : list string :=
  flat_map metricNamesOf (artifactsOf runArtifacts).

Fixpoint firstOccurrences (names : list string) : list string :=
  match names with
  | [] => []
  | k :: names' =>
      k :: filter (fun k' => negb (k' =? k)%string) (firstOccurrences names')
  end.

(** A name that [Object.prototype] does not define can be a row key. *)
Definition ownable (k : string) : bool :=
  negb (existsb (String.eqb k) Object_prototype).

(** ** Cells

    The aggregation seen as one sequence of cell writes
    [(column, metric name, text)]. *)

Definition cell := (nat * string * string)%type.

Definition cellColumn (c : cell) : nat := fst (fst c).
Definition cellName (c : cell) : string := snd (fst c).
Definition cellContent (c : cell) : string := snd c.

Definition cellText (customProperties : jspb.Map mlmd.Value) (k : string)
  : string :=
  JSON_stringify (Utils.getMetadataValue (jspb.get customProperties k)).

Definition cellsOfEntries (customProperties : jspb.Map mlmd.Value)
  (artifactIndex : nat) (entries : list (string * mlmd.Value)) : list cell :=
  map (fun entry => (artifactIndex, fst entry,
                     cellText customProperties (fst entry)))
      (filter (fun entry => isMetricName (fst entry)) entries).

Definition cellsOfArtifact (artifactIndex : nat)
  (linkedArtifact : LinkedArtifact) : list cell :=
  cellsOfEntries (customPropertiesOf linkedArtifact) artifactIndex
    (jspb.getEntryList (customPropertiesOf linkedArtifact)).

Fixpoint cellsFrom (artifactIndex : nat) (artifacts : list LinkedArtifact)
  : list cell :=
  match artifacts with
  | [] => []
  | a :: artifacts' =>
      cellsOfArtifact artifactIndex a ++ cellsFrom (S artifactIndex) artifacts'
  end.

(** One iteration of the loop of [addScalarDataItems] on a metric entry. *)
Definition writeCell (artifactCount : Z) (c : cell)
  (dataMap : object ScalarRowData) : completion (object ScalarRowData) :=
  let '(artifactIndex, scalarMetricName, text) := c in
  dataMap <-
    (if negb (truthy (JS.get dataMap scalarMetricName)) then
       filled <- Array_fill artifactCount "" ;;
       Normal (JS.set dataMap scalarMetricName
                 {| row := filled; dataCount := 0 |})
     else Normal dataMap) ;;
  match JS.get dataMap scalarMetricName with
  | Own data =>
      Normal (JS.set dataMap scalarMetricName
                {| row := Array_set (row data) artifactIndex text;
                   dataCount := dataCount data + 1 |})
  | _ => Throw TypeError
  end.

(** ** Labels *)

Definition xLabelOf (executionArtifact : ExecutionArtifact)
  (linkedArtifact : LinkedArtifact) : string :=
  (JS.or (getExecutionDisplayName (execution executionArtifact)) "-"
     ++ " > " ++ JS.or (getArtifactName linkedArtifact) "-")%string.

Definition xLabelsOfExecutions (executionArtifacts : list ExecutionArtifact)
  : list string :=
  flat_map (fun ea => map (xLabelOf ea) (linkedArtifacts ea))
           executionArtifacts.

Definition xLabelsOf (runArtifacts : list RunArtifact) : list string :=
  flat_map (fun ra => xLabelsOfExecutions (executionArtifacts ra))
           runArtifacts.

Definition xParentLabelOf (runArtifact : RunArtifact)
  : CompareTable.xParentLabel :=
  {| CompareTable.label :=
       JS.or (optChain (apis.run (run runArtifact)) apis.name) "-";
     CompareTable.colSpan := Z.of_nat (length (artifactsOfRun runArtifact)) |}.

(** ** Rows *)

(** A cell is non-empty when it holds a string other than the empty one;
    a hole holds nothing. *)
Definition isData (c : option string) : bool :=
  match c with
  | Some s => negb (s =? "")%string
  | None => false
  end.

Definition nonEmptyCells (r : array string) : nat :=
  length (filter isData r).

(** The comparator [(a, b) => key(b) - key(a)]. *)
Definition byDecreasing {A} (key : A -> Z) (a b : A) : Z :=
  (key b - key a)%Z.

Definition hasDataCount (c : Z) (entry : string * ScalarRowData) : bool :=
  (dataCount (snd entry) =? c)%Z.

(** The order in which [entries] lists the properties of [o]: the
    array-index keys in ascending numeric order, then the other keys in
    creation order. *)
Definition ownKeyOrder {V} (o entries : list (string * V)) : Prop :=
  exists indexed,
    entries = indexed ++ filter (fun kv => negb (isArrayIndex (fst kv))) o /\
    Permutation indexed (filter (fun kv => isArrayIndex (fst kv)) o) /\
    StronglySorted
      (fun a b => (indexOf (fst a) <= indexOf (fst b))%Z) indexed.

(** ** Validity of an artifact *)

(** What the validator tests: the property is there and holds a struct. *)
Definition hasConfidenceMetrics (linkedArtifact : LinkedArtifact) : bool :=
  match jspb.get (customPropertiesOf linkedArtifact) "confidenceMetrics" with
  | Some (mlmd.StructValue _) => true
  | _ => false
  end.

(** Validity in the words of the specification: the property exists and
    is not null once decoded to a plain value. *)
Definition validAsStated (linkedArtifact : LinkedArtifact) : bool :=
  match jspb.get (customPropertiesOf linkedArtifact) "confidenceMetrics" with
  | Some v =>
      match Utils.getMetadataValue (Some v) with
      | JNull => false
      | _ => true
      end
  | None => false
  end.

(** ** Names of a path *)

(** Name resolution in the words of the specification: the display name
    when present and non-empty, else ["<EntityType> ID #<id>"]. *)
Definition resolveName (displayName : option string) (typeLabel id : string)
  : string :=
  match displayName with
  | Some n =>
      if (n =? "")%string then (typeLabel ++ " ID #" ++ id)%string else n
  | None => (typeLabel ++ " ID #" ++ id)%string
  end.

(** ** The statements of the specification that the code does not meet *)

(** "The sum of the column spans equals the number of column labels, and
    every row has that length", for every artifact count passed in. *)
Definition shapeAsStated (runArtifacts : list RunArtifact) (artifactCount : Z)
  : Prop :=
  forall t,
    getScalarTableData runArtifacts artifactCount = Normal t ->
    sumColSpan (xParentLabels t) = Z.of_nat (length (xLabels t)) /\
    forall k r, In (k, r) (dataMap t) -> length (row r) = length (xLabels t).

(** "Rows are sorted by decreasing data count and equal counts keep the
    order in which the metric names were first met." *)
Definition tieOrderAsStated (runArtifacts : list RunArtifact)
  (artifactCount : Z) : Prop :=
  forall t p,
    getScalarTableData runArtifacts artifactCount = Normal t ->
    getCompareTableProps runArtifacts artifactCount = Normal p ->
    map fst (dataMap t) = firstOccurrences (metricNames runArtifacts) /\
    CompareTable.yLabels p
      = map fst (Array_sort byDecreasingDataCount (dataMap t)).

(** "Exactly the artifacts whose property exists and is non-null after
    coercion to a plain value, in the original order." *)
Definition validatorAsStated (executionArtifact : ExecutionArtifact) : Prop :=
  getValidArtifacts executionArtifact
    = filter validAsStated (linkedArtifacts executionArtifact).
(* ================================================================== *)
(** * Vocabulary of the further properties *)
(* ================================================================== *)

(** ** The ROC curve data *)

(** The valid linked artifacts of a run, each with the run and the
    execution it belongs to, in traversal order. *)
Definition validPathsOfRun (runArtifact : RunArtifact)
  : list (apis.ApiRunDetail * mlmd.Execution.t * LinkedArtifact) :=
  flat_map
    (fun executionArtifact =>
       map (fun validArtifact =>
              (run runArtifact, execution executionArtifact, validArtifact))
           (getValidArtifacts executionArtifact))
    (executionArtifacts runArtifact).

Definition validPathsOf (runArtifacts : list RunArtifact)
  : list (apis.ApiRunDetail * mlmd.Execution.t * LinkedArtifact) :=
  flat_map validPathsOfRun runArtifacts.

(** One iteration of the [forEach] of [getValidRocCurveArtifactData]. *)
Definition savePath
  (entry : apis.ApiRunDetail * mlmd.Execution.t * LinkedArtifact)
  (fullArtifactPathMap : FullArtifactPathMap)
  : completion FullArtifactPathMap :=
  let '(run, execution, validArtifact) := entry in
  path <- getFullArtifactPath run execution validArtifact ;;
  Normal (JS.set fullArtifactPathMap (getRocCurveId validArtifact) path).

Definition pathKey
  (entry : apis.ApiRunDetail * mlmd.Execution.t * LinkedArtifact) : string :=
  getRocCurveId (snd entry).

(** The last entry of the traversal that is saved under [key]. *)
Definition lastSaved (key : string)
  (entries : list (apis.ApiRunDetail * mlmd.Execution.t * LinkedArtifact))
  : option (apis.ApiRunDetail * mlmd.Execution.t * LinkedArtifact) :=
  find (fun entry => (pathKey entry =? key)%string) (rev entries).

(** An entry whose run detail carries its run. *)
Definition hasRun
  (entry : apis.ApiRunDetail * mlmd.Execution.t * LinkedArtifact) : bool :=
  match apis.run (fst (fst entry)) with Some _ => true | None => false end.

(** A run whose path can be resolved wherever it is needed: it carries
    its run, or none of its artifacts is valid. *)
Definition resolvable (runArtifact : RunArtifact) : bool :=
  match apis.run (run runArtifact) with
  | Some _ => true
  | None =>
      forallb (fun la => negb (hasConfidenceMetrics la))
              (artifactsOfRun runArtifact)
  end.

(** ** Characters of an id *)

Definition isDigit (c : ascii) : bool :=
  ((48 <=? N_of_ascii c) && (N_of_ascii c <=? 57))%N.

(** The sign [Number::toString] prints in front of a negative integer. *)
Definition signOf (z : Z) : list ascii :=
  if (z <? 0)%Z then ["-"%char] else [].

(** What [Number::toString] prints for a positive integer with the
    decimal digits [digits]: the digits themselves up to 21 of them, and
    beyond that the significant digits, a point after the first when
    there are more, and the exponent. *)
Definition integerText (digits : list ascii) : list ascii :=
  if length digits <=? 21 then digits
  else
    let exponent :=
      "e"%char :: "+"%char
        :: list_ascii_of_string (decimal (N.of_nat (length digits - 1))) in
    match rev (dropZeros (rev digits)) with
    | [] => digits
    | [d] => d :: exponent
    | d :: rest => d :: "."%char :: rest ++ exponent
    end.


(* ================================================================== *)
(** * The same functions over a store of objects

    Arrays and plain objects live in a store and are passed by
    reference, as the source has them; a write names the object it
    changes.  Run details, executions, events and artifacts are the
    values their getters expose: the source calls no setter on them. *)
(* ================================================================== *)

Module Store.

Definition loc := nat.

Inductive value :=
| VUndefined
| VNaN
| VNumber (z : Z)
| VString (s : string)
| VRef (l : loc)
| VRun (r : apis.ApiRunDetail)
| VExecution (e : mlmd.Execution.t)
| VEvent (e : mlmd.Event.t)
| VArtifact (a : mlmd.Artifact.t).

Inductive obj :=
| Arr (items : array value)
| Obj (fields : object value).

(** The store: an object's reference is its position; allocation appends. *)
Definition heap := list obj.

(** A computation may change the store and complete abruptly. *)
Definition M (A : Type) : Type := heap -> completion A * heap.

Definition ret {A} (a : A) : M A := fun h => (Normal a, h).

Definition throw {A} (e : exn) : M A := fun h => (Throw e, h).

Definition lift {A} (c : completion A) : M A := fun h => (c, h).

Definition bind {A B} (m : M A) (k : A -> M B) : M B :=
  fun h =>
    match m h with
    | (Normal a, h') => k a h'
    | (Throw e, h') => (Throw e, h')
    end.

Definition alloc (o : obj) : M value :=
  fun h => (Normal (VRef (length h)), h ++ [o]).

Definition load (l : loc) : M obj :=
  fun h =>
    match nth_error h l with
    | Some o => (Normal o, h)
    | None => (Throw TypeError, h)
    end.

Definition store (l : loc) (o : obj) : M unit :=
  fun h =>
    if l <? length h
    then (Normal tt, firstn l h ++ o :: skipn (S l) h)
    else (Throw TypeError, h).

Fixpoint forM {A S} (l : list A) (body : A -> S -> M S) (s : S) : M S :=
  match l with
  | [] => ret s
  | x :: l' => bind (body x s) (forM l' body)
  end.

Fixpoint mapM {A B} (l : list A) (f : A -> M B) : M (list B) :=
  match l with
  | [] => ret []
  | x :: l' => bind (f x) (fun b => bind (mapM l' f) (fun bs => ret (b :: bs)))
  end.

Notation "x <~ c ;; k" := (bind c (fun x => k))
  (at level 61, c at next level, right associativity).

(** ** Reads and writes of the source *)

(** [v.k] on a plain object; reading a property of [undefined] throws. *)
Definition getProp (v : value) (k : string) : M value :=
  match v with
  | VRef l =>
      o <~ load l ;;
      match o with
      | Obj fields =>
          ret (match getOwn fields k with Some x => x | None => VUndefined end)
      | Arr _ => ret VUndefined
      end
  | _ => throw TypeError
  end.

(** [v[k]] on an object created by [{}], prototype included. *)
Definition getKey (v : value) (k : string) : M (property value) :=
  match v with
  | VRef l =>
      o <~ load l ;;
      match o with
      | Obj fields => ret (JS.get fields k)
      | Arr _ => ret Undefined
      end
  | _ => throw TypeError
  end.

(** [v.k = x] *)
Definition setProp (v : value) (k : string) (x : value) : M unit :=
  match v with
  | VRef l =>
      o <~ load l ;;
      match o with
      | Obj fields => store l (Obj (JS.set fields k x))
      | Arr _ => throw TypeError
      end
  | _ => throw TypeError
  end.

Definition slot (x : option value) : value :=
  match x with
  | Some y => y
  | None => VUndefined
  end.

(** The values a loop over the array [v] visits. *)
Definition elements (v : value) : M (list value) :=
  match v with
  | VRef l =>
      o <~ load l ;;
      match o with
      | Arr items => ret (map slot items)
      | Obj _ => throw TypeError
      end
  | _ => throw TypeError
  end.

(** [v.push(x)] *)
Definition push (v x : value) : M unit :=
  match v with
  | VRef l =>
      o <~ load l ;;
      match o with
      | Arr items => store l (Arr (items ++ [Some x]))
      | Obj _ => throw TypeError
      end
  | _ => throw TypeError
  end.

(** [v[i] = x] on an array *)
Definition setIndex (v : value) (i : nat) (x : value) : M unit :=
  match v with
  | VRef l =>
      o <~ load l ;;
      match o with
      | Arr items => store l (Arr (Array_set items i x))
      | Obj _ => throw TypeError
      end
  | _ => throw TypeError
  end.

Definition asRun (v : value) : M apis.ApiRunDetail :=
  match v with VRun r => ret r | _ => throw TypeError end.

Definition asExecution (v : value) : M mlmd.Execution.t :=
  match v with VExecution e => ret e | _ => throw TypeError end.

Definition asEvent (v : value) : M mlmd.Event.t :=
  match v with VEvent e => ret e | _ => throw TypeError end.

Definition asArtifact (v : value) : M mlmd.Artifact.t :=
  match v with VArtifact a => ret a | _ => throw TypeError end.

(** The event and the artifact a linked artifact refers to. *)
Definition readLinkedArtifact (linkedArtifact : value) : M LinkedArtifact :=
  e <~ getProp linkedArtifact "event" ;;
  e <~ asEvent e ;;
  a <~ getProp linkedArtifact "artifact" ;;
  a <~ asArtifact a ;;
  ret {| event := e; artifact := a |}.

Definition allocNameId (n : NameId) : M value :=
  alloc (Obj [("name", VString (name n)); ("id", VString (id n))]).

(** ** CompareUtils.ts *)

Definition getRocCurveId (linkedArtifact : value) : M string :=
  la <~ readLinkedArtifact linkedArtifact ;;
  ret (getRocCurveId la).

Definition getValidArtifacts (executionArtifact : value) : M value :=
  validLinkedArtifacts <~ alloc (Arr []) ;;
  linkedArtifacts <~ getProp executionArtifact "linkedArtifacts" ;;
  items <~ elements linkedArtifacts ;;
  _ <~ forM items
         (fun linkedArtifact _ =>
            a <~ getProp linkedArtifact "artifact" ;;
            a <~ asArtifact a ;;
            let customProperties := mlmd.Artifact.getCustomPropertiesMap a in
            let confidenceMetrics :=
              optChain
                (optChain (jspb.get customProperties "confidenceMetrics")
                          mlmd.getStructValue)
                (fun s => Some (mlmd.toJavaScript s)) in
            if ToBoolean confidenceMetrics
            then push validLinkedArtifacts linkedArtifact
            else ret tt)
         tt ;;
  ret validLinkedArtifacts.

(** The object literal of the source: three name/id objects and the path
    that holds them. *)
Definition getFullArtifactPath (run : apis.ApiRunDetail)
  (execution : mlmd.Execution.t) (linkedArtifact : value) : M value :=
  la <~ readLinkedArtifact linkedArtifact ;;
  path <~ lift (getFullArtifactPath run execution la) ;;
  r <~ allocNameId (FullArtifactPath.run path) ;;
  e <~ allocNameId (FullArtifactPath.execution path) ;;
  a <~ allocNameId (FullArtifactPath.artifact path) ;;
  alloc (Obj [("run", r); ("execution", e); ("artifact", a)]).

(** [flatMapDeep] on the arrays of arrays of arrays the source builds:
    a new array with the innermost elements. *)
Definition flatMapDeep (nested : value) : M value :=
  outer <~ elements nested ;;
  parts <~ mapM outer
             (fun inner =>
                arrays <~ elements inner ;;
                parts <~ mapM arrays elements ;;
                ret (concat parts)) ;;
  alloc (Arr (map Some (concat parts))).

Definition getValidRocCurveArtifactData (rocCurveRunArtifacts : value)
  : M value :=
  fullArtifactPathMap <~ alloc (Obj []) ;;
  runArtifacts <~ elements rocCurveRunArtifacts ;;
  mapped <~ mapM runArtifacts
    (fun runArtifact =>
       eas <~ getProp runArtifact "executionArtifacts" ;;
       executionArtifacts <~ elements eas ;;
       mapped <~ mapM executionArtifacts
         (fun executionArtifact =>
            validArtifacts <~ getValidArtifacts executionArtifact ;;
            valid <~ elements validArtifacts ;;
            _ <~ forM valid
                   (fun validArtifact _ =>
                      key <~ getRocCurveId validArtifact ;;
                      r <~ getProp runArtifact "run" ;;
                      r <~ asRun r ;;
                      e <~ getProp executionArtifact "execution" ;;
                      e <~ asExecution e ;;
                      path <~ getFullArtifactPath r e validArtifact ;;
                      setProp fullArtifactPathMap key path)
                   tt ;;
            ret validArtifacts) ;;
       alloc (Arr (map Some mapped))) ;;
  nested <~ alloc (Arr (map Some mapped)) ;;
  validLinkedArtifacts <~ flatMapDeep nested ;;
  alloc (Obj [("validLinkedArtifacts", validLinkedArtifacts);
              ("fullArtifactPathMap", fullArtifactPathMap)]).

Definition addScalarDataItems (customProperties : jspb.Map mlmd.Value)
  (dataMap : value) (artifactIndex : nat) (artifactCount : Z) : M unit :=
  forM (jspb.getEntryList customProperties)
    (fun entry _ =>
       let scalarMetricName := fst entry in
       if (scalarMetricName =? "display_name")%string then ret tt
       else
         found <~ getKey dataMap scalarMetricName ;;
         _ <~ (if negb (truthy found) then
                 filled <~ lift (Array_fill artifactCount (VString "")) ;;
                 filledRow <~ alloc (Arr filled) ;;
                 data <~ alloc (Obj [("row", filledRow);
                                     ("dataCount", VNumber 0)]) ;;
                 setProp dataMap scalarMetricName data
               else ret tt) ;;
         found <~ getKey dataMap scalarMetricName ;;
         match found with
         | Own data =>
             r <~ getProp data "row" ;;
             _ <~ setIndex r artifactIndex
                    (VString (cellText customProperties scalarMetricName)) ;;
             c <~ getProp data "dataCount" ;;
             setProp data "dataCount"
               (match c with
                | VNumber z => VNumber (z + 1)
                | _ => VNaN
                end)
         | _ => throw TypeError
         end)
    tt.

Definition loadScalarExecutionArtifacts (executionArtifacts xLabels
  dataMap : value) (artifactIndex : nat) (artifactCount : Z) : M nat :=
  eas <~ elements executionArtifacts ;;
  forM eas
    (fun executionArtifact artifactIndex =>
       e <~ getProp executionArtifact "execution" ;;
       e <~ asExecution e ;;
       let executionText := JS.or (getExecutionDisplayName e) "-" in
       las <~ getProp executionArtifact "linkedArtifacts" ;;
       las <~ elements las ;;
       forM las
         (fun linkedArtifact artifactIndex =>
            la <~ readLinkedArtifact linkedArtifact ;;
            let linkedArtifactText := JS.or (getArtifactName la) "-" in
            let xLabel :=
              (executionText ++ " > " ++ linkedArtifactText)%string in
            _ <~ push xLabels (VString xLabel) ;;
            let customProperties :=
              mlmd.Artifact.getCustomPropertiesMap (artifact la) in
            _ <~ addScalarDataItems customProperties dataMap artifactIndex
                   artifactCount ;;
            ret (S artifactIndex))
         artifactIndex)
    artifactIndex.

Definition getScalarTableData (scalarMetricsArtifacts : value)
  (artifactCount : Z) : M value :=
  xLabels <~ alloc (Arr []) ;;
  xParentLabels <~ alloc (Arr []) ;;
  dataMap <~ alloc (Obj []) ;;
  runArtifacts <~ elements scalarMetricsArtifacts ;;
  _ <~ forM runArtifacts
         (fun runArtifact artifactIndex =>
            r <~ getProp runArtifact "run" ;;
            r <~ asRun r ;;
            let runName := JS.or (optChain (apis.run r) apis.name) "-" in
            eas <~ getProp runArtifact "executionArtifacts" ;;
            newArtifactIndex <~ loadScalarExecutionArtifacts eas xLabels
                                  dataMap artifactIndex artifactCount ;;
            xParentLabel <~
              alloc (Obj [("label", VString runName);
                          ("colSpan",
                           VNumber (Z.of_nat newArtifactIndex
                                    - Z.of_nat artifactIndex))]) ;;
            _ <~ push xParentLabels xParentLabel ;;
            ret newArtifactIndex)
         0 ;;
  alloc (Obj [("xLabels", xLabels); ("xParentLabels", xParentLabels);
              ("dataMap", dataMap)]).

(** [v[i]] on an array *)
Definition getIndex (v : value) (i : nat) : M value :=
  match v with
  | VRef l =>
      o <~ load l ;;
      match o with
      | Arr items => ret (slot (nth i items None))
      | Obj _ => ret VUndefined
      end
  | _ => throw TypeError
  end.

(** [Object.entries(v)]: a new array of new [[key, value]] pairs. *)
Definition entries (v : value) : M value :=
  match v with
  | VRef l =>
      o <~ load l ;;
      match o with
      | Obj fields =>
          pairs <~ mapM (Object_entries fields)
                     (fun kv =>
                        alloc (Arr [Some (VString (fst kv)); Some (snd kv)])) ;;
          alloc (Arr (map Some pairs))
      | Arr _ => throw TypeError
      end
  | _ => throw TypeError
  end.

(** [item[1].dataCount], the number the comparator reads.  The count of a
    row is only ever written as a number. *)
Definition dataCountOf (item : value) : M Z :=
  d <~ getIndex item 1 ;;
  c <~ getProp d "dataCount" ;;
  match c with
  | VNumber z => ret z
  | _ => throw TypeError
  end.

(** [v.sort((a, b) => b[1].dataCount - a[1].dataCount)]: the array is
    sorted in place. *)
Definition sortByDecreasingDataCount (v : value) : M unit :=
  items <~ elements v ;;
  keyed <~ mapM items (fun item => c <~ dataCountOf item ;; ret (item, c)) ;;
  match v with
  | VRef l =>
      store l (Arr (map (fun p => Some (fst p))
                        (Array_sort (fun a b => (snd b - snd a)%Z) keyed)))
  | _ => throw TypeError
  end.

Definition getCompareTableProps (scalarMetricsArtifacts : value)
  (artifactCount : Z) : M value :=
  scalarTableData <~ getScalarTableData scalarMetricsArtifacts artifactCount ;;
  dataMap <~ getProp scalarTableData "dataMap" ;;
  sortedDataList <~ entries dataMap ;;
  _ <~ sortByDecreasingDataCount sortedDataList ;;
  yLabels <~ alloc (Arr []) ;;
  rows <~ alloc (Arr []) ;;
  items <~ elements sortedDataList ;;
  _ <~ forM items
         (fun sortedDataItem _ =>
            k <~ getIndex sortedDataItem 0 ;;
            _ <~ push yLabels k ;;
            d <~ getIndex sortedDataItem 1 ;;
            r <~ getProp d "row" ;;
            push rows r)
         tt ;;
  xLabels <~ getProp scalarTableData "xLabels" ;;
  xParentLabels <~ getProp scalarTableData "xParentLabels" ;;
  alloc (Obj [("xLabels", xLabels); ("yLabels", yLabels);
              ("xParentLabels", xParentLabels); ("rows", rows)]).

(** ** Placing an input in the store and reading a result back *)

Definition ofLinkedArtifact (la : LinkedArtifact) : M value :=
  alloc (Obj [("event", VEvent (event la));
              ("artifact", VArtifact (artifact la))]).

Definition ofExecutionArtifact (ea : ExecutionArtifact) : M value :=
  las <~ mapM (linkedArtifacts ea) ofLinkedArtifact ;;
  las <~ alloc (Arr (map Some las)) ;;
  alloc (Obj [("execution", VExecution (execution ea));
              ("linkedArtifacts", las)]).

Definition ofRunArtifact (ra : RunArtifact) : M value :=
  eas <~ mapM (executionArtifacts ra) ofExecutionArtifact ;;
  eas <~ alloc (Arr (map Some eas)) ;;
  alloc (Obj [("run", VRun (run ra)); ("executionArtifacts", eas)]).

Definition ofRunArtifacts (ras : list RunArtifact) : M value :=
  ras <~ mapM ras ofRunArtifact ;;
  alloc (Arr (map Some ras)).

(** The input as a call finds it in the store. *)
Definition readExecutionArtifact (v : value) : M ExecutionArtifact :=
  e <~ getProp v "execution" ;;
  e <~ asExecution e ;;
  las <~ getProp v "linkedArtifacts" ;;
  las <~ elements las ;;
  las <~ mapM las readLinkedArtifact ;;
  ret {| execution := e; linkedArtifacts := las |}.

Definition readRunArtifact (v : value) : M RunArtifact :=
  r <~ getProp v "run" ;;
  r <~ asRun r ;;
  eas <~ getProp v "executionArtifacts" ;;
  eas <~ elements eas ;;
  eas <~ mapM eas readExecutionArtifact ;;
  ret {| run := r; executionArtifacts := eas |}.

Definition readRunArtifacts (v : value) : M (list RunArtifact) :=
  ras <~ elements v ;;
  mapM ras readRunArtifact.

Definition asString (v : value) : M string :=
  match v with VString s => ret s | _ => throw TypeError end.

Definition asNumber (v : value) : M Z :=
  match v with VNumber z => ret z | _ => throw TypeError end.

Definition readStrings (v : value) : M (list string) :=
  items <~ elements v ;;
  mapM items asString.

(** A row: its strings, holes included. *)
Definition readRow (v : value) : M (array string) :=
  match v with
  | VRef l =>
      o <~ load l ;;
      match o with
      | Arr items =>
          mapM items
            (fun x =>
               match x with
               | Some y => s <~ asString y ;; ret (Some s)
               | None => ret None
               end)
      | Obj _ => throw TypeError
      end
  | _ => throw TypeError
  end.

Definition readParentLabel (v : value) : M CompareTable.xParentLabel :=
  l <~ getProp v "label" ;;
  l <~ asString l ;;
  c <~ getProp v "colSpan" ;;
  c <~ asNumber c ;;
  ret {| CompareTable.label := l; CompareTable.colSpan := c |}.

Definition readCompareTableProps (v : value)
  : M CompareTable.CompareTableProps :=
  xl <~ getProp v "xLabels" ;;
  xl <~ readStrings xl ;;
  yl <~ getProp v "yLabels" ;;
  yl <~ readStrings yl ;;
  xpl <~ getProp v "xParentLabels" ;;
  xpl <~ elements xpl ;;
  xpl <~ mapM xpl readParentLabel ;;
  rs <~ getProp v "rows" ;;
  rs <~ elements rs ;;
  rs <~ mapM rs readRow ;;
  ret {| CompareTable.xLabels := xl;
         CompareTable.yLabels := yl;
         CompareTable.xParentLabels := xpl;
         CompareTable.rows := rs |}.

Definition readNameId (v : value) : M NameId :=
  n <~ getProp v "name" ;;
  n <~ asString n ;;
  i <~ getProp v "id" ;;
  i <~ asString i ;;
  ret {| name := n; id := i |}.

Definition readFullArtifactPath (v : value) : M FullArtifactPath.t :=
  r <~ getProp v "run" ;;
  r <~ readNameId r ;;
  e <~ getProp v "execution" ;;
  e <~ readNameId e ;;
  a <~ getProp v "artifact" ;;
  a <~ readNameId a ;;
  ret {| FullArtifactPath.run := r;
         FullArtifactPath.execution := e;
         FullArtifactPath.artifact := a |}.

Definition readFullArtifactPathMap (v : value) : M FullArtifactPathMap :=
  match v with
  | VRef l =>
      o <~ load l ;;
      match o with
      | Obj fields =>
          mapM fields
            (fun kv => p <~ readFullArtifactPath (snd kv) ;; ret (fst kv, p))
      | Arr _ => throw TypeError
      end
  | _ => throw TypeError
  end.

Definition readRocCurveArtifactData (v : value) : M RocCurveArtifactData :=
  valid <~ getProp v "validLinkedArtifacts" ;;
  valid <~ elements valid ;;
  valid <~ mapM valid readLinkedArtifact ;;
  paths <~ getProp v "fullArtifactPathMap" ;;
  paths <~ readFullArtifactPathMap paths ;;
  ret {| validLinkedArtifacts := valid; fullArtifactPathMap := paths |}.

(** ** Ownership *)

(** A value is local to a call when it is no reference into the store
    the call started with, whose size is [base]. *)
Definition local (base : nat) (v : value) : Prop :=
  match v with
  | VRef l => base <= l
  | _ => True
  end.

(** The plain objects allocated by the call refer to local values only. *)
Definition closed (base : nat) (h : heap) : Prop :=
  forall l fields,
    base <= l -> nth_error h l = Some (Obj fields) ->
    forall k v, In (k, v) fields -> local base v.

(** An object that may be stored among the local ones. *)
Definition storable (base : nat) (o : obj) : Prop :=
  match o with
  | Obj fields => forall k v, In (k, v) fields -> local base v
  | Arr _ => True
  end.

(** A computation is confined when it leaves the first [base] objects of
    the store as they are, keeps the local objects closed, and its result
    satisfies [Q]. *)
Definition confined {A} (base : nat) (m : M A) (Q : A -> Prop) : Prop :=
  forall h,
    base <= length h -> closed base h ->
    firstn base (snd (m h)) = firstn base h /\
    base <= length (snd (m h)) /\
    closed base (snd (m h)) /\
    forall a, fst (m h) = Normal a -> Q a.

(** A computation is a reader when it leaves the store as it is and its
    normal result is the same in every larger store. *)
Definition reader {A} (m : M A) : Prop :=
  forall h,
    snd (m h) = h /\
    forall added a, fst (m h) = Normal a ->
                    fst (m (h ++ added)) = Normal a.

(** A way to place values of type [X] in the store that [readX] reads
    back. *)
Definition placed {X} (ofX : X -> M value) (readX : value -> M X) : Prop :=
  forall x h,
    exists v added,
      ofX x h = (Normal v, h ++ added) /\
      fst (readX v (h ++ added)) = Normal x.

End Store.
(* ================================================================== *)
(** * How the store holds the table a call builds

    The objects a call of [getCompareTableProps] allocates, as the
    values of the value-passing functions describe them. *)
(* ================================================================== *)

Module Layout.

Import Store.

(** The store with the object at [l] replaced, as [store] leaves it. *)
Definition upd (h : heap) (l : loc) (o : obj) : heap :=
  firstn l h ++ o :: skipn (S l) h.

(** An object with the same keys and the values mapped. *)
Definition mapV {V W} (f : V -> W) (o : object V) : object W :=
  map (fun kv => (fst kv, f (snd kv))) o.

(** A row of the map with the places of its two objects: the row data
    [{ row, dataCount }] and the array [row]. *)
Definition placedRow := (loc * loc * ScalarRowData)%type.

Definition dataLoc (e : placedRow) : loc := fst (fst e).
Definition rowLoc (e : placedRow) : loc := snd (fst e).
Definition rowData (e : placedRow) : ScalarRowData := snd e.

Definition rowObj (e : placedRow) : obj :=
  Obj [("row", VRef (rowLoc e)); ("dataCount", VNumber (dataCount (rowData e)))].

Definition cellValue (c : option string) : option value :=
  option_map VString c.

Definition rowArr (e : placedRow) : obj :=
  Arr (map cellValue (row (rowData e))).

Definition parentObj (p : CompareTable.xParentLabel) : obj :=
  Obj [("label", VString (CompareTable.label p));
       ("colSpan", VNumber (CompareTable.colSpan p))].

(** The table under construction: the column labels, the parent labels
    with their places, and the rows with theirs. *)
Record table := {
  labels : list string;
  parents : list (loc * CompareTable.xParentLabel);
  rowsOf : object placedRow
}.

(** The places of the three objects [getScalarTableData] starts with. *)
Record places := { xLabelsAt : loc; xParentLabelsAt : loc; dataMapAt : loc }.

Definition rowObjects (ext : object placedRow) : list (loc * obj) :=
  flat_map (fun kv => [(dataLoc (snd kv), rowObj (snd kv));
                       (rowLoc (snd kv), rowArr (snd kv))]) ext.

(** The objects of the table and where the store has them: the three
    objects the aggregation starts with and the parent labels, then the
    objects of the rows. *)
Definition front (p : places) (t : table) : list (loc * obj) :=
  [ (xLabelsAt p, Arr (map (fun s => Some (VString s)) (labels t)));
    (xParentLabelsAt p,
     Arr (map (fun q => Some (VRef (fst q))) (parents t)));
    (dataMapAt p, Obj (mapV (fun e => VRef (dataLoc e)) (rowsOf t))) ]
  ++ map (fun q => (fst q, parentObj (snd q))) (parents t).

Definition footprint (p : places) (t : table) : list (loc * obj) :=
  front p t ++ rowObjects (rowsOf t).

Definition withRows (t : table) (ext : object placedRow) : table :=
  {| labels := labels t; parents := parents t; rowsOf := ext |}.

Definition withLabel (t : table) (s : string) : table :=
  {| labels := labels t ++ [s]; parents := parents t; rowsOf := rowsOf t |}.

Definition withParent (t : table) (q : loc * CompareTable.xParentLabel)
  : table :=
  {| labels := labels t; parents := parents t ++ [q]; rowsOf := rowsOf t |}.

Definition holds (h : heap) (fp : list (loc * obj)) : Prop :=
  Forall (fun lo => nth_error h (fst lo) = Some (snd lo)) fp.

(** The store [h] extends the store [h0] the call started with and holds
    the objects [fp] at pairwise distinct places beyond [h0]. *)
Definition extends (h0 h : heap) (fp : list (loc * obj)) : Prop :=
  (exists added, h = h0 ++ added) /\
  holds h fp /\
  NoDup (map fst fp) /\
  Forall (fun l => length h0 <= l) (map fst fp).

(** The map of the value-passing functions that a placed map stands
    for. *)
Definition dataMapOf (ext : object placedRow) : object ScalarRowData :=
  mapV rowData ext.

(** One iteration of the loop of [Store.addScalarDataItems] on a metric
    entry: [writeCell] in the store. *)
Definition writeCellAt (dataMap : value) (artifactCount : Z) (c : cell)
  : M unit :=
  let '(artifactIndex, scalarMetricName, text) := c in
  found <~ getKey dataMap scalarMetricName ;;
  _ <~ (if negb (truthy found) then
          filled <~ lift (Array_fill artifactCount (VString "")) ;;
          filledRow <~ alloc (Arr filled) ;;
          data <~ alloc (Obj [("row", filledRow);
                              ("dataCount", VNumber 0)]) ;;
          setProp dataMap scalarMetricName data
        else ret tt) ;;
  found <~ getKey dataMap scalarMetricName ;;
  match found with
  | Own data =>
      r <~ getProp data "row" ;;
      _ <~ setIndex r artifactIndex (VString text) ;;
      c <~ getProp data "dataCount" ;;
      setProp data "dataCount"
        (match c with
         | VNumber z => VNumber (z + 1)
         | _ => VNaN
         end)
  | _ => throw TypeError
  end.

(** A computation in the store does what a value-passing computation
    does: it throws the same exception, or returns a result and a store
    related to the value by [R]. *)
Definition simulates {A B} (pure : completion A) (run : completion B * heap)
  (R : A -> B -> heap -> Prop) : Prop :=
  match pure with
  | Normal a => exists b h', run = (Normal b, h') /\ R a b h'
  | Throw e => exists h', run = (Throw e, h')
  end.

(** What a simulated change of rows leaves: a store that extends [h0]
    and holds the table [t] with new rows, which stand for the map. *)
Definition rowsChanged (h0 : heap) (p : places) (t : table)
  : object ScalarRowData -> unit -> heap -> Prop :=
  fun dm _ h =>
    exists ext,
      extends h0 h (footprint p (withRows t ext)) /\ dataMapOf ext = dm.

(** What a simulated loader leaves: the new artifact index, and a store
    that holds a table with the labels and the map of the loader and the
    parents of [t]. *)
Definition loaded (h0 : heap) (p : places) (t : table)
  : list string * object ScalarRowData * nat -> nat -> heap -> Prop :=
  fun st j h =>
    j = snd st /\
    exists t',
      extends h0 h (footprint p t') /\
      labels t' = fst (fst st) /\
      dataMapOf (rowsOf t') = snd (fst st) /\
      parents t' = parents t.

(** The state of the loop of [getScalarTableData] and the table the
    store holds for it. *)
Definition aggregated (h0 : heap) (p : places)
  : list string * list CompareTable.xParentLabel * object ScalarRowData * nat
    -> nat -> heap -> Prop :=
  fun st j h =>
    j = snd st /\
    exists t',
      extends h0 h (footprint p t') /\
      labels t' = fst (fst (fst st)) /\
      map snd (parents t') = snd (fst (fst st)) /\
      dataMapOf (rowsOf t') = snd (fst st).

(** A [[key, value]] pair of [Object.entries]. *)
Definition pairObj (kv : string * value) : obj :=
  Arr [Some (VString (fst kv)); Some (snd kv)].

(** An entry of the map with the place of its pair. *)
Definition placedEntry := (loc * (string * placedRow))%type.

Definition entryKey (x : placedEntry) : string := fst (snd x).
Definition entryRow (x : placedEntry) : placedRow := snd (snd x).

(** The comparator of the assembler on placed entries. *)
Definition byPlacedDataCount (a b : placedEntry) : Z :=
  (dataCount (rowData (entryRow b)) - dataCount (rowData (entryRow a)))%Z.

(** The store holds the pair and the row objects of an entry. *)
Definition entryHeld (h : heap) (x : placedEntry) : Prop :=
  nth_error h (fst x)
  = Some (pairObj (entryKey x, VRef (dataLoc (entryRow x)))) /\
  nth_error h (dataLoc (entryRow x)) = Some (rowObj (entryRow x)) /\
  nth_error h (rowLoc (entryRow x)) = Some (rowArr (entryRow x)).

(** The table data [getScalarTableData] returns, as the store holds
    it. *)
Definition tableHeld (h0 : heap) (d : ScalarTableData) (v : value) (h : heap)
  : Prop :=
  exists p t lt,
    v = VRef lt /\
    nth_error h lt
    = Some (Obj [("xLabels", VRef (xLabelsAt p));
                 ("xParentLabels", VRef (xParentLabelsAt p));
                 ("dataMap", VRef (dataMapAt p))]) /\
    extends h0 h (footprint p t) /\
    labels t = xLabels d /\
    map snd (parents t) = xParentLabels d /\
    dataMapOf (rowsOf t) = dataMap d.

End Layout.


(* ================================================================== *)
(** * The store while the path map is built

    [getValidRocCurveArtifactData] changes one object it shares with its
    callbacks, the path map; every other object it creates is written
    once.  The vocabulary below names what the store holds during the
    call. *)
(* ================================================================== *)

Module PathLayout.

Import Store Layout.

(** The object of a [{ name, id }] literal. *)
Definition nameObj (n : NameId) : obj :=
  Obj [("name", VString (name n)); ("id", VString (id n))].

(** A path with the place of the first of its four objects: the three
    name/id objects and the path that holds them follow each other, in
    the order [Store.getFullArtifactPath] creates them. *)
Definition placedPath := (loc * FullArtifactPath.t)%type.

Definition pathRef (e : placedPath) : value := VRef (fst e + 3).

Definition pathObjects (l : loc) (path : FullArtifactPath.t) : list obj :=
  [ nameObj (FullArtifactPath.run path);
    nameObj (FullArtifactPath.execution path);
    nameObj (FullArtifactPath.artifact path);
    Obj [("run", VRef l); ("execution", VRef (l + 1));
         ("artifact", VRef (l + 2))] ].

(** The store holds the objects of a path, beyond the place [base]. *)
Definition pathHeld (base : nat) (h : heap) (e : placedPath) : Prop :=
  base < fst e /\
  forall j o,
    nth_error (pathObjects (fst e) (snd e)) j = Some o ->
    nth_error h (fst e + j) = Some o.

(** The path map that a placed map stands for. *)
Definition pathsOf (ext : object placedPath) : FullArtifactPathMap :=
  mapV snd ext.

(** The store of a call that started in [h0]: the path map comes first,
    then the objects created since. *)
Definition pathStore (h0 : heap) (ext : object placedPath) (created : heap)
  : heap :=
  h0 ++ Obj (mapV pathRef ext) :: created.

(** The store holds the path map [m]. *)
Definition pathsHeld (h0 : heap) (m : FullArtifactPathMap) (h : heap)
  : Prop :=
  exists ext created,
    h = pathStore h0 ext created /\
    Forall (fun kv => pathHeld (length h0) h (snd kv)) ext /\
    pathsOf ext = m.

(** The store [h'] has every object that [h] has beyond [base]. *)
Definition keeps (base : nat) (h h' : heap) : Prop :=
  forall l o, base < l -> nth_error h l = Some o -> nth_error h' l = Some o.

(** The value [v] is read as the linked artifact [la] in the store the
    call started with. *)
Definition reads (h0 : heap) (v : value) (la : LinkedArtifact) : Prop :=
  fst (readLinkedArtifact v h0) = Normal la.

(** The value [v] refers to an array beyond [base] that has no holes and
    whose elements stand for [xs]. *)
Definition listHeld {X} (base : nat) (R : value -> X -> Prop) (h : heap)
  (v : value) (xs : list X) : Prop :=
  exists l vs,
    v = VRef l /\ base < l /\
    nth_error h l = Some (Arr (map Some vs)) /\
    Forall2 R vs xs.

End PathLayout.

(* ================================================================== *)
(** * Sample inputs *)
(* ================================================================== *)

Module Sample.

(** A linked artifact with the given custom properties and no display
    name. *)
Definition linked (customProperties : jspb.Map mlmd.Value) : LinkedArtifact :=
  {| event := {| mlmd.Event.getExecutionId := 7;
                 mlmd.Event.getArtifactId := 3 |};
     artifact := {| mlmd.Artifact.getId := 3;
                    mlmd.Artifact.displayName := None;
                    mlmd.Artifact.getCustomPropertiesMap := customProperties |}
  |}.

Definition unnamedExecution : mlmd.Execution.t :=
  {| mlmd.Execution.getId := 7; mlmd.Execution.displayName := None |}.

(** A run with no name and id 42. *)
Definition run42 : apis.ApiRunDetail :=
  {| apis.run := Some {| apis.id := "42"; apis.name := None |} |}.

(** One run with one execution holding the given artifacts. *)
Definition oneRun (artifacts : list LinkedArtifact) : list RunArtifact :=
  [ {| run := run42;
       executionArtifacts :=
         [ {| execution := unnamedExecution;
              linkedArtifacts := artifacts |} ] |} ].

Definition tenths (n : N) : mlmd.Value :=
  mlmd.NumberValue (Finite false n (-1)).

(** [{acc: 0.9}] and [{acc: 0.8, f1: 0.5}] *)
Definition accF1 : list RunArtifact :=
  oneRun [ linked [("acc", tenths 9)];
           linked [("acc", tenths 8); ("f1", tenths 5)] ].

(** [{display_name: 'foo', metric: 1}] *)
Definition named : list RunArtifact :=
  oneRun [ linked [("display_name", mlmd.StringValue "foo");
                   ("metric", mlmd.NumberValue (ofZ 1))] ].

(** The metric ["2"] is met before the metric ["1"]. *)
Definition numericNames : list RunArtifact :=
  oneRun [ linked [("2", tenths 9)]; linked [("1", tenths 8)] ].

(** An execution whose only artifact has the number 0 as its
    [confidenceMetrics]. *)
Definition zeroConfidence : ExecutionArtifact :=
  {| execution := unnamedExecution;
     linkedArtifacts :=
       [ linked [("confidenceMetrics", mlmd.NumberValue (ofZ 0))] ] |}.

(** A metric named like a property of [Object.prototype]. *)
Definition inheritedName : list RunArtifact :=
  oneRun [ linked [("constructor", tenths 9)] ].

(** Two artifacts with confidence metrics, one of them an empty struct,
    and one without. *)
Definition confidence : list RunArtifact :=
  oneRun [ linked [("confidenceMetrics", mlmd.StructValue [])];
           linked [("accuracy", tenths 9)];
           linked [("confidenceMetrics",
                    mlmd.StructValue [("list", JArray [])])] ].

(** A linked artifact with the given artifact id, as linked to execution
    7, holding an empty struct of confidence metrics. *)
Definition curve (artifactId : Z) : LinkedArtifact :=
  {| event := {| mlmd.Event.getExecutionId := 7;
                 mlmd.Event.getArtifactId := artifactId |};
     artifact := {| mlmd.Artifact.getId := artifactId;
                    mlmd.Artifact.displayName := None;
                    mlmd.Artifact.getCustomPropertiesMap :=
                      [("confidenceMetrics", mlmd.StructValue [])] |}
  |}.

(** Two curves with the artifact ids 3 and 4, and an artifact without
    confidence metrics between them. *)
Definition curves : list RunArtifact :=
  oneRun [ curve 3; linked [("accuracy", tenths 9)]; curve 4 ].

(** A curve with a display name, linked as artifact 3 of execution 7. *)
Definition renamed (displayName : string) : LinkedArtifact :=
  {| event := {| mlmd.Event.getExecutionId := 7;
                 mlmd.Event.getArtifactId := 3 |};
     artifact := {| mlmd.Artifact.getId := 3;
                    mlmd.Artifact.displayName := Some displayName;
                    mlmd.Artifact.getCustomPropertiesMap :=
                      [("confidenceMetrics", mlmd.StructValue [])] |}
  |}.

(** Two valid artifacts with the same execution id and artifact id. *)
Definition sameId : list RunArtifact :=
  oneRun [ renamed "first"; renamed "second" ].

(** A run detail that carries no run. *)
Definition noRun : apis.ApiRunDetail := {| apis.run := None |}.

(** A run without its run whose only artifact has no confidence metrics,
    followed by the curves. *)
Definition curvesAfterEmptyRun : list RunArtifact :=
  {| run := noRun;
     executionArtifacts :=
       [ {| execution := unnamedExecution;
            linkedArtifacts := [ linked [("accuracy", tenths 9)] ] |} ] |}
  :: curves.

(** The sample [accF1] as [Store.ofRunArtifacts] places it in the empty
    store: the store, and the reference to the array of run artifacts. *)
Definition accF1Store : Store.heap := snd (Store.ofRunArtifacts accF1 []).

Definition accF1Input : Store.value :=
  match fst (Store.ofRunArtifacts accF1 []) with
  | Normal v => v
  | Throw _ => Store.VUndefined
  end.

(** The sample [curves] placed in the empty store in the same way. *)
Definition curvesStore : Store.heap := snd (Store.ofRunArtifacts curves []).

Definition curvesInput : Store.value :=
  match fst (Store.ofRunArtifacts curves []) with
  | Normal v => v
  | Throw _ => Store.VUndefined
  end.

End Sample.

(* ================================================================== *)
(** * Proof steps *)
(* ================================================================== *)

(** From [x <- c ;; k = Normal b]: [c] completed normally. *)
Ltac bind_inv H :=
  match type of H with
  | JS.bind ?c _ = Normal _ =>
      let a := fresh "a" in
      let Ha := fresh "Ha" in
      destruct c as [a | ?] eqn:Ha; simpl in H; [| discriminate H]
  end.

(* ================================================================== *)
(** * Facts about the runtime *)
(* ================================================================== *)

Section Loops.

Context {A S : Type}.
Variable body : A -> S -> completion S.

Lemma forOf_app (l1 l2 : list A) (s : S) :
  forOf (l1 ++ l2) body s = JS.bind (forOf l1 body s) (forOf l2 body).
Proof.
  revert s. induction l1 as [| x l1 IH]; intros s; simpl.
  - reflexivity.
  - destruct (body x s) as [s1 | e]; simpl; [apply IH | reflexivity].
Qed.

(** The loop rule: an invariant of the processed prefix. *)
Lemma forOf_invariant (P : list A -> S -> Prop) (l : list A) :
  (forall done x rest s s',
      l = done ++ x :: rest ->
      P done s -> body x s = Normal s' -> P (done ++ [x]) s') ->
  forall s s', P [] s -> forOf l body s = Normal s' -> P l s'.
Proof.
  intros Hstep.
  assert (G : forall todo done s s',
             l = done ++ todo ->
             P done s -> forOf todo body s = Normal s' -> P l s').
  { induction todo as [| x todo IH]; intros done s s' Hl HP Hrun;
      simpl in Hrun.
    - inversion Hrun; subst. rewrite app_nil_r. exact HP.
    - bind_inv Hrun.
      apply (IH (done ++ [x]) a s').
      + rewrite <- app_assoc. exact Hl.
      + eapply Hstep; eassumption.
      + exact Hrun. }
  intros s s' HP Hrun. exact (G l [] s s' eq_refl HP Hrun).
Qed.

(** The loop rule for an invariant of the state alone. *)
Lemma forOf_preserves (P : S -> Prop) (R : A -> Prop) (l : list A) :
  (forall x s s', R x -> P s -> body x s = Normal s' -> P s') ->
  Forall R l ->
  forall s s', P s -> forOf l body s = Normal s' -> P s'.
Proof.
  intros Hstep HR. induction HR as [| x l Hx _ IH]; intros s s' HP Hrun;
    simpl in Hrun.
  - inversion Hrun; subst. exact HP.
  - bind_inv Hrun. eapply IH; [| exact Hrun]. eapply Hstep; eassumption.
Qed.

(** A loop whose iterations all complete normally completes normally. *)
Lemma forOf_returns (P : S -> Prop) (Q : A -> Prop) (l : list A) :
  (forall x s, Q x -> P s -> exists s', body x s = Normal s' /\ P s') ->
  Forall Q l ->
  forall s, P s -> exists s', forOf l body s = Normal s' /\ P s'.
Proof.
  intros Hstep HQ. induction HQ as [| x l Hx _ IH]; intros s HP; simpl.
  - exists s. split; [reflexivity | exact HP].
  - destruct (Hstep x s Hx HP) as [s1 [E1 HP1]]. rewrite E1. simpl.
    apply IH. exact HP1.
Qed.

End Loops.

Section Objects.

Context {V : Type}.
Implicit Types (o : object V) (k : string) (v : V).

Lemma getOwn_set_same o k v : getOwn (JS.set o k v) k = Some v.
Proof.
  induction o as [| [k' v'] o IH]; simpl.
  - rewrite String.eqb_refl. reflexivity.
  - destruct (k' =? k)%string eqn:E; simpl; rewrite E; [reflexivity | exact IH].
Qed.

Lemma getOwn_set_other o k k' v :
  k <> k' -> getOwn (JS.set o k v) k' = getOwn o k'.
Proof.
  intros Hne. induction o as [| [k0 v0] o IH]; simpl.
  - destruct (k =? k')%string eqn:E; [| reflexivity].
    apply String.eqb_eq in E. contradiction.
  - destruct (k0 =? k)%string eqn:E; simpl.
    + apply String.eqb_eq in E. subst k0.
      destruct (k =? k')%string eqn:E'; [| reflexivity].
      apply String.eqb_eq in E'. contradiction.
    + rewrite IH. reflexivity.
Qed.

Lemma set_set o k v v' : JS.set (JS.set o k v) k v' = JS.set o k v'.
Proof.
  induction o as [| [k0 v0] o IH]; simpl.
  - rewrite String.eqb_refl. reflexivity.
  - destruct (k0 =? k)%string eqn:E; simpl; rewrite E; [reflexivity |].
    rewrite IH. reflexivity.
Qed.

Lemma getOwn_None_notin o k :
  getOwn o k = None <-> ~ In k (map fst o).
Proof.
  induction o as [| [k0 v0] o IH]; simpl.
  - tauto.
  - destruct (k0 =? k)%string eqn:E.
    + apply String.eqb_eq in E. split; [discriminate | intros H; exfalso; auto].
    + apply String.eqb_neq in E. rewrite IH. tauto.
Qed.

Lemma getOwn_In o k v : getOwn o k = Some v -> In (k, v) o.
Proof.
  induction o as [| [k0 v0] o IH]; simpl; [discriminate |].
  destruct (k0 =? k)%string eqn:E.
  - apply String.eqb_eq in E. intros H. inversion H; subst. left; reflexivity.
  - intros H. right. exact (IH H).
Qed.

Lemma In_getOwn o k v :
  NoDup (map fst o) -> In (k, v) o -> getOwn o k = Some v.
Proof.
  induction o as [| [k0 v0] o IH]; simpl; intros Hnd Hin; [contradiction |].
  inversion Hnd as [| ? ? Hnotin Hnd']; subst.
  destruct Hin as [Heq | Hin].
  - inversion Heq; subst. rewrite String.eqb_refl. reflexivity.
  - destruct (k0 =? k)%string eqn:E.
    + apply String.eqb_eq in E. subst k0. exfalso. apply Hnotin.
      change k with (fst (k, v)). apply in_map. exact Hin.
    + apply IH; assumption.
Qed.

(** Writing a key keeps the own keys in place; a new key goes last. *)
Lemma keys_set o k v :
  map fst (JS.set o k v)
  = match getOwn o k with
    | Some _ => map fst o
    | None => map fst o ++ [k]
    end.
Proof.
  induction o as [| [k0 v0] o IH]; simpl; [reflexivity |].
  destruct (k0 =? k)%string eqn:E; simpl; [reflexivity |].
  rewrite IH. destruct (getOwn o k); reflexivity.
Qed.

Lemma get_Own o k v : JS.get o k = Own v <-> getOwn o k = Some v.
Proof.
  unfold JS.get. destruct (getOwn o k) as [v0 |].
  - split; intros H; inversion H; reflexivity.
  - destruct (existsb (String.eqb k) Object_prototype); split; discriminate.
Qed.

Lemma get_own o k v : getOwn o k = Some v -> JS.get o k = Own v.
Proof. apply get_Own. Qed.

Lemma get_inherited o k :
  getOwn o k = None -> ownable k = false -> JS.get o k = Inherited.
Proof.
  unfold JS.get, ownable. intros -> H. apply negb_false_iff in H.
  rewrite H. reflexivity.
Qed.

Lemma get_undefined o k :
  getOwn o k = None -> ownable k = true -> JS.get o k = Undefined.
Proof.
  unfold JS.get, ownable. intros -> H. apply negb_true_iff in H.
  rewrite H. reflexivity.
Qed.

End Objects.

(* ================================================================== *)
(** * The aggregation as a sequence of cell writes *)
(* ================================================================== *)

(** What one cell write does: it takes the row the metric already has, or
    a fresh row of [artifactCount] empty strings when the name is new and
    not inherited, and stores the text at the column. *)
Lemma writeCell_Normal n i k text dm dm' :
  writeCell n (i, k, text) dm = Normal dm' ->
  exists r0,
    (getOwn dm k = Some r0 \/
     (getOwn dm k = None /\ ownable k = true /\
      Array_fill n "" = Normal (row r0) /\ dataCount r0 = 0%Z)) /\
    dm' = JS.set dm k {| row := Array_set (row r0) i text;
                         dataCount := dataCount r0 + 1 |}.
Proof.
  unfold writeCell.
  destruct (getOwn dm k) as [r0 |] eqn:Eown.
  - rewrite (get_own _ _ _ Eown). cbn [truthy negb JS.bind].
    rewrite (get_own _ _ _ Eown). intros H. inversion H; subst.
    exists r0. auto.
  - destruct (ownable k) eqn:Ek.
    + rewrite (get_undefined _ _ Eown Ek). cbn [truthy negb].
      destruct (Array_fill n "") as [filled | e] eqn:Efill;
        cbn [JS.bind]; [| discriminate].
      rewrite (get_own _ _ _ (getOwn_set_same dm k _)).
      intros H. inversion H; subst.
      exists {| row := filled; dataCount := 0 |}. split.
      * right. auto.
      * apply set_set.
    + rewrite (get_inherited _ _ Eown Ek). cbn [truthy negb JS.bind].
      rewrite (get_inherited _ _ Eown Ek). discriminate.
Qed.

Lemma Array_fill_valid {A} n (v : A) :
  (0 <= n < 2 ^ 32)%Z -> Array_fill n v = Normal (repeat (Some v) (Z.to_nat n)).
Proof.
  intros Hn. unfold Array_fill.
  replace ((0 <=? n)%Z && (n <? 2 ^ 32)%Z) with true; [reflexivity |].
  symmetry. apply andb_true_iff.
  split; [apply Z.leb_le | apply Z.ltb_lt]; lia.
Qed.

Lemma Array_fill_Normal {A} n (v : A) a :
  Array_fill n v = Normal a -> a = repeat (Some v) (Z.to_nat n).
Proof.
  unfold Array_fill.
  destruct ((0 <=? n)%Z && (n <? 2 ^ 32)%Z); intros H; inversion H.
  reflexivity.
Qed.

Lemma writeCell_returns n i k text dm :
  ownable k = true -> (0 <= n < 2 ^ 32)%Z ->
  exists dm', writeCell n (i, k, text) dm = Normal dm'.
Proof.
  intros Hk Hn. unfold writeCell.
  destruct (getOwn dm k) as [r0 |] eqn:Eown.
  - rewrite (get_own _ _ _ Eown). cbn [truthy negb JS.bind].
    rewrite (get_own _ _ _ Eown). eauto.
  - rewrite (get_undefined _ _ Eown Hk). cbn [truthy negb].
    rewrite (Array_fill_valid _ _ Hn). cbn [JS.bind].
    rewrite (get_own _ _ _ (getOwn_set_same dm k _)). eauto.
Qed.

Lemma addScalarDataItems_cells la dm i n :
  addScalarDataItems (customPropertiesOf la) dm i n
  = forOf (cellsOfArtifact i la) (writeCell n) dm.
Proof.
  unfold addScalarDataItems, cellsOfArtifact.
  generalize (jspb.getEntryList (customPropertiesOf la)) as entries.
  intros entries. revert dm.
  induction entries as [| [k v] entries IH]; intros dm; simpl.
  - reflexivity.
  - unfold cellsOfEntries, isMetricName. simpl.
    destruct (k =? "display_name")%string; simpl.
    + apply IH.
    + match goal with
      | |- JS.bind ?c _ = JS.bind ?c' _ => change c' with c; destruct c
      end; simpl; [apply IH | reflexivity].
Qed.

Lemma cellsFrom_app i l1 l2 :
  cellsFrom i (l1 ++ l2) = cellsFrom i l1 ++ cellsFrom (i + length l1) l2.
Proof.
  revert i. induction l1 as [| a l1 IH]; intros i; simpl.
  - rewrite Nat.add_0_r. reflexivity.
  - rewrite IH, <- app_assoc.
    replace (S i + length l1) with (i + S (length l1)) by lia. reflexivity.
Qed.

Lemma loadLinkedArtifacts_cells n ea las xl dm i :
  forOf las
    (fun linkedArtifact st =>
       let '(xLabels, dataMap, artifactIndex) := st in
       let linkedArtifactText := JS.or (getArtifactName linkedArtifact) "-" in
       let xLabel :=
         (JS.or (getExecutionDisplayName (execution ea)) "-"
            ++ " > " ++ linkedArtifactText)%string in
       let xLabels := xLabels ++ [xLabel] in
       let customProperties :=
         mlmd.Artifact.getCustomPropertiesMap (artifact linkedArtifact) in
       dataMap <- addScalarDataItems customProperties dataMap
                    artifactIndex n ;;
       Normal (xLabels, dataMap, S artifactIndex))
    (xl, dm, i)
  = (dm' <- forOf (cellsFrom i las) (writeCell n) dm ;;
     Normal (xl ++ map (xLabelOf ea) las, dm', i + length las)).
Proof.
  revert xl dm i. induction las as [| la las IH]; intros xl dm i; simpl.
  - rewrite app_nil_r, Nat.add_0_r. reflexivity.
  - rewrite forOf_app.
    change (mlmd.Artifact.getCustomPropertiesMap (artifact la))
      with (customPropertiesOf la).
    rewrite addScalarDataItems_cells.
    destruct (forOf (cellsOfArtifact i la) (writeCell n) dm) as [dm1 | e];
      simpl; [| reflexivity].
    rewrite IH. unfold xLabelOf at 2.
    rewrite <- app_assoc. simpl. rewrite Nat.add_succ_r. reflexivity.
Qed.

Lemma loadScalarExecutionArtifacts_cells n eas xl dm i :
  loadScalarExecutionArtifacts eas xl dm i n
  = (dm' <- forOf (cellsFrom i (flat_map linkedArtifacts eas))
                  (writeCell n) dm ;;
     Normal (xl ++ xLabelsOfExecutions eas, dm',
             i + length (flat_map linkedArtifacts eas))).
Proof.
  unfold loadScalarExecutionArtifacts.
  revert xl dm i. induction eas as [| ea eas IH]; intros xl dm i; simpl.
  - rewrite app_nil_r, Nat.add_0_r. reflexivity.
  - rewrite loadLinkedArtifacts_cells, cellsFrom_app, forOf_app.
    destruct (forOf (cellsFrom i (linkedArtifacts ea)) (writeCell n) dm)
      as [dm1 | e]; simpl; [| reflexivity].
    rewrite IH.
    destruct (forOf _ (writeCell n) dm1) as [dm2 | e]; simpl; [| reflexivity].
    rewrite <- app_assoc, length_app, Nat.add_assoc. reflexivity.
Qed.

(** The nested loops of [getScalarTableData] write the cells of the
    artifacts in traversal order, label every artifact and give every run
    the number of its artifacts as span. *)
Lemma getScalarTableData_cells ras n :
  getScalarTableData ras n
  = (dm <- forOf (cellsFrom 0 (artifactsOf ras)) (writeCell n) [] ;;
     Normal {| xLabels := xLabelsOf ras;
               xParentLabels := map xParentLabelOf ras;
               dataMap := dm |}).
Proof.
  unfold getScalarTableData.
  assert (G : forall ras xl xpl dm i,
    forOf ras
      (fun runArtifact st =>
         let '(xLabels, xParentLabels, dataMap, artifactIndex) := st in
         let runName :=
           JS.or (optChain (apis.run (run runArtifact)) apis.name) "-" in
         loaded <- loadScalarExecutionArtifacts
                     (executionArtifacts runArtifact) xLabels dataMap
                     artifactIndex n ;;
         let '(xLabels, dataMap, newArtifactIndex) := loaded in
         let xParentLabel := {|
           CompareTable.label := runName;
           CompareTable.colSpan :=
             Z.of_nat newArtifactIndex - Z.of_nat artifactIndex |} in
         Normal (xLabels, xParentLabels ++ [xParentLabel], dataMap,
                 newArtifactIndex))
      (xl, xpl, dm, i)
    = (dm' <- forOf (cellsFrom i (artifactsOf ras)) (writeCell n) dm ;;
       Normal (xl ++ xLabelsOf ras, xpl ++ map xParentLabelOf ras, dm',
               i + length (artifactsOf ras)))).
  { clear ras. induction ras as [| ra ras IH]; intros xl xpl dm i; simpl.
    - rewrite !app_nil_r, Nat.add_0_r. reflexivity.
    - rewrite loadScalarExecutionArtifacts_cells, cellsFrom_app, forOf_app.
      fold (artifactsOfRun ra).
      destruct (forOf (cellsFrom i (artifactsOfRun ra)) (writeCell n) dm)
        as [dm1 | e]; simpl; [| reflexivity].
      rewrite IH.
      destruct (forOf _ (writeCell n) dm1) as [dm2 | e]; simpl;
        [| reflexivity].
      rewrite <- !app_assoc, length_app, Nat.add_assoc. simpl.
      unfold xParentLabelOf at 2.
      replace (Z.of_nat (i + length (artifactsOfRun ra)) - Z.of_nat i)%Z
        with (Z.of_nat (length (artifactsOfRun ra))) by lia.
      reflexivity. }
  rewrite G. simpl.
  destruct (forOf _ (writeCell n) []) as [dm | e]; reflexivity.
Qed.

(* ================================================================== *)
(** * Facts about arrays *)
(* ================================================================== *)

Section Arrays.

Context {A : Type}.
Implicit Types (a : array A) (i j : nat) (v : A) (x : option A).

Lemma length_Array_set a i v :
  length (Array_set a i v) = Nat.max (length a) (S i).
Proof.
  unfold Array_set. destruct (i <? length a) eqn:E.
  - apply Nat.ltb_lt in E.
    rewrite length_app, length_firstn. cbn [length].
    rewrite length_skipn. lia.
  - apply Nat.ltb_ge in E.
    rewrite !length_app, repeat_length. cbn [length]. lia.
Qed.

Lemma nth_overwrite a x : forall i j,
  i < length a ->
  nth j (firstn i a ++ x :: skipn (S i) a) None
  = if j =? i then x else nth j a None.
Proof.
  induction a as [| y a IH]; intros i j Hi; simpl in Hi; [lia |].
  destruct i as [| i]; destruct j as [| j]; simpl; try reflexivity.
  apply IH. lia.
Qed.

Lemma nth_holes v : forall m j,
  nth j (repeat None m ++ [Some v]) None
  = if j =? m then Some v else None.
Proof.
  induction m as [| m IH]; intros [| j]; simpl; try reflexivity.
  - destruct j; reflexivity.
  - apply IH.
Qed.

Lemma nth_extend a v : forall i j,
  length a <= i ->
  nth j (a ++ repeat None (i - length a) ++ [Some v]) None
  = if j =? i then Some v else nth j a None.
Proof.
  induction a as [| y a IH]; intros i j Hi; simpl in *.
  - rewrite Nat.sub_0_r, nth_holes. destruct (j =? i), j; reflexivity.
  - destruct i as [| i]; [lia |]. destruct j as [| j]; simpl.
    + reflexivity.
    + apply IH. lia.
Qed.

Lemma nth_Array_set a i j v :
  nth j (Array_set a i v) None
  = if j =? i then Some v else nth j a None.
Proof.
  unfold Array_set. destruct (i <? length a) eqn:E.
  - apply Nat.ltb_lt in E. apply nth_overwrite. exact E.
  - apply Nat.ltb_ge in E. apply nth_extend. exact E.
Qed.

End Arrays.

Lemma nonEmptyCells_app (a b : array string) :
  nonEmptyCells (a ++ b) = nonEmptyCells a + nonEmptyCells b.
Proof. unfold nonEmptyCells. rewrite filter_app, length_app. reflexivity. Qed.

Lemma nonEmptyCells_cons x (a : array string) :
  nonEmptyCells (x :: a) = (if isData x then 1 else 0) + nonEmptyCells a.
Proof. unfold nonEmptyCells. simpl. destruct (isData x); reflexivity. Qed.

Lemma nonEmptyCells_repeat_hole m : nonEmptyCells (repeat None m) = 0.
Proof. induction m as [| m IH]; [reflexivity | exact IH]. Qed.

Lemma nonEmptyCells_repeat_empty m : nonEmptyCells (repeat (Some "") m) = 0.
Proof. induction m as [| m IH]; [reflexivity | exact IH]. Qed.

Lemma isData_nth_repeat_empty m j :
  isData (nth j (repeat (Some "") m) None) = false.
Proof.
  revert j. induction m as [| m IH]; intros [| j]; simpl; auto.
Qed.

Lemma nonEmptyCells_overwrite (a : array string) x : forall i,
  i < length a -> isData (nth i a None) = false -> isData x = true ->
  nonEmptyCells (firstn i a ++ x :: skipn (S i) a) = S (nonEmptyCells a).
Proof.
  induction a as [| y a IH]; intros i Hi Hslot Hx; simpl in Hi; [lia |].
  destruct i as [| i]; simpl in *.
  - rewrite !nonEmptyCells_cons, Hslot, Hx. reflexivity.
  - rewrite !nonEmptyCells_cons, IH by (assumption || lia). lia.
Qed.

(** Writing a text into a slot that holds no data adds one non-empty
    cell. *)
Lemma nonEmptyCells_Array_set (a : array string) i text :
  isData (nth i a None) = false -> text <> "" ->
  nonEmptyCells (Array_set a i text) = S (nonEmptyCells a).
Proof.
  intros Hslot Htext.
  assert (Hd : isData (Some text) = true).
  { simpl. apply negb_true_iff. apply String.eqb_neq. exact Htext. }
  unfold Array_set. destruct (i <? length a) eqn:E.
  - apply Nat.ltb_lt in E. apply nonEmptyCells_overwrite; assumption.
  - rewrite !nonEmptyCells_app, nonEmptyCells_repeat_hole.
    rewrite nonEmptyCells_cons, Hd. unfold nonEmptyCells. simpl. lia.
Qed.

(* ================================================================== *)
(** * Facts about [JSON.stringify] *)
(* ================================================================== *)

Lemma formatDigits_nonempty d rest n : formatDigits (d :: rest) n <> [].
Proof.
  unfold formatDigits.
  destruct ((_ <=? n)%Z && (n <=? 21)%Z); [discriminate |].
  destruct ((0 <? n)%Z && (n <=? 21)%Z).
  { intros H. apply app_eq_nil in H. destruct H as [_ H]. discriminate H. }
  destruct ((-6 <? n)%Z && (n <=? 0)%Z); [discriminate |].
  destruct rest; discriminate.
Qed.

Lemma Number_toString_nonempty x : Number_toString x <> "".
Proof.
  destruct x as [| negative | negative s e]; simpl.
  - discriminate.
  - destruct negative; discriminate.
  - destruct (rev (dropZeros (rev (list_ascii_of_string (decimal s)))))
      as [| d rest]; [discriminate |].
    pose proof (formatDigits_nonempty d rest
      (Z.of_nat (length (list_ascii_of_string (decimal s))) + e)) as Hne.
    destruct (formatDigits (d :: rest) _) as [| c l]; [congruence |].
    destruct negative; discriminate.
Qed.

(** The text [JSON.stringify] produces is never the empty string. *)
Lemma JSON_stringify_nonempty v : JSON_stringify v <> "".
Proof.
  destruct v as [| x | s | b | items | fields]; try discriminate.
  - destruct x as [| negative | negative s e]; try discriminate.
    apply (Number_toString_nonempty (Finite negative s e)).
  - destruct b; discriminate.
Qed.

Lemma cellText_nonempty props k : cellText props k <> "".
Proof. apply JSON_stringify_nonempty. Qed.

(* ================================================================== *)
(** * Facts about first occurrences *)
(* ================================================================== *)

Lemma In_firstOccurrences k names :
  In k (firstOccurrences names) <-> In k names.
Proof.
  induction names as [| x names IH]; simpl; [tauto |].
  rewrite filter_In, IH, negb_true_iff, String.eqb_neq.
  destruct (string_dec x k) as [-> | Hne]; [tauto |].
  split.
  - intros [H | H]; [contradiction | tauto].
  - intros [H | H]; [contradiction |].
    right. split; [exact H | congruence].
Qed.

Lemma NoDup_firstOccurrences names : NoDup (firstOccurrences names).
Proof.
  induction names as [| x names IH]; simpl; constructor.
  - rewrite filter_In, negb_true_iff, String.eqb_neq. tauto.
  - apply NoDup_filter. exact IH.
Qed.

Lemma firstOccurrences_snoc names k :
  firstOccurrences (names ++ [k])
  = firstOccurrences names
      ++ (if existsb (String.eqb k) names then [] else [k]).
Proof.
  induction names as [| x names IH]; simpl; [reflexivity |].
  rewrite IH, filter_app. f_equal. f_equal.
  destruct (k =? x)%string eqn:E; simpl.
  - destruct (existsb (String.eqb k) names); simpl; [reflexivity |].
    rewrite E. reflexivity.
  - destruct (existsb (String.eqb k) names); simpl; [reflexivity |].
    rewrite E. reflexivity.
Qed.

Lemma existsb_eqb_In k names :
  existsb (String.eqb k) names = true <-> In k names.
Proof.
  rewrite existsb_exists. split.
  - intros [x [Hin E]]. apply String.eqb_eq in E. subst. exact Hin.
  - intros Hin. exists k. split; [exact Hin | apply String.eqb_refl].
Qed.

(* ================================================================== *)
(** * Facts about the cells of an input *)
(* ================================================================== *)

Lemma names_cellsOfArtifact i la :
  map cellName (cellsOfArtifact i la) = metricNamesOf la.
Proof.
  unfold cellsOfArtifact, cellsOfEntries, metricNamesOf.
  induction (jspb.getEntryList (customPropertiesOf la)) as [| [k v] l IH];
    simpl; [reflexivity |].
  destruct (isMetricName k); simpl; rewrite IH; reflexivity.
Qed.

Lemma names_cellsFrom i las :
  map cellName (cellsFrom i las) = flat_map metricNamesOf las.
Proof.
  revert i. induction las as [| la las IH]; intros i; simpl; [reflexivity |].
  rewrite map_app, names_cellsOfArtifact, IH. reflexivity.
Qed.

Lemma In_cellsOfArtifact c i la :
  In c (cellsOfArtifact i la) ->
  cellColumn c = i /\ In (cellName c) (metricNamesOf la) /\
  cellContent c <> "".
Proof.
  intros Hin. split; [| split].
  - unfold cellsOfArtifact, cellsOfEntries in Hin. apply in_map_iff in Hin.
    destruct Hin as [e [<- _]]. reflexivity.
  - rewrite <- (names_cellsOfArtifact i la). apply in_map. exact Hin.
  - unfold cellsOfArtifact, cellsOfEntries in Hin. apply in_map_iff in Hin.
    destruct Hin as [e [<- _]]. apply cellText_nonempty.
Qed.

Lemma In_cellsFrom c : forall las i,
  In c (cellsFrom i las) ->
  i <= cellColumn c < i + length las /\ cellContent c <> "".
Proof.
  induction las as [| la las IH]; intros i Hin; simpl in Hin;
    [contradiction |].
  apply in_app_or in Hin. destruct Hin as [Hin | Hin].
  - apply In_cellsOfArtifact in Hin. destruct Hin as [Hc [_ Ht]].
    simpl. split; [lia | exact Ht].
  - apply IH in Hin. simpl. split; [lia | tauto].
Qed.

Lemma NoDup_map_pair {A B} (a : A) (l : list B) :
  NoDup l -> NoDup (map (pair a) l).
Proof.
  induction 1 as [| b l Hb _ IH]; simpl; constructor; [| exact IH].
  rewrite in_map_iff. intros [b' [E Hin]]. inversion E; subst. auto.
Qed.

(** In a well-formed input no cell position is written twice. *)
Lemma NoDup_positions : forall las i,
  Forall (fun la => jspb.wellFormed (customPropertiesOf la)) las ->
  NoDup (map fst (cellsFrom i las)).
Proof.
  induction las as [| la las IH]; intros i Hwf; cbn [cellsFrom];
    [constructor |].
  inversion Hwf as [| ? ? Hla Hlas]; subst.
  rewrite map_app. apply NoDup_app.
  - match goal with
    | |- NoDup ?l => assert (E : l = map (pair i) (metricNamesOf la))
    end.
    { rewrite <- (names_cellsOfArtifact i la).
      unfold cellsOfArtifact, cellsOfEntries. rewrite !map_map.
      reflexivity. }
    rewrite E. apply NoDup_map_pair.
    unfold metricNamesOf. apply NoDup_filter. exact Hla.
  - apply IH. exact Hlas.
  - intros p Hp Hq. apply in_map_iff in Hp, Hq.
    destruct Hp as [c [<- Hc]]. destruct Hq as [c' [E Hc']].
    apply In_cellsOfArtifact in Hc. apply In_cellsFrom in Hc'.
    destruct Hc as [Hc _]. destruct Hc' as [Hc' _].
    unfold cellColumn in *. rewrite E in Hc'. lia.
Qed.

(* ================================================================== *)
(** * Invariants of the cell writes *)
(* ================================================================== *)

(** The own keys of the map are the metric names in first-met order. *)
Lemma keys_of_cells n cells dm :
  forOf cells (writeCell n) [] = Normal dm ->
  map fst dm = firstOccurrences (map cellName cells).
Proof.
  apply (forOf_invariant (writeCell n)
           (fun done dm => map fst dm = firstOccurrences (map cellName done)));
    [| reflexivity].
  intros done [[i k] text] rest s s' _ IH Hw.
  apply writeCell_Normal in Hw. destruct Hw as [r0 [Hprev ->]].
  rewrite keys_set, map_app. cbn [map].
  change (cellName (i, k, text)) with k. rewrite firstOccurrences_snoc.
  destruct (existsb (String.eqb k) (map cellName done)) eqn:Ex.
  - apply existsb_eqb_In in Ex. rewrite <- In_firstOccurrences, <- IH in Ex.
    destruct (getOwn s k) eqn:Eown.
    + rewrite app_nil_r. exact IH.
    + apply getOwn_None_notin in Eown. contradiction.
  - destruct (getOwn s k) as [r |] eqn:Eown.
    + apply getOwn_In in Eown. apply (in_map fst) in Eown. simpl in Eown.
      rewrite IH, In_firstOccurrences in Eown.
      apply existsb_eqb_In in Eown. congruence.
    + rewrite IH. reflexivity.
Qed.

(** Every row is at least [artifactCount] long and grows only to reach a
    written column. *)
Lemma row_lengths_of_cells n bound cells dm :
  Forall (fun c => cellColumn c < bound) cells ->
  forOf cells (writeCell n) [] = Normal dm ->
  forall k r, getOwn dm k = Some r ->
    Z.to_nat n <= length (row r) <= Nat.max (Z.to_nat n) bound.
Proof.
  intros Hcols.
  apply (forOf_preserves (writeCell n)
           (fun dm => forall k r, getOwn dm k = Some r ->
              Z.to_nat n <= length (row r) <= Nat.max (Z.to_nat n) bound)
           (fun c => cellColumn c < bound)); [| exact Hcols | discriminate].
  intros [[i k] text] s s' Hi IH Hw k' r Hr.
  apply writeCell_Normal in Hw. destruct Hw as [r0 [Hprev ->]].
  unfold cellColumn in Hi. simpl in Hi.
  destruct (string_dec k k') as [<- | Hne].
  - rewrite getOwn_set_same in Hr. inversion Hr; subst r. simpl.
    rewrite length_Array_set.
    assert (H0 : Z.to_nat n <= length (row r0)
                 <= Nat.max (Z.to_nat n) bound).
    { destruct Hprev as [Hold | [_ [_ [Hfill _]]]].
      - exact (IH _ _ Hold).
      - apply Array_fill_Normal in Hfill. rewrite Hfill, repeat_length. lia. }
    lia.
  - rewrite getOwn_set_other in Hr by exact Hne. exact (IH _ _ Hr).
Qed.

(** The data count of a row is the number of its non-empty cells, and
    every non-empty cell was written by a cell of the input. *)
Lemma dataCounts_of_cells n cells dm :
  NoDup (map fst cells) ->
  Forall (fun c => cellContent c <> "") cells ->
  forOf cells (writeCell n) [] = Normal dm ->
  forall k r, getOwn dm k = Some r ->
    dataCount r = Z.of_nat (nonEmptyCells (row r)) /\
    forall j, isData (nth j (row r) None) = true ->
              In (j, k) (map fst cells).
Proof.
  intros Hnd Htext.
  apply (forOf_invariant (writeCell n)
           (fun done dm => forall k r, getOwn dm k = Some r ->
              dataCount r = Z.of_nat (nonEmptyCells (row r)) /\
              forall j, isData (nth j (row r) None) = true ->
                        In (j, k) (map fst done))); [| discriminate].
  intros done [[i k] text] rest s s' Hl IH Hw k' r Hr.
  apply writeCell_Normal in Hw. destruct Hw as [r0 [Hprev ->]].
  assert (Hfresh : ~ In (i, k) (map fst done)).
  { rewrite Hl, map_app in Hnd. simpl in Hnd.
    apply NoDup_remove_2 in Hnd. intros Hin. apply Hnd.
    apply in_or_app. left. exact Hin. }
  assert (Hne : text <> "").
  { rewrite Hl in Htext. apply Forall_app in Htext.
    destruct Htext as [_ Htext]. inversion Htext; subst. assumption. }
  destruct (string_dec k k') as [<- | Hkk].
  - rewrite getOwn_set_same in Hr. inversion Hr; subst r. simpl.
    assert (H0 : dataCount r0 = Z.of_nat (nonEmptyCells (row r0)) /\
                 forall j, isData (nth j (row r0) None) = true ->
                           In (j, k) (map fst done)).
    { destruct Hprev as [Hold | [_ [_ [Hfill Hzero]]]].
      - exact (IH _ _ Hold).
      - apply Array_fill_Normal in Hfill. rewrite Hfill, Hzero.
        rewrite nonEmptyCells_repeat_empty. split; [reflexivity |].
        intros j Hj. rewrite isData_nth_repeat_empty in Hj. discriminate. }
    destruct H0 as [Hcount Hslots]. split.
    + rewrite nonEmptyCells_Array_set; [lia | | exact Hne].
      destruct (isData (nth i (row r0) None)) eqn:Ei; [| reflexivity].
      exfalso. apply Hfresh. apply Hslots. exact Ei.
    + intros j Hj. rewrite nth_Array_set in Hj. rewrite map_app.
      apply in_or_app. destruct (j =? i) eqn:Eji.
      * apply Nat.eqb_eq in Eji. subst j. right. left. reflexivity.
      * left. apply Hslots. exact Hj.
  - rewrite getOwn_set_other in Hr by exact Hkk.
    destruct (IH _ _ Hr) as [Hcount Hslots]. split; [exact Hcount |].
    intros j Hj. rewrite map_app. apply in_or_app. left. auto.
Qed.

(** The cell writes complete when no metric name is inherited from
    [Object.prototype] and [artifactCount] is a valid array length. *)
Lemma cells_return n cells dm :
  (0 <= n < 2 ^ 32)%Z ->
  Forall (fun c => ownable (cellName c) = true) cells ->
  exists dm', forOf cells (writeCell n) dm = Normal dm'.
Proof.
  intros Hn Hown.
  destruct (forOf_returns (writeCell n) (fun _ => True)
              (fun c => ownable (cellName c) = true) cells) with (s := dm)
    as [dm' [E _]]; [| exact Hown | exact I | eauto].
  intros [[i k] text] s Hk _.
  destruct (writeCell_returns n i k text s Hk Hn) as [s' E]. eauto.
Qed.

(* ================================================================== *)
(** * Facts about sorting and key order *)
(* ================================================================== *)

Section SortAny.

Context {A : Type}.
Variable compareFn : A -> A -> Z.

Lemma sortInsert_Permutation x l :
  Permutation (sortInsert compareFn x l) (x :: l).
Proof.
  induction l as [| y l IH]; simpl; [reflexivity |].
  destruct (compareFn x y <=? 0)%Z; [reflexivity |].
  rewrite IH. apply perm_swap.
Qed.

Lemma Array_sort_Permutation l : Permutation (Array_sort compareFn l) l.
Proof.
  induction l as [| x l IH]; simpl; [reflexivity |].
  rewrite sortInsert_Permutation, IH. reflexivity.
Qed.

End SortAny.

Section SortByKey.

Context {A : Type}.
Variable key : A -> Z.

Lemma sortInsert_sorted x l :
  StronglySorted (fun a b => (key b <= key a)%Z) l ->
  StronglySorted (fun a b => (key b <= key a)%Z) (sortInsert (byDecreasing key) x l).
Proof.
  induction 1 as [| y l Hl IH Hy]; simpl.
  - repeat constructor.
  - unfold byDecreasing at 1. destruct (key y - key x <=? 0)%Z eqn:E.
    + apply Z.leb_le in E. constructor; [constructor; assumption |].
      constructor; [lia |].
      eapply Forall_impl; [| exact Hy]. simpl. intros z Hz. lia.
    + apply Z.leb_gt in E. constructor; [exact IH |].
      apply (Permutation_Forall
               (Permutation_sym (sortInsert_Permutation (byDecreasing key) x l))).
      constructor; [lia | exact Hy].
Qed.

Lemma Array_sort_sorted l :
  StronglySorted (fun a b => (key b <= key a)%Z) (Array_sort (byDecreasing key) l).
Proof.
  induction l as [| x l IH]; simpl; [constructor |].
  apply sortInsert_sorted. exact IH.
Qed.

(** Stability: elements with equal keys keep their order. *)
Lemma sortInsert_stable c x l :
  filter (fun a => (key a =? c)%Z) (sortInsert (byDecreasing key) x l)
  = filter (fun a => (key a =? c)%Z) (x :: l).
Proof.
  induction l as [| y l IH]; simpl; [reflexivity |].
  unfold byDecreasing at 1. destruct (key y - key x <=? 0)%Z eqn:E;
    [reflexivity |].
  apply Z.leb_gt in E. simpl. rewrite IH. simpl.
  destruct (key x =? c)%Z eqn:Ex; [| reflexivity].
  apply Z.eqb_eq in Ex.
  destruct (key y =? c)%Z eqn:Ey; [| reflexivity].
  apply Z.eqb_eq in Ey. lia.
Qed.

Lemma Array_sort_stable c l :
  filter (fun a => (key a =? c)%Z) (Array_sort (byDecreasing key) l)
  = filter (fun a => (key a =? c)%Z) l.
Proof.
  induction l as [| x l IH]; simpl; [reflexivity |].
  rewrite sortInsert_stable. simpl. rewrite IH. reflexivity.
Qed.

End SortByKey.

Lemma Permutation_filter_split {A} (f : A -> bool) l :
  Permutation (filter f l ++ filter (fun x => negb (f x)) l) l.
Proof.
  induction l as [| x l IH]; simpl; [reflexivity |].
  destruct (f x); simpl.
  - constructor. exact IH.
  - rewrite <- Permutation_middle. constructor. exact IH.
Qed.

Lemma Object_entries_Permutation {V} (o : object V) :
  Permutation (Object_entries o) o.
Proof.
  unfold Object_entries.
  rewrite <- (Permutation_filter_split (fun kv => isArrayIndex (fst kv)) o)
    at 3.
  apply Permutation_app_tail. apply Array_sort_Permutation.
Qed.

Lemma Array_sort_ext {A} (f g : A -> A -> Z) l :
  (forall a b, f a b = g a b) -> Array_sort f l = Array_sort g l.
Proof.
  intros Hfg. induction l as [| x l IH]; simpl; [reflexivity |].
  rewrite IH. generalize (Array_sort g l) as s.
  induction s as [| y s IHs]; simpl; [reflexivity |].
  rewrite Hfg, IHs. reflexivity.
Qed.

Lemma StronglySorted_impl {A} (R R' : A -> A -> Prop) l :
  (forall a b, R a b -> R' a b) ->
  StronglySorted R l -> StronglySorted R' l.
Proof.
  intros HR. induction 1 as [| x l Hl IH Hx]; constructor; [exact IH |].
  eapply Forall_impl; [| exact Hx]. intros y. apply HR.
Qed.

Lemma Object_entries_ownKeyOrder {V} (o : object V) :
  ownKeyOrder o (Object_entries o).
Proof.
  unfold ownKeyOrder, Object_entries.
  eexists. split; [reflexivity | split].
  - apply Array_sort_Permutation.
  - rewrite (Array_sort_ext _
               (byDecreasing (fun kv : string * V => (- indexOf (fst kv))%Z)))
      by (intros a b; unfold byDecreasing; lia).
    eapply StronglySorted_impl; [| apply Array_sort_sorted].
    simpl. intros a b H. lia.
Qed.

Lemma Object_entries_no_index {V} (o : object V) :
  forallb (fun kv => negb (isArrayIndex (fst kv))) o = true ->
  Object_entries o = o.
Proof.
  intros H. unfold Object_entries.
  assert (E1 : filter (fun kv => isArrayIndex (fst kv)) o = []).
  { induction o as [| kv o IH]; simpl in *; [reflexivity |].
    apply andb_true_iff in H. destruct H as [H1 H2].
    apply negb_true_iff in H1. rewrite H1. auto. }
  assert (E2 : filter (fun kv => negb (isArrayIndex (fst kv))) o = o).
  { induction o as [| kv o IH]; simpl in *; [reflexivity |].
    apply andb_true_iff in H. destruct H as [H1 H2].
    rewrite H1, IH; auto.
    apply negb_true_iff in H1. rewrite H1 in E1. auto. }
  rewrite E1, E2. reflexivity.
Qed.

Lemma unzip_fold {A B C} (f : A -> B) (g : A -> C) l :
  forall bs cs,
    fold_left (fun acc x => (fst acc ++ [f x], snd acc ++ [g x])) l (bs, cs)
    = (bs ++ map f l, cs ++ map g l).
Proof.
  induction l as [| x l IH]; intros bs cs; simpl.
  - rewrite !app_nil_r. reflexivity.
  - rewrite IH, <- !app_assoc. reflexivity.
Qed.

(** The assembler returns the entries of the map, sorted. *)
Lemma getCompareTableProps_sorted ras n :
  getCompareTableProps ras n
  = (t <- getScalarTableData ras n ;;
     let sorted :=
       Array_sort byDecreasingDataCount (Object_entries (dataMap t)) in
     Normal {|
       CompareTable.xLabels := xLabels t;
       CompareTable.yLabels := map fst sorted;
       CompareTable.xParentLabels := xParentLabels t;
       CompareTable.rows := map (fun e => row (snd e)) sorted
     |}).
Proof.
  unfold getCompareTableProps.
  destruct (getScalarTableData ras n) as [t | e]; simpl; [| reflexivity].
  rewrite unzip_fold. reflexivity.
Qed.

(* ================================================================== *)
(** * The scalar aggregator *)
(* ================================================================== *)

Lemma length_xLabelsOf ras : length (xLabelsOf ras) = globalArtifactCount ras.
Proof.
  unfold xLabelsOf, globalArtifactCount, artifactsOf.
  induction ras as [| ra ras IH]; simpl; [reflexivity |].
  rewrite !length_app, IH. f_equal.
  unfold xLabelsOfExecutions, artifactsOfRun.
  induction (executionArtifacts ra) as [| ea eas IHe]; simpl; [reflexivity |].
  rewrite !length_app, length_map, IHe. reflexivity.
Qed.

Lemma sumColSpan_xParentLabels ras :
  sumColSpan (map xParentLabelOf ras) = Z.of_nat (globalArtifactCount ras).
Proof.
  unfold globalArtifactCount, artifactsOf.
  induction ras as [| ra ras IH]; simpl; [reflexivity |].
  rewrite IH, length_app. lia.
Qed.

(** What a normal completion of the aggregator returns. *)
Lemma getScalarTableData_Normal ras n t :
  getScalarTableData ras n = Normal t ->
  forOf (cellsFrom 0 (artifactsOf ras)) (writeCell n) [] = Normal (dataMap t)
  /\ xLabels t = xLabelsOf ras
  /\ xParentLabels t = map xParentLabelOf ras.
Proof.
  rewrite getScalarTableData_cells. intros H. bind_inv H.
  inversion H; subst t. simpl. auto.
Qed.

(** The aggregator returns a table when no metric name is inherited from
    [Object.prototype] and [artifactCount] is a valid array length. *)
Lemma getScalarTableData_returns ras n :
  (0 <= n < 2 ^ 32)%Z ->
  Forall (fun k => ownable k = true) (metricNames ras) ->
  exists t, getScalarTableData ras n = Normal t.
Proof.
  intros Hn Hown. rewrite getScalarTableData_cells.
  destruct (cells_return n (cellsFrom 0 (artifactsOf ras)) [] Hn) as [dm E].
  - rewrite <- Forall_map with (f := cellName) (P := fun k => ownable k = true).
    rewrite names_cellsFrom. exact Hown.
  - rewrite E. simpl. eauto.
Qed.

Lemma getScalarTableData_returns_witness :
  exists t, getScalarTableData Sample.accF1 2 = Normal t.
Proof.
  apply (getScalarTableData_returns Sample.accF1 2).
  - lia.
  - repeat constructor.
Defined.

Lemma dataMap_keys ras n t :
  getScalarTableData ras n = Normal t ->
  map fst (dataMap t) = firstOccurrences (metricNames ras).
Proof.
  intros H. apply getScalarTableData_Normal in H. destruct H as [H _].
  apply keys_of_cells in H. rewrite names_cellsFrom in H. exact H.
Qed.

Lemma dataMap_entry ras n t k r :
  getScalarTableData ras n = Normal t ->
  In (k, r) (dataMap t) -> getOwn (dataMap t) k = Some r.
Proof.
  intros H. apply In_getOwn. rewrite (dataMap_keys _ _ _ H).
  apply NoDup_firstOccurrences.
Qed.

Lemma isMetricName_display : isMetricName "display_name" = false.
Proof. reflexivity. Qed.

Lemma metricNames_not_display ras : ~ In "display_name" (metricNames ras).
Proof.
  unfold metricNames. rewrite in_flat_map. intros [la [_ Hin]].
  unfold metricNamesOf in Hin. apply filter_In in Hin.
  destruct Hin as [_ Hin]. rewrite isMetricName_display in Hin.
  discriminate.
Qed.

(** A metric named like a property of [Object.prototype] makes the
    aggregator throw. *)
Lemma inheritedName_throws :
  getScalarTableData Sample.inheritedName 1 = Throw TypeError.
Proof. reflexivity. Qed.

(** C1, as amended.  Whenever the aggregator returns a table, the column
    spans of the run labels add up to the number of column labels, which
    is the number of linked artifacts of the input; and when the artifact
    count passed in is that number, every row of the map has that
    length. *)
Theorem table_shape ras n t :
  getScalarTableData ras n = Normal t ->
  sumColSpan (xParentLabels t) = Z.of_nat (length (xLabels t)) /\
  length (xLabels t) = globalArtifactCount ras /\
  (n = Z.of_nat (globalArtifactCount ras) ->
   forall k r, In (k, r) (dataMap t) ->
               length (row r) = length (xLabels t)).
Proof.
  intros H. destruct (getScalarTableData_Normal _ _ _ H) as [Hdm [Hx Hp]].
  rewrite Hx, Hp, length_xLabelsOf, sumColSpan_xParentLabels.
  split; [reflexivity | split; [reflexivity |]].
  intros Hn k r Hin. apply (dataMap_entry _ _ _ _ _ H) in Hin.
  assert (Hcols : Forall (fun c => cellColumn c < globalArtifactCount ras)
                         (cellsFrom 0 (artifactsOf ras))).
  { apply Forall_forall. intros c Hc. apply In_cellsFrom in Hc.
    unfold globalArtifactCount. lia. }
  pose proof (row_lengths_of_cells n _ _ _ Hcols Hdm k r Hin) as Hlen.
  subst n. rewrite Nat2Z.id in Hlen. lia.
Qed.

(** The table of [Sample.accF1] for two artifacts. *)
Lemma accF1_table :
  getScalarTableData Sample.accF1 2
  = Normal {|
      xLabels := ["- > -"; "- > -"];
      xParentLabels :=
        [{| CompareTable.label := "-"; CompareTable.colSpan := 2 |}];
      dataMap :=
        [("acc", {| row := [Some "0.9"; Some "0.8"]; dataCount := 2 |});
         ("f1", {| row := [Some ""; Some "0.5"]; dataCount := 1 |})] |}.
Proof. vm_compute. reflexivity. Qed.

Lemma table_shape_witness :
  exists t,
    getScalarTableData Sample.accF1 2 = Normal t /\
    sumColSpan (xParentLabels t) = 2%Z /\
    length (xLabels t) = 2 /\
    forall k r, In (k, r) (dataMap t) -> length (row r) = 2.
Proof.
  eexists. split; [exact accF1_table |].
  destruct (table_shape Sample.accF1 2 _ accF1_table) as [H1 [H2 H3]].
  split; [exact H1 | split; [exact H2 |]].
  exact (H3 eq_refl).
Defined.

(** C1 as stated fails: with one artifact and an artifact count of 3 the
    only row has three cells for a single column label. *)
Lemma shapeAsStated_counterexample :
  ~ shapeAsStated (Sample.oneRun [Sample.linked [("acc", Sample.tenths 9)]]) 3.
Proof.
  intros H.
  specialize (H {| xLabels := ["- > -"];
                   xParentLabels :=
                     [{| CompareTable.label := "-";
                         CompareTable.colSpan := 1 |}];
                   dataMap :=
                     [("acc", {| row := [Some "0.9"; Some ""; Some ""];
                                 dataCount := 1 |})] |}).
  destruct H as [_ H]; [vm_compute; reflexivity |].
  specialize (H "acc" _ (or_introl eq_refl)). discriminate H.
Qed.

(** C7.  In the table the aggregator returns for an input whose property
    maps are well formed, the data count of every row is the number of
    its non-empty cells. *)
Theorem dataCount_is_nonEmptyCells ras n t :
  Forall (fun la => jspb.wellFormed (customPropertiesOf la))
         (artifactsOf ras) ->
  getScalarTableData ras n = Normal t ->
  forall k r, In (k, r) (dataMap t) ->
              dataCount r = Z.of_nat (nonEmptyCells (row r)).
Proof.
  intros Hwf H k r Hin. apply (dataMap_entry _ _ _ _ _ H) in Hin.
  destruct (getScalarTableData_Normal _ _ _ H) as [Hdm _].
  refine (proj1 (dataCounts_of_cells n _ _ _ _ Hdm k r Hin)).
  - apply NoDup_positions. exact Hwf.
  - apply Forall_forall. intros c Hc. apply In_cellsFrom in Hc. tauto.
Qed.

Lemma accF1_wellFormed :
  Forall (fun la => jspb.wellFormed (customPropertiesOf la))
         (artifactsOf Sample.accF1).
Proof.
  repeat constructor; simpl; intuition discriminate.
Qed.

Lemma dataCount_is_nonEmptyCells_witness :
  exists t,
    getScalarTableData Sample.accF1 2 = Normal t /\
    forall k r, In (k, r) (dataMap t) ->
                dataCount r = Z.of_nat (nonEmptyCells (row r)).
Proof.
  eexists. split; [exact accF1_table |].
  exact (dataCount_is_nonEmptyCells Sample.accF1 2 _
           accF1_wellFormed accF1_table).
Defined.

(** C8.  The keys of the map the aggregator returns are the metric names
    of the input in first-met order, and the reserved name
    [display_name] is none of them. *)
Theorem display_name_never_row_key ras n t :
  getScalarTableData ras n = Normal t ->
  map fst (dataMap t) = firstOccurrences (metricNames ras) /\
  ~ In "display_name" (map fst (dataMap t)).
Proof.
  intros H. pose proof (dataMap_keys _ _ _ H) as Hk. split; [exact Hk |].
  rewrite Hk, In_firstOccurrences. apply metricNames_not_display.
Qed.

Lemma named_table :
  getScalarTableData Sample.named 1
  = Normal {|
      xLabels := ["- > -"];
      xParentLabels :=
        [{| CompareTable.label := "-"; CompareTable.colSpan := 1 |}];
      dataMap := [("metric", {| row := [Some "1"]; dataCount := 1 |})] |}.
Proof. vm_compute. reflexivity. Qed.

(** The input [{display_name: 'foo', metric: 1}] yields a map with the
    only key [metric]. *)
Lemma display_name_never_row_key_witness :
  exists t,
    getScalarTableData Sample.named 1 = Normal t /\
    map fst (dataMap t) = ["metric"] /\
    ~ In "display_name" (map fst (dataMap t)).
Proof.
  eexists. split; [exact named_table |].
  destruct (display_name_never_row_key Sample.named 1 _ named_table)
    as [H1 H2].
  split; [exact H1 | exact H2].
Defined.

(* ================================================================== *)
(** * The table assembler *)
(* ================================================================== *)

(** C2, as amended.  The labels and rows the assembler returns are the
    entries of the aggregated map sorted by decreasing data count.
    Entries with equal data counts keep the order [Object.entries] lists
    them in: metric names that are array indices first, in ascending
    numeric order, then the other names in the order they were first met.
    When no metric name is an array index this is the first-met order. *)
Theorem rows_sorted_by_dataCount ras n t p :
  getScalarTableData ras n = Normal t ->
  getCompareTableProps ras n = Normal p ->
  exists sorted,
    CompareTable.yLabels p = map fst sorted /\
    CompareTable.rows p = map (fun e => row (snd e)) sorted /\
    Permutation sorted (dataMap t) /\
    StronglySorted
      (fun a b => (dataCount (snd b) <= dataCount (snd a))%Z) sorted /\
    (forall c, filter (hasDataCount c) sorted
               = filter (hasDataCount c) (Object_entries (dataMap t))) /\
    ownKeyOrder (dataMap t) (Object_entries (dataMap t)) /\
    map fst (dataMap t) = firstOccurrences (metricNames ras) /\
    (forallb (fun k => negb (isArrayIndex k)) (metricNames ras) = true ->
     Object_entries (dataMap t) = dataMap t).
Proof.
  intros Ht Hp. rewrite getCompareTableProps_sorted, Ht in Hp. simpl in Hp.
  inversion Hp; subst p; clear Hp. simpl.
  exists (Array_sort byDecreasingDataCount (Object_entries (dataMap t))).
  split; [reflexivity | split; [reflexivity |]].
  split; [| split; [| split; [| split; [| split]]]].
  - rewrite (Array_sort_Permutation byDecreasingDataCount).
    apply Object_entries_Permutation.
  - apply (Array_sort_sorted (fun e : string * ScalarRowData =>
                                dataCount (snd e))).
  - intros c.
    apply (Array_sort_stable (fun e : string * ScalarRowData =>
                                dataCount (snd e))).
  - apply Object_entries_ownKeyOrder.
  - exact (dataMap_keys _ _ _ Ht).
  - intros Hno. apply Object_entries_no_index.
    apply forallb_forall. intros [k r] Hin. simpl.
    rewrite forallb_forall in Hno. apply Hno.
    rewrite <- In_firstOccurrences, <- (dataMap_keys _ _ _ Ht).
    change k with (fst (k, r)). apply in_map. exact Hin.
Qed.

Lemma numericNames_table :
  getScalarTableData Sample.numericNames 2
  = Normal {|
      xLabels := ["- > -"; "- > -"];
      xParentLabels :=
        [{| CompareTable.label := "-"; CompareTable.colSpan := 2 |}];
      dataMap :=
        [("2", {| row := [Some "0.9"; Some ""]; dataCount := 1 |});
         ("1", {| row := [Some ""; Some "0.8"]; dataCount := 1 |})] |}.
Proof. vm_compute. reflexivity. Qed.

Lemma numericNames_props :
  getCompareTableProps Sample.numericNames 2
  = Normal {|
      CompareTable.xLabels := ["- > -"; "- > -"];
      CompareTable.yLabels := ["1"; "2"];
      CompareTable.xParentLabels :=
        [{| CompareTable.label := "-"; CompareTable.colSpan := 2 |}];
      CompareTable.rows :=
        [[Some ""; Some "0.8"]; [Some "0.9"; Some ""]] |}.
Proof. vm_compute. reflexivity. Qed.

Lemma rows_sorted_by_dataCount_witness :
  exists sorted,
    ["1"; "2"] = map fst sorted /\
    [[Some ""; Some "0.8"]; [Some "0.9"; Some ""]]
      = map (fun e => row (snd e)) sorted /\
    StronglySorted
      (fun a b => (dataCount (snd b) <= dataCount (snd a))%Z) sorted.
Proof.
  destruct (rows_sorted_by_dataCount Sample.numericNames 2 _ _
              numericNames_table numericNames_props)
    as [sorted [H1 [H2 [_ [H3 _]]]]].
  exists sorted. split; [exact H1 | split; [exact H2 | exact H3]].
Defined.

(** C2 as stated fails: the metric ["2"] is met first and has the same
    data count as ["1"], yet ["1"] is the first row. *)
Lemma tieOrderAsStated_counterexample :
  ~ tieOrderAsStated Sample.numericNames 2.
Proof.
  intros H.
  destruct (H _ _ numericNames_table numericNames_props) as [_ Hy].
  vm_compute in Hy. discriminate Hy.
Qed.

(** C4.  For one run with one execution holding two artifacts with the
    properties [{acc: 0.9}] and [{acc: 0.8, f1: 0.5}] and an artifact
    count of 2, the assembler returns the labels [acc], [f1] and the rows
    [0.9, 0.8] and [(empty), 0.5], every written cell being the JSON text
    of the decoded property value. *)
Theorem accF1_compare_table (r : apis.ApiRunDetail) (e : mlmd.Execution.t)
  (a1 a2 : LinkedArtifact) :
  customPropertiesOf a1 = [("acc", Sample.tenths 9)] ->
  customPropertiesOf a2 = [("acc", Sample.tenths 8); ("f1", Sample.tenths 5)] ->
  exists p,
    getCompareTableProps
      [ {| run := r;
           executionArtifacts :=
             [ {| execution := e; linkedArtifacts := [a1; a2] |} ] |} ] 2
    = Normal p /\
    CompareTable.yLabels p = ["acc"; "f1"] /\
    CompareTable.rows p = [[Some "0.9"; Some "0.8"]; [Some ""; Some "0.5"]] /\
    CompareTable.rows p
    = [[Some (JSON_stringify
                (Utils.getMetadataValue (jspb.get (customPropertiesOf a1) "acc")));
        Some (JSON_stringify
                (Utils.getMetadataValue (jspb.get (customPropertiesOf a2) "acc")))];
       [Some "";
        Some (JSON_stringify
                (Utils.getMetadataValue (jspb.get (customPropertiesOf a2) "f1")))]].
Proof.
  intros H1 H2.
  rewrite getCompareTableProps_sorted, getScalarTableData_cells.
  unfold artifactsOf, artifactsOfRun. cbn [flat_map executionArtifacts
    linkedArtifacts app cellsFrom]. unfold cellsOfArtifact.
  rewrite H1, H2. eexists. split; [vm_compute; reflexivity |].
  split; [reflexivity | split; reflexivity].
Qed.

Lemma accF1_compare_table_witness :
  exists p,
    getCompareTableProps Sample.accF1 2 = Normal p /\
    CompareTable.yLabels p = ["acc"; "f1"] /\
    CompareTable.rows p = [[Some "0.9"; Some "0.8"]; [Some ""; Some "0.5"]].
Proof.
  destruct (accF1_compare_table Sample.run42 Sample.unnamedExecution
              (Sample.linked [("acc", Sample.tenths 9)])
              (Sample.linked [("acc", Sample.tenths 8);
                              ("f1", Sample.tenths 5)])
              eq_refl eq_refl) as [p [Hp [Hy [Hr _]]]].
  exists p. split; [exact Hp | split; [exact Hy | exact Hr]].
Defined.

(* ================================================================== *)
(** * The artifact validator *)
(* ================================================================== *)

Lemma ToBoolean_confidenceMetrics la :
  ToBoolean
    (optChain
       (optChain (jspb.get (customPropertiesOf la) "confidenceMetrics")
                 mlmd.getStructValue)
       (fun s => Some (mlmd.toJavaScript s)))
  = hasConfidenceMetrics la.
Proof.
  unfold hasConfidenceMetrics.
  destruct (jspb.get (customPropertiesOf la) "confidenceMetrics")
    as [[| x | s | s] |]; reflexivity.
Qed.

(** C3, as amended.  The validator returns, in the original order,
    exactly the linked artifacts whose [confidenceMetrics] property
    exists and holds a struct; it has no abrupt completion. *)
Theorem getValidArtifacts_filter ea :
  getValidArtifacts ea = filter hasConfidenceMetrics (linkedArtifacts ea) /\
  forall la,
    hasConfidenceMetrics la = true <->
    exists s, jspb.get (customPropertiesOf la) "confidenceMetrics"
              = Some (mlmd.StructValue s).
Proof.
  split.
  - unfold getValidArtifacts.
    assert (G : forall l acc,
      fold_left
        (fun validLinkedArtifacts linkedArtifact =>
           let customProperties :=
             mlmd.Artifact.getCustomPropertiesMap (artifact linkedArtifact) in
           let confidenceMetrics :=
             optChain
               (optChain (jspb.get customProperties "confidenceMetrics")
                         mlmd.getStructValue)
               (fun s => Some (mlmd.toJavaScript s)) in
           if ToBoolean confidenceMetrics
           then validLinkedArtifacts ++ [linkedArtifact]
           else validLinkedArtifacts) l acc
      = acc ++ filter hasConfidenceMetrics l).
    { induction l as [| la l IH]; intros acc; simpl.
      - rewrite app_nil_r. reflexivity.
      - rewrite IH.
        change (mlmd.Artifact.getCustomPropertiesMap (artifact la))
          with (customPropertiesOf la).
        rewrite ToBoolean_confidenceMetrics.
        destruct (hasConfidenceMetrics la); [| reflexivity].
        rewrite <- app_assoc. reflexivity. }
    apply G.
  - intros la. unfold hasConfidenceMetrics.
    destruct (jspb.get (customPropertiesOf la) "confidenceMetrics")
      as [[| x | s | s] |]; split; intros H;
      try discriminate H; try reflexivity;
      try (exists s; reflexivity);
      destruct H as [s' H]; discriminate H.
Qed.

(** The truthiness test of the validator would also reject a plain
    value 0. *)
Lemma ToBoolean_zero : ToBoolean (Some (JNumber (ofZ 0))) = false.
Proof. reflexivity. Qed.

(** C3 as stated fails: the property of the artifact exists and decodes
    to the number 0, which is not null, yet the artifact is dropped. *)
Lemma validatorAsStated_counterexample :
  ~ validatorAsStated Sample.zeroConfidence.
Proof. unfold validatorAsStated. vm_compute. discriminate. Qed.

(** An artifact whose property is an empty struct is kept, and one
    without the property is dropped. *)
Lemma getValidArtifacts_examples :
  getValidArtifacts
    {| execution := Sample.unnamedExecution;
       linkedArtifacts :=
         [ Sample.linked [("confidenceMetrics", mlmd.StructValue [])];
           Sample.linked [("accuracy", Sample.tenths 9)] ] |}
  = [ Sample.linked [("confidenceMetrics", mlmd.StructValue [])] ].
Proof. reflexivity. Qed.

(* ================================================================== *)
(** * The path resolver *)
(* ================================================================== *)

Lemma orM_resolve o typeLabel r :
  orM o (x <- nonNull (Some r) ;;
         Normal (typeLabel ++ " ID #" ++ apis.id r)%string)
  = Normal (resolveName o typeLabel (apis.id r)).
Proof.
  unfold orM, resolveName. destruct o as [s |]; [| reflexivity].
  destruct (s =? "")%string; reflexivity.
Qed.

(** C5.  On a run detail that carries its run, the resolver returns a
    path for every execution and linked artifact; it is a function of its
    arguments alone. *)
Theorem getFullArtifactPath_total run r e la :
  apis.run run = Some r ->
  exists path, getFullArtifactPath run e la = Normal path.
Proof.
  intros Hr. unfold getFullArtifactPath. rewrite Hr.
  rewrite (orM_resolve _ "Run" r). simpl. eauto.
Qed.

Lemma getFullArtifactPath_total_witness :
  exists path,
    getFullArtifactPath Sample.run42 Sample.unnamedExecution
      (Sample.linked []) = Normal path.
Proof.
  exact (getFullArtifactPath_total Sample.run42 _ Sample.unnamedExecution
           (Sample.linked []) eq_refl).
Defined.

(** C6.  Each name of the resolved path is the display name of the entity
    when it is present and non-empty and ["<EntityType> ID #<id>"]
    otherwise, and each id is the identifier of the entity. *)
Theorem getFullArtifactPath_names run r e la :
  apis.run run = Some r ->
  getFullArtifactPath run e la
  = Normal {|
      FullArtifactPath.run := {|
        name := resolveName (apis.name r) "Run" (apis.id r);
        id := apis.id r |};
      FullArtifactPath.execution := {|
        name := resolveName (mlmd.Execution.displayName e) "Execution"
                  (idText (mlmd.Execution.getId e));
        id := idText (mlmd.Execution.getId e) |};
      FullArtifactPath.artifact := {|
        name := resolveName (mlmd.Artifact.displayName (artifact la))
                  "Artifact" (idText (mlmd.Artifact.getId (artifact la)));
        id := idText (mlmd.Artifact.getId (artifact la)) |}
    |}.
Proof.
  intros Hr. unfold getFullArtifactPath. rewrite Hr.
  rewrite (orM_resolve _ "Run" r). reflexivity.
Qed.

(** A run with no name and id 42 resolves to ["Run ID #42"]; the
    execution and the artifact are analogous. *)
Lemma getFullArtifactPath_names_witness :
  getFullArtifactPath Sample.run42 Sample.unnamedExecution (Sample.linked [])
  = Normal {|
      FullArtifactPath.run := {| name := "Run ID #42"; id := "42" |};
      FullArtifactPath.execution :=
        {| name := "Execution ID #7"; id := "7" |};
      FullArtifactPath.artifact :=
        {| name := "Artifact ID #3"; id := "3" |}
    |}.
Proof.
  exact (getFullArtifactPath_names Sample.run42 _ Sample.unnamedExecution
           (Sample.linked []) eq_refl).
Defined.

(** Without the run of the detail there is no id to read: the resolver
    throws. *)
Lemma getFullArtifactPath_without_run e la :
  getFullArtifactPath {| apis.run := None |} e la = Throw TypeError.
Proof. reflexivity. Qed.

(* ================================================================== *)
(** * Metrics types *)
(* ================================================================== *)

(** C9.  Each of the five metrics types has its label, and every other
    number maps to the empty string. *)
Theorem metricsTypeToString_total :
  metricsTypeToString MetricsType.SCALAR_METRICS = "Scalar Metrics" /\
  metricsTypeToString MetricsType.CONFUSION_MATRIX = "Confusion Matrix" /\
  metricsTypeToString MetricsType.ROC_CURVE = "ROC Curve" /\
  metricsTypeToString MetricsType.HTML = "HTML" /\
  metricsTypeToString MetricsType.MARKDOWN = "Markdown" /\
  forall metricsType : Z,
    (metricsType < 0 \/ 4 < metricsType)%Z ->
    metricsTypeToString metricsType = "".
Proof.
  repeat (split; [reflexivity |]).
  intros m Hm. unfold metricsTypeToString, MetricsType.SCALAR_METRICS,
    MetricsType.CONFUSION_MATRIX, MetricsType.ROC_CURVE, MetricsType.HTML,
    MetricsType.MARKDOWN.
  repeat match goal with
    | |- context [(m =? ?c)%Z] =>
        destruct (Z.eqb_spec m c); [lia |]
    end.
  reflexivity.
Qed.
(* ================================================================== *)
(** * What the cells of the table hold *)
(* ================================================================== *)

Lemma nth_repeat_Some {A} (v : A) : forall m j,
  nth j (repeat (Some v) m) None = if j <? m then Some v else None.
Proof.
  induction m as [| m IH]; intros [| j]; try reflexivity.
  cbn [repeat nth]. rewrite IH. reflexivity.
Qed.

Lemma Array_fill_range {A} n (v : A) a :
  Array_fill n v = Normal a -> (0 <= n < 2 ^ 32)%Z.
Proof.
  unfold Array_fill.
  destruct ((0 <=? n)%Z && (n <? 2 ^ 32)%Z) eqn:E; [| discriminate].
  intros _. apply andb_true_iff in E. destruct E as [E1 E2].
  apply Z.leb_le in E1. apply Z.ltb_lt in E2. split; assumption.
Qed.

Lemma In_position_snoc (done : list cell) i k text j k' :
  In (j, k') (map fst (done ++ [(i, k, text)]))
  <-> In (j, k') (map fst done) \/ (j = i /\ k' = k).
Proof.
  rewrite map_app, in_app_iff. simpl. split.
  - intros [H | [H | []]]; [left; exact H |].
    inversion H; subst. right. split; reflexivity.
  - intros [H | [-> ->]]; [left; exact H | right; left; reflexivity].
Qed.

(** When every cell of the input carries the text [textAt column name],
    a slot of a row holds that text if a cell was written there, and
    otherwise what the fresh row held: the empty string below
    [artifactCount], nothing beyond. *)
Lemma contents_of_cells n (textAt : nat -> string -> string) cells dm :
  Forall (fun c => cellContent c = textAt (cellColumn c) (cellName c)) cells ->
  forOf cells (writeCell n) [] = Normal dm ->
  forall k r, getOwn dm k = Some r ->
    (0 <= n < 2 ^ 32)%Z /\
    forall j,
      (In (j, k) (map fst cells) -> nth j (row r) None = Some (textAt j k)) /\
      (~ In (j, k) (map fst cells) ->
       nth j (row r) None = if j <? Z.to_nat n then Some "" else None).
Proof.
  intros Htext Hrun.
  enough (G : (forall c, In c cells -> getOwn dm (cellName c) <> None) /\
              forall k r, getOwn dm k = Some r ->
                (0 <= n < 2 ^ 32)%Z /\
                forall j,
                  (In (j, k) (map fst cells) ->
                   nth j (row r) None = Some (textAt j k)) /\
                  (~ In (j, k) (map fst cells) ->
                   nth j (row r) None
                   = if j <? Z.to_nat n then Some "" else None))
    by exact (proj2 G).
  revert Hrun.
  apply (forOf_invariant (writeCell n)
    (fun done dm =>
       (forall c, In c done -> getOwn dm (cellName c) <> None) /\
       forall k r, getOwn dm k = Some r ->
         (0 <= n < 2 ^ 32)%Z /\
         forall j,
           (In (j, k) (map fst done) ->
            nth j (row r) None = Some (textAt j k)) /\
           (~ In (j, k) (map fst done) ->
            nth j (row r) None
            = if j <? Z.to_nat n then Some "" else None)));
    [| split; [intros c [] | discriminate]].
  intros done [[i k] text] rest s s' Hl [Hkeys IH] Hw.
  assert (Ht : text = textAt i k).
  { rewrite Hl in Htext. apply Forall_app in Htext.
    destruct Htext as [_ Htext]. inversion Htext; subst. assumption. }
  apply writeCell_Normal in Hw. destruct Hw as [r0 [Hprev ->]].
  split.
  - intros c Hc. apply in_app_or in Hc.
    destruct (string_dec k (cellName c)) as [<- | Hne].
    + rewrite getOwn_set_same. discriminate.
    + rewrite getOwn_set_other by exact Hne.
      destruct Hc as [Hc | [<- | []]]; [exact (Hkeys c Hc) |].
      exfalso. apply Hne. reflexivity.
  - intros k' r Hr. destruct (string_dec k k') as [<- | Hne].
    + rewrite getOwn_set_same in Hr. inversion Hr; subst r. cbn [row].
      assert (H0 : (0 <= n < 2 ^ 32)%Z /\
                   forall j,
                     (In (j, k) (map fst done) ->
                      nth j (row r0) None = Some (textAt j k)) /\
                     (~ In (j, k) (map fst done) ->
                      nth j (row r0) None
                      = if j <? Z.to_nat n then Some "" else None)).
      { destruct Hprev as [Hold | [Hnew [_ [Hfill _]]]].
        - exact (IH _ _ Hold).
        - split; [exact (Array_fill_range _ _ _ Hfill) |].
          apply Array_fill_Normal in Hfill. intros j. split.
          + intros Hin. exfalso. apply in_map_iff in Hin.
            destruct Hin as [c [Ec Hc]]. apply (Hkeys c Hc).
            destruct c as [[j' k''] text']. simpl in Ec.
            inversion Ec; subst. exact Hnew.
          + intros _. rewrite Hfill. apply nth_repeat_Some. }
      destruct H0 as [Hn Hslots]. split; [exact Hn |].
      intros j. rewrite nth_Array_set, In_position_snoc.
      destruct (Nat.eqb_spec j i) as [-> | Hji].
      * split; [intros _; rewrite Ht; reflexivity |].
        intros Hnot. exfalso. apply Hnot. right. split; reflexivity.
      * destruct (Hslots j) as [H1 H2]. split.
        -- intros [Hin | [E _]]; [exact (H1 Hin) | contradiction].
        -- intros Hnot. apply H2. intros Hin. apply Hnot. left. exact Hin.
    + rewrite getOwn_set_other in Hr by exact Hne.
      destruct (IH _ _ Hr) as [Hn Hslots]. split; [exact Hn |].
      intros j. rewrite In_position_snoc. destruct (Hslots j) as [H1 H2].
      split.
      * intros [Hin | [_ E]]; [exact (H1 Hin) |].
        exfalso. apply Hne. symmetry. exact E.
      * intros Hnot. apply H2. intros Hin. apply Hnot. left. exact Hin.
Qed.

Lemma positions_cellsOfArtifact i la :
  map fst (cellsOfArtifact i la) = map (pair i) (metricNamesOf la).
Proof.
  rewrite <- (names_cellsOfArtifact i la).
  unfold cellsOfArtifact, cellsOfEntries. rewrite !map_map. reflexivity.
Qed.

(** A position was written exactly when the artifact of that column has
    the metric. *)
Lemma In_positions : forall las i j k,
  In (j, k) (map fst (cellsFrom i las)) <->
  exists la, i <= j /\ nth_error las (j - i) = Some la /\
             In k (metricNamesOf la).
Proof.
  induction las as [| la las IH]; intros i j k; cbn [cellsFrom].
  - simpl. split; [contradiction |].
    intros [la [_ [H _]]]. destruct (j - i); discriminate H.
  - rewrite map_app, in_app_iff, positions_cellsOfArtifact, IH, in_map_iff.
    split.
    + intros [[k' [E Hk]] | [la' [Hij [Hnth Hk]]]].
      * inversion E; subst. exists la. rewrite Nat.sub_diag.
        split; [lia | split; [reflexivity | exact Hk]].
      * exists la'. split; [lia |]. split; [| exact Hk].
        replace (j - i) with (S (j - S i)) by lia. exact Hnth.
    + intros [la' [Hij [Hnth Hk]]].
      destruct (Nat.eq_dec j i) as [-> | Hne].
      * left. rewrite Nat.sub_diag in Hnth. inversion Hnth; subst.
        exists k. split; [reflexivity | exact Hk].
      * right. exists la'. split; [lia |]. split; [| exact Hk].
        replace (j - i) with (S (j - S i)) in Hnth by lia. exact Hnth.
Qed.

Lemma texts_cellsOfArtifact i la :
  Forall (fun c => cellColumn c = i /\
                   cellContent c = cellText (customPropertiesOf la) (cellName c))
         (cellsOfArtifact i la).
Proof.
  apply Forall_forall. intros c Hc.
  unfold cellsOfArtifact, cellsOfEntries in Hc. apply in_map_iff in Hc.
  destruct Hc as [e [<- _]]. split; reflexivity.
Qed.

(** The text of a cell is the JSON text of the property of its column's
    artifact. *)
Lemma texts_cellsFrom : forall las pre,
  Forall (fun c =>
            cellContent c
            = match nth_error (pre ++ las) (cellColumn c) with
              | Some la => cellText (customPropertiesOf la) (cellName c)
              | None => ""
              end)
         (cellsFrom (length pre) las).
Proof.
  induction las as [| la las IH]; intros pre; cbn [cellsFrom];
    [constructor |].
  apply Forall_app. split.
  - eapply Forall_impl; [| apply texts_cellsOfArtifact].
    intros c [Hc Ht]. rewrite Hc, nth_error_app2, Nat.sub_diag by lia.
    exact Ht.
  - specialize (IH (pre ++ [la])).
    rewrite length_app, Nat.add_1_r, <- app_assoc in IH. exact IH.
Qed.

Lemma In_metricNamesOf k la :
  In k (metricNamesOf la) <->
  isMetricName k = true /\ jspb.get (customPropertiesOf la) k <> None.
Proof.
  unfold metricNamesOf, jspb.get, jspb.getEntryList.
  rewrite filter_In, getOwn_None_notin. split.
  - intros [H1 H2]. split; [exact H2 | tauto].
  - intros [H1 H2]. split; [| exact H1].
    destruct (in_dec string_dec k (map fst (customPropertiesOf la)));
      [assumption | contradiction].
Qed.

(** Every cell of the aggregated table: in the column of an artifact
    that has the metric, the JSON text of the decoded value; in the
    column of an artifact without it, or beyond the artifacts, what the
    fresh row held. *)
Lemma table_cell ras n t k r :
  getScalarTableData ras n = Normal t ->
  In (k, r) (dataMap t) ->
  (0 <= n < 2 ^ 32)%Z /\
  (forall j la,
     nth_error (artifactsOf ras) j = Some la ->
     nth j (row r) None
     = match jspb.get (customPropertiesOf la) k with
       | Some v => Some (JSON_stringify (Utils.getMetadataValue (Some v)))
       | None => if (Z.of_nat j <? n)%Z then Some "" else None
       end) /\
  (forall j,
     globalArtifactCount ras <= j ->
     nth j (row r) None = if (Z.of_nat j <? n)%Z then Some "" else None).
Proof.
  intros H Hin.
  assert (Hk : isMetricName k = true).
  { apply negb_true_iff, String.eqb_neq. intros ->.
    apply (metricNames_not_display ras).
    rewrite <- In_firstOccurrences, <- (dataMap_keys _ _ _ H).
    change "display_name" with (fst ("display_name", r)).
    apply in_map. exact Hin. }
  apply (dataMap_entry _ _ _ _ _ H) in Hin.
  destruct (getScalarTableData_Normal _ _ _ H) as [Hdm _].
  destruct (contents_of_cells n
              (fun j k => match nth_error (artifactsOf ras) j with
                          | Some la => cellText (customPropertiesOf la) k
                          | None => ""
                          end)
              _ _ (texts_cellsFrom (artifactsOf ras) []) Hdm k r Hin)
    as [Hn Hslots].
  assert (Hlt : forall j,
            (j <? Z.to_nat n) = (Z.of_nat j <? n)%Z).
  { intros j. destruct (Nat.ltb_spec j (Z.to_nat n));
      destruct (Z.ltb_spec (Z.of_nat j) n); try reflexivity; lia. }
  split; [exact Hn | split].
  - intros j la Hj. destruct (Hslots j) as [H1 H2].
    destruct (jspb.get (customPropertiesOf la) k) as [v |] eqn:Eg.
    + rewrite H1, Hj.
      * unfold cellText. rewrite Eg. reflexivity.
      * apply In_positions. exists la. rewrite Nat.sub_0_r.
        split; [apply Nat.le_0_l | split; [exact Hj |]].
        apply In_metricNamesOf. split; [exact Hk | congruence].
    + rewrite H2, Hlt; [reflexivity |].
      intros Hp. apply In_positions in Hp.
      destruct Hp as [la' [_ [Hj' Hk']]]. rewrite Nat.sub_0_r, Hj in Hj'.
      inversion Hj'; subst la'. apply In_metricNamesOf in Hk'.
      destruct Hk' as [_ Hk']. contradiction.
  - intros j Hj. destruct (Hslots j) as [_ H2]. rewrite H2, Hlt;
      [reflexivity |].
    intros Hp. apply In_positions in Hp.
    destruct Hp as [la' [_ [Hj' _]]]. rewrite Nat.sub_0_r in Hj'.
    assert (Hlen : j < length (artifactsOf ras))
      by (apply nth_error_Some; congruence).
    unfold globalArtifactCount in Hj. lia.
Qed.

(** A label of the assembled table and the row at the same place are an
    entry of the aggregated map. *)
Lemma compare_table_row ras n p i k r :
  getCompareTableProps ras n = Normal p ->
  nth_error (CompareTable.yLabels p) i = Some k ->
  nth_error (CompareTable.rows p) i = Some r ->
  exists t d,
    getScalarTableData ras n = Normal t /\ In (k, d) (dataMap t) /\
    row d = r.
Proof.
  rewrite getCompareTableProps_sorted. intros Hp Hk Hr. bind_inv Hp.
  inversion Hp; subst p; clear Hp. cbn [CompareTable.yLabels
    CompareTable.rows] in Hk, Hr.
  rewrite nth_error_map in Hk, Hr.
  destruct (nth_error _ i) as [[k' d] |] eqn:Ei; [| discriminate].
  simpl in Hk, Hr. inversion Hk; inversion Hr; subst.
  exists a, d. split; [reflexivity | split; [| reflexivity]].
  apply nth_error_In in Ei.
  eapply Permutation_in; [apply Object_entries_Permutation |].
  eapply Permutation_in;
    [apply (Array_sort_Permutation byDecreasingDataCount) | exact Ei].
Qed.

(** In the table the assembler returns, the row of metric [k] holds
    in the column of artifact [j] the JSON text of the decoded value of
    the property [k] of that artifact; when the artifact has no such
    property, and in every column beyond the artifacts, the slot is the
    empty string below [artifactCount] and was never written from
    [artifactCount] on. *)
Theorem compare_table_cells ras n p i k r :
  getCompareTableProps ras n = Normal p ->
  nth_error (CompareTable.yLabels p) i = Some k ->
  nth_error (CompareTable.rows p) i = Some r ->
  (forall j la,
     nth_error (artifactsOf ras) j = Some la ->
     nth j r None
     = match jspb.get (customPropertiesOf la) k with
       | Some v => Some (JSON_stringify (Utils.getMetadataValue (Some v)))
       | None => if (Z.of_nat j <? n)%Z then Some "" else None
       end) /\
  (forall j,
     globalArtifactCount ras <= j ->
     nth j r None = if (Z.of_nat j <? n)%Z then Some "" else None).
Proof.
  intros Hp Hk Hr.
  destruct (compare_table_row _ _ _ _ _ _ Hp Hk Hr) as [t [d [Ht [Hin <-]]]].
  exact (proj2 (table_cell _ _ _ _ _ Ht Hin)).
Qed.

Lemma accF1_props :
  getCompareTableProps Sample.accF1 2
  = Normal {|
      CompareTable.xLabels := ["- > -"; "- > -"];
      CompareTable.yLabels := ["acc"; "f1"];
      CompareTable.xParentLabels :=
        [{| CompareTable.label := "-"; CompareTable.colSpan := 2 |}];
      CompareTable.rows :=
        [[Some "0.9"; Some "0.8"]; [Some ""; Some "0.5"]] |}.
Proof. vm_compute. reflexivity. Qed.

(** The row of [f1] in the table of [Sample.accF1]: empty for the first
    artifact, which has no [f1], and [0.5] for the second. *)
Lemma compare_table_cells_witness :
  nth 0 [Some ""; Some "0.5"] None = Some "" /\
  nth 1 [Some ""; Some "0.5"] None = Some "0.5" /\
  nth 2 [Some ""; Some "0.5"] None = @None string.
Proof.
  destruct (compare_table_cells Sample.accF1 2 _ 1 "f1" [Some ""; Some "0.5"]
              accF1_props eq_refl eq_refl) as [H1 H2].
  split; [exact (H1 0 _ eq_refl) | split; [exact (H1 1 _ eq_refl) |]].
  apply (H2 2). unfold globalArtifactCount. simpl. lia.
Defined.

(* ================================================================== *)
(** * Data counts count property entries *)
(* ================================================================== *)

(** The data count of a row is the number of cells written for its
    metric. *)
Lemma dataCounts_count_cells n cells dm :
  forOf cells (writeCell n) [] = Normal dm ->
  forall k r, getOwn dm k = Some r ->
    dataCount r = Z.of_nat (count_occ string_dec (map cellName cells) k).
Proof.
  intros Hrun.
  enough (G : (forall k, getOwn dm k = None ->
                         ~ In k (map cellName cells)) /\
              forall k r, getOwn dm k = Some r ->
                dataCount r
                = Z.of_nat (count_occ string_dec (map cellName cells) k))
    by exact (proj2 G).
  revert Hrun.
  apply (forOf_invariant (writeCell n)
    (fun done dm =>
       (forall k, getOwn dm k = None -> ~ In k (map cellName done)) /\
       forall k r, getOwn dm k = Some r ->
         dataCount r
         = Z.of_nat (count_occ string_dec (map cellName done) k)));
    [| split; [intros k _ [] | discriminate]].
  intros done [[i k] text] rest s s' _ [Hkeys IH] Hw.
  apply writeCell_Normal in Hw. destruct Hw as [r0 [Hprev ->]].
  rewrite map_app. cbn [map]. change (cellName (i, k, text)) with k.
  split.
  - intros k' Hnone. destruct (string_dec k k') as [<- | Hne].
    + rewrite getOwn_set_same in Hnone. discriminate.
    + rewrite getOwn_set_other in Hnone by exact Hne.
      rewrite in_app_iff. intros [Hin | [E | []]];
        [exact (Hkeys _ Hnone Hin) | contradiction].
  - intros k' r Hr. rewrite count_occ_app. cbn [count_occ].
    destruct (string_dec k k') as [<- | Hne].
    + rewrite getOwn_set_same in Hr. inversion Hr; subst r. cbn [dataCount].
      assert (H0 : dataCount r0
                   = Z.of_nat (count_occ string_dec (map cellName done) k)).
      { destruct Hprev as [Hold | [Hnew [_ [_ Hzero]]]].
        - exact (IH _ _ Hold).
        - rewrite Hzero.
          rewrite (proj1 (count_occ_not_In string_dec _ _) (Hkeys _ Hnew)).
          reflexivity. }
      rewrite H0. lia.
    + rewrite getOwn_set_other in Hr by exact Hne.
      rewrite (IH _ _ Hr). lia.
Qed.

Lemma table_dataCount ras n t k r :
  getScalarTableData ras n = Normal t ->
  In (k, r) (dataMap t) ->
  dataCount r = Z.of_nat (count_occ string_dec (metricNames ras) k).
Proof.
  intros H Hin. apply (dataMap_entry _ _ _ _ _ H) in Hin.
  destruct (getScalarTableData_Normal _ _ _ H) as [Hdm _].
  rewrite (dataCounts_count_cells _ _ _ Hdm k r Hin), names_cellsFrom.
  reflexivity.
Qed.

(** The data count of the row of a metric is the number of property
    entries of that name over all artifacts of the input, and it is at
    least 1: the map has no row that was never written. *)
Theorem dataCount_counts_entries ras n t k r :
  getScalarTableData ras n = Normal t ->
  In (k, r) (dataMap t) ->
  dataCount r = Z.of_nat (count_occ string_dec (metricNames ras) k) /\
  (1 <= dataCount r)%Z.
Proof.
  intros H Hin. pose proof (table_dataCount _ _ _ _ _ H Hin) as Hc.
  split; [exact Hc |]. rewrite Hc.
  assert (Hk : In k (metricNames ras)).
  { rewrite <- In_firstOccurrences, <- (dataMap_keys _ _ _ H).
    change k with (fst (k, r)). apply in_map. exact Hin. }
  apply (count_occ_In string_dec) in Hk. lia.
Qed.

(** The metric [f1] of [Sample.accF1] is a property of one artifact. *)
Lemma dataCount_counts_entries_witness :
  dataCount {| row := [Some ""; Some "0.5"]; dataCount := 1 |}
  = Z.of_nat (count_occ string_dec (metricNames Sample.accF1) "f1") /\
  (1 <= dataCount {| row := [Some ""; Some "0.5"]; dataCount := 1 |})%Z.
Proof.
  apply (dataCount_counts_entries Sample.accF1 2 _ "f1" _ accF1_table).
  right. left. reflexivity.
Defined.

Lemma StronglySorted_map {A B} (f : A -> B) (R : B -> B -> Prop) l :
  StronglySorted (fun a b => R (f a) (f b)) l -> StronglySorted R (map f l).
Proof.
  induction 1 as [| a l _ IH Hall]; simpl; constructor; [exact IH |].
  apply Forall_map. exact Hall.
Qed.

Lemma StronglySorted_weaken {A} (R R' : A -> A -> Prop) l :
  (forall a b, In a l -> In b l -> R a b -> R' a b) ->
  StronglySorted R l -> StronglySorted R' l.
Proof.
  intros Himp Hs. induction Hs as [| a l _ IH Hall]; constructor.
  - apply IH. intros x y Hx Hy. apply Himp; right; assumption.
  - rewrite Forall_forall in *. intros b Hb.
    apply Himp; [left; reflexivity | right; exact Hb | exact (Hall b Hb)].
Qed.

(** The labels of the assembled table are in decreasing order of the
    number of property entries that carry the metric. *)
Theorem yLabels_by_occurrences ras n p :
  getCompareTableProps ras n = Normal p ->
  StronglySorted
    (fun a b => count_occ string_dec (metricNames ras) b
                <= count_occ string_dec (metricNames ras) a)
    (CompareTable.yLabels p).
Proof.
  rewrite getCompareTableProps_sorted. intros Hp. bind_inv Hp.
  inversion Hp; subst p; clear Hp. cbn [CompareTable.yLabels].
  apply StronglySorted_map.
  eapply StronglySorted_weaken;
    [| apply (Array_sort_sorted (fun e : string * ScalarRowData =>
                                   dataCount (snd e)))].
  intros [k1 r1] [k2 r2] H1 H2 Hle. cbn [fst snd] in *.
  assert (Hin : forall e,
            In e (Array_sort byDecreasingDataCount
                    (Object_entries (dataMap a))) -> In e (dataMap a)).
  { intros e He.
    eapply Permutation_in; [apply Object_entries_Permutation |].
    eapply Permutation_in;
      [apply (Array_sort_Permutation byDecreasingDataCount) | exact He]. }
  apply Hin in H1, H2.
  rewrite (table_dataCount _ _ _ _ _ Ha H1) in Hle.
  rewrite (table_dataCount _ _ _ _ _ Ha H2) in Hle. lia.
Qed.

Lemma yLabels_by_occurrences_witness :
  StronglySorted
    (fun a b => count_occ string_dec (metricNames Sample.accF1) b
                <= count_occ string_dec (metricNames Sample.accF1) a)
    ["acc"; "f1"].
Proof.
  exact (yLabels_by_occurrences Sample.accF1 2 _ accF1_props).
Defined.

(* ================================================================== *)
(** * Row lengths for any artifact count *)
(* ================================================================== *)

(** A row longer than [artifactCount] ends in a written cell: rows grow
    only to reach a written column. *)
Lemma trailing_of_cells n cells dm :
  Forall (fun c => cellContent c <> "") cells ->
  forOf cells (writeCell n) [] = Normal dm ->
  forall k r, getOwn dm k = Some r ->
    Z.to_nat n < length (row r) ->
    isData (nth (length (row r) - 1) (row r) None) = true.
Proof.
  intros Htext.
  apply (forOf_preserves (writeCell n)
           (fun dm => forall k r, getOwn dm k = Some r ->
              Z.to_nat n < length (row r) ->
              isData (nth (length (row r) - 1) (row r) None) = true)
           (fun c => cellContent c <> "")); [| exact Htext | discriminate].
  intros [[i k] text] s s' Ht IH Hw k' r Hr.
  apply writeCell_Normal in Hw. destruct Hw as [r0 [Hprev ->]].
  unfold cellContent in Ht. simpl in Ht.
  destruct (string_dec k k') as [<- | Hne].
  - rewrite getOwn_set_same in Hr. inversion Hr; subst r. cbn [row].
    rewrite length_Array_set, nth_Array_set. intros Hlen.
    destruct (Nat.eqb_spec (Nat.max (length (row r0)) (S i) - 1) i)
      as [_ | Hlast].
    + simpl. apply negb_true_iff, String.eqb_neq. exact Ht.
    + assert (E : Nat.max (length (row r0)) (S i) = length (row r0)) by lia.
      rewrite E in *. destruct Hprev as [Hold | [_ [_ [Hfill _]]]].
      * exact (IH _ _ Hold Hlen).
      * apply Array_fill_Normal in Hfill.
        rewrite Hfill, repeat_length in Hlen. lia.
  - rewrite getOwn_set_other in Hr by exact Hne. exact (IH _ _ Hr).
Qed.

(** Whatever artifact count is passed in, a row of the aggregated map is
    never shorter than [artifactCount] and never longer than the larger
    of [artifactCount] and the number of artifacts; a row longer than
    [artifactCount] ends in a cell that holds data.  A map with a row
    was built with a valid array length. *)
Theorem row_length_bounds ras n t k r :
  getScalarTableData ras n = Normal t ->
  In (k, r) (dataMap t) ->
  (0 <= n < 2 ^ 32)%Z /\
  Z.to_nat n <= length (row r)
    <= Nat.max (Z.to_nat n) (globalArtifactCount ras) /\
  (Z.to_nat n < length (row r) ->
   isData (nth (length (row r) - 1) (row r) None) = true).
Proof.
  intros H Hin. split; [exact (proj1 (table_cell _ _ _ _ _ H Hin)) |].
  apply (dataMap_entry _ _ _ _ _ H) in Hin.
  destruct (getScalarTableData_Normal _ _ _ H) as [Hdm _].
  assert (Hcols : Forall (fun c => cellColumn c < globalArtifactCount ras)
                         (cellsFrom 0 (artifactsOf ras))).
  { apply Forall_forall. intros c Hc. apply In_cellsFrom in Hc.
    unfold globalArtifactCount. lia. }
  split; [exact (row_lengths_of_cells n _ _ _ Hcols Hdm k r Hin) |].
  refine (trailing_of_cells n _ _ _ Hdm k r Hin).
  apply Forall_forall. intros c Hc. apply In_cellsFrom in Hc. tauto.
Qed.

Lemma shortCount_table :
  getScalarTableData Sample.accF1 1
  = Normal {|
      xLabels := ["- > -"; "- > -"];
      xParentLabels :=
        [{| CompareTable.label := "-"; CompareTable.colSpan := 2 |}];
      dataMap :=
        [("acc", {| row := [Some "0.9"; Some "0.8"]; dataCount := 2 |});
         ("f1", {| row := [Some ""; Some "0.5"]; dataCount := 1 |})] |}.
Proof. vm_compute. reflexivity. Qed.

(** With an artifact count of 1 for the two artifacts of [Sample.accF1]
    the row of [f1] has grown to two cells. *)
Lemma row_length_bounds_witness :
  (0 <= 1 < 2 ^ 32)%Z /\
  1 <= length [Some ""; Some "0.5"] <= 2 /\
  (1 < length [Some ""; Some "0.5"] ->
   isData (nth (length [Some ""; Some "0.5"] - 1) [Some ""; Some "0.5"] None)
   = true).
Proof.
  apply (row_length_bounds Sample.accF1 1 _ "f1"
           {| row := [Some ""; Some "0.5"]; dataCount := 1 |}
           shortCount_table).
  right. left. reflexivity.
Defined.

(* ================================================================== *)
(** * When the aggregation throws *)
(* ================================================================== *)

Lemma cells_of_names i las k rest :
  flat_map metricNamesOf las = k :: rest ->
  exists c cs, cellsFrom i las = c :: cs /\ cellName c = k.
Proof.
  rewrite <- (names_cellsFrom i las).
  destruct (cellsFrom i las) as [| c cs]; simpl; [discriminate |].
  intros H. inversion H. eauto.
Qed.

Lemma assembler_throws ras n e :
  getScalarTableData ras n = Throw e -> getCompareTableProps ras n = Throw e.
Proof. unfold getCompareTableProps. intros ->. reflexivity. Qed.

(** With an artifact count that is no array length, the first metric of
    the input already makes the aggregation throw: a [RangeError] from
    [Array(artifactCount)], or a [TypeError] when the name is inherited
    from [Object.prototype], in which case no row is created. *)
Theorem invalid_artifactCount_throws ras n k rest :
  ~ (0 <= n < 2 ^ 32)%Z ->
  metricNames ras = k :: rest ->
  getScalarTableData ras n
    = Throw (if ownable k then RangeError else TypeError) /\
  getCompareTableProps ras n
    = Throw (if ownable k then RangeError else TypeError).
Proof.
  intros Hn Hk.
  assert (G : getScalarTableData ras n
              = Throw (if ownable k then RangeError else TypeError)).
  { rewrite getScalarTableData_cells.
    destruct (cells_of_names 0 _ _ _ Hk) as [[[i k'] text] [cs [-> Ek]]].
    unfold cellName in Ek. simpl in Ek. subst k'.
    cbn [forOf writeCell]. destruct (ownable k) eqn:Eown.
    - rewrite (get_undefined [] k eq_refl Eown). cbn [truthy negb].
      unfold Array_fill.
      replace ((0 <=? n)%Z && (n <? 2 ^ 32)%Z) with false; [reflexivity |].
      symmetry. apply andb_false_iff.
      destruct (Z.leb_spec 0 n); [| left; reflexivity].
      right. apply Z.ltb_ge. lia.
    - rewrite (get_inherited [] k eq_refl Eown). cbn [truthy negb JS.bind].
      rewrite (get_inherited [] k eq_refl Eown). reflexivity. }
  split; [exact G | exact (assembler_throws _ _ _ G)].
Qed.

Lemma invalid_artifactCount_throws_witness :
  getScalarTableData Sample.accF1 (-1) = Throw RangeError /\
  getCompareTableProps Sample.accF1 (-1) = Throw RangeError.
Proof.
  apply (invalid_artifactCount_throws Sample.accF1 (-1) "acc" ["acc"; "f1"]).
  - lia.
  - reflexivity.
Defined.

Lemma split_first_inherited names :
  existsb (fun k => negb (ownable k)) names = true ->
  exists pre k post,
    names = pre ++ k :: post /\ ownable k = false /\
    Forall (fun k' => ownable k' = true) pre.
Proof.
  induction names as [| x names IH]; simpl; [discriminate |].
  destruct (ownable x) eqn:Ex; simpl.
  - intros H. destruct (IH H) as [pre [k [post [-> [Hk Hpre]]]]].
    exists (x :: pre), k, post. split; [reflexivity |].
    split; [exact Hk | constructor; assumption].
  - intros _. exists [], x, names. split; [reflexivity |].
    split; [exact Ex | constructor].
Qed.

Lemma map_eq_app_cons {A B} (f : A -> B) l pre y post :
  map f l = pre ++ y :: post ->
  exists l1 x l2,
    l = l1 ++ x :: l2 /\ map f l1 = pre /\ f x = y /\ map f l2 = post.
Proof.
  revert l. induction pre as [| p pre IH]; intros [| a l] H; simpl in H;
    try discriminate.
  - inversion H. exists [], a, l. auto.
  - inversion H as [[Ha Hl]]. destruct (IH _ Hl) as [l1 [x [l2 [-> [E1 [E2 E3]]]]]].
    exists (a :: l1), x, l2. simpl. rewrite E1. auto.
Qed.

(** With a valid artifact count, a metric named like a property of
    [Object.prototype] makes the aggregation throw a [TypeError]: the
    inherited value passes the test [!dataMap[name]], no row is created,
    and the write to [row[artifactIndex]] fails. *)
Theorem inherited_metric_name_throws ras n :
  (0 <= n < 2 ^ 32)%Z ->
  existsb (fun k => negb (ownable k)) (metricNames ras) = true ->
  getScalarTableData ras n = Throw TypeError /\
  getCompareTableProps ras n = Throw TypeError.
Proof.
  intros Hn Hex.
  assert (G : getScalarTableData ras n = Throw TypeError).
  { rewrite getScalarTableData_cells.
    destruct (split_first_inherited _ Hex) as [pre [k [post [E [Hk Hpre]]]]].
    unfold metricNames in E. rewrite <- (names_cellsFrom 0) in E.
    destruct (map_eq_app_cons _ _ _ _ _ E)
      as [done [[[i k'] text] [rest [-> [E1 [E2 _]]]]]].
    unfold cellName in E2. simpl in E2. subst k'.
    rewrite forOf_app.
    destruct (cells_return n done [] Hn) as [dm1 Hrun].
    { rewrite <- Forall_map with (f := cellName)
                                 (P := fun k => ownable k = true).
      rewrite E1. exact Hpre. }
    rewrite Hrun. cbn [JS.bind forOf writeCell].
    assert (Hnone : getOwn dm1 k = None).
    { apply getOwn_None_notin. rewrite (keys_of_cells _ _ _ Hrun).
      rewrite In_firstOccurrences, E1. intros Hin.
      rewrite Forall_forall in Hpre. rewrite (Hpre _ Hin) in Hk.
      discriminate. }
    rewrite (get_inherited _ _ Hnone Hk). cbn [truthy negb JS.bind].
    rewrite (get_inherited _ _ Hnone Hk). reflexivity. }
  split; [exact G | exact (assembler_throws _ _ _ G)].
Qed.

Lemma inherited_metric_name_throws_witness :
  getScalarTableData (Sample.accF1 ++ Sample.inheritedName) 3
    = Throw TypeError /\
  getCompareTableProps (Sample.accF1 ++ Sample.inheritedName) 3
    = Throw TypeError.
Proof.
  apply (inherited_metric_name_throws (Sample.accF1 ++ Sample.inheritedName) 3).
  - lia.
  - reflexivity.
Defined.

(** When no artifact of the input has a property other than
    [display_name] (in particular for an empty input), the assembler
    returns the labels of the input and no row, whatever the artifact
    count is: [Array(artifactCount)] is never evaluated. *)
Theorem no_metrics_empty_table ras n :
  metricNames ras = [] ->
  getCompareTableProps ras n
  = Normal {|
      CompareTable.xLabels := xLabelsOf ras;
      CompareTable.yLabels := [];
      CompareTable.xParentLabels := map xParentLabelOf ras;
      CompareTable.rows := [] |}.
Proof.
  intros Hnames.
  rewrite getCompareTableProps_sorted, getScalarTableData_cells.
  unfold metricNames in Hnames. rewrite <- (names_cellsFrom 0) in Hnames.
  apply map_eq_nil in Hnames. rewrite Hnames. reflexivity.
Qed.

(** Only [display_name], and an artifact count of -1. *)
Lemma no_metrics_empty_table_witness :
  getCompareTableProps
    (Sample.oneRun
       [Sample.linked [("display_name", mlmd.StringValue "foo")]]) (-1)
  = Normal {|
      CompareTable.xLabels := ["- > -"];
      CompareTable.yLabels := [];
      CompareTable.xParentLabels :=
        [{| CompareTable.label := "-"; CompareTable.colSpan := 1 |}];
      CompareTable.rows := [] |}.
Proof.
  exact (no_metrics_empty_table
           (Sample.oneRun
              [Sample.linked [("display_name", mlmd.StringValue "foo")]])
           (-1) eq_refl).
Defined.

(* ================================================================== *)
(** * Labels *)
(* ================================================================== *)

(** Whatever the artifact count, the table the assembler returns has one
    column label ["<execution name or -> > <artifact name or ->"] per
    linked artifact in traversal order, one parent label per run with
    the run name (or [-]) and the number of artifacts of the run as
    span, and as row labels the distinct metric names of the input, each
    once, with one row per label. *)
Theorem compare_table_labels ras n p :
  getCompareTableProps ras n = Normal p ->
  CompareTable.xLabels p = xLabelsOf ras /\
  CompareTable.xParentLabels p = map xParentLabelOf ras /\
  Permutation (CompareTable.yLabels p) (firstOccurrences (metricNames ras)) /\
  NoDup (CompareTable.yLabels p) /\
  length (CompareTable.rows p) = length (CompareTable.yLabels p).
Proof.
  rewrite getCompareTableProps_sorted. intros Hp. bind_inv Hp.
  inversion Hp; subst p; clear Hp. cbn [CompareTable.xLabels
    CompareTable.yLabels CompareTable.xParentLabels CompareTable.rows].
  destruct (getScalarTableData_Normal _ _ _ Ha) as [_ [Hx Hxp]].
  assert (Hperm : Permutation
            (map fst (Array_sort byDecreasingDataCount
                        (Object_entries (dataMap a))))
            (firstOccurrences (metricNames ras))).
  { rewrite <- (dataMap_keys _ _ _ Ha). apply Permutation_map.
    rewrite (Array_sort_Permutation byDecreasingDataCount).
    apply Object_entries_Permutation. }
  split; [exact Hx | split; [exact Hxp | split; [exact Hperm | split]]].
  - eapply Permutation_NoDup; [symmetry; exact Hperm |].
    apply NoDup_firstOccurrences.
  - rewrite !length_map. reflexivity.
Qed.

Lemma compare_table_labels_witness :
  ["- > -"; "- > -"] = xLabelsOf Sample.accF1 /\
  [{| CompareTable.label := "-"; CompareTable.colSpan := 2 |}]
    = map xParentLabelOf Sample.accF1 /\
  Permutation ["acc"; "f1"] (firstOccurrences (metricNames Sample.accF1)) /\
  NoDup ["acc"; "f1"] /\
  length [[Some "0.9"; Some "0.8"]; [Some ""; Some "0.5"]]
    = length ["acc"; "f1"].
Proof.
  exact (compare_table_labels Sample.accF1 2 _ accF1_props).
Defined.

(* ================================================================== *)
(** * The loaders *)
(* ================================================================== *)

(** The cell writes leave the rows of other metrics as they are. *)
Lemma cells_frame n : forall cells dm dm',
  forOf cells (writeCell n) dm = Normal dm' ->
  forall k, ~ In k (map cellName cells) -> getOwn dm' k = getOwn dm k.
Proof.
  induction cells as [| [[i k0] text] cells IH]; intros dm dm' Hrun k Hk;
    cbn [forOf] in Hrun.
  - inversion Hrun. reflexivity.
  - bind_inv Hrun. apply writeCell_Normal in Ha.
    destruct Ha as [r0 [_ ->]].
    rewrite (IH _ _ Hrun k) by (intros Hin; apply Hk; right; exact Hin).
    apply getOwn_set_other. intros ->. apply Hk. left. reflexivity.
Qed.

(** The cell writes keep every row and add to its data count the number
    of cells written for its metric. *)
Lemma cells_keep n : forall cells dm dm',
  forOf cells (writeCell n) dm = Normal dm' ->
  forall k r, getOwn dm k = Some r ->
    exists r', getOwn dm' k = Some r' /\
      dataCount r'
      = (dataCount r
         + Z.of_nat (count_occ string_dec (map cellName cells) k))%Z /\
      length (row r) <= length (row r').
Proof.
  induction cells as [| [[i k0] text] cells IH]; intros dm dm' Hrun k r Hr;
    cbn [forOf] in Hrun.
  - inversion Hrun; subst. exists r. simpl.
    split; [exact Hr | split; [lia | lia]].
  - bind_inv Hrun. apply writeCell_Normal in Ha.
    destruct Ha as [r0 [Hprev ->]]. cbn [map count_occ].
    change (cellName (i, k0, text)) with k0.
    destruct (string_dec k0 k) as [-> | Hne].
    + destruct Hprev as [Hold | [Hnew _]]; [| congruence].
      rewrite Hr in Hold. inversion Hold; subst r0.
      destruct (IH _ _ Hrun k _ (getOwn_set_same dm k _))
        as [r' [Hr' [Hc Hl]]].
      exists r'. split; [exact Hr' |]. cbn [dataCount row] in Hc, Hl.
      rewrite length_Array_set in Hl. split; lia.
    + rewrite <- (getOwn_set_other dm k0 k
                    {| row := Array_set (row r0) i text;
                       dataCount := dataCount r0 + 1 |} Hne) in Hr.
      exact (IH _ _ Hrun k r Hr).
Qed.

(** A call of [loadScalarExecutionArtifacts] that returns has advanced
    the artifact index by the number of linked artifacts, appended their
    labels to the labels it was given, left the rows of metrics that its
    artifacts do not have as they were, and kept every other row, adding
    to its data count the number of property entries of that name. *)
Theorem loadScalarExecutionArtifacts_effect eas xl dm i n xl' dm' i' :
  loadScalarExecutionArtifacts eas xl dm i n = Normal (xl', dm', i') ->
  i' = i + length (flat_map linkedArtifacts eas) /\
  xl' = xl ++ xLabelsOfExecutions eas /\
  (forall k,
     ~ In k (flat_map metricNamesOf (flat_map linkedArtifacts eas)) ->
     getOwn dm' k = getOwn dm k) /\
  (forall k r,
     getOwn dm k = Some r ->
     exists r',
       getOwn dm' k = Some r' /\
       dataCount r'
       = (dataCount r
          + Z.of_nat (count_occ string_dec
                        (flat_map metricNamesOf
                           (flat_map linkedArtifacts eas)) k))%Z /\
       length (row r) <= length (row r')).
Proof.
  rewrite loadScalarExecutionArtifacts_cells. intros H. bind_inv H.
  inversion H; subst; clear H.
  split; [reflexivity | split; [reflexivity | split]].
  - intros k Hk. apply (cells_frame _ _ _ _ Ha).
    rewrite names_cellsFrom. exact Hk.
  - intros k r Hr. destruct (cells_keep _ _ _ _ Ha k r Hr) as [r' Hr'].
    rewrite names_cellsFrom in Hr'. exists r'. exact Hr'.
Qed.

Lemma loadScalarExecutionArtifacts_effect_witness :
  2 = 1 + length (flat_map linkedArtifacts
                    [ {| execution := Sample.unnamedExecution;
                         linkedArtifacts :=
                           [Sample.linked [("f1", Sample.tenths 5)]] |} ]) /\
  ["- > -"; "- > -"]
  = ["- > -"]
      ++ xLabelsOfExecutions
           [ {| execution := Sample.unnamedExecution;
                linkedArtifacts :=
                  [Sample.linked [("f1", Sample.tenths 5)]] |} ].
Proof.
  destruct (loadScalarExecutionArtifacts_effect
              [ {| execution := Sample.unnamedExecution;
                   linkedArtifacts :=
                     [Sample.linked [("f1", Sample.tenths 5)]] |} ]
              ["- > -"]
              [("acc", {| row := [Some "0.9"; Some ""]; dataCount := 1 |})]
              1 2
              ["- > -"; "- > -"]
              [("acc", {| row := [Some "0.9"; Some ""]; dataCount := 1 |});
               ("f1", {| row := [Some ""; Some "0.5"]; dataCount := 1 |})]
              2 eq_refl) as [H1 [H2 _]].
  split; [exact H1 | exact H2].
Defined.

(** The cells of one artifact whose metric names are pairwise distinct:
    each metric has its text written at the artifact's column of its
    row, a fresh row of [artifactCount] empty strings when it had none,
    and counts one more data item. *)
Lemma cells_one_column n i (textOf : string -> string) : forall cells,
  NoDup (map cellName cells) ->
  Forall (fun c => cellColumn c = i /\ cellContent c = textOf (cellName c))
         cells ->
  forall dm dm', forOf cells (writeCell n) dm = Normal dm' ->
  forall k,
    (In k (map cellName cells) ->
     exists r',
       getOwn dm' k = Some r' /\
       row r' = Array_set
                  (match getOwn dm k with
                   | Some r => row r
                   | None => repeat (Some "") (Z.to_nat n)
                   end) i (textOf k) /\
       dataCount r'
       = (match getOwn dm k with Some r => dataCount r | None => 0 end
          + 1)%Z) /\
    (~ In k (map cellName cells) -> getOwn dm' k = getOwn dm k).
Proof.
  induction cells as [| [[i0 k0] text] cells IH]; intros Hnd Hall dm dm' Hrun k.
  - inversion Hrun; subst. split; [intros [] | reflexivity].
  - cbn [forOf] in Hrun. bind_inv Hrun.
    cbn [map] in Hnd. change (cellName (i0, k0, text)) with k0 in Hnd.
    apply NoDup_cons_iff in Hnd. destruct Hnd as [Hfresh Hnd'].
    apply Forall_cons_iff in Hall. destruct Hall as [[Hi Ht] Hall'].
    unfold cellColumn, cellContent, cellName in Hi, Ht. simpl in Hi, Ht.
    subst i0.
    apply writeCell_Normal in Ha. destruct Ha as [r0 [Hprev ->]].
    destruct (IH Hnd' Hall' _ _ Hrun k) as [IH1 IH2].
    cbn [map]. change (cellName (i, k0, text)) with k0.
    destruct (string_dec k0 k) as [-> | Hne].
    + split; [intros _ | intros Hnot; exfalso; apply Hnot; left; reflexivity].
      rewrite (IH2 Hfresh), getOwn_set_same. eexists.
      split; [reflexivity |]. cbn [row dataCount].
      destruct Hprev as [Hold | [Hnew [_ [Hfill Hzero]]]].
      * rewrite Hold, Ht. split; reflexivity.
      * apply Array_fill_Normal in Hfill.
        rewrite Hnew, Ht, Hfill, Hzero. split; reflexivity.
    + rewrite (getOwn_set_other dm k0 k _ Hne) in IH1, IH2. split.
      * intros [E | Hin]; [contradiction | exact (IH1 Hin)].
      * intros Hnot. apply IH2. intros Hin. apply Hnot. right. exact Hin.
Qed.

(** What a call of [addScalarDataItems] that returns has done, for a
    property map with pairwise distinct keys: for every property [k]
    other than [display_name] the row of [k] (a fresh row of
    [artifactCount] empty strings, with count 0, when the map had none)
    has the JSON text of the decoded value written at [artifactIndex]
    and its data count raised by 1; every other row is as it was. *)
Theorem addScalarDataItems_effect props dm i n dm' :
  jspb.wellFormed props ->
  addScalarDataItems props dm i n = Normal dm' ->
  forall k,
    match (if isMetricName k then jspb.get props k else None) with
    | Some v =>
        exists r',
          getOwn dm' k = Some r' /\
          row r' = Array_set
                     (match getOwn dm k with
                      | Some r => row r
                      | None => repeat (Some "") (Z.to_nat n)
                      end) i
                     (JSON_stringify (Utils.getMetadataValue (Some v))) /\
          dataCount r'
          = (match getOwn dm k with Some r => dataCount r | None => 0 end
             + 1)%Z
    | None => getOwn dm' k = getOwn dm k
    end.
Proof.
  intros Hwf Hrun k.
  set (la := {| event := {| mlmd.Event.getExecutionId := 0;
                            mlmd.Event.getArtifactId := 0 |};
                artifact := {| mlmd.Artifact.getId := 0;
                               mlmd.Artifact.displayName := None;
                               mlmd.Artifact.getCustomPropertiesMap := props |}
             |}).
  assert (E : addScalarDataItems props dm i n
              = forOf (cellsOfArtifact i la) (writeCell n) dm)
    by exact (addScalarDataItems_cells la dm i n).
  rewrite E in Hrun; clear E.
  assert (Hnd : NoDup (map cellName (cellsOfArtifact i la))).
  { rewrite names_cellsOfArtifact. unfold metricNamesOf.
    apply NoDup_filter. exact Hwf. }
  assert (Hall : Forall (fun c => cellColumn c = i /\
                                  cellContent c = cellText props (cellName c))
                        (cellsOfArtifact i la))
    by exact (texts_cellsOfArtifact i la).
  destruct (cells_one_column n i (cellText props) _ Hnd Hall _ _ Hrun k)
    as [H1 H2].
  rewrite names_cellsOfArtifact in H1, H2.
  pose proof (In_metricNamesOf k la) as Hin.
  change (customPropertiesOf la) with props in Hin.
  destruct (isMetricName k).
  - destruct (jspb.get props k) as [v |] eqn:Eg.
    + destruct H1 as [r' Hr']; [apply Hin; split; [reflexivity | discriminate] |].
      exists r'. unfold cellText in Hr'. rewrite Eg in Hr'. exact Hr'.
    + apply H2. intros Hk. apply Hin in Hk. destruct Hk as [_ Hk].
      apply Hk. reflexivity.
  - apply H2. intros Hk. apply Hin in Hk. destruct Hk as [Hk _].
    discriminate Hk.
Qed.

(** The second artifact of [Sample.accF1] added to the map that holds
    the first: [f1] is new and gets a fresh row. *)
Lemma addScalarDataItems_effect_witness :
  exists r',
    getOwn [("acc", {| row := [Some "0.9"; Some "0.8"]; dataCount := 2 |});
            ("f1", {| row := [Some ""; Some "0.5"]; dataCount := 1 |})] "f1"
    = Some r' /\
    row r' = Array_set (repeat (Some "") 2) 1 "0.5" /\
    dataCount r' = (0 + 1)%Z.
Proof.
  refine (addScalarDataItems_effect
            [("acc", Sample.tenths 8); ("f1", Sample.tenths 5)]
            [("acc", {| row := [Some "0.9"; Some ""]; dataCount := 1 |})]
            1 2 _ _ eq_refl "f1").
  repeat constructor; simpl; intuition discriminate.
Defined.

(* ================================================================== *)
(** * Rows of a table with enough columns *)
(* ================================================================== *)

Lemma compare_table_labels_length ras n p :
  getCompareTableProps ras n = Normal p ->
  length (CompareTable.rows p) = length (CompareTable.yLabels p).
Proof.
  rewrite getCompareTableProps_sorted. intros Hp. bind_inv Hp.
  inversion Hp; subst p. simpl. rewrite !length_map. reflexivity.
Qed.

(** When the artifact count passed in is at least the number of linked
    artifacts, every row of the assembled table has exactly
    [artifactCount] cells and every cell holds a string: no row has a
    hole. *)
Theorem rows_are_full ras n p :
  (Z.of_nat (globalArtifactCount ras) <= n)%Z ->
  getCompareTableProps ras n = Normal p ->
  Forall (fun r => length r = Z.to_nat n /\
                   forall j, j < length r -> nth j r None <> None)
         (CompareTable.rows p).
Proof.
  intros Hn Hp. apply Forall_forall. intros r Hr.
  apply In_nth_error in Hr. destruct Hr as [i Hr].
  assert (Hk : exists k, nth_error (CompareTable.yLabels p) i = Some k).
  { pose proof (compare_table_labels_length ras n p Hp) as Hlen.
    destruct (nth_error (CompareTable.yLabels p) i) as [k |] eqn:Ek;
      [eauto |].
    apply nth_error_None in Ek.
    assert (i < length (CompareTable.rows p))
      by (apply (proj1 (nth_error_Some (CompareTable.rows p) i));
          intros E; pose proof (eq_trans (eq_sym Hr) E) as X;
          discriminate X).
    lia. }
  destruct Hk as [k Hk].
  destruct (compare_table_row _ _ _ _ _ _ Hp Hk Hr) as [t [d [Ht [Hin <-]]]].
  destruct (table_cell _ _ _ _ _ Ht Hin) as [Hvalid [Hcols Hbeyond]].
  apply (dataMap_entry _ _ _ _ _ Ht) in Hin.
  destruct (getScalarTableData_Normal _ _ _ Ht) as [Hdm _].
  assert (Hbound : Forall (fun c => cellColumn c < globalArtifactCount ras)
                          (cellsFrom 0 (artifactsOf ras))).
  { apply Forall_forall. intros c Hc. apply In_cellsFrom in Hc.
    unfold globalArtifactCount. lia. }
  pose proof (row_lengths_of_cells n _ _ _ Hbound Hdm k d Hin) as Hlen.
  assert (El : length (row d) = Z.to_nat n) by lia.
  split; [exact El |]. intros j Hj.
  assert (Hjn : (Z.of_nat j <? n)%Z = true) by (apply Z.ltb_lt; lia).
  destruct (nth_error (artifactsOf ras) j) as [la |] eqn:Ej.
  - rewrite (Hcols j la Ej). destruct (jspb.get (customPropertiesOf la) k);
      [discriminate | rewrite Hjn; discriminate].
  - apply nth_error_None in Ej. unfold globalArtifactCount in Hbeyond.
    rewrite (Hbeyond j Ej), Hjn. discriminate.
Qed.

Lemma accF1_wide_props :
  getCompareTableProps Sample.accF1 3
  = Normal {|
      CompareTable.xLabels := ["- > -"; "- > -"];
      CompareTable.yLabels := ["acc"; "f1"];
      CompareTable.xParentLabels :=
        [{| CompareTable.label := "-"; CompareTable.colSpan := 2 |}];
      CompareTable.rows :=
        [[Some "0.9"; Some "0.8"; Some ""]; [Some ""; Some "0.5"; Some ""]]
    |}.
Proof. vm_compute. reflexivity. Qed.

(** Three columns for the two artifacts of [Sample.accF1]. *)
Lemma rows_are_full_witness :
  Forall (fun r => length r = 3 /\
                   forall j, j < length r -> nth j r None <> None)
         [[Some "0.9"; Some "0.8"; Some ""]; [Some ""; Some "0.5"; Some ""]].
Proof.
  refine (rows_are_full Sample.accF1 3 _ _ accF1_wide_props).
  unfold globalArtifactCount. simpl. lia.
Defined.

(** The row labels and the rows depend on the linked artifacts in
    traversal order only: grouping the same artifacts into other runs or
    executions changes the column and parent labels at most. *)
Theorem rows_depend_on_artifacts ras1 ras2 n p1 :
  artifactsOf ras1 = artifactsOf ras2 ->
  getCompareTableProps ras1 n = Normal p1 ->
  exists p2,
    getCompareTableProps ras2 n = Normal p2 /\
    CompareTable.yLabels p2 = CompareTable.yLabels p1 /\
    CompareTable.rows p2 = CompareTable.rows p1.
Proof.
  intros Hsame. rewrite !getCompareTableProps_sorted.
  rewrite !getScalarTableData_cells, <- Hsame.
  destruct (forOf (cellsFrom 0 (artifactsOf ras1)) (writeCell n) [])
    as [dm | e]; simpl; [| discriminate].
  intros H. inversion H; subst p1. eexists.
  split; [reflexivity | split; reflexivity].
Qed.

(** The two artifacts of [Sample.accF1] in two runs instead of one. *)
Lemma rows_depend_on_artifacts_witness :
  exists p2,
    getCompareTableProps
      (Sample.oneRun [Sample.linked [("acc", Sample.tenths 9)]]
       ++ Sample.oneRun [Sample.linked [("acc", Sample.tenths 8);
                                        ("f1", Sample.tenths 5)]]) 2
    = Normal p2 /\
    CompareTable.yLabels p2 = ["acc"; "f1"] /\
    CompareTable.rows p2 = [[Some "0.9"; Some "0.8"]; [Some ""; Some "0.5"]].
Proof.
  exact (rows_depend_on_artifacts Sample.accF1
           (Sample.oneRun [Sample.linked [("acc", Sample.tenths 9)]]
            ++ Sample.oneRun [Sample.linked [("acc", Sample.tenths 8);
                                             ("f1", Sample.tenths 5)]])
           2 _ eq_refl accF1_props).
Defined.
(* ================================================================== *)
(** * The ROC curve data *)
(* ================================================================== *)

Lemma getValidArtifacts_eq_filter ea :
  getValidArtifacts ea = filter hasConfidenceMetrics (linkedArtifacts ea).
Proof.
  unfold getValidArtifacts.
  assert (G : forall l acc,
    fold_left
      (fun validLinkedArtifacts linkedArtifact =>
         let customProperties :=
           mlmd.Artifact.getCustomPropertiesMap (artifact linkedArtifact) in
         let confidenceMetrics :=
           optChain
             (optChain (jspb.get customProperties "confidenceMetrics")
                       mlmd.getStructValue)
             (fun s => Some (mlmd.toJavaScript s)) in
         if ToBoolean confidenceMetrics
         then validLinkedArtifacts ++ [linkedArtifact]
         else validLinkedArtifacts) l acc
    = acc ++ filter hasConfidenceMetrics l).
  { induction l as [| la l IH]; intros acc; simpl.
    - rewrite app_nil_r. reflexivity.
    - rewrite IH.
      change (mlmd.Artifact.getCustomPropertiesMap (artifact la))
        with (customPropertiesOf la).
      rewrite ToBoolean_confidenceMetrics.
      destruct (hasConfidenceMetrics la); [| reflexivity].
      rewrite <- app_assoc. reflexivity. }
  apply G.
Qed.

(** The [forEach] over the valid artifacts of one execution saves their
    entries in order. *)
Lemma forEach_savePath r e : forall las m,
  forOf las
    (fun validArtifact fullArtifactPathMap =>
       path <- getFullArtifactPath r e validArtifact ;;
       Normal (JS.set fullArtifactPathMap (getRocCurveId validArtifact) path))
    m
  = forOf (map (fun la => (r, e, la)) las) savePath m.
Proof.
  induction las as [| la las IH]; intros m; simpl; [reflexivity |].
  destruct (getFullArtifactPath r e la) as [path | x]; simpl;
    [apply IH | reflexivity].
Qed.

Lemma mapS_executions r : forall eas m,
  mapS eas
    (fun executionArtifact fullArtifactPathMap =>
       let validArtifacts := getValidArtifacts executionArtifact in
       fullArtifactPathMap <-
         forOf validArtifacts
           (fun validArtifact fullArtifactPathMap =>
              path <- getFullArtifactPath r
                        (execution executionArtifact) validArtifact ;;
              Normal (JS.set fullArtifactPathMap
                        (getRocCurveId validArtifact) path))
           fullArtifactPathMap ;;
       Normal (validArtifacts, fullArtifactPathMap))
    m
  = (m' <- forOf
             (flat_map
                (fun ea => map (fun la => (r, execution ea, la))
                               (getValidArtifacts ea)) eas)
             savePath m ;;
     Normal (map getValidArtifacts eas, m')).
Proof.
  induction eas as [| ea eas IH]; intros m; simpl; [reflexivity |].
  rewrite forEach_savePath, forOf_app.
  destruct (forOf (map _ (getValidArtifacts ea)) savePath m) as [m1 | x];
    simpl; [| reflexivity].
  rewrite IH.
  destruct (forOf _ savePath m1) as [m2 | x]; reflexivity.
Qed.

Lemma mapS_runs : forall ras m,
  mapS ras
    (fun runArtifact =>
       mapS (executionArtifacts runArtifact)
         (fun executionArtifact fullArtifactPathMap =>
            let validArtifacts := getValidArtifacts executionArtifact in
            fullArtifactPathMap <-
              forOf validArtifacts
                (fun validArtifact fullArtifactPathMap =>
                   path <- getFullArtifactPath (run runArtifact)
                             (execution executionArtifact) validArtifact ;;
                   Normal (JS.set fullArtifactPathMap
                             (getRocCurveId validArtifact) path))
                fullArtifactPathMap ;;
            Normal (validArtifacts, fullArtifactPathMap)))
    m
  = (m' <- forOf (validPathsOf ras) savePath m ;;
     Normal (map (fun ra => map getValidArtifacts (executionArtifacts ra))
                 ras, m')).
Proof.
  induction ras as [| ra ras IH]; intros m; simpl; [reflexivity |].
  rewrite mapS_executions, forOf_app. fold (validPathsOfRun ra).
  destruct (forOf (validPathsOfRun ra) savePath m) as [m1 | x];
    simpl; [| reflexivity].
  rewrite IH.
  destruct (forOf _ savePath m1) as [m2 | x]; reflexivity.
Qed.

Lemma valid_of_paths ras :
  concat (concat (map (fun ra => map getValidArtifacts (executionArtifacts ra))
                      ras))
  = map snd (validPathsOf ras).
Proof.
  unfold validPathsOf.
  induction ras as [| ra ras IH]; simpl; [reflexivity |].
  rewrite concat_app, map_app, IH. f_equal.
  unfold validPathsOfRun.
  induction (executionArtifacts ra) as [| ea eas IHe]; simpl; [reflexivity |].
  rewrite map_app, IHe, map_map. simpl. rewrite map_id. reflexivity.
Qed.

Lemma valid_paths_filter ras :
  map snd (validPathsOf ras) = filter hasConfidenceMetrics (artifactsOf ras).
Proof.
  unfold validPathsOf, artifactsOf.
  induction ras as [| ra ras IH]; simpl; [reflexivity |].
  rewrite map_app, filter_app, IH. f_equal.
  unfold validPathsOfRun, artifactsOfRun.
  induction (executionArtifacts ra) as [| ea eas IHe]; simpl; [reflexivity |].
  rewrite map_app, filter_app, IHe, map_map. simpl.
  rewrite map_id, getValidArtifacts_eq_filter. reflexivity.
Qed.

(** The two nested [map]s of [getValidRocCurveArtifactData] save the
    entries of the valid artifacts in traversal order. *)
Lemma getValidRocCurveArtifactData_paths ras :
  getValidRocCurveArtifactData ras
  = (m <- forOf (validPathsOf ras) savePath [] ;;
     Normal {| validLinkedArtifacts := map snd (validPathsOf ras);
               fullArtifactPathMap := m |}).
Proof.
  unfold getValidRocCurveArtifactData. rewrite mapS_runs.
  destruct (forOf (validPathsOf ras) savePath []) as [m | x]; simpl;
    [| reflexivity].
  rewrite valid_of_paths. reflexivity.
Qed.

(** The artifacts [getValidRocCurveArtifactData] returns are the linked
    artifacts of the input that have confidence metrics, in traversal
    order: runs, then executions, then artifacts. *)
Theorem roc_valid_artifacts ras data :
  getValidRocCurveArtifactData ras = Normal data ->
  validLinkedArtifacts data = filter hasConfidenceMetrics (artifactsOf ras).
Proof.
  rewrite getValidRocCurveArtifactData_paths. intros H. bind_inv H.
  inversion H; subst data. cbn [validLinkedArtifacts].
  apply valid_paths_filter.
Qed.

Lemma curves_data :
  getValidRocCurveArtifactData Sample.curves
  = Normal {|
      validLinkedArtifacts := [Sample.curve 3; Sample.curve 4];
      fullArtifactPathMap :=
        [("7-3",
          {| FullArtifactPath.run := {| name := "Run ID #42"; id := "42" |};
             FullArtifactPath.execution :=
               {| name := "Execution ID #7"; id := "7" |};
             FullArtifactPath.artifact :=
               {| name := "Artifact ID #3"; id := "3" |} |});
         ("7-4",
          {| FullArtifactPath.run := {| name := "Run ID #42"; id := "42" |};
             FullArtifactPath.execution :=
               {| name := "Execution ID #7"; id := "7" |};
             FullArtifactPath.artifact :=
               {| name := "Artifact ID #4"; id := "4" |} |})] |}.
Proof. vm_compute. reflexivity. Qed.

Lemma roc_valid_artifacts_witness :
  [Sample.curve 3; Sample.curve 4]
  = filter hasConfidenceMetrics (artifactsOf Sample.curves).
Proof.
  exact (roc_valid_artifacts Sample.curves _ curves_data).
Defined.

(** ** Completion *)

Lemma savePath_hasRun entry m :
  hasRun entry = true ->
  exists path,
    getFullArtifactPath (fst (fst entry)) (snd (fst entry)) (snd entry)
    = Normal path /\
    savePath entry m = Normal (JS.set m (pathKey entry) path).
Proof.
  destruct entry as [[r e] la]. unfold hasRun, savePath, pathKey. simpl.
  destruct (apis.run r) as [r0 |] eqn:Er; [| discriminate]. intros _.
  unfold getFullArtifactPath. rewrite Er, (orM_resolve _ "Run" r0).
  simpl. eexists. split; reflexivity.
Qed.

Lemma savePath_noRun entry m :
  hasRun entry = false -> savePath entry m = Throw TypeError.
Proof.
  destruct entry as [[r e] la]. unfold hasRun, savePath. simpl.
  destruct (apis.run r) as [r0 |] eqn:Er; [discriminate |]. intros _.
  unfold getFullArtifactPath. rewrite Er. reflexivity.
Qed.

Lemma savePath_Normal entry m m' :
  savePath entry m = Normal m' ->
  exists path,
    getFullArtifactPath (fst (fst entry)) (snd (fst entry)) (snd entry)
    = Normal path /\
    m' = JS.set m (pathKey entry) path.
Proof.
  intros H. destruct (hasRun entry) eqn:E.
  - destruct (savePath_hasRun entry m E) as [path [Hp Hs]].
    rewrite Hs in H. inversion H. eauto.
  - rewrite (savePath_noRun entry m E) in H. discriminate.
Qed.

Lemma paths_complete : forall entries m,
  if forallb hasRun entries
  then exists m', forOf entries savePath m = Normal m'
  else forOf entries savePath m = Throw TypeError.
Proof.
  induction entries as [| entry entries IH]; intros m; simpl.
  - eauto.
  - destruct (hasRun entry) eqn:E; simpl.
    + destruct (savePath_hasRun entry m E) as [path [_ ->]]. simpl.
      apply IH.
    + rewrite (savePath_noRun entry m E). reflexivity.
Qed.

Lemma forallb_negb_filter {A} (f : A -> bool) l :
  forallb (fun x => negb (f x)) l
  = match filter f l with [] => true | _ => false end.
Proof.
  induction l as [| x l IH]; simpl; [reflexivity |].
  destruct (f x); simpl; [reflexivity | exact IH].
Qed.

Lemma valid_paths_of_run_filter ra :
  map snd (validPathsOfRun ra)
  = filter hasConfidenceMetrics (artifactsOfRun ra).
Proof.
  unfold validPathsOfRun, artifactsOfRun.
  induction (executionArtifacts ra) as [| ea eas IHe]; simpl; [reflexivity |].
  rewrite map_app, filter_app, IHe, map_map. simpl.
  rewrite map_id, getValidArtifacts_eq_filter. reflexivity.
Qed.

Lemma hasRun_of_run ra :
  forallb hasRun (validPathsOfRun ra) = resolvable ra.
Proof.
  unfold resolvable.
  assert (Hrun : forall entry, In entry (validPathsOfRun ra) ->
                               fst (fst entry) = run ra).
  { intros entry Hin. unfold validPathsOfRun in Hin.
    apply in_flat_map in Hin. destruct Hin as [ea [_ Hin]].
    apply in_map_iff in Hin. destruct Hin as [la [<- _]]. reflexivity. }
  destruct (apis.run (run ra)) as [r0 |] eqn:Er.
  - apply forallb_forall. intros entry Hin. unfold hasRun.
    rewrite (Hrun _ Hin), Er. reflexivity.
  - rewrite forallb_negb_filter, <- valid_paths_of_run_filter.
    destruct (validPathsOfRun ra) as [| entry entries]; [reflexivity |].
    simpl. unfold hasRun. rewrite (Hrun entry (or_introl eq_refl)), Er.
    reflexivity.
Qed.

Lemma hasRun_of_runs ras :
  forallb hasRun (validPathsOf ras) = forallb resolvable ras.
Proof.
  unfold validPathsOf. induction ras as [| ra ras IH]; simpl; [reflexivity |].
  rewrite forallb_app, hasRun_of_run, IH. reflexivity.
Qed.

(** [getValidRocCurveArtifactData] returns when every run that has a
    valid artifact carries its run, and throws a [TypeError] otherwise:
    the path of a valid artifact reads [run.run!.id].  A run without its
    run is harmless as long as none of its artifacts has confidence
    metrics. *)
Theorem roc_data_completion ras :
  if forallb resolvable ras
  then exists data, getValidRocCurveArtifactData ras = Normal data
  else getValidRocCurveArtifactData ras = Throw TypeError.
Proof.
  rewrite getValidRocCurveArtifactData_paths, <- hasRun_of_runs.
  pose proof (paths_complete (validPathsOf ras) []) as H.
  destruct (forallb hasRun (validPathsOf ras)).
  - destruct H as [m ->]. simpl. eauto.
  - rewrite H. reflexivity.
Qed.

(** ** The path map *)

Lemma lastSaved_snoc key entries entry :
  lastSaved key (entries ++ [entry])
  = if (pathKey entry =? key)%string then Some entry
    else lastSaved key entries.
Proof. unfold lastSaved. rewrite rev_app_distr. reflexivity. Qed.

(** The keys of the map are the ids of the saved entries in first-met
    order, and under each id the map holds the path of the last entry
    saved under it. *)
Lemma paths_saved entries m :
  forOf entries savePath [] = Normal m ->
  map fst m = firstOccurrences (map pathKey entries) /\
  forall key,
    match lastSaved key entries with
    | Some entry =>
        exists path,
          getOwn m key = Some path /\
          getFullArtifactPath (fst (fst entry)) (snd (fst entry)) (snd entry)
          = Normal path
    | None => getOwn m key = None
    end.
Proof.
  apply (forOf_invariant savePath
    (fun done m =>
       map fst m = firstOccurrences (map pathKey done) /\
       forall key,
         match lastSaved key done with
         | Some entry =>
             exists path,
               getOwn m key = Some path /\
               getFullArtifactPath (fst (fst entry)) (snd (fst entry))
                 (snd entry) = Normal path
         | None => getOwn m key = None
         end));
    [| split; [reflexivity | intros key; reflexivity]].
  intros done entry rest s s' _ [Hkeys IH] Hs.
  apply savePath_Normal in Hs. destruct Hs as [path [Hpath ->]]. split.
  - rewrite keys_set, map_app. cbn [map]. rewrite firstOccurrences_snoc.
    destruct (existsb (String.eqb (pathKey entry)) (map pathKey done)) eqn:Ex.
    + apply existsb_eqb_In in Ex.
      rewrite <- In_firstOccurrences, <- Hkeys in Ex.
      destruct (getOwn s (pathKey entry)) eqn:Eown.
      * rewrite app_nil_r. exact Hkeys.
      * apply getOwn_None_notin in Eown. contradiction.
    + destruct (getOwn s (pathKey entry)) as [old |] eqn:Eown.
      * apply getOwn_In in Eown. apply (in_map fst) in Eown. simpl in Eown.
        rewrite Hkeys, In_firstOccurrences in Eown.
        apply existsb_eqb_In in Eown. congruence.
      * rewrite Hkeys. reflexivity.
  - intros key. rewrite lastSaved_snoc.
    destruct (String.eqb_spec (pathKey entry) key) as [<- | Hne].
    + exists path. split; [apply getOwn_set_same | exact Hpath].
    + rewrite getOwn_set_other by exact Hne. apply IH.
Qed.

Lemma length_firstOccurrences names :
  length (firstOccurrences names) <= length names.
Proof.
  induction names as [| k names IH]; simpl; [lia |].
  pose proof (filter_length_le (fun k' => negb (k' =? k)%string)
                (firstOccurrences names)). lia.
Qed.

(** The keys of the path map are the ids ["<execution id>-<artifact
    id>"] of the valid artifacts, each once, in the order the ids are
    first met; the map has at most one entry per valid artifact. *)
Theorem roc_path_keys ras data :
  getValidRocCurveArtifactData ras = Normal data ->
  map fst (fullArtifactPathMap data)
  = firstOccurrences (map getRocCurveId (validLinkedArtifacts data)) /\
  length (fullArtifactPathMap data) <= length (validLinkedArtifacts data).
Proof.
  rewrite getValidRocCurveArtifactData_paths. intros H. bind_inv H.
  inversion H; subst data. cbn [validLinkedArtifacts fullArtifactPathMap].
  destruct (paths_saved _ _ Ha) as [Hkeys _].
  assert (E : map getRocCurveId (map snd (validPathsOf ras))
              = map pathKey (validPathsOf ras))
    by (rewrite map_map; reflexivity).
  rewrite E. split; [exact Hkeys |].
  rewrite <- (length_map fst a), Hkeys, !length_map.
  rewrite <- (length_map pathKey). apply length_firstOccurrences.
Qed.

Lemma roc_path_keys_witness :
  ["7-3"; "7-4"]
  = firstOccurrences (map getRocCurveId [Sample.curve 3; Sample.curve 4]) /\
  2 <= 2.
Proof.
  exact (roc_path_keys Sample.curves _ curves_data).
Defined.

(** Under an id, the path map holds the path of the last valid artifact
    of the traversal with that id, resolved with the run and the
    execution that artifact belongs to: a later artifact with the same
    id replaces the path of an earlier one.  An id of no valid artifact
    is no key of the map. *)
Theorem roc_path_lookup ras data key :
  getValidRocCurveArtifactData ras = Normal data ->
  match lastSaved key (validPathsOf ras) with
  | Some entry =>
      exists path,
        getOwn (fullArtifactPathMap data) key = Some path /\
        getFullArtifactPath (fst (fst entry)) (snd (fst entry)) (snd entry)
        = Normal path
  | None => getOwn (fullArtifactPathMap data) key = None
  end.
Proof.
  rewrite getValidRocCurveArtifactData_paths. intros H. bind_inv H.
  inversion H; subst data. cbn [fullArtifactPathMap].
  exact (proj2 (paths_saved _ _ Ha) key).
Qed.

Lemma sameId_data :
  getValidRocCurveArtifactData Sample.sameId
  = Normal {|
      validLinkedArtifacts :=
        [Sample.renamed "first"; Sample.renamed "second"];
      fullArtifactPathMap :=
        [("7-3",
          {| FullArtifactPath.run := {| name := "Run ID #42"; id := "42" |};
             FullArtifactPath.execution :=
               {| name := "Execution ID #7"; id := "7" |};
             FullArtifactPath.artifact :=
               {| name := "second"; id := "3" |} |})] |}.
Proof. vm_compute. reflexivity. Qed.

(** Two valid artifacts share the id [7-3]: the map holds the path of
    the second. *)
Lemma roc_path_lookup_witness :
  exists path,
    getOwn
      [("7-3",
        {| FullArtifactPath.run := {| name := "Run ID #42"; id := "42" |};
           FullArtifactPath.execution :=
             {| name := "Execution ID #7"; id := "7" |};
           FullArtifactPath.artifact := {| name := "second"; id := "3" |} |})]
      "7-3" = Some path /\
    getFullArtifactPath Sample.run42 Sample.unnamedExecution
      (Sample.renamed "second") = Normal path.
Proof.
  exact (roc_path_lookup Sample.sameId _ "7-3" sameId_data).
Defined.

Lemma NoDup_map_eq {A B} (f : A -> B) l a b :
  NoDup (map f l) -> In a l -> In b l -> f a = f b -> a = b.
Proof.
  induction l as [| x l IH]; simpl; intros Hnd Ha Hb E; [contradiction |].
  apply NoDup_cons_iff in Hnd. destruct Hnd as [Hx Hnd].
  destruct Ha as [-> | Ha]; destruct Hb as [-> | Hb].
  - reflexivity.
  - exfalso. apply Hx. rewrite E. apply in_map. exact Hb.
  - exfalso. apply Hx. rewrite <- E. apply in_map. exact Ha.
  - exact (IH Hnd Ha Hb E).
Qed.

Lemma firstOccurrences_NoDup names :
  NoDup names -> firstOccurrences names = names.
Proof.
  induction 1 as [| k names Hk _ IH]; simpl; [reflexivity |].
  rewrite IH. f_equal. apply forallb_filter_id. apply forallb_forall.
  intros k' Hk'. apply negb_true_iff, String.eqb_neq. intros ->.
  contradiction.
Qed.

Lemma In_validPathsOf ras ra ea la :
  In ra ras -> In ea (executionArtifacts ra) -> In la (linkedArtifacts ea) ->
  hasConfidenceMetrics la = true ->
  In (run ra, execution ea, la) (validPathsOf ras).
Proof.
  intros Hra Hea Hla Hv. unfold validPathsOf. apply in_flat_map.
  exists ra. split; [exact Hra |]. unfold validPathsOfRun.
  apply in_flat_map. exists ea. split; [exact Hea |].
  apply in_map. rewrite getValidArtifacts_eq_filter.
  apply filter_In. split; assumption.
Qed.

(** When the valid artifacts have pairwise distinct ids, the path map
    has exactly one entry per valid artifact, and every valid artifact
    is found under its id with the path resolved from its own run and
    execution. *)
Theorem roc_unique_ids ras data :
  getValidRocCurveArtifactData ras = Normal data ->
  NoDup (map getRocCurveId (validLinkedArtifacts data)) ->
  length (fullArtifactPathMap data) = length (validLinkedArtifacts data) /\
  forall ra ea la,
    In ra ras -> In ea (executionArtifacts ra) ->
    In la (linkedArtifacts ea) -> hasConfidenceMetrics la = true ->
    exists path,
      getOwn (fullArtifactPathMap data) (getRocCurveId la) = Some path /\
      getFullArtifactPath (run ra) (execution ea) la = Normal path.
Proof.
  rewrite getValidRocCurveArtifactData_paths. intros H. bind_inv H.
  inversion H; subst data. cbn [validLinkedArtifacts fullArtifactPathMap].
  destruct (paths_saved _ _ Ha) as [Hkeys Hlook].
  assert (E : map getRocCurveId (map snd (validPathsOf ras))
              = map pathKey (validPathsOf ras))
    by (rewrite map_map; reflexivity).
  rewrite E. intros Hnd. split.
  - rewrite <- (length_map fst a), Hkeys, (firstOccurrences_NoDup _ Hnd).
    rewrite !length_map. reflexivity.
  - intros ra ea la Hra Hea Hla Hv.
    pose proof (In_validPathsOf _ _ _ _ Hra Hea Hla Hv) as Hin.
    specialize (Hlook (getRocCurveId la)). unfold lastSaved in Hlook.
    destruct (find _ (rev (validPathsOf ras))) as [entry |] eqn:Ef.
    + apply find_some in Ef. destruct Ef as [He Hk].
      apply in_rev in He. apply String.eqb_eq in Hk.
      assert (Ee : entry = (run ra, execution ea, la))
        by exact (NoDup_map_eq pathKey _ _ _ Hnd He Hin Hk).
      subst entry. exact Hlook.
    + exfalso. apply in_rev in Hin. apply (find_none _ _ Ef) in Hin.
      unfold pathKey in Hin. simpl in Hin.
      rewrite String.eqb_refl in Hin. discriminate.
Qed.

(** The curves 3 and 4 of [Sample.curves] have the ids [7-3] and [7-4];
    the second is found under [7-4]. *)
Lemma roc_unique_ids_witness :
  exists path,
    getOwn
      [("7-3",
        {| FullArtifactPath.run := {| name := "Run ID #42"; id := "42" |};
           FullArtifactPath.execution :=
             {| name := "Execution ID #7"; id := "7" |};
           FullArtifactPath.artifact :=
             {| name := "Artifact ID #3"; id := "3" |} |});
       ("7-4",
        {| FullArtifactPath.run := {| name := "Run ID #42"; id := "42" |};
           FullArtifactPath.execution :=
             {| name := "Execution ID #7"; id := "7" |};
           FullArtifactPath.artifact :=
             {| name := "Artifact ID #4"; id := "4" |} |})]
      "7-4" = Some path /\
    getFullArtifactPath Sample.run42 Sample.unnamedExecution (Sample.curve 4)
    = Normal path.
Proof.
  assert (Hnd : NoDup (map getRocCurveId [Sample.curve 3; Sample.curve 4])).
  { change (NoDup ["7-3"; "7-4"]).
    repeat constructor; simpl; intuition discriminate. }
  destruct (roc_unique_ids Sample.curves _ curves_data Hnd) as [_ H].
  apply (H {| run := Sample.run42;
              executionArtifacts :=
                [ {| execution := Sample.unnamedExecution;
                     linkedArtifacts :=
                       [ Sample.curve 3;
                         Sample.linked [("accuracy", Sample.tenths 9)];
                         Sample.curve 4 ] |} ] |}
           {| execution := Sample.unnamedExecution;
              linkedArtifacts :=
                [ Sample.curve 3;
                  Sample.linked [("accuracy", Sample.tenths 9)];
                  Sample.curve 4 ] |}
           (Sample.curve 4)).
  - left. reflexivity.
  - left. reflexivity.
  - right. right. left. reflexivity.
  - reflexivity.
Defined.

(** A run without its run is harmless when none of its artifacts is
    valid, and fatal as soon as one is. *)
Lemma roc_data_completion_examples :
  (exists data,
     getValidRocCurveArtifactData Sample.curvesAfterEmptyRun = Normal data) /\
  getValidRocCurveArtifactData
    [ {| run := Sample.noRun;
         executionArtifacts :=
           [ {| execution := Sample.unnamedExecution;
                linkedArtifacts := [ Sample.curve 3 ] |} ] |} ]
  = Throw TypeError.
Proof.
  split; [eexists; vm_compute; reflexivity | reflexivity].
Qed.
(* ================================================================== *)
(** * Names of a path are never empty *)
(* ================================================================== *)

Lemma resolveName_nonempty o typeLabel id :
  typeLabel <> "" -> resolveName o typeLabel id <> "".
Proof.
  intros Hl. unfold resolveName.
  assert (Hf : (typeLabel ++ " ID #" ++ id)%string <> "").
  { destruct typeLabel; [contradiction | discriminate]. }
  destruct o as [s |]; [| exact Hf].
  destruct (String.eqb_spec s ""); [exact Hf | assumption].
Qed.

Lemma or_resolveName o typeLabel id :
  JS.or o (typeLabel ++ " ID #" ++ id)%string = resolveName o typeLabel id.
Proof. reflexivity. Qed.

(** Every name of a resolved path is a non-empty string, and so are the
    ids of the execution and of the artifact: an empty display name is
    replaced like a missing one. *)
Theorem path_names_nonempty run e la path :
  getFullArtifactPath run e la = Normal path ->
  name (FullArtifactPath.run path) <> "" /\
  name (FullArtifactPath.execution path) <> "" /\
  name (FullArtifactPath.artifact path) <> "" /\
  id (FullArtifactPath.execution path) <> "" /\
  id (FullArtifactPath.artifact path) <> "".
Proof.
  unfold getFullArtifactPath.
  destruct (apis.run run) as [r |] eqn:Er; [| discriminate].
  rewrite (orM_resolve _ "Run" r). simpl. intros H. inversion H; subst path.
  cbn [FullArtifactPath.run FullArtifactPath.execution
       FullArtifactPath.artifact name id].
  split; [apply resolveName_nonempty; discriminate |].
  split; [apply (resolveName_nonempty _ "Execution"); discriminate |].
  split; [apply (resolveName_nonempty _ "Artifact"); discriminate |].
  split; apply Number_toString_nonempty.
Qed.

(** An execution with an empty display name: the name falls back to the
    id. *)
Lemma path_names_nonempty_witness :
  "Run ID #42" <> "" /\ "Execution ID #7" <> "" /\ "Artifact ID #3" <> "" /\
  "7" <> "" /\ "3" <> "".
Proof.
  exact (path_names_nonempty Sample.run42
           {| mlmd.Execution.getId := 7;
              mlmd.Execution.displayName := Some "" |}
           (Sample.linked []) _ eq_refl).
Defined.

(* ================================================================== *)
(** * Labels of metrics types *)
(* ================================================================== *)

(** The labels of the five metrics types are non-empty and pairwise
    distinct, and no other number has one of them: the label determines
    the metrics type. *)
Theorem metricsTypeToString_injective (a b : Z) :
  (0 <= a <= 4)%Z ->
  metricsTypeToString a <> "" /\
  (metricsTypeToString a = metricsTypeToString b -> a = b).
Proof.
  intros Ha.
  assert (Hc : a = 0%Z \/ a = 1%Z \/ a = 2%Z \/ a = 3%Z \/ a = 4%Z) by lia.
  unfold metricsTypeToString, MetricsType.SCALAR_METRICS,
    MetricsType.CONFUSION_MATRIX, MetricsType.ROC_CURVE, MetricsType.HTML,
    MetricsType.MARKDOWN.
  destruct Hc as [-> | [-> | [-> | [-> | ->]]]];
    (split; [discriminate |]); cbn [Z.eqb Pos.eqb];
    repeat match goal with
      | |- context [(b =? ?c)%Z] =>
          destruct (Z.eqb_spec b c); [subst b |]
      end;
    intros H; try reflexivity; discriminate H.
Qed.

Lemma metricsTypeToString_injective_witness :
  metricsTypeToString MetricsType.ROC_CURVE <> "" /\
  (metricsTypeToString MetricsType.ROC_CURVE
   = metricsTypeToString MetricsType.ROC_CURVE ->
   MetricsType.ROC_CURVE = MetricsType.ROC_CURVE).
Proof.
  apply (metricsTypeToString_injective MetricsType.ROC_CURVE
           MetricsType.ROC_CURVE).
  unfold MetricsType.ROC_CURVE. lia.
Defined.
(* ================================================================== *)
(** * Ids determine their artifacts *)
(* ================================================================== *)

Lemma chars_app (s1 s2 : string) :
  list_ascii_of_string (s1 ++ s2)
  = list_ascii_of_string s1 ++ list_ascii_of_string s2.
Proof.
  induction s1 as [| c s1 IH]; simpl; [reflexivity |].
  rewrite IH. reflexivity.
Qed.

Lemma chars_inj (s1 s2 : string) :
  list_ascii_of_string s1 = list_ascii_of_string s2 -> s1 = s2.
Proof.
  intros H. rewrite <- (string_of_list_ascii_of_string s1).
  rewrite <- (string_of_list_ascii_of_string s2). rewrite H. reflexivity.
Qed.

Lemma dropZeros_other c l : c <> "0"%char -> dropZeros (c :: l) = c :: l.
Proof.
  destruct c as [[] [] [] [] [] [] [] []]; intros H; try reflexivity.
  exfalso. apply H. reflexivity.
Qed.

(** Dropping zeros drops a block of zeros. *)
Lemma dropZeros_split l :
  exists m, l = repeat "0"%char m ++ dropZeros l.
Proof.
  induction l as [| c l [m IH]]; [exists 0; reflexivity |].
  destruct (Ascii.eqb_spec c "0") as [-> | Hne].
  - exists (S m). cbn [dropZeros repeat app]. rewrite <- IH. reflexivity.
  - exists 0. rewrite (dropZeros_other _ _ Hne). reflexivity.
Qed.

Lemma rev_repeat {A} (x : A) m : rev (repeat x m) = repeat x m.
Proof.
  induction m as [| m IH]; [reflexivity |]. simpl. rewrite IH.
  clear IH. induction m as [| m IH]; [reflexivity |].
  simpl. rewrite IH. reflexivity.
Qed.

(** The significant digits followed by the dropped zeros are the digits. *)
Lemma strip_restore l :
  exists m, l = rev (dropZeros (rev l)) ++ repeat "0"%char m.
Proof.
  destruct (dropZeros_split (rev l)) as [m E]. exists m.
  rewrite <- (rev_involutive l) at 1. rewrite E at 1.
  rewrite rev_app_distr, rev_repeat. reflexivity.
Qed.

Lemma digits_of_uint d :
  Forall (fun c => isDigit c = true)
         (list_ascii_of_string (NilEmpty.string_of_uint d)).
Proof.
  induction d; simpl; constructor; auto.
Qed.

Lemma digits_decimal s :
  Forall (fun c => isDigit c = true) (list_ascii_of_string (decimal s)) /\
  list_ascii_of_string (decimal s) <> [].
Proof.
  unfold decimal, NilZero.string_of_uint.
  destruct (N.to_uint s) eqn:E;
    try (split; [rewrite <- E at 1 | discriminate]);
    try (rewrite E; apply (digits_of_uint _)).
  split; [repeat constructor | discriminate].
Qed.

Lemma to_uint_nonnil s : N.to_uint s <> Decimal.Nil.
Proof.
  destruct s as [| p]; [discriminate |].
  apply DecimalPos.Unsigned.to_uint_nonnil.
Qed.

(** Distinct numbers have distinct decimals. *)
Lemma decimal_inj a b : decimal a = decimal b -> a = b.
Proof.
  unfold decimal. intros H.
  apply DecimalN.Unsigned.to_uint_inj.
  pose proof (NilZero.usu _ (to_uint_nonnil a)) as Ha.
  pose proof (NilZero.usu _ (to_uint_nonnil b)) as Hb.
  rewrite H in Ha. rewrite Ha in Hb. inversion Hb. reflexivity.
Qed.

Lemma zeros_of_uint d :
  Forall (fun c => c = "0"%char)
         (list_ascii_of_string (NilEmpty.string_of_uint d)) ->
  Pos.of_uint d = 0%N.
Proof.
  induction d; simpl; intros H; try reflexivity;
    inversion H as [| ? ? Hc Hrest]; subst; try discriminate Hc.
  exact (IHd Hrest).
Qed.

(** Only the number 0 has a decimal of zeros. *)
Lemma zeros_decimal s :
  Forall (fun c => c = "0"%char) (list_ascii_of_string (decimal s)) ->
  s = 0%N.
Proof.
  destruct s as [| p]; [reflexivity |]. unfold decimal. simpl N.to_uint.
  intros H. exfalso.
  assert (E : NilZero.string_of_uint (Pos.to_uint p)
              = NilEmpty.string_of_uint (Pos.to_uint p)).
  { pose proof (DecimalPos.Unsigned.to_uint_nonnil p) as Hn.
    destruct (Pos.to_uint p); [contradiction | reflexivity ..]. }
  rewrite E in H. apply zeros_of_uint in H.
  rewrite DecimalPos.Unsigned.of_to in H. discriminate.
Qed.

Lemma dropZeros_nil l :
  dropZeros l = [] -> Forall (fun c => c = "0"%char) l.
Proof.
  induction l as [| c l IH]; intros H; [constructor |].
  destruct (Ascii.eqb_spec c "0") as [-> | Hne].
  - constructor; [reflexivity | exact (IH H)].
  - rewrite (dropZeros_other _ _ Hne) in H. discriminate.
Qed.

Lemma significant_nil l :
  rev (dropZeros (rev l)) = [] -> Forall (fun c => c = "0"%char) l.
Proof.
  intros H. apply (f_equal (@rev ascii)) in H.
  rewrite rev_involutive in H. simpl in H. apply dropZeros_nil in H.
  apply Forall_rev in H. rewrite rev_involutive in H. exact H.
Qed.

(** The text of an integer id: its sign and the text of its digits. *)
Lemma idText_chars z :
  list_ascii_of_string (idText z)
  = signOf z ++ integerText (list_ascii_of_string (decimal (Z.abs_N z))).
Proof.
  destruct (N.eq_dec (Z.abs_N z) 0) as [E0 | Hne].
  { assert (z = 0%Z) by lia. subst z. reflexivity. }
  unfold idText, ofZ, Number_toString, integerText.
  set (L := list_ascii_of_string (decimal (Z.abs_N z))).
  destruct (rev (dropZeros (rev L))) as [| d rest] eqn:Es.
  { exfalso. apply Hne. apply zeros_decimal. apply significant_nil.
    exact Es. }
  destruct (strip_restore L) as [m Hm]. rewrite Es in Hm.
  assert (Hlen : length L = length (d :: rest) + m).
  { rewrite Hm at 1. rewrite length_app, repeat_length. reflexivity. }
  rewrite chars_app, list_ascii_of_string_of_list_ascii.
  assert (Hsign : list_ascii_of_string (if (z <? 0)%Z then "-" else "")
                  = signOf z).
  { unfold signOf. destruct (z <? 0)%Z; reflexivity. }
  rewrite Hsign. f_equal. unfold formatDigits.
  replace ((Z.of_nat (length (d :: rest)) <=? Z.of_nat (length L) + 0)%Z)
    with true by (symmetry; apply Z.leb_le; lia).
  cbn [andb].
  destruct (Nat.leb_spec (length L) 21) as [Hle | Hgt].
  - replace ((Z.of_nat (length L) + 0 <=? 21)%Z) with true
      by (symmetry; apply Z.leb_le; lia).
    replace (Z.to_nat (Z.of_nat (length L) + 0
                       - Z.of_nat (length (d :: rest)))) with m by lia.
    unfold zeros. symmetry. exact Hm.
  - replace ((Z.of_nat (length L) + 0 <=? 21)%Z) with false
      by (symmetry; apply Z.leb_gt; lia).
    rewrite andb_false_r.
    replace ((-6 <? Z.of_nat (length L) + 0)%Z
             && (Z.of_nat (length L) + 0 <=? 0)%Z) with false
      by (symmetry; apply andb_false_iff; right; apply Z.leb_gt; lia).
    replace ((Z.of_nat (length L) + 0 - 1 <? 0)%Z) with false
      by (symmetry; apply Z.ltb_ge; lia).
    replace (Z.abs_N (Z.of_nat (length L) + 0 - 1))
      with (N.of_nat (length L - 1)) by lia.
    reflexivity.
Qed.

Lemma split_at (c : ascii) : forall p1 p2 x1 x2,
  ~ In c p1 -> ~ In c p2 ->
  p1 ++ c :: x1 = p2 ++ c :: x2 -> p1 = p2 /\ x1 = x2.
Proof.
  induction p1 as [| a p1 IH]; intros [| b p2] x1 x2 H1 H2 E; simpl in E.
  - inversion E. auto.
  - inversion E; subst. exfalso. apply H2. left. reflexivity.
  - inversion E; subst. exfalso. apply H1. left. reflexivity.
  - inversion E; subst.
    destruct (IH p2 x1 x2) as [-> ->]; auto.
    + intros Hin. apply H1. right. exact Hin.
    + intros Hin. apply H2. right. exact Hin.
Qed.

(** The shape of the text of the digits of a number: up to 21 digits the
    digits, beyond that the exponent form of the significant digits. *)
Lemma integerText_shape s :
  let L := list_ascii_of_string (decimal s) in
  (length L <= 21 /\ integerText L = L) \/
  (21 < length L /\
   exists d rest m,
     L = (d :: rest) ++ repeat "0"%char m /\
     integerText L
     = (d :: match rest with [] => [] | _ :: _ => "."%char :: rest end)
         ++ "e"%char :: "+"%char
              :: list_ascii_of_string (decimal (N.of_nat (length L - 1)))).
Proof.
  intros L. unfold integerText.
  destruct (Nat.leb_spec (length L) 21) as [Hle | Hgt]; [left; auto |].
  right. split; [exact Hgt |].
  destruct (rev (dropZeros (rev L))) as [| d rest] eqn:Es.
  { apply significant_nil, zeros_decimal in Es. subst s.
    exfalso. cbv in Hgt. lia. }
  destruct (strip_restore L) as [m Hm]. rewrite Es in Hm.
  exists d, rest, m. split; [exact Hm |].
  destruct rest; reflexivity.
Qed.

Lemma isDigit_neq c x : isDigit c = true -> isDigit x = false -> c <> x.
Proof. intros H1 H2 ->. congruence. Qed.

(** The text of the digits starts with a digit and holds no minus. *)
Lemma integerText_chars s :
  let body := integerText (list_ascii_of_string (decimal s)) in
  (exists c rest, body = c :: rest /\ isDigit c = true) /\
  ~ In "-"%char body.
Proof.
  intros body. subst body.
  destruct (digits_decimal s) as [Hd Hne].
  assert (Hminus : forall l, Forall (fun c => isDigit c = true) l ->
                             ~ In "-"%char l).
  { intros l Hl Hin. rewrite Forall_forall in Hl.
    apply Hl in Hin. discriminate Hin. }
  destruct (integerText_shape s) as [[_ ->] | [_ [d [rest [m [HL ->]]]]]].
  - split; [| exact (Hminus _ Hd)].
    destruct (list_ascii_of_string (decimal s)) as [| c rest];
      [contradiction |].
    inversion Hd; subst. eauto.
  - rewrite HL in Hd. apply Forall_app in Hd. destruct Hd as [Hd _].
    inversion Hd as [| ? ? Hc Hrest]; subst. split; [simpl; eauto |].
    destruct (digits_decimal
                (N.of_nat (length (list_ascii_of_string (decimal s)) - 1)))
      as [He _].
    intros Hin. apply in_app_or in Hin. destruct Hin as [Hin | Hin].
    + destruct Hin as [E | Hin]; [subst d; discriminate Hc |].
      destruct rest as [| r rest']; [contradiction |].
      destruct Hin as [E | Hin]; [discriminate E |].
      exact (Hminus _ Hrest Hin).
    + destruct Hin as [E | [E | Hin]]; try discriminate.
      exact (Hminus _ He Hin).
Qed.

(** Distinct numbers have distinct texts. *)
Lemma integerText_inj s1 s2 :
  integerText (list_ascii_of_string (decimal s1))
  = integerText (list_ascii_of_string (decimal s2)) ->
  s1 = s2.
Proof.
  intros E. apply decimal_inj, chars_inj.
  destruct (digits_decimal s1) as [Hd1 _].
  destruct (digits_decimal s2) as [Hd2 _].
  assert (Hplain : forall l x, Forall (fun c => isDigit c = true) l ->
                               isDigit x = false -> ~ In x l).
  { intros l x Hl Hx Hin. rewrite Forall_forall in Hl.
    apply Hl in Hin. congruence. }
  destruct (integerText_shape s1) as [[_ E1] | [G1 [d1 [r1 [m1 [HL1 E1]]]]]];
    destruct (integerText_shape s2) as [[_ E2] | [G2 [d2 [r2 [m2 [HL2 E2]]]]]];
    rewrite E1, E2 in E; clear E1 E2.
  - exact E.
  - exfalso. apply (Hplain _ "e"%char Hd1 eq_refl). rewrite E.
    apply in_or_app. right. left. reflexivity.
  - exfalso. apply (Hplain _ "e"%char Hd2 eq_refl). rewrite <- E.
    apply in_or_app. right. left. reflexivity.
  - assert (Hp : forall d r m L,
              L = (d :: r) ++ repeat "0"%char m ->
              Forall (fun c => isDigit c = true) L ->
              ~ In "e"%char
                  (d :: match r with [] => [] | _ :: _ => "."%char :: r end)).
    { intros d r m L HL Hd. rewrite HL in Hd. apply Forall_app in Hd.
      destruct Hd as [Hd _]. inversion Hd as [| ? ? Hc Hr]; subst.
      intros [Ed | Hin]; [subst d; discriminate Hc |].
      destruct r as [| c r']; [contradiction |].
      destruct Hin as [Ec | Hin]; [discriminate Ec |].
      exact (Hplain _ "e"%char Hr eq_refl Hin). }
    apply split_at in E;
      [| exact (Hp _ _ _ _ HL1 Hd1) | exact (Hp _ _ _ _ HL2 Hd2)].
    destruct E as [Epre Eexp].
    inversion Eexp as [Edec]. apply chars_inj, decimal_inj in Edec.
    assert (Elen : length (list_ascii_of_string (decimal s1))
                   = length (list_ascii_of_string (decimal s2))) by lia.
    assert (Esig : d1 :: r1 = d2 :: r2).
    { inversion Epre as [[Ed Er]]. f_equal.
      destruct r1 as [| a1 r1']; destruct r2 as [| a2 r2'];
        try discriminate Er; [reflexivity |].
      inversion Er. reflexivity. }
    rewrite HL1, HL2 in Elen. rewrite !length_app, !repeat_length in Elen.
    rewrite Esig in *. assert (m1 = m2) by lia. subst m2.
    rewrite HL1, HL2. reflexivity.
Qed.

Lemma sign_split z1 z2 b1 b2 :
  (exists c r, b1 = c :: r /\ isDigit c = true) ->
  (exists c r, b2 = c :: r /\ isDigit c = true) ->
  signOf z1 ++ b1 = signOf z2 ++ b2 ->
  (z1 <? 0)%Z = (z2 <? 0)%Z /\ b1 = b2.
Proof.
  intros [c1 [r1 [-> H1]]] [c2 [r2 [-> H2]]]. unfold signOf.
  destruct (z1 <? 0)%Z; destruct (z2 <? 0)%Z; simpl; intros E;
    inversion E; subst; try discriminate; auto.
Qed.

Lemma abs_sign_eq z1 z2 :
  (z1 <? 0)%Z = (z2 <? 0)%Z -> Z.abs_N z1 = Z.abs_N z2 -> z1 = z2.
Proof.
  destruct (Z.ltb_spec z1 0); destruct (Z.ltb_spec z2 0); intros Hs Ha;
    try discriminate; lia.
Qed.

(** Distinct integers print differently. *)
Lemma idText_inj z1 z2 : idText z1 = idText z2 -> z1 = z2.
Proof.
  intros E. apply (f_equal list_ascii_of_string) in E.
  rewrite !idText_chars in E.
  apply sign_split in E;
    [| exact (proj1 (integerText_chars _)) ..].
  destruct E as [Hs Hb]. apply integerText_inj in Hb.
  exact (abs_sign_eq _ _ Hs Hb).
Qed.



(* ================================================================== *)
(** * Writes are confined to the objects a call allocates *)
(* ================================================================== *)

Section Confinement.

Import Store.

Variable base : nat.

Lemma confined_ret {A} (a : A) (Q : A -> Prop) :
  Q a -> confined base (ret a) Q.
Proof.
  intros HQ h Hlen Hcl. simpl. repeat split; auto.
  intros a' E. inversion E; subst. exact HQ.
Qed.

Lemma confined_throw {A} (e : exn) (Q : A -> Prop) :
  confined base (throw e) Q.
Proof.
  intros h Hlen Hcl. simpl. repeat split; auto. discriminate.
Qed.

Lemma confined_lift {A} (c : completion A) (Q : A -> Prop) :
  (forall a, c = Normal a -> Q a) -> confined base (lift c) Q.
Proof. intros HQ h Hlen Hcl. simpl. repeat split; auto. Qed.

Lemma confined_bind {A B} (m : M A) (k : A -> M B) (Q : A -> Prop)
  (R : B -> Prop) :
  confined base m Q ->
  (forall a, Q a -> confined base (k a) R) ->
  confined base (bind m k) R.
Proof.
  intros Hm Hk h Hlen Hcl. unfold bind.
  destruct (Hm h Hlen Hcl) as [Hpre [Hlen' [Hcl' HQ]]].
  destruct (m h) as [[a | e] h']; simpl in *.
  - destruct (Hk a (HQ a eq_refl) h' Hlen' Hcl') as [Hpre2 [Hlen2 [Hcl2 HR]]].
    repeat split; auto. congruence.
  - repeat split; auto. discriminate.
Qed.

Lemma confined_weaken {A} (m : M A) (Q Q' : A -> Prop) :
  confined base m Q -> (forall a, Q a -> Q' a) -> confined base m Q'.
Proof.
  intros Hm HQ h Hlen Hcl.
  destruct (Hm h Hlen Hcl) as [Hpre [Hlen' [Hcl' H]]]. repeat split; auto.
Qed.

Lemma confined_alloc (o : obj) :
  storable base o -> confined base (alloc o) (local base).
Proof.
  intros Ho h Hlen Hcl. unfold alloc. simpl. repeat split.
  - rewrite firstn_app. replace (base - length h) with 0 by lia.
    simpl. apply app_nil_r.
  - rewrite length_app. lia.
  - intros l fields Hl Hnth. destruct (Nat.lt_ge_cases l (length h)) as [Hlt | Hge].
    + rewrite nth_error_app1 in Hnth by exact Hlt. eapply Hcl; eassumption.
    + rewrite nth_error_app2 in Hnth by exact Hge.
      destruct (l - length h) as [| n]; simpl in Hnth.
      * inversion Hnth; subst o. exact Ho.
      * destruct n; discriminate Hnth.
  - intros a E. inversion E; subst. simpl. exact Hlen.
Qed.

Lemma confined_load (l : loc) :
  confined base (load l) (fun o => base <= l -> storable base o).
Proof.
  intros h Hlen Hcl. unfold load.
  destruct (nth_error h l) as [o |] eqn:E; simpl; repeat split; auto;
    [| discriminate].
  intros a Ha Hl. inversion Ha; subst a.
  destruct o as [items | fields]; simpl; [exact I |].
  eapply Hcl; eassumption.
Qed.

Lemma nth_error_overwrite {A} (h : list A) (x : A) : forall l l',
  l < length h ->
  nth_error (firstn l h ++ x :: skipn (S l) h) l'
  = if l' =? l then Some x else nth_error h l'.
Proof.
  induction h as [| y h IH]; intros l l' Hl; simpl in Hl; [lia |].
  destruct l as [| l]; destruct l' as [| l']; simpl; try reflexivity.
  apply IH. lia.
Qed.

Lemma length_overwrite {A} (h : list A) (x : A) l :
  l < length h -> length (firstn l h ++ x :: skipn (S l) h) = length h.
Proof.
  intros Hl. rewrite length_app, length_firstn. cbn [length].
  rewrite length_skipn. lia.
Qed.

Lemma firstn_overwrite {A} (h : list A) (x : A) l :
  base <= l -> l < length h ->
  firstn base (firstn l h ++ x :: skipn (S l) h) = firstn base h.
Proof.
  intros Hb Hl. rewrite firstn_app, firstn_firstn, length_firstn.
  replace (Nat.min base l) with base by lia.
  replace (base - Nat.min l (length h)) with 0 by lia.
  apply app_nil_r.
Qed.

Lemma confined_store (l : loc) (o : obj) :
  base <= l -> storable base o -> confined base (store l o) (fun _ => True).
Proof.
  intros Hl Ho h Hlen Hcl. unfold store.
  destruct (l <? length h) eqn:E; cbn [fst snd]; [| repeat split; auto].
  apply Nat.ltb_lt in E. split; [| split; [| split; [| auto]]].
  - apply firstn_overwrite; assumption.
  - rewrite length_overwrite by exact E. exact Hlen.
  - intros l' fields Hl' Hnth. rewrite nth_error_overwrite in Hnth by exact E.
    destruct (l' =? l).
    + inversion Hnth; subst o. exact Ho.
    + eapply Hcl; eassumption.
Qed.

Lemma confined_forM {A S} (I : S -> Prop) (body : A -> S -> M S) l :
  (forall x s, I s -> confined base (body x s) I) ->
  forall s, I s -> confined base (forM l body s) I.
Proof.
  intros Hbody. induction l as [| x l IH]; intros s Hs; simpl.
  - apply confined_ret. exact Hs.
  - eapply confined_bind; [apply Hbody; exact Hs | exact IH].
Qed.

Lemma confined_mapM {A B} (Q : B -> Prop) (f : A -> M B) l :
  (forall x, confined base (f x) Q) ->
  confined base (mapM l f) (Forall Q).
Proof.
  intros Hf. induction l as [| x l IH]; simpl.
  - apply confined_ret. constructor.
  - eapply confined_bind; [apply Hf |]. intros b Hb.
    eapply confined_bind; [exact IH |]. intros bs Hbs.
    apply confined_ret. constructor; assumption.
Qed.

(** ** The reads and writes of the source *)

Lemma confined_getProp v k :
  confined base (getProp v k) (fun x => local base v -> local base x).
Proof.
  destruct v; try apply confined_throw. simpl.
  eapply confined_bind; [apply confined_load |]. intros o Ho.
  destruct o as [items | fields]; apply confined_ret; simpl; [auto |].
  intros Hl. destruct (getOwn fields k) as [x |] eqn:E; [| exact I].
  apply getOwn_In in E. exact (Ho Hl _ _ E).
Qed.

Lemma confined_getKey v k :
  confined base (getKey v k)
    (fun p => local base v ->
              match p with Own x => local base x | _ => True end).
Proof.
  destruct v; try apply confined_throw. simpl.
  eapply confined_bind; [apply confined_load |]. intros o Ho.
  destruct o as [items | fields]; apply confined_ret; simpl; [auto |].
  intros Hl. destruct (JS.get fields k) as [x | |] eqn:E; try exact I.
  apply get_Own in E. apply getOwn_In in E. exact (Ho Hl _ _ E).
Qed.

Lemma confined_elements v :
  confined base (elements v) (fun _ => True).
Proof.
  destruct v; try apply confined_throw. simpl.
  eapply confined_bind; [apply confined_load |]. intros o _.
  destruct o; [apply confined_ret; exact I | apply confined_throw].
Qed.

Lemma confined_getIndex v i :
  confined base (getIndex v i) (fun _ => True).
Proof.
  destruct v; try apply confined_throw. simpl.
  eapply confined_bind; [apply confined_load |]. intros o _.
  destruct o; apply confined_ret; exact I.
Qed.

Lemma In_set {V} (o : object V) k v k' v' :
  In (k', v') (JS.set o k v) -> (k', v') = (k, v) \/ In (k', v') o.
Proof.
  induction o as [| [k0 v0] o IH]; simpl.
  - intros [H | []]. left. symmetry. exact H.
  - destruct (k0 =? k)%string eqn:E; simpl.
    + apply String.eqb_eq in E. subst k0. intros [H | H].
      * left. symmetry. exact H.
      * right. right. exact H.
    + intros [H | H].
      * right. left. exact H.
      * destruct (IH H) as [H' | H']; [left | right; right]; exact H'.
Qed.

Lemma confined_setProp v k x :
  local base v -> local base x ->
  confined base (setProp v k x) (fun _ => True).
Proof.
  intros Hv Hx. destruct v; try apply confined_throw. simpl in *.
  eapply confined_bind; [apply confined_load |]. intros o Ho.
  destruct o as [items | fields]; [apply confined_throw |].
  apply confined_store; [exact Hv |]. simpl. intros k' v' Hin.
  apply In_set in Hin. destruct Hin as [E | Hin].
  - inversion E; subst. exact Hx.
  - exact (Ho Hv _ _ Hin).
Qed.

Lemma confined_push v x :
  local base v -> confined base (push v x) (fun _ => True).
Proof.
  intros Hv. destruct v; try apply confined_throw. simpl in *.
  eapply confined_bind; [apply confined_load |]. intros o _.
  destruct o; [| apply confined_throw].
  apply confined_store; [exact Hv | exact I].
Qed.

Lemma confined_setIndex v i x :
  local base v -> confined base (setIndex v i x) (fun _ => True).
Proof.
  intros Hv. destruct v; try apply confined_throw. simpl in *.
  eapply confined_bind; [apply confined_load |]. intros o _.
  destruct o; [| apply confined_throw].
  apply confined_store; [exact Hv | exact I].
Qed.

End Confinement.

(** ** The functions of the source *)

Section ConfinedFunctions.

Import Store.

Variable base : nat.

Lemma confined_asRun v : confined base (asRun v) (fun _ => True).
Proof. destruct v; try apply confined_throw. apply confined_ret. exact I. Qed.

Lemma confined_asExecution v : confined base (asExecution v) (fun _ => True).
Proof. destruct v; try apply confined_throw. apply confined_ret. exact I. Qed.

Lemma confined_asEvent v : confined base (asEvent v) (fun _ => True).
Proof. destruct v; try apply confined_throw. apply confined_ret. exact I. Qed.

Lemma confined_asArtifact v : confined base (asArtifact v) (fun _ => True).
Proof. destruct v; try apply confined_throw. apply confined_ret. exact I. Qed.

Lemma confined_readLinkedArtifact v :
  confined base (readLinkedArtifact v) (fun _ => True).
Proof.
  unfold readLinkedArtifact.
  eapply confined_bind; [apply confined_getProp |]. intros e _.
  eapply confined_bind; [apply confined_asEvent |]. intros e' _.
  eapply confined_bind; [apply confined_getProp |]. intros a _.
  eapply confined_bind; [apply confined_asArtifact |]. intros a' _.
  apply confined_ret. exact I.
Qed.

Lemma confined_getRocCurveId v :
  confined base (Store.getRocCurveId v) (fun _ => True).
Proof.
  unfold Store.getRocCurveId.
  eapply confined_bind; [apply confined_readLinkedArtifact |]. intros la _.
  apply confined_ret. exact I.
Qed.

Lemma confined_getValidArtifacts ea :
  confined base (Store.getValidArtifacts ea) (local base).
Proof.
  unfold Store.getValidArtifacts.
  eapply confined_bind; [apply confined_alloc; exact I |].
  intros valid Hvalid.
  eapply confined_bind; [apply confined_getProp |]. intros las _.
  eapply confined_bind; [apply confined_elements |]. intros items _.
  eapply confined_bind.
  - apply (confined_forM base (fun _ => True)); [| exact I].
    intros la [] _.
    eapply confined_bind; [apply confined_getProp |]. intros a _.
    eapply confined_bind; [apply confined_asArtifact |]. intros a' _.
    cbv zeta. destruct (ToBoolean _).
    + apply confined_push. exact Hvalid.
    + apply confined_ret. exact I.
  - intros _ _. apply confined_ret. exact Hvalid.
Qed.

Lemma confined_allocNameId n :
  confined base (allocNameId n) (local base).
Proof.
  apply confined_alloc. simpl. intros k v [E | [E | []]]; inversion E; exact I.
Qed.

Lemma confined_getFullArtifactPath r e v :
  confined base (Store.getFullArtifactPath r e v) (local base).
Proof.
  unfold Store.getFullArtifactPath.
  eapply confined_bind; [apply confined_readLinkedArtifact |]. intros la _.
  eapply confined_bind; [apply (confined_lift base _ (fun _ => True)); auto |].
  intros path _.
  eapply confined_bind; [apply confined_allocNameId |]. intros x Hx.
  eapply confined_bind; [apply confined_allocNameId |]. intros y Hy.
  eapply confined_bind; [apply confined_allocNameId |]. intros z Hz.
  apply confined_alloc. simpl.
  intros k w [E | [E | [E | []]]]; inversion E; subst; assumption.
Qed.

Lemma confined_flatMapDeep v :
  confined base (flatMapDeep v) (local base).
Proof.
  unfold flatMapDeep.
  eapply confined_bind; [apply confined_elements |]. intros outer _.
  eapply confined_bind.
  - apply (confined_mapM base (fun _ => True)). intros inner.
    eapply confined_bind; [apply confined_elements |]. intros arrays _.
    eapply confined_bind;
      [apply (confined_mapM base (fun _ => True)); intros;
       apply confined_elements |].
    intros parts _. apply confined_ret. exact I.
  - intros parts _. apply confined_alloc. exact I.
Qed.

Lemma confined_getValidRocCurveArtifactData v :
  confined base (Store.getValidRocCurveArtifactData v) (local base).
Proof.
  unfold Store.getValidRocCurveArtifactData.
  eapply confined_bind;
    [apply confined_alloc; simpl; intros ? ? [] |].
  intros pathMap HpathMap.
  eapply confined_bind; [apply confined_elements |]. intros ras _.
  eapply confined_bind.
  - apply (confined_mapM base (fun _ => True)). intros ra.
    eapply confined_bind; [apply confined_getProp |]. intros eas _.
    eapply confined_bind; [apply confined_elements |]. intros eas' _.
    eapply confined_bind.
    + apply (confined_mapM base (fun _ => True)). intros ea.
      eapply confined_bind; [apply confined_getValidArtifacts |].
      intros valid _.
      eapply confined_bind; [apply confined_elements |]. intros vs _.
      eapply confined_bind.
      * apply (confined_forM base (fun _ => True)); [| exact I].
        intros la [] _.
        eapply confined_bind; [apply confined_getRocCurveId |].
        intros key _.
        eapply confined_bind; [apply confined_getProp |]. intros r _.
        eapply confined_bind; [apply confined_asRun |]. intros r' _.
        eapply confined_bind; [apply confined_getProp |]. intros e _.
        eapply confined_bind; [apply confined_asExecution |]. intros e' _.
        eapply confined_bind; [apply confined_getFullArtifactPath |].
        intros path Hpath.
        apply confined_setProp; assumption.
      * intros _ _. apply confined_ret. exact I.
    + intros mapped _.
      eapply confined_weaken; [apply confined_alloc; exact I | auto].
  - intros mapped _.
    eapply confined_bind; [apply confined_alloc; exact I |].
    intros nested _.
    eapply confined_bind; [apply confined_flatMapDeep |].
    intros flat Hflat.
    apply confined_alloc. simpl.
    intros k w [E | [E | []]]; inversion E; subst; assumption.
Qed.

Lemma confined_addScalarDataItems props dataMap i n :
  local base dataMap ->
  confined base (Store.addScalarDataItems props dataMap i n) (fun _ => True).
Proof.
  intros Hdm. unfold Store.addScalarDataItems.
  apply (confined_forM base (fun _ => True)); [| exact I].
  intros entry [] _. cbv zeta.
  destruct (fst entry =? "display_name")%string;
    [apply confined_ret; exact I |].
  eapply confined_bind; [apply confined_getKey |]. intros found _.
  eapply confined_bind.
  - instantiate (1 := fun _ => True).
    destruct (negb (truthy found)); [| apply confined_ret; exact I].
    eapply confined_bind;
      [apply (confined_lift base _ (fun _ => True)); auto |].
    intros filled _.
    eapply confined_bind; [apply confined_alloc; exact I |].
    intros filledRow Hrow.
    eapply confined_bind.
    + apply confined_alloc. simpl.
      intros k w [E | [E | []]]; inversion E; subst; [exact Hrow | exact I].
    + intros data Hdata. apply confined_setProp; assumption.
  - intros _ _.
    eapply confined_bind; [apply confined_getKey |]. intros found' Hfound.
    specialize (Hfound Hdm).
    destruct found' as [data | |]; try apply confined_throw.
    eapply confined_bind; [apply confined_getProp |]. intros r Hr.
    eapply confined_bind; [apply confined_setIndex; auto |]. intros _ _.
    eapply confined_bind; [apply confined_getProp |]. intros c _.
    apply confined_setProp; [exact Hfound |].
    destruct c; exact I.
Qed.

Lemma confined_loadScalarExecutionArtifacts eas xLabels dataMap i n :
  local base xLabels -> local base dataMap ->
  confined base
    (Store.loadScalarExecutionArtifacts eas xLabels dataMap i n)
    (fun _ => True).
Proof.
  intros Hxl Hdm. unfold Store.loadScalarExecutionArtifacts.
  eapply confined_bind; [apply confined_elements |]. intros eas' _.
  apply (confined_forM base (fun _ => True)); [| exact I].
  intros ea j _.
  eapply confined_bind; [apply confined_getProp |]. intros e _.
  eapply confined_bind; [apply confined_asExecution |]. intros e' _.
  cbv zeta.
  eapply confined_bind; [apply confined_getProp |]. intros las _.
  eapply confined_bind; [apply confined_elements |]. intros las' _.
  apply (confined_forM base (fun _ => True)); [| exact I].
  intros la k _.
  eapply confined_bind; [apply confined_readLinkedArtifact |]. intros la' _.
  eapply confined_bind; [apply confined_push; exact Hxl |]. intros _ _.
  eapply confined_bind;
    [apply confined_addScalarDataItems; exact Hdm |]. intros _ _.
  apply confined_ret. exact I.
Qed.

Lemma confined_getScalarTableData v n :
  confined base (Store.getScalarTableData v n) (local base).
Proof.
  unfold Store.getScalarTableData.
  eapply confined_bind; [apply confined_alloc; exact I |]. intros xl Hxl.
  eapply confined_bind; [apply confined_alloc; exact I |]. intros xpl Hxpl.
  eapply confined_bind;
    [apply confined_alloc; simpl; intros ? ? [] |]. intros dm Hdm.
  eapply confined_bind; [apply confined_elements |]. intros ras _.
  eapply confined_bind.
  - apply (confined_forM base (fun _ => True)); [| exact I].
    intros ra i _.
    eapply confined_bind; [apply confined_getProp |]. intros r _.
    eapply confined_bind; [apply confined_asRun |]. intros r' _.
    cbv zeta.
    eapply confined_bind; [apply confined_getProp |]. intros eas _.
    eapply confined_bind;
      [apply confined_loadScalarExecutionArtifacts; assumption |].
    intros j _.
    eapply confined_bind.
    + apply confined_alloc. simpl.
      intros k w [E | [E | []]]; inversion E; exact I.
    + intros label Hlabel.
      eapply confined_bind; [apply confined_push; exact Hxpl |].
      intros _ _. apply confined_ret. exact I.
  - intros _ _. apply confined_alloc. simpl.
    intros k w [E | [E | [E | []]]]; inversion E; subst; assumption.
Qed.

Lemma confined_entries v : confined base (entries v) (local base).
Proof.
  destruct v; try apply confined_throw. simpl.
  eapply confined_bind; [apply confined_load |]. intros o _.
  destruct o as [items | fields]; [apply confined_throw |].
  eapply confined_bind.
  - apply (confined_mapM base (fun _ => True)). intros kv.
    eapply confined_weaken; [apply confined_alloc; exact I | auto].
  - intros pairs _. apply confined_alloc. exact I.
Qed.

Lemma confined_dataCountOf v :
  confined base (dataCountOf v) (fun _ => True).
Proof.
  unfold dataCountOf.
  eapply confined_bind; [apply confined_getIndex |]. intros d _.
  eapply confined_bind; [apply confined_getProp |]. intros c _.
  destruct c; try apply confined_throw. apply confined_ret. exact I.
Qed.

Lemma confined_sortByDecreasingDataCount v :
  local base v ->
  confined base (sortByDecreasingDataCount v) (fun _ => True).
Proof.
  intros Hv. unfold sortByDecreasingDataCount.
  eapply confined_bind; [apply confined_elements |]. intros items _.
  eapply confined_bind.
  - apply (confined_mapM base (fun _ => True)). intros item.
    eapply confined_bind; [apply confined_dataCountOf |]. intros c _.
    apply confined_ret. exact I.
  - intros keyed _. destruct v; try apply confined_throw.
    apply confined_store; [exact Hv | exact I].
Qed.

Lemma confined_getCompareTableProps v n :
  confined base (Store.getCompareTableProps v n) (local base).
Proof.
  unfold Store.getCompareTableProps.
  eapply confined_bind; [apply confined_getScalarTableData |].
  intros table Htable.
  eapply confined_bind; [apply confined_getProp |]. intros dm _.
  eapply confined_bind; [apply confined_entries |]. intros sorted Hsorted.
  eapply confined_bind;
    [apply confined_sortByDecreasingDataCount; exact Hsorted |]. intros _ _.
  eapply confined_bind; [apply confined_alloc; exact I |]. intros yl Hyl.
  eapply confined_bind; [apply confined_alloc; exact I |]. intros rs Hrs.
  eapply confined_bind; [apply confined_elements |]. intros items _.
  eapply confined_bind.
  - apply (confined_forM base (fun _ => True)); [| exact I].
    intros item [] _.
    eapply confined_bind; [apply confined_getIndex |]. intros k _.
    eapply confined_bind; [apply confined_push; exact Hyl |]. intros _ _.
    eapply confined_bind; [apply confined_getIndex |]. intros d _.
    eapply confined_bind; [apply confined_getProp |]. intros r _.
    apply confined_push. exact Hrs.
  - intros _ _.
    eapply confined_bind; [apply confined_getProp |]. intros xl Hxl.
    eapply confined_bind; [apply confined_getProp |]. intros xpl Hxpl.
    apply confined_alloc. simpl.
    intros k w [E | [E | [E | [E | []]]]]; inversion E; subst; auto.
Qed.

End ConfinedFunctions.

Lemma closed_initial (h : Store.heap) : Store.closed (length h) h.
Proof.
  intros l fields Hl Hnth.
  apply nth_error_None in Hl. congruence.
Qed.

(** A confined call extends the store it starts from. *)
Lemma confined_extends {A} (m : Store.M A) (Q : A -> Prop) (h : Store.heap) :
  Store.confined (length h) m Q ->
  (exists added, snd (m h) = h ++ added) /\
  Store.closed (length h) (snd (m h)) /\
  forall a, fst (m h) = Normal a -> Q a.
Proof.
  intros Hm.
  destruct (Hm h (le_n _) (closed_initial h)) as [Hpre [_ [Hcl HQ]]].
  split; [| split; assumption].
  exists (skipn (length h) (snd (m h))).
  rewrite <- (firstn_skipn (length h) (snd (m h))) at 1.
  rewrite Hpre, firstn_all. reflexivity.
Qed.

(** ** Reading the input *)

Section Readers.

Import Store.

Lemma reader_ret {A} (a : A) : reader (ret a).
Proof. intros h. simpl. auto. Qed.

Lemma reader_throw {A} (e : exn) : reader (@throw A e).
Proof. intros h. simpl. split; [reflexivity | discriminate]. Qed.

Lemma reader_bind {A B} (m : M A) (k : A -> M B) :
  reader m -> (forall a, reader (k a)) -> reader (bind m k).
Proof.
  intros Hm Hk h. unfold bind.
  destruct (Hm h) as [Hs Hext].
  destruct (m h) as [[a | e] h'] eqn:E; simpl in *; subst h'.
  - destruct (Hk a h) as [Hs' Hext']. split; [exact Hs' |].
    intros added b Hb. specialize (Hext added a eq_refl).
    destruct (Hm (h ++ added)) as [Hs2 _].
    destruct (m (h ++ added)) as [r h2]; simpl in *; subst.
    apply Hext'. exact Hb.
  - split; [reflexivity | discriminate].
Qed.

Lemma reader_load l : reader (load l).
Proof.
  intros h. unfold load.
  destruct (nth_error h l) as [o |] eqn:E; simpl;
    (split; [reflexivity |]); [| discriminate].
  intros added a Ha. inversion Ha; subst a.
  rewrite nth_error_app1 by (apply nth_error_Some; congruence).
  rewrite E. reflexivity.
Qed.

Lemma reader_getProp v k : reader (getProp v k).
Proof.
  destruct v; try apply reader_throw. simpl.
  apply reader_bind; [apply reader_load |].
  intros [items | fields]; apply reader_ret.
Qed.

Lemma reader_elements v : reader (elements v).
Proof.
  destruct v; try apply reader_throw. simpl.
  apply reader_bind; [apply reader_load |].
  intros [items | fields]; [apply reader_ret | apply reader_throw].
Qed.

Lemma reader_mapM {A B} (f : A -> M B) l :
  (forall x, reader (f x)) -> reader (mapM l f).
Proof.
  intros Hf. induction l as [| x l IH]; simpl.
  - apply reader_ret.
  - apply reader_bind; [apply Hf |]. intros b.
    apply reader_bind; [exact IH |]. intros bs. apply reader_ret.
Qed.

Lemma reader_readLinkedArtifact v : reader (readLinkedArtifact v).
Proof.
  unfold readLinkedArtifact.
  apply reader_bind; [apply reader_getProp |]. intros e.
  apply reader_bind;
    [destruct e; try apply reader_throw; apply reader_ret |]. intros e'.
  apply reader_bind; [apply reader_getProp |]. intros a.
  apply reader_bind;
    [destruct a; try apply reader_throw; apply reader_ret |]. intros a'.
  apply reader_ret.
Qed.

Lemma reader_readExecutionArtifact v : reader (readExecutionArtifact v).
Proof.
  unfold readExecutionArtifact.
  apply reader_bind; [apply reader_getProp |]. intros e.
  apply reader_bind;
    [destruct e; try apply reader_throw; apply reader_ret |]. intros e'.
  apply reader_bind; [apply reader_getProp |]. intros las.
  apply reader_bind; [apply reader_elements |]. intros las'.
  apply reader_bind;
    [apply reader_mapM; apply reader_readLinkedArtifact |]. intros las''.
  apply reader_ret.
Qed.

Lemma reader_readRunArtifact v : reader (readRunArtifact v).
Proof.
  unfold readRunArtifact.
  apply reader_bind; [apply reader_getProp |]. intros r.
  apply reader_bind;
    [destruct r; try apply reader_throw; apply reader_ret |]. intros r'.
  apply reader_bind; [apply reader_getProp |]. intros eas.
  apply reader_bind; [apply reader_elements |]. intros eas'.
  apply reader_bind;
    [apply reader_mapM; apply reader_readExecutionArtifact |]. intros eas''.
  apply reader_ret.
Qed.

Lemma reader_readRunArtifacts v : reader (readRunArtifacts v).
Proof.
  unfold readRunArtifacts.
  apply reader_bind; [apply reader_elements |]. intros ras.
  apply reader_mapM. apply reader_readRunArtifact.
Qed.

End Readers.

(** What a confined call does to the store [h] it starts from: it only
    adds objects, the plain objects it adds refer to added objects only,
    its result is an added object, and an input that reads as [ras]
    before the call reads as [ras] after it. *)
Lemma confined_call (m : Store.M Store.value) (h : Store.heap)
  (input : Store.value) :
  Store.confined (length h) m (Store.local (length h)) ->
  (exists added, snd (m h) = h ++ added) /\
  Store.closed (length h) (snd (m h)) /\
  (forall result, fst (m h) = Normal result ->
                  Store.local (length h) result) /\
  (forall ras,
     fst (Store.readRunArtifacts input h) = Normal ras ->
     fst (Store.readRunArtifacts input (snd (m h))) = Normal ras).
Proof.
  intros Hm.
  destruct (confined_extends m _ h Hm) as [[added Hadd] [Hcl Hres]].
  split; [eauto | split; [exact Hcl | split; [exact Hres |]]].
  intros ras Hras. rewrite Hadd.
  apply (proj2 (reader_readRunArtifacts input h)). exact Hras.
Qed.

(** C10.  In a store of objects, [getCompareTableProps] and
    [getValidRocCurveArtifactData] only add objects: every object the
    store held before the call, the input among them, is the same after
    it, also when the call throws, and run artifacts that can be read
    from the input before the call are read from it unchanged after it.
    The result is a reference to an object the call allocated, and the
    plain objects the call allocated (the table props, the table data,
    the map, its row data, the path map, the paths) refer only to objects
    the call allocated: the label arrays, the rows, the maps and the
    array of valid artifacts are new.  Runs, executions, events,
    artifacts and their property maps are values the functions only read
    through getters. *)
Theorem calls_only_allocate (h : Store.heap) (input : Store.value) (n : Z) :
  ((exists added,
      snd (Store.getCompareTableProps input n h) = h ++ added) /\
   Store.closed (length h) (snd (Store.getCompareTableProps input n h)) /\
   (forall props,
      fst (Store.getCompareTableProps input n h) = Normal props ->
      Store.local (length h) props) /\
   (forall ras,
      fst (Store.readRunArtifacts input h) = Normal ras ->
      fst (Store.readRunArtifacts input
             (snd (Store.getCompareTableProps input n h))) = Normal ras)) /\
  ((exists added,
      snd (Store.getValidRocCurveArtifactData input h) = h ++ added) /\
   Store.closed (length h)
     (snd (Store.getValidRocCurveArtifactData input h)) /\
   (forall data,
      fst (Store.getValidRocCurveArtifactData input h) = Normal data ->
      Store.local (length h) data) /\
   (forall ras,
      fst (Store.readRunArtifacts input h) = Normal ras ->
      fst (Store.readRunArtifacts input
             (snd (Store.getValidRocCurveArtifactData input h)))
      = Normal ras)).
Proof.
  split; apply confined_call.
  - apply confined_getCompareTableProps.
  - apply confined_getValidRocCurveArtifactData.
Qed.

(** Run artifacts placed in the store are read back from it. *)
Lemma samples_read_back :
  Forall
    (fun ras =>
       fst (Store.bind (Store.ofRunArtifacts ras) Store.readRunArtifacts [])
       = Normal ras)
    [ Sample.accF1; Sample.numericNames; Sample.confidence ].
Proof. repeat constructor. Qed.

(** On the sample inputs the functions over the store return what the
    functions over values return, abrupt completions included. *)
Lemma store_agrees_on_samples :
  Forall
    (fun input =>
       fst (Store.bind (Store.ofRunArtifacts (fst input))
              (fun v =>
                 Store.bind (Store.getCompareTableProps v (snd input))
                   Store.readCompareTableProps) [])
       = getCompareTableProps (fst input) (snd input))
    [ (Sample.accF1, 2%Z); (Sample.accF1, 0%Z); (Sample.accF1, (-1)%Z);
      (Sample.numericNames, 2%Z); (Sample.named, 1%Z);
      (Sample.inheritedName, 1%Z); (Sample.confidence, 5%Z) ] /\
  Forall
    (fun input =>
       fst (Store.bind (Store.ofRunArtifacts input)
              (fun v =>
                 Store.bind (Store.getValidRocCurveArtifactData v)
                   Store.readRocCurveArtifactData) [])
       = getValidRocCurveArtifactData input)
    [ Sample.confidence; Sample.accF1;
      [ {| run := {| apis.run := None |};
           executionArtifacts := [ Sample.zeroConfidence ] |} ];
      [ {| run := {| apis.run := None |};
           executionArtifacts :=
             [ {| execution := Sample.unnamedExecution;
                  linkedArtifacts :=
                    [ Sample.linked
                        [("confidenceMetrics", mlmd.StructValue [])] ] |} ]
        |} ] ].
Proof. split; repeat constructor. Qed.

(** ** Placing an input in the store *)

Section Placing.

Import Store.

Lemma reader_run {A} (m : M A) h a :
  reader m -> fst (m h) = Normal a -> m h = (Normal a, h).
Proof.
  intros Hm Ha. destruct (Hm h) as [Hs _].
  destruct (m h) as [r h']; simpl in *. subst. reflexivity.
Qed.

Lemma reader_run_app {A} (m : M A) h added a :
  reader m -> fst (m h) = Normal a ->
  m (h ++ added) = (Normal a, h ++ added).
Proof.
  intros Hm Ha. apply reader_run; [exact Hm |].
  apply (proj2 (Hm h)). exact Ha.
Qed.

Lemma load_last h o : load (length h) (h ++ [o]) = (Normal o, h ++ [o]).
Proof.
  unfold load. rewrite nth_error_app2 by lia.
  rewrite Nat.sub_diag. reflexivity.
Qed.

Lemma load_app h added l o :
  nth_error h l = Some o -> load l (h ++ added) = (Normal o, h ++ added).
Proof.
  intros H. unfold load.
  rewrite nth_error_app1 by (apply nth_error_Some; congruence).
  rewrite H. reflexivity.
Qed.

Lemma map_slot_Some vs : map slot (map Some vs) = vs.
Proof. rewrite map_map. apply map_id. Qed.

Lemma placed_mapM {X} (ofX : X -> M value) (readX : value -> M X) :
  (forall v, reader (readX v)) -> placed ofX readX ->
  forall xs h,
    exists vs added,
      mapM xs ofX h = (Normal vs, h ++ added) /\
      fst (mapM vs readX (h ++ added)) = Normal xs.
Proof.
  intros Hread Hof. induction xs as [| x xs IH]; intros h.
  - exists [], []. rewrite app_nil_r. split; reflexivity.
  - destruct (Hof x h) as [v [a1 [E1 R1]]].
    destruct (IH (h ++ a1)) as [vs [a2 [E2 R2]]].
    exists (v :: vs), (a1 ++ a2). rewrite app_assoc. split.
    + simpl. unfold bind at 1. rewrite E1.
      unfold bind at 1. rewrite E2. reflexivity.
    + simpl. unfold bind at 1.
      rewrite (reader_run_app _ _ a2 _ (Hread v) R1).
      unfold bind at 1.
      rewrite (reader_run _ _ _ (reader_mapM _ _ Hread) R2). reflexivity.
Qed.

Lemma placed_ofLinkedArtifact : placed ofLinkedArtifact readLinkedArtifact.
Proof.
  intros la h. eexists. eexists. split; [reflexivity |].
  unfold readLinkedArtifact, getProp, bind. rewrite load_last. simpl.
  rewrite load_last. destruct la. reflexivity.
Qed.

Lemma nth_error_last {A} (h : list A) (o : A) :
  nth_error (h ++ [o]) (length h) = Some o.
Proof. rewrite nth_error_app2 by lia. rewrite Nat.sub_diag. reflexivity. Qed.

Lemma placed_ofExecutionArtifact :
  placed ofExecutionArtifact readExecutionArtifact.
Proof.
  intros ea h.
  destruct (placed_mapM _ _ reader_readLinkedArtifact
              placed_ofLinkedArtifact (linkedArtifacts ea) h)
    as [vs [a1 [E1 R1]]].
  set (A := Arr (map Some vs)).
  set (O := Obj [("execution", VExecution (execution ea));
                 ("linkedArtifacts", VRef (length (h ++ a1)))]).
  exists (VRef (length ((h ++ a1) ++ [A]))), (a1 ++ [A] ++ [O]). split.
  - unfold ofExecutionArtifact, bind. rewrite E1. unfold alloc.
    rewrite <- !app_assoc. reflexivity.
  - rewrite !app_assoc.
    unfold readExecutionArtifact, getProp, bind. rewrite load_last.
    subst O. cbn [getOwn String.eqb Ascii.eqb Bool.eqb ret asExecution fst snd].
    rewrite load_last.
    cbn [getOwn String.eqb Ascii.eqb Bool.eqb ret asExecution fst snd].
    unfold elements, bind.
    rewrite (load_app _ _ _ _ (nth_error_last (h ++ a1) A)).
    subst A. cbn [ret fst snd]. rewrite map_slot_Some, <- app_assoc.
    rewrite (reader_run_app _ _ _ _
               (reader_mapM _ _ reader_readLinkedArtifact) R1).
    destruct ea. reflexivity.
Qed.

Lemma placed_ofRunArtifact : placed ofRunArtifact readRunArtifact.
Proof.
  intros ra h.
  destruct (placed_mapM _ _ reader_readExecutionArtifact
              placed_ofExecutionArtifact (executionArtifacts ra) h)
    as [vs [a1 [E1 R1]]].
  set (A := Arr (map Some vs)).
  set (O := Obj [("run", VRun (run ra));
                 ("executionArtifacts", VRef (length (h ++ a1)))]).
  exists (VRef (length ((h ++ a1) ++ [A]))), (a1 ++ [A] ++ [O]). split.
  - unfold ofRunArtifact, bind. rewrite E1. unfold alloc.
    rewrite <- !app_assoc. reflexivity.
  - rewrite !app_assoc.
    unfold readRunArtifact, getProp, bind. rewrite load_last.
    subst O. cbn [getOwn String.eqb Ascii.eqb Bool.eqb ret asRun fst snd].
    rewrite load_last.
    cbn [getOwn String.eqb Ascii.eqb Bool.eqb ret asRun fst snd].
    unfold elements, bind.
    rewrite (load_app _ _ _ _ (nth_error_last (h ++ a1) A)).
    subst A. cbn [ret fst snd]. rewrite map_slot_Some, <- app_assoc.
    rewrite (reader_run_app _ _ _ _
               (reader_mapM _ _ reader_readExecutionArtifact) R1).
    destruct ra. reflexivity.
Qed.

(** Every list of run artifacts can be placed in any store, and is read
    back from it. *)
Lemma ofRunArtifacts_reads_back (ras : list RunArtifact) (h : heap) :
  fst (bind (ofRunArtifacts ras) readRunArtifacts h) = Normal ras.
Proof.
  destruct (placed_mapM _ _ reader_readRunArtifact placed_ofRunArtifact
              ras h) as [vs [a1 [E1 R1]]].
  unfold ofRunArtifacts, readRunArtifacts, bind. rewrite E1.
  unfold alloc, elements, bind. rewrite load_last.
  cbn [ret fst snd]. rewrite map_slot_Some.
  rewrite (reader_run_app _ _ _ _
             (reader_mapM _ _ reader_readRunArtifact) R1).
  reflexivity.
Qed.

End Placing.

(* ================================================================== *)
(** * The store computes what the value-passing functions compute *)
(* ================================================================== *)

Section Running.

Import Store Layout.

Lemma run_load h l o :
  nth_error h l = Some o -> load l h = (Normal o, h).
Proof. intros H. unfold load. rewrite H. reflexivity. Qed.

Lemma run_store h l o :
  l < length h -> store l o h = (Normal tt, upd h l o).
Proof.
  intros H. unfold store. apply Nat.ltb_lt in H. rewrite H. reflexivity.
Qed.

Lemma nth_error_lt {A} (h : list A) l x : nth_error h l = Some x -> l < length h.
Proof. intros H. apply nth_error_Some. rewrite H. discriminate. Qed.

Lemma run_getProp h l fields k :
  nth_error h l = Some (Obj fields) ->
  getProp (VRef l) k h
  = (Normal (match getOwn fields k with Some x => x | None => VUndefined end),
     h).
Proof.
  intros H. unfold getProp, bind. rewrite (run_load _ _ _ H). reflexivity.
Qed.

Lemma run_getKey h l fields k :
  nth_error h l = Some (Obj fields) ->
  getKey (VRef l) k h = (Normal (JS.get fields k), h).
Proof.
  intros H. unfold getKey, bind. rewrite (run_load _ _ _ H). reflexivity.
Qed.

Lemma run_setProp h l fields k x :
  nth_error h l = Some (Obj fields) ->
  setProp (VRef l) k x h = (Normal tt, upd h l (Obj (JS.set fields k x))).
Proof.
  intros H. unfold setProp, bind. rewrite (run_load _ _ _ H).
  apply run_store. exact (nth_error_lt _ _ _ H).
Qed.

Lemma run_elements h l items :
  nth_error h l = Some (Arr items) ->
  elements (VRef l) h = (Normal (map slot items), h).
Proof.
  intros H. unfold elements, bind. rewrite (run_load _ _ _ H). reflexivity.
Qed.

Lemma run_push h l items x :
  nth_error h l = Some (Arr items) ->
  push (VRef l) x h = (Normal tt, upd h l (Arr (items ++ [Some x]))).
Proof.
  intros H. unfold push, bind. rewrite (run_load _ _ _ H).
  apply run_store. exact (nth_error_lt _ _ _ H).
Qed.

Lemma run_setIndex h l items i x :
  nth_error h l = Some (Arr items) ->
  setIndex (VRef l) i x h = (Normal tt, upd h l (Arr (Array_set items i x))).
Proof.
  intros H. unfold setIndex, bind. rewrite (run_load _ _ _ H).
  apply run_store. exact (nth_error_lt _ _ _ H).
Qed.

Lemma run_getIndex h l items i :
  nth_error h l = Some (Arr items) ->
  getIndex (VRef l) i h = (Normal (slot (nth i items None)), h).
Proof.
  intros H. unfold getIndex, bind. rewrite (run_load _ _ _ H). reflexivity.
Qed.

(** ** The store after a write *)

Lemma nth_error_upd h l o l' :
  l < length h ->
  nth_error (upd h l o) l' = if l' =? l then Some o else nth_error h l'.
Proof. intros H. apply nth_error_overwrite. exact H. Qed.

Lemma length_upd h l o : l < length h -> length (upd h l o) = length h.
Proof. intros H. apply length_overwrite. exact H. Qed.

Lemma upd_app h0 a l o :
  length h0 <= l ->
  upd (h0 ++ a) l o = h0 ++ upd a (l - length h0) o.
Proof.
  intros H. unfold upd.
  rewrite firstn_app, firstn_all2 by exact H.
  rewrite skipn_app, skipn_all2 by lia.
  replace (S l - length h0) with (S (l - length h0)) by lia.
  rewrite <- app_assoc. reflexivity.
Qed.

Lemma holds_alloc h fp o : holds h fp -> holds (h ++ [o]) fp.
Proof.
  unfold holds. intros H. eapply Forall_impl; [| exact H].
  intros [l x] Hl. simpl in *.
  rewrite nth_error_app1 by exact (nth_error_lt _ _ _ Hl). exact Hl.
Qed.

Lemma holds_app h fp added : holds h fp -> holds (h ++ added) fp.
Proof.
  unfold holds. intros H. eapply Forall_impl; [| exact H].
  intros [l x] Hl. simpl in *.
  rewrite nth_error_app1 by exact (nth_error_lt _ _ _ Hl). exact Hl.
Qed.

Lemma holds_In h fp l o : holds h fp -> In (l, o) fp -> nth_error h l = Some o.
Proof.
  unfold holds. rewrite Forall_forall. intros H Hin. exact (H _ Hin).
Qed.

Lemma holds_fresh h fp : holds h fp -> ~ In (length h) (map fst fp).
Proof.
  intros H Hin. apply in_map_iff in Hin. destruct Hin as [[l o] [E Hin]].
  simpl in E. subst l. apply (holds_In _ _ _ _ H) in Hin.
  apply nth_error_lt in Hin. lia.
Qed.

(** After a write at [l], the store holds the new object at [l] and
    every object it held elsewhere. *)
Lemma holds_change h fp fp' l o :
  l < length h -> holds h fp ->
  (forall lo, In lo fp' -> lo = (l, o) \/ (In lo fp /\ fst lo <> l)) ->
  holds (upd h l o) fp'.
Proof.
  intros Hl H Hfp. apply Forall_forall. intros [l' o'] Hin.
  rewrite nth_error_upd by exact Hl. simpl.
  destruct (Hfp _ Hin) as [E | [Hold Hne]].
  - inversion E; subst. rewrite Nat.eqb_refl. reflexivity.
  - simpl in Hne. apply Nat.eqb_neq in Hne. rewrite Hne.
    exact (holds_In _ _ _ _ H Hold).
Qed.

End Running.

Section PlacedObjects.

Import Store Layout.

Context {V W : Type}.
Variable f : V -> W.

Lemma getOwn_mapV (o : object V) k :
  getOwn (mapV f o) k = option_map f (getOwn o k).
Proof.
  induction o as [| [k0 v0] o IH]; simpl; [reflexivity |].
  destruct (k0 =? k)%string; [reflexivity | exact IH].
Qed.

Lemma get_mapV (o : object V) k :
  JS.get (mapV f o) k
  = match JS.get o k with
    | Own v => Own (f v)
    | Inherited => Inherited
    | Undefined => Undefined
    end.
Proof.
  unfold JS.get. rewrite getOwn_mapV.
  destruct (getOwn o k); cbn [option_map]; [reflexivity |].
  destruct (existsb (String.eqb k) Object_prototype); reflexivity.
Qed.

Lemma set_mapV (o : object V) k v :
  JS.set (mapV f o) k (f v) = mapV f (JS.set o k v).
Proof.
  induction o as [| [k0 v0] o IH]; simpl; [reflexivity |].
  destruct (k0 =? k)%string; simpl; [reflexivity |].
  rewrite IH. reflexivity.
Qed.

Lemma keys_mapV (o : object V) : map fst (mapV f o) = map fst o.
Proof. unfold mapV. rewrite map_map. reflexivity. Qed.

End PlacedObjects.

Section SetFacts.

Context {V : Type}.
Implicit Types (o : object V) (k : string) (v : V).

Lemma set_same o k v : getOwn o k = Some v -> JS.set o k v = o.
Proof.
  induction o as [| [k0 v0] o IH]; simpl; [discriminate |].
  destruct (k0 =? k)%string eqn:E.
  - intros H. inversion H; subst. reflexivity.
  - intros H. rewrite (IH H). reflexivity.
Qed.

Lemma set_new o k v : getOwn o k = None -> JS.set o k v = o ++ [(k, v)].
Proof.
  induction o as [| [k0 v0] o IH]; simpl; [reflexivity |].
  destruct (k0 =? k)%string eqn:E; [discriminate |].
  intros H. rewrite (IH H). reflexivity.
Qed.

Lemma In_set_NoDup o k v kv :
  NoDup (map fst o) -> In kv (JS.set o k v) ->
  kv = (k, v) \/ (In kv o /\ fst kv <> k).
Proof.
  induction o as [| [k0 v0] o IH]; simpl; intros Hnd Hin.
  - destruct Hin as [<- | []]. left. reflexivity.
  - apply NoDup_cons_iff in Hnd. destruct Hnd as [Hk0 Hnd].
    destruct (String.eqb_spec k0 k) as [-> | Hne].
    + destruct Hin as [<- | Hin]; [left; reflexivity |].
      right. split; [right; exact Hin |]. intros E. apply Hk0.
      rewrite <- E. apply in_map. exact Hin.
    + destruct Hin as [<- | Hin].
      * right. split; [left; reflexivity | exact Hne].
      * destruct (IH Hnd Hin) as [E | [Hin' Hk]]; [left; exact E |].
        right. split; [right; exact Hin' | exact Hk].
Qed.

Lemma NoDup_keys_set o k v :
  NoDup (map fst o) -> NoDup (map fst (JS.set o k v)).
Proof.
  intros Hnd. rewrite keys_set. destruct (getOwn o k) eqn:E; [exact Hnd |].
  apply getOwn_None_notin in E.
  apply NoDup_app; [exact Hnd | repeat constructor; intros [] |].
  intros x Hx [<- | []]. contradiction.
Qed.

End SetFacts.

Section Extending.

Import Store Layout.

Variable h0 : heap.

(** A write to one of the objects leaves the others in place. *)
Lemma extends_replace h pre l o0 o post :
  extends h0 h (pre ++ (l, o0) :: post) ->
  extends h0 (upd h l o) (pre ++ (l, o) :: post).
Proof.
  intros [[a Ha] [Hh [Hnd Hge]]].
  assert (Hl : l < length h).
  { apply (nth_error_lt _ _ o0). apply (holds_In _ _ _ _ Hh).
    apply in_or_app. right. left. reflexivity. }
  assert (Hb : length h0 <= l).
  { rewrite Forall_forall in Hge. apply Hge. rewrite map_app.
    apply in_or_app. right. left. reflexivity. }
  assert (Hfst : map fst (pre ++ (l, o) :: post)
                 = map fst (pre ++ (l, o0) :: post)).
  { rewrite !map_app. reflexivity. }
  split; [| split; [| split]].
  - subst h. rewrite upd_app by exact Hb. eauto.
  - apply (holds_change _ (pre ++ (l, o0) :: post)); [exact Hl | exact Hh |].
    intros lo Hin. rewrite map_app in Hnd. simpl in Hnd.
    apply NoDup_remove_2 in Hnd.
    apply in_app_or in Hin. destruct Hin as [Hin | [<- | Hin]].
    + right. split; [apply in_or_app; left; exact Hin |].
      intros E. apply Hnd. apply in_or_app. left. rewrite <- E.
      apply in_map. exact Hin.
    + left. reflexivity.
    + right. split; [apply in_or_app; right; right; exact Hin |].
      intros E. apply Hnd. apply in_or_app. right. rewrite <- E.
      apply in_map. exact Hin.
  - rewrite Hfst. exact Hnd.
  - rewrite Hfst. exact Hge.
Qed.

(** A new object takes the next place. *)
Lemma extends_alloc_at h pre post o :
  extends h0 h (pre ++ post) ->
  extends h0 (h ++ [o]) (pre ++ (length h, o) :: post).
Proof.
  intros [[a Ha] [Hh [Hnd Hge]]].
  assert (Hperm : Permutation (length h :: map fst (pre ++ post))
                              (map fst (pre ++ (length h, o) :: post))).
  { rewrite !map_app. simpl. apply Permutation_middle. }
  split; [| split; [| split]].
  - subst h. rewrite <- app_assoc. eauto.
  - unfold holds in *. apply Forall_app in Hh. destruct Hh as [H1 H2].
    apply Forall_app. split; [exact (holds_alloc _ _ _ H1) |].
    constructor; [apply nth_error_last | exact (holds_alloc _ _ _ H2)].
  - eapply Permutation_NoDup; [exact Hperm |]. constructor; [| exact Hnd].
    apply holds_fresh. exact Hh.
  - eapply Permutation_Forall; [exact Hperm |]. constructor; [| exact Hge].
    subst h. rewrite length_app. lia.
Qed.

Lemma extends_holds h fp l o :
  extends h0 h fp -> In (l, o) fp -> nth_error h l = Some o.
Proof. intros [_ [Hh _]]. apply holds_In. exact Hh. Qed.

End Extending.

Section Rows.

Import Store Layout.

Variable h0 : heap.
Variable p : places.

Lemma bind_run {A B} (m : M A) (k : A -> M B) h a h' :
  m h = (Normal a, h') -> bind m k h = k a h'.
Proof. intros E. unfold bind. rewrite E. reflexivity. Qed.

Lemma bind_bind {A B C} (m : M A) (k1 : A -> M B) (k2 : B -> M C) h :
  bind (bind m k1) k2 h = bind m (fun a => bind (k1 a) k2) h.
Proof. unfold bind. destruct (m h) as [[a | e] h']; reflexivity. Qed.

Lemma bind_throws {A B} (m : M A) (k : A -> M B) h e h' :
  m h = (Throw e, h') -> bind m k h = (Throw e, h').
Proof. intros E. unfold bind. rewrite E. reflexivity. Qed.

Lemma set_split {V} (o : object V) k v :
  getOwn o k = Some v ->
  exists o1 o2,
    o = o1 ++ (k, v) :: o2 /\
    forall v', JS.set o k v' = o1 ++ (k, v') :: o2.
Proof.
  induction o as [| [k0 v0] o IH]; simpl; [discriminate |].
  destruct (String.eqb_spec k0 k) as [-> | Hne].
  - intros H. inversion H; subst. exists [], o. split; [reflexivity |].
    intros v'. reflexivity.
  - intros H. destruct (IH H) as [o1 [o2 [-> Hset]]].
    exists ((k0, v0) :: o1), o2. split; [reflexivity |].
    intros v'. rewrite Hset. reflexivity.
Qed.

Lemma map_Array_set {A B} (g : A -> B) (a : array A) i v :
  map (option_map g) (Array_set a i v)
  = Array_set (map (option_map g) a) i (g v).
Proof.
  unfold Array_set. rewrite length_map.
  destruct (i <? length a).
  - rewrite map_app, firstn_map, skipn_map. reflexivity.
  - rewrite !map_app, map_repeat. reflexivity.
Qed.

Lemma Array_fill_map {A B} (g : A -> B) n v :
  Array_fill n (g v)
  = match Array_fill n v with
    | Normal a => Normal (map (option_map g) a)
    | Throw e => Throw e
    end.
Proof.
  unfold Array_fill. destruct ((0 <=? n)%Z && (n <? 2 ^ 32)%Z);
    [| reflexivity].
  rewrite map_repeat. reflexivity.
Qed.

(** The footprint around the objects of one row. *)
Lemma footprint_split t o1 k e o2 :
  rowsOf t = o1 ++ (k, e) :: o2 ->
  footprint p t
  = (front p t ++ rowObjects o1)
      ++ (dataLoc e, rowObj e) :: (rowLoc e, rowArr e) :: rowObjects o2.
Proof.
  intros E. unfold footprint. rewrite E. unfold rowObjects.
  rewrite flat_map_app. simpl. rewrite <- app_assoc. reflexivity.
Qed.

Lemma front_withRows_same t o1 k e e' o2 :
  rowsOf t = o1 ++ (k, e) :: o2 -> dataLoc e' = dataLoc e ->
  front p (withRows t (o1 ++ (k, e') :: o2)) = front p t.
Proof.
  intros E Hd. unfold front, withRows. simpl. rewrite E.
  unfold mapV. rewrite !map_app. simpl. rewrite Hd. reflexivity.
Qed.

(** Writing a cell of a row the map has: the array of the row is
    written at the index and the count of the row data is raised. *)
Lemma write_row h t k e i text :
  extends h0 h (footprint p t) ->
  getOwn (rowsOf t) k = Some e ->
  exists h',
    (r <~ getProp (VRef (dataLoc e)) "row" ;;
     _ <~ setIndex r i (VString text) ;;
     c <~ getProp (VRef (dataLoc e)) "dataCount" ;;
     setProp (VRef (dataLoc e)) "dataCount"
       (match c with
        | VNumber z => VNumber (z + 1)
        | _ => VNaN
        end)) h = (Normal tt, h') /\
    extends h0 h'
      (footprint p
         (withRows t
            (JS.set (rowsOf t) k
               (dataLoc e, rowLoc e,
                {| row := Array_set (row (rowData e)) i text;
                   dataCount := dataCount (rowData e) + 1 |})))).
Proof.
  intros Hext Hk.
  destruct (set_split _ _ _ Hk) as [o1 [o2 [Esplit Hset]]].
  rewrite Hset.
  set (e2 := ((dataLoc e, rowLoc e,
               {| row := Array_set (row (rowData e)) i text;
                  dataCount := dataCount (rowData e) + 1 |}) : placedRow)).
  assert (Efp' : footprint p (withRows t (o1 ++ (k, e2) :: o2))
                 = (front p t ++ rowObjects o1)
                     ++ (dataLoc e, rowObj e2) :: (rowLoc e, rowArr e2)
                     :: rowObjects o2).
  { rewrite (footprint_split (withRows t (o1 ++ (k, e2) :: o2))
               o1 k e2 o2 eq_refl).
    pose proof (front_withRows_same t o1 k e e2 o2 Esplit eq_refl) as Ef.
    refine (f_equal2 (@app _) (f_equal2 (@app _) Ef eq_refl) eq_refl). }
  rewrite Efp'. rewrite (footprint_split t o1 k e o2 Esplit) in Hext.
  set (PRE := front p t ++ rowObjects o1) in *.
  assert (Hd : nth_error h (dataLoc e) = Some (rowObj e)).
  { apply (extends_holds _ _ _ _ _ Hext). apply in_or_app. right. left.
    reflexivity. }
  assert (Hr : nth_error h (rowLoc e) = Some (rowArr e)).
  { apply (extends_holds _ _ _ _ _ Hext). apply in_or_app. right. right.
    left. reflexivity. }
  assert (Earr : Arr (Array_set (map cellValue (row (rowData e))) i
                        (VString text)) = rowArr e2).
  { unfold rowArr, e2, cellValue. cbn [rowData snd row].
    rewrite map_Array_set. reflexivity. }
  assert (Eobj : Obj [("row", VRef (rowLoc e));
                      ("dataCount", VNumber (dataCount (rowData e) + 1))]
                 = rowObj e2) by reflexivity.
  rewrite (bind_run _ _ _ _ _ (run_getProp _ _ _ "row" Hd)).
  cbn [rowObj getOwn String.eqb Ascii.eqb Bool.eqb].
  rewrite (bind_run _ _ _ _ _ (run_setIndex _ _ _ i (VString text) Hr)).
  rewrite Earr.
  assert (Hext1 : extends h0 (upd h (rowLoc e) (rowArr e2))
            ((PRE ++ [(dataLoc e, rowObj e)])
               ++ (rowLoc e, rowArr e2) :: rowObjects o2)).
  { apply extends_replace with (o0 := rowArr e).
    rewrite <- app_assoc. exact Hext. }
  assert (Hd1 : nth_error (upd h (rowLoc e) (rowArr e2)) (dataLoc e)
                = Some (rowObj e)).
  { apply (extends_holds _ _ _ _ _ Hext1). apply in_or_app. left.
    apply in_or_app. right. left. reflexivity. }
  rewrite (bind_run _ _ _ _ _ (run_getProp _ _ _ "dataCount" Hd1)).
  cbn [rowObj getOwn String.eqb Ascii.eqb Bool.eqb].
  unfold rowObj in Hd1. rewrite (run_setProp _ _ _ "dataCount" _ Hd1).
  cbn [JS.set String.eqb Ascii.eqb Bool.eqb]. rewrite Eobj.
  eexists. split; [reflexivity |].
  apply extends_replace with (o0 := rowObj e).
  rewrite <- app_assoc in Hext1. exact Hext1.
Qed.

(** Creating the row of a metric the map does not have: an array of
    [artifactCount] empty strings, the row data that holds it, and the
    property of the map. *)
Lemma create_row h t k n filled :
  extends h0 h (footprint p t) ->
  getOwn (rowsOf t) k = None ->
  Array_fill n "" = Normal filled ->
  exists h',
    (filled' <~ lift (Array_fill n (VString "")) ;;
     filledRow <~ alloc (Arr filled') ;;
     data <~ alloc (Obj [("row", filledRow); ("dataCount", VNumber 0)]) ;;
     setProp (VRef (dataMapAt p)) k data) h = (Normal tt, h') /\
    extends h0 h'
      (footprint p
         (withRows t
            (JS.set (rowsOf t) k
               (S (length h), length h,
                {| row := filled; dataCount := 0 |})))).
Proof.
  intros Hext Hk Hfill.
  set (e0 := ((S (length h), length h,
               {| row := filled; dataCount := 0 |}) : placedRow)).
  rewrite (set_new _ _ e0 Hk).
  assert (Efill : Array_fill n (VString "")
                  = Normal (map cellValue filled)).
  { rewrite (Array_fill_map VString), Hfill. reflexivity. }
  unfold lift at 1. unfold bind at 1. rewrite Efill.
  unfold alloc at 1. unfold bind at 1.
  unfold alloc at 1. unfold bind at 1.
  change (Arr (map cellValue filled)) with (rowArr e0).
  assert (Elen : length (h ++ [rowArr e0]) = S (length h))
    by (rewrite length_app; simpl; lia).
  rewrite Elen.
  change (Obj [("row", VRef (length h)); ("dataCount", VNumber 0)])
    with (rowObj e0).
  assert (Hext2 : extends h0 ((h ++ [rowArr e0]) ++ [rowObj e0])
            (footprint p t ++ [(S (length h), rowObj e0);
                               (length h, rowArr e0)])).
  { rewrite <- Elen.
    apply (extends_alloc_at h0 (h ++ [rowArr e0]) (footprint p t)
             [(length h, rowArr e0)] (rowObj e0)).
    rewrite <- (app_nil_r (footprint p t)) in Hext.
    exact (extends_alloc_at h0 h (footprint p t) [] (rowArr e0) Hext). }
  assert (Hmap : nth_error ((h ++ [rowArr e0]) ++ [rowObj e0]) (dataMapAt p)
                 = Some (Obj (mapV (fun e => VRef (dataLoc e)) (rowsOf t)))).
  { apply (extends_holds _ _ _ _ _ Hext2). apply in_or_app. left.
    unfold footprint, front. apply in_or_app. left. right. right. left.
    reflexivity. }
  rewrite (run_setProp _ _ _ k _ Hmap).
  eexists. split; [reflexivity |].
  assert (Eset : JS.set (mapV (fun e => VRef (dataLoc e)) (rowsOf t)) k
                   (VRef (S (length h)))
                 = mapV (fun e => VRef (dataLoc e)) (rowsOf t ++ [(k, e0)])).
  { rewrite set_new by (rewrite getOwn_mapV, Hk; reflexivity).
    unfold mapV. rewrite map_app. reflexivity. }
  rewrite Eset.
  assert (Efp : footprint p (withRows t (rowsOf t ++ [(k, e0)]))
                = [ (xLabelsAt p,
                     Arr (map (fun s => Some (VString s)) (labels t)));
                    (xParentLabelsAt p,
                     Arr (map (fun q => Some (VRef (fst q))) (parents t))) ]
                  ++ (dataMapAt p,
                      Obj (mapV (fun e => VRef (dataLoc e))
                             (rowsOf t ++ [(k, e0)])))
                  :: (map (fun q => (fst q, parentObj (snd q))) (parents t)
                      ++ rowObjects (rowsOf t)
                      ++ [(S (length h), rowObj e0); (length h, rowArr e0)])).
  { unfold footprint, front, withRows. cbn [labels parents rowsOf].
    unfold rowObjects. rewrite flat_map_app. simpl.
    rewrite <- ?app_assoc. reflexivity. }
  rewrite Efp.
  apply extends_replace
    with (o0 := Obj (mapV (fun e => VRef (dataLoc e)) (rowsOf t))).
  refine (eq_ind _ (extends h0 _) Hext2 _ _).
  unfold footprint, front. simpl. rewrite <- ?app_assoc. reflexivity.
Qed.

(** Pushing a column label. *)
Lemma push_label h t s :
  extends h0 h (footprint p t) ->
  exists h',
    push (VRef (xLabelsAt p)) (VString s) h = (Normal tt, h') /\
    extends h0 h' (footprint p (withLabel t s)).
Proof.
  intros Hext.
  assert (Hx : nth_error h (xLabelsAt p)
               = Some (Arr (map (fun s => Some (VString s)) (labels t)))).
  { apply (extends_holds _ _ _ _ _ Hext). left. reflexivity. }
  rewrite (run_push _ _ _ (VString s) Hx).
  eexists. split; [reflexivity |].
  assert (E : map (fun s => Some (VString s)) (labels t) ++ [Some (VString s)]
              = map (fun s => Some (VString s)) (labels t ++ [s]))
    by (rewrite map_app; reflexivity).
  rewrite E.
  exact (extends_replace h0 h [] _ _ _ _ Hext).
Qed.

(** Allocating the parent label of a run and pushing it. *)
Lemma push_parent h t q :
  extends h0 h (footprint p t) ->
  exists h',
    (xParentLabel <~ alloc (parentObj q) ;;
     push (VRef (xParentLabelsAt p)) xParentLabel) h = (Normal tt, h') /\
    extends h0 h' (footprint p (withParent t (length h, q))).
Proof.
  intros Hext. unfold alloc at 1. unfold bind at 1.
  set (front3 := [ (xLabelsAt p,
                    Arr (map (fun s => Some (VString s)) (labels t)));
                   (xParentLabelsAt p,
                    Arr (map (fun q => Some (VRef (fst q))) (parents t)));
                   (dataMapAt p,
                    Obj (mapV (fun e => VRef (dataLoc e)) (rowsOf t))) ]).
  assert (Hext1 : extends h0 (h ++ [parentObj q])
            ((front3 ++ map (fun q => (fst q, parentObj (snd q))) (parents t))
               ++ (length h, parentObj q) :: rowObjects (rowsOf t))).
  { apply extends_alloc_at. exact Hext. }
  assert (Hxp : nth_error (h ++ [parentObj q]) (xParentLabelsAt p)
                = Some (Arr (map (fun q => Some (VRef (fst q))) (parents t)))).
  { apply (extends_holds _ _ _ _ _ Hext1). apply in_or_app. left.
    apply in_or_app. left. right. left. reflexivity. }
  rewrite (run_push _ _ _ (VRef (length h)) Hxp).
  eexists. split; [reflexivity |].
  assert (E : map (fun q => Some (VRef (fst q))) (parents t)
                ++ [Some (VRef (length h))]
              = map (fun q => Some (VRef (fst q))) (parents t ++ [(length h, q)]))
    by (rewrite map_app; reflexivity).
  rewrite E.
  assert (Efp : footprint p (withParent t (length h, q))
                = [ (xLabelsAt p,
                     Arr (map (fun s => Some (VString s)) (labels t))) ]
                  ++ (xParentLabelsAt p,
                      Arr (map (fun q => Some (VRef (fst q)))
                             (parents t ++ [(length h, q)])))
                  :: ((dataMapAt p,
                       Obj (mapV (fun e => VRef (dataLoc e)) (rowsOf t)))
                      :: map (fun q => (fst q, parentObj (snd q))) (parents t)
                      ++ (length h, parentObj q) :: rowObjects (rowsOf t))).
  { unfold footprint, front, withParent. cbn [labels parents rowsOf].
    rewrite (map_app (fun q : loc * CompareTable.xParentLabel =>
                        (fst q, parentObj (snd q)))).
    simpl. rewrite <- ?app_assoc. reflexivity. }
  rewrite Efp.
  apply extends_replace
    with (o0 := Arr (map (fun q => Some (VRef (fst q))) (parents t))).
  refine (eq_ind _ (extends h0 _) Hext1 _ _).
  subst front3. simpl. rewrite <- ?app_assoc. reflexivity.
Qed.

End Rows.

Section Simulation.

(** The value-passing functions, which the functions of [Store] share
    their names with. *)
Abbreviation pureAddScalarDataItems := addScalarDataItems (only parsing).
Abbreviation pureLoadScalarExecutionArtifacts :=
  loadScalarExecutionArtifacts (only parsing).
Abbreviation pureGetScalarTableData := getScalarTableData (only parsing).
Abbreviation pureGetCompareTableProps := getCompareTableProps (only parsing).

Import Store Layout.

Variable h0 : heap.
Variable p : places.

Lemma dataMap_held h t :
  extends h0 h (footprint p t) ->
  nth_error h (dataMapAt p)
  = Some (Obj (mapV (fun e => VRef (dataLoc e)) (rowsOf t))).
Proof.
  intros Hext. apply (extends_holds _ _ _ _ _ Hext).
  unfold footprint, front. apply in_or_app. left. apply in_or_app. left.
  right. right. left. reflexivity.
Qed.

Lemma write_existing h t k e i text :
  extends h0 h (footprint p t) ->
  getOwn (rowsOf t) k = Some e ->
  exists h',
    (found <~ getKey (VRef (dataMapAt p)) k ;;
     match found with
     | Own data =>
         r <~ getProp data "row" ;;
         _ <~ setIndex r i (VString text) ;;
         c <~ getProp data "dataCount" ;;
         setProp data "dataCount"
           (match c with
            | VNumber z => VNumber (z + 1)
            | _ => VNaN
            end)
     | _ => throw TypeError
     end) h = (Normal tt, h') /\
    extends h0 h'
      (footprint p
         (withRows t
            (JS.set (rowsOf t) k
               (dataLoc e, rowLoc e,
                {| row := Array_set (row (rowData e)) i text;
                   dataCount := dataCount (rowData e) + 1 |})))).
Proof.
  intros Hext Hk.
  rewrite (bind_run _ _ _ _ _ (run_getKey _ _ _ k (dataMap_held _ _ Hext))).
  rewrite get_mapV, (get_own _ _ _ Hk).
  exact (write_row h0 p h t k e i text Hext Hk).
Qed.

(** One cell write in the store does what [writeCell] does. *)
Lemma sim_writeCell h t n i k text :
  extends h0 h (footprint p t) ->
  simulates (writeCell n (i, k, text) (dataMapOf (rowsOf t)))
            (writeCellAt (VRef (dataMapAt p)) n (i, k, text) h)
            (rowsChanged h0 p t).
Proof.
  intros Hext. unfold writeCell, writeCellAt.
  rewrite (bind_run _ _ _ _ _ (run_getKey _ _ _ k (dataMap_held _ _ Hext))).
  rewrite get_mapV.
  destruct (getOwn (rowsOf t) k) as [e |] eqn:Hk.
  - assert (Hpure : getOwn (dataMapOf (rowsOf t)) k = Some (rowData e))
      by (unfold dataMapOf; rewrite getOwn_mapV, Hk; reflexivity).
    rewrite (get_own _ _ _ Hk), (get_own _ _ _ Hpure).
    cbn [truthy negb JS.bind]. rewrite (get_own _ _ _ Hpure).
    unfold ret at 1. unfold bind at 1.
    destruct (write_existing h t k e i text Hext Hk) as [h' [Erun Hext']].
    rewrite Erun. exists tt, h'. split; [reflexivity |].
    eexists. split; [exact Hext' |].
    unfold dataMapOf. rewrite <- set_mapV. reflexivity.
  - assert (Hpure : getOwn (dataMapOf (rowsOf t)) k = None)
      by (unfold dataMapOf; rewrite getOwn_mapV, Hk; reflexivity).
    destruct (ownable k) eqn:Hown.
    + rewrite (get_undefined _ _ Hk Hown), (get_undefined _ _ Hpure Hown).
      cbn [truthy negb].
      destruct (Array_fill n "") as [filled | x] eqn:Hfill.
      * destruct (create_row h0 p h t k n filled Hext Hk Hfill)
          as [h1 [Erun1 Hext1]].
        rewrite (bind_run _ _ _ _ _ Erun1).
        set (e0 := ((S (length h), length h,
                     {| row := filled; dataCount := 0 |}) : placedRow)) in *.
        assert (Hk1 : getOwn (rowsOf (withRows t (JS.set (rowsOf t) k e0))) k
                      = Some e0) by apply getOwn_set_same.
        destruct (write_existing h1 _ k e0 i text Hext1 Hk1)
          as [h2 [Erun2 Hext2]].
        rewrite Erun2. cbn [JS.bind].
        rewrite (get_own _ _ _ (getOwn_set_same _ k _)).
        exists tt, h2. split; [reflexivity |].
        eexists. split; [exact Hext2 |].
        unfold dataMapOf. cbn [withRows rowsOf].
        rewrite <- !set_mapV. reflexivity.
      * assert (Efill : Array_fill n (VString "") = Throw x)
          by (rewrite (Array_fill_map VString), Hfill; reflexivity).
        unfold lift at 1. unfold bind at 2. unfold bind at 1. rewrite Efill.
        cbn [JS.bind]. exists h. reflexivity.
    + rewrite (get_inherited _ _ Hk Hown), (get_inherited _ _ Hpure Hown).
      cbn [truthy negb JS.bind].
      rewrite (get_inherited _ _ Hpure Hown).
      unfold ret at 1. unfold bind at 1.
      rewrite (bind_run _ _ _ _ _
                 (run_getKey _ _ _ k (dataMap_held _ _ Hext))).
      rewrite get_mapV, (get_inherited _ _ Hk Hown).
      exists h. reflexivity.
Qed.

(** [Store.addScalarDataItems] does what [addScalarDataItems] does. *)
Lemma sim_addScalarDataItems props i n h t :
  extends h0 h (footprint p t) ->
  simulates (pureAddScalarDataItems props (dataMapOf (rowsOf t)) i n)
            (Store.addScalarDataItems props (VRef (dataMapAt p)) i n h)
            (rowsChanged h0 p t).
Proof.
  unfold pureAddScalarDataItems, Store.addScalarDataItems.
  generalize (jspb.getEntryList props) as entries.
  intros entries. revert h t.
  induction entries as [| [k v] entries IH]; intros h t Hext.
  - exists tt, h. split; [reflexivity |].
    exists (rowsOf t). split; [exact Hext | reflexivity].
  - cbn [forOf forM fst]. cbv zeta.
    destruct (k =? "display_name")%string.
    + cbn [JS.bind]. unfold ret at 1. unfold bind at 1.
      exact (IH h t Hext).
    + pose proof (sim_writeCell h t n i k (cellText props k) Hext) as Hstep.
      unfold simulates in Hstep.
      change (writeCellAt (VRef (dataMapAt p)) n (i, k, cellText props k))
        with (found <~ getKey (VRef (dataMapAt p)) k ;;
              _ <~ (if negb (truthy found) then
                      filled <~ lift (Array_fill n (VString "")) ;;
                      filledRow <~ alloc (Arr filled) ;;
                      data <~ alloc (Obj [("row", filledRow);
                                          ("dataCount", VNumber 0)]) ;;
                      setProp (VRef (dataMapAt p)) k data
                    else ret tt) ;;
              found <~ getKey (VRef (dataMapAt p)) k ;;
              match found with
              | Own data =>
                  r <~ getProp data "row" ;;
                  _ <~ setIndex r i (VString (cellText props k)) ;;
                  c <~ getProp data "dataCount" ;;
                  setProp data "dataCount"
                    (match c with
                     | VNumber z => VNumber (z + 1)
                     | _ => VNaN
                     end)
              | _ => throw TypeError
              end) in Hstep.
      change (writeCell n (i, k, cellText props k) (dataMapOf (rowsOf t)))
        with (dataMap <-
                (if negb (truthy (JS.get (dataMapOf (rowsOf t)) k)) then
                   filled <- Array_fill n "" ;;
                   Normal (JS.set (dataMapOf (rowsOf t)) k
                             {| row := filled; dataCount := 0 |})
                 else Normal (dataMapOf (rowsOf t))) ;;
              match JS.get dataMap k with
              | Own data =>
                  Normal (JS.set dataMap k
                            {| row :=
                                 Array_set (row data) i
                                   (JSON_stringify
                                      (Utils.getMetadataValue
                                         (jspb.get props k)));
                               dataCount := dataCount data + 1 |})
              | _ => Throw TypeError
              end) in Hstep.
      match type of Hstep with
      | match ?pure with _ => _ end =>
          destruct pure as [dm1 | x]
      end.
      * destruct Hstep as [[] [h1 [Erun [ext1 [Hext1 <-]]]]].
        rewrite (bind_run _ _ _ _ _ Erun). cbn [JS.bind].
        exact (IH h1 (withRows t ext1) Hext1).
      * destruct Hstep as [h1 Erun].
        rewrite (bind_throws _ _ _ _ _ Erun). exists h1. reflexivity.
Qed.

(** ** Reading the input *)

Lemma bind_inv_reader {A B} (m : M A) (k : A -> M B) h b :
  reader m -> fst (bind m k h) = Normal b ->
  exists a, fst (m h) = Normal a /\ fst (k a h) = Normal b.
Proof.
  intros Hm. unfold bind. destruct (Hm h) as [Hs _].
  destruct (m h) as [[a | e] h']; simpl in *; subst h'.
  - intros H. exists a. split; [reflexivity | exact H].
  - discriminate.
Qed.

Lemma mapM_reads {A B} (f : A -> M B) h : forall vs xs,
  (forall v, reader (f v)) ->
  fst (mapM vs f h) = Normal xs ->
  Forall2 (fun v x => fst (f v h) = Normal x) vs xs.
Proof.
  induction vs as [| v vs IH]; intros xs Hf H; simpl in H.
  - inversion H. constructor.
  - apply bind_inv_reader in H; [| apply Hf].
    destruct H as [x [Hx H]].
    apply bind_inv_reader in H; [| apply reader_mapM; exact Hf].
    destruct H as [xs' [Hxs H]]. inversion H; subst xs.
    constructor; [exact Hx | exact (IH _ Hf Hxs)].
Qed.

Lemma asExecution_inv v h e :
  fst (asExecution v h) = Normal e -> v = VExecution e.
Proof. destruct v; simpl; intros H; inversion H. reflexivity. Qed.

Lemma asRun_inv v h r : fst (asRun v h) = Normal r -> v = VRun r.
Proof. destruct v; simpl; intros H; inversion H. reflexivity. Qed.

Lemma reader_asExecution v : reader (asExecution v).
Proof. destruct v; try apply reader_throw. apply reader_ret. Qed.

Lemma reader_asRun v : reader (asRun v).
Proof. destruct v; try apply reader_throw. apply reader_ret. Qed.

(** What the store holds where an execution artifact is read. *)
Lemma readExecutionArtifact_inv v h ea :
  fst (readExecutionArtifact v h) = Normal ea ->
  exists lasv items,
    fst (getProp v "execution" h) = Normal (VExecution (execution ea)) /\
    fst (getProp v "linkedArtifacts" h) = Normal lasv /\
    fst (elements lasv h) = Normal items /\
    Forall2 (fun x la => fst (readLinkedArtifact x h) = Normal la)
            items (linkedArtifacts ea).
Proof.
  unfold readExecutionArtifact. intros H.
  apply bind_inv_reader in H; [| apply reader_getProp].
  destruct H as [e [He H]].
  apply bind_inv_reader in H; [| apply reader_asExecution].
  destruct H as [e' [He' H]]. apply asExecution_inv in He'. subst e.
  apply bind_inv_reader in H; [| apply reader_getProp].
  destruct H as [lasv [Hlasv H]].
  apply bind_inv_reader in H; [| apply reader_elements].
  destruct H as [items [Hitems H]].
  apply bind_inv_reader in H;
    [| apply reader_mapM; apply reader_readLinkedArtifact].
  destruct H as [las [Hlas H]]. inversion H; subst ea. simpl.
  exists lasv, items. repeat split; try assumption.
  apply mapM_reads; [apply reader_readLinkedArtifact | exact Hlas].
Qed.

Lemma readRunArtifact_inv v h ra :
  fst (readRunArtifact v h) = Normal ra ->
  exists easv items,
    fst (getProp v "run" h) = Normal (VRun (run ra)) /\
    fst (getProp v "executionArtifacts" h) = Normal easv /\
    fst (elements easv h) = Normal items /\
    Forall2 (fun x ea => fst (readExecutionArtifact x h) = Normal ea)
            items (executionArtifacts ra).
Proof.
  unfold readRunArtifact. intros H.
  apply bind_inv_reader in H; [| apply reader_getProp].
  destruct H as [r [Hr H]].
  apply bind_inv_reader in H; [| apply reader_asRun].
  destruct H as [r' [Hr' H]]. apply asRun_inv in Hr'. subst r.
  apply bind_inv_reader in H; [| apply reader_getProp].
  destruct H as [easv [Heasv H]].
  apply bind_inv_reader in H; [| apply reader_elements].
  destruct H as [items [Hitems H]].
  apply bind_inv_reader in H;
    [| apply reader_mapM; apply reader_readExecutionArtifact].
  destruct H as [eas [Heas H]]. inversion H; subst ra. simpl.
  exists easv, items. repeat split; try assumption.
  apply mapM_reads; [apply reader_readExecutionArtifact | exact Heas].
Qed.

(** A read of the input gives in every store that extends [h0] what it
    gives in [h0]. *)
Lemma read_extended {A} (m : M A) h fp a :
  reader m -> extends h0 h fp -> fst (m h0) = Normal a ->
  m h = (Normal a, h).
Proof.
  intros Hm [[added ->] _] Ha. apply reader_run_app; assumption.
Qed.

(** ** The loaders *)

(** The loop over the linked artifacts of one execution. *)
Lemma sim_linkedArtifacts executionText n : forall lasv las h t i,
  Forall2 (fun x la => fst (readLinkedArtifact x h0) = Normal la) lasv las ->
  extends h0 h (footprint p t) ->
  simulates
    (forOf las
       (fun linkedArtifact st =>
          let '(xLabels, dataMap, artifactIndex) := st in
          let linkedArtifactText :=
            JS.or (getArtifactName linkedArtifact) "-" in
          let xLabel :=
            (executionText ++ " > " ++ linkedArtifactText)%string in
          let xLabels := xLabels ++ [xLabel] in
          let customProperties :=
            mlmd.Artifact.getCustomPropertiesMap (artifact linkedArtifact) in
          dataMap <- pureAddScalarDataItems customProperties dataMap
                       artifactIndex n ;;
          Normal (xLabels, dataMap, S artifactIndex))
       (labels t, dataMapOf (rowsOf t), i))
    (forM lasv
       (fun linkedArtifact artifactIndex =>
          la <~ readLinkedArtifact linkedArtifact ;;
          let linkedArtifactText := JS.or (getArtifactName la) "-" in
          let xLabel :=
            (executionText ++ " > " ++ linkedArtifactText)%string in
          _ <~ push (VRef (xLabelsAt p)) (VString xLabel) ;;
          let customProperties :=
            mlmd.Artifact.getCustomPropertiesMap (artifact la) in
          _ <~ Store.addScalarDataItems customProperties
                 (VRef (dataMapAt p)) artifactIndex n ;;
          ret (S artifactIndex))
       i h)
    (loaded h0 p t).
Proof.
  intros lasv las h t i Hread. revert h t i.
  induction Hread as [| x la lasv las Hx _ IH]; intros h t i Hext.
  - exists i, h. split; [reflexivity |]. split; [reflexivity |].
    exists t. auto.
  - cbn [forOf forM]. cbv beta zeta.
    rewrite bind_bind.
    rewrite (bind_run _ _ _ _ _
               (read_extended _ _ _ _ (reader_readLinkedArtifact x) Hext Hx)).
    destruct (push_label h0 p h t
                (executionText ++ " > " ++ JS.or (getArtifactName la) "-")
                Hext) as [h1 [Epush Hext1]].
    rewrite bind_bind, (bind_run _ _ _ _ _ Epush). rewrite bind_bind.
    pose proof (sim_addScalarDataItems
                  (mlmd.Artifact.getCustomPropertiesMap (artifact la))
                  i n h1 _ Hext1) as Hadd.
    unfold simulates in Hadd. cbn [withLabel rowsOf] in Hadd.
    destruct (pureAddScalarDataItems
                (mlmd.Artifact.getCustomPropertiesMap (artifact la))
                (dataMapOf (rowsOf t)) i n) as [dm1 | e].
    + destruct Hadd as [[] [h2 [Eadd [ext2 [Hext2 <-]]]]].
      rewrite (bind_run _ _ _ _ _ Eadd). unfold ret at 1. cbn [JS.bind].
      pose proof (IH h2 _ (S i) Hext2) as Hrest.
      cbn [withRows withLabel labels rowsOf parents] in Hrest.
      unfold simulates in *.
      destruct (forOf las _ _) as [[[xl dm] j] | e]; [| exact Hrest].
      destruct Hrest as [j' [h3 [Erun [Hj [t3 [Hext3 [Hl [Hd Hp]]]]]]]].
      exists j', h3. split; [exact Erun |]. split; [exact Hj |].
      exists t3. auto.
    + destruct Hadd as [h2 Eadd].
      rewrite (bind_throws _ _ _ _ _ Eadd). cbn [JS.bind].
      exists h2. reflexivity.
Qed.

(** The loop over the executions of one run. *)
Lemma sim_executions n : forall items eas h t i,
  Forall2 (fun x ea => fst (readExecutionArtifact x h0) = Normal ea)
          items eas ->
  extends h0 h (footprint p t) ->
  simulates
    (forOf eas
       (fun executionArtifact =>
          let executionText :=
            JS.or (getExecutionDisplayName (execution executionArtifact))
                  "-" in
          forOf (linkedArtifacts executionArtifact)
            (fun linkedArtifact st =>
               let '(xLabels, dataMap, artifactIndex) := st in
               let linkedArtifactText :=
                 JS.or (getArtifactName linkedArtifact) "-" in
               let xLabel :=
                 (executionText ++ " > " ++ linkedArtifactText)%string in
               let xLabels := xLabels ++ [xLabel] in
               let customProperties :=
                 mlmd.Artifact.getCustomPropertiesMap
                   (artifact linkedArtifact) in
               dataMap <- pureAddScalarDataItems customProperties dataMap
                            artifactIndex n ;;
               Normal (xLabels, dataMap, S artifactIndex)))
       (labels t, dataMapOf (rowsOf t), i))
    (forM items
       (fun executionArtifact artifactIndex =>
          e <~ getProp executionArtifact "execution" ;;
          e <~ asExecution e ;;
          let executionText := JS.or (getExecutionDisplayName e) "-" in
          las <~ getProp executionArtifact "linkedArtifacts" ;;
          las <~ elements las ;;
          forM las
            (fun linkedArtifact artifactIndex =>
               la <~ readLinkedArtifact linkedArtifact ;;
               let linkedArtifactText := JS.or (getArtifactName la) "-" in
               let xLabel :=
                 (executionText ++ " > " ++ linkedArtifactText)%string in
               _ <~ push (VRef (xLabelsAt p)) (VString xLabel) ;;
               let customProperties :=
                 mlmd.Artifact.getCustomPropertiesMap (artifact la) in
               _ <~ Store.addScalarDataItems customProperties
                      (VRef (dataMapAt p)) artifactIndex n ;;
               ret (S artifactIndex))
            artifactIndex)
       i h)
    (loaded h0 p t).
Proof.
  intros items eas h t i Hread. revert h t i.
  induction Hread as [| x ea items eas Hx _ IH]; intros h t i Hext.
  - exists i, h. split; [reflexivity |]. split; [reflexivity |].
    exists t. auto.
  - cbn [forOf forM]. cbv beta zeta.
    destruct (readExecutionArtifact_inv _ _ _ Hx)
      as [lasv [linked [He [Hlasv [Hlinked Hlas]]]]].
    rewrite bind_bind.
    rewrite (bind_run _ _ _ _ _
               (read_extended _ _ _ _ (reader_getProp x "execution") Hext He)).
    rewrite bind_bind. unfold asExecution at 1. unfold ret at 1.
    unfold bind at 1. rewrite bind_bind.
    rewrite (bind_run _ _ _ _ _
               (read_extended _ _ _ _ (reader_getProp x "linkedArtifacts")
                  Hext Hlasv)).
    rewrite bind_bind.
    rewrite (bind_run _ _ _ _ _
               (read_extended _ _ _ _ (reader_elements lasv) Hext Hlinked)).
    pose proof (sim_linkedArtifacts
                  (JS.or (getExecutionDisplayName (execution ea)) "-")
                  n linked (linkedArtifacts ea) h t i Hlas Hext) as Hinner.
    unfold simulates in Hinner.
    destruct (forOf (linkedArtifacts ea) _ _) as [[[xl1 dm1] i1] | e].
    + destruct Hinner as [j [h1 [Erun [Hj [t1 [Hext1 [Hl [Hd Hp]]]]]]]].
      simpl in Hj, Hl, Hd. subst j xl1 dm1.
      rewrite (bind_run _ _ _ _ _ Erun). cbn [JS.bind].
      pose proof (IH h1 t1 i1 Hext1) as Hrest.
      unfold simulates in *.
      destruct (forOf eas _ _) as [[[xl dm] j] | e]; [| exact Hrest].
      destruct Hrest as [j' [h3 [Erun' [Hj [t3 [Hext3 [Hl [Hd Hp']]]]]]]].
      exists j', h3. split; [exact Erun' |]. split; [exact Hj |].
      exists t3.
      split; [exact Hext3 | split; [exact Hl | split; [exact Hd |]]].
      rewrite Hp'. exact Hp.
    + destruct Hinner as [h1 Erun].
      rewrite (bind_throws _ _ _ _ _ Erun). cbn [JS.bind].
      exists h1. reflexivity.
Qed.

(** [Store.loadScalarExecutionArtifacts] does what
    [loadScalarExecutionArtifacts] does. *)
Lemma sim_loadScalarExecutionArtifacts easv items eas n h t i :
  fst (elements easv h0) = Normal items ->
  Forall2 (fun x ea => fst (readExecutionArtifact x h0) = Normal ea)
          items eas ->
  extends h0 h (footprint p t) ->
  simulates
    (pureLoadScalarExecutionArtifacts eas (labels t) (dataMapOf (rowsOf t))
       i n)
    (Store.loadScalarExecutionArtifacts easv (VRef (xLabelsAt p))
       (VRef (dataMapAt p)) i n h)
    (loaded h0 p t).
Proof.
  intros Hitems Hread Hext.
  unfold pureLoadScalarExecutionArtifacts,
    Store.loadScalarExecutionArtifacts.
  rewrite (bind_run _ _ _ _ _
             (read_extended _ _ _ _ (reader_elements easv) Hext Hitems)).
  exact (sim_executions n items eas h t i Hread Hext).
Qed.

(** ** The aggregator *)

(** The loop over the runs. *)
Lemma sim_runs n : forall items ras h t i,
  Forall2 (fun x ra => fst (readRunArtifact x h0) = Normal ra) items ras ->
  extends h0 h (footprint p t) ->
  simulates
    (forOf ras
       (fun runArtifact st =>
          let '(xLabels, xParentLabels, dataMap, artifactIndex) := st in
          let runName :=
            JS.or (optChain (apis.run (run runArtifact)) apis.name) "-" in
          loaded <- pureLoadScalarExecutionArtifacts
                      (executionArtifacts runArtifact) xLabels dataMap
                      artifactIndex n ;;
          let '(xLabels, dataMap, newArtifactIndex) := loaded in
          let xParentLabel := {|
            CompareTable.label := runName;
            CompareTable.colSpan :=
              Z.of_nat newArtifactIndex - Z.of_nat artifactIndex |} in
          Normal (xLabels, xParentLabels ++ [xParentLabel], dataMap,
                  newArtifactIndex))
       (labels t, map snd (parents t), dataMapOf (rowsOf t), i))
    (forM items
       (fun runArtifact artifactIndex =>
          r <~ getProp runArtifact "run" ;;
          r <~ asRun r ;;
          let runName := JS.or (optChain (apis.run r) apis.name) "-" in
          eas <~ getProp runArtifact "executionArtifacts" ;;
          newArtifactIndex <~ Store.loadScalarExecutionArtifacts eas
                                (VRef (xLabelsAt p)) (VRef (dataMapAt p))
                                artifactIndex n ;;
          xParentLabel <~
            alloc (Obj [("label", VString runName);
                        ("colSpan",
                         VNumber (Z.of_nat newArtifactIndex
                                  - Z.of_nat artifactIndex))]) ;;
          _ <~ push (VRef (xParentLabelsAt p)) xParentLabel ;;
          ret newArtifactIndex)
       i h)
    (aggregated h0 p).
Proof.
  intros items ras h t i Hread. revert h t i.
  induction Hread as [| x ra items ras Hx _ IH]; intros h t i Hext.
  - exists i, h. split; [reflexivity |]. split; [reflexivity |].
    exists t. auto.
  - cbn [forOf forM]. cbv beta zeta.
    destruct (readRunArtifact_inv _ _ _ Hx)
      as [easv [execs [Hr [Heasv [Hexecs Heas]]]]].
    rewrite bind_bind.
    rewrite (bind_run _ _ _ _ _
               (read_extended _ _ _ _ (reader_getProp x "run") Hext Hr)).
    rewrite bind_bind. unfold asRun at 1. unfold ret at 1.
    unfold bind at 1. rewrite bind_bind.
    rewrite (bind_run _ _ _ _ _
               (read_extended _ _ _ _
                  (reader_getProp x "executionArtifacts") Hext Heasv)).
    rewrite bind_bind.
    pose proof (sim_loadScalarExecutionArtifacts easv execs
                  (executionArtifacts ra) n h t i Hexecs Heas Hext)
      as Hload.
    unfold simulates in Hload.
    destruct (pureLoadScalarExecutionArtifacts (executionArtifacts ra)
                (labels t) (dataMapOf (rowsOf t)) i n)
      as [[[xl1 dm1] i1] | e].
    + destruct Hload as [j [h1 [Erun [Hj [t1 [Hext1 [Hl [Hd Hp]]]]]]]].
      simpl in Hj, Hl, Hd. subst j xl1 dm1.
      rewrite (bind_run _ _ _ _ _ Erun). cbn [JS.bind].
      set (q := {| CompareTable.label :=
                     JS.or (optChain (apis.run (run ra)) apis.name) "-";
                   CompareTable.colSpan := Z.of_nat i1 - Z.of_nat i |}).
      destruct (push_parent h0 p h1 t1 q Hext1) as [h2 [Epush Hext2]].
      assert (Epush' : push (VRef (xParentLabelsAt p)) (VRef (length h1))
                         (h1 ++ [parentObj q]) = (Normal tt, h2))
        by exact Epush.
      rewrite bind_bind. unfold alloc at 1. unfold bind at 1.
      change (Obj [("label",
                    VString (JS.or (optChain (apis.run (run ra)) apis.name)
                                   "-"));
                   ("colSpan", VNumber (Z.of_nat i1 - Z.of_nat i))])
        with (parentObj q).
      rewrite bind_bind, (bind_run _ _ _ _ _ Epush').
      unfold ret at 1. unfold bind at 1.
      pose proof (IH h2 _ i1 Hext2) as Hrest.
      cbn [withParent labels parents rowsOf] in Hrest.
      rewrite map_app, Hp in Hrest. exact Hrest.
    + destruct Hload as [h1 Erun].
      rewrite (bind_throws _ _ _ _ _ Erun). cbn [JS.bind].
      exists h1. reflexivity.
Qed.

Lemma extends_app h fp added :
  extends h0 h fp -> extends h0 (h ++ added) fp.
Proof.
  intros [[a ->] [Hh [Hnd Hge]]]. split; [| split; [| split]]; auto.
  - rewrite <- app_assoc. eauto.
  - apply holds_app. exact Hh.
Qed.

End Simulation.

Section Aggregation.

Abbreviation pureGetScalarTableData := getScalarTableData (only parsing).
Abbreviation pureGetCompareTableProps := getCompareTableProps (only parsing).

Import Store Layout.

Variable h0 : heap.

Lemma extends_initial : extends h0 h0 [].
Proof.
  split; [exists []; symmetry; apply app_nil_r |].
  split; [constructor | split; constructor].
Qed.

(** The three objects [getScalarTableData] starts with. *)
Lemma extends_start :
  extends h0 (((h0 ++ [Arr []]) ++ [Arr []]) ++ [Obj []])
    (footprint
       {| xLabelsAt := length h0;
          xParentLabelsAt := length (h0 ++ [Arr []]);
          dataMapAt := length ((h0 ++ [Arr []]) ++ [Arr []]) |}
       {| labels := []; parents := []; rowsOf := [] |}).
Proof.
  pose proof (extends_alloc_at h0 h0 [] [] (Arr []) extends_initial) as E1.
  pose proof (extends_alloc_at h0 _ [(length h0, Arr [])] [] (Arr []) E1)
    as E2.
  exact (extends_alloc_at h0 _
           [(length h0, Arr []); (length (h0 ++ [Arr []]), Arr [])] []
           (Obj []) E2).
Qed.

(** [Store.getScalarTableData] does what [getScalarTableData] does. *)
Lemma sim_getScalarTableData input items ras n :
  fst (elements input h0) = Normal items ->
  Forall2 (fun x ra => fst (readRunArtifact x h0) = Normal ra) items ras ->
  simulates (pureGetScalarTableData ras n)
            (Store.getScalarTableData input n h0)
            (tableHeld h0).
Proof.
  intros Hitems Hread.
  unfold pureGetScalarTableData, Store.getScalarTableData.
  unfold alloc at 1. unfold bind at 1.
  unfold alloc at 1. unfold bind at 1.
  unfold alloc at 1. unfold bind at 1.
  set (p0 := {| xLabelsAt := length h0;
                xParentLabelsAt := length (h0 ++ [Arr []]);
                dataMapAt := length ((h0 ++ [Arr []]) ++ [Arr []]) |}).
  set (t0 := {| labels := []; parents := []; rowsOf := [] |}).
  pose proof extends_start as Hext. fold p0 t0 in Hext.
  rewrite (bind_run _ _ _ _ _
             (read_extended h0 _ _ _ _ (reader_elements input) Hext Hitems)).
  pose proof (sim_runs h0 p0 n items ras _ t0 0 Hread Hext) as Hruns.
  unfold simulates in *.
  change (labels t0, map snd (parents t0), dataMapOf (rowsOf t0), 0)
    with (@nil string, @nil CompareTable.xParentLabel,
          @nil (string * ScalarRowData), 0) in Hruns.
  destruct (forOf ras _ _) as [[[[xl xpl] dm] j] | e].
  - destruct Hruns as [j' [h1 [Erun [Hj [t1 [Hext1 [Hl [Hp Hd]]]]]]]].
    change (xLabelsAt p0) with (length h0) in Erun.
    change (xParentLabelsAt p0) with (length (h0 ++ [Arr []])) in Erun.
    change (dataMapAt p0) with (length ((h0 ++ [Arr []]) ++ [Arr []]))
      in Erun.
    rewrite (bind_run _ _ _ _ _ Erun). unfold alloc. cbn [JS.bind].
    eexists. eexists. split; [reflexivity |].
    exists p0, t1, (length h1). simpl in Hl, Hp, Hd.
    split; [reflexivity |].
    split; [apply nth_error_last |].
    split; [apply extends_app; exact Hext1 |]. auto.
  - destruct Hruns as [h1 Erun].
    change (xLabelsAt p0) with (length h0) in Erun.
    change (xParentLabelsAt p0) with (length (h0 ++ [Arr []])) in Erun.
    change (dataMapAt p0) with (length ((h0 ++ [Arr []]) ++ [Arr []]))
      in Erun.
    rewrite (bind_throws _ _ _ _ _ Erun). cbn [JS.bind].
    exists h1. reflexivity.
Qed.

End Aggregation.

Section Sorting.

Import Layout.

Lemma sortInsert_map {A B} (g : A -> B) (cmp : B -> B -> Z)
  (cmp' : A -> A -> Z) x l :
  (forall a b, cmp (g a) (g b) = cmp' a b) ->
  sortInsert cmp (g x) (map g l) = map g (sortInsert cmp' x l).
Proof.
  intros H. induction l as [| y l IH]; simpl; [reflexivity |].
  rewrite H. destruct (cmp' x y <=? 0)%Z; simpl; [reflexivity |].
  rewrite IH. reflexivity.
Qed.

(** Sorting commutes with a map that respects the comparator. *)
Lemma Array_sort_map {A B} (g : A -> B) (cmp : B -> B -> Z)
  (cmp' : A -> A -> Z) l :
  (forall a b, cmp (g a) (g b) = cmp' a b) ->
  Array_sort cmp (map g l) = map g (Array_sort cmp' l).
Proof.
  intros H. induction l as [| x l IH]; simpl; [reflexivity |].
  rewrite IH. apply sortInsert_map. exact H.
Qed.

Lemma filter_mapV {V W} (f : V -> W) (P : string -> bool) (o : object V) :
  filter (fun kv => P (fst kv)) (mapV f o)
  = mapV f (filter (fun kv => P (fst kv)) o).
Proof.
  induction o as [| [k v] o IH]; simpl; [reflexivity |].
  destruct (P k); simpl; rewrite IH; reflexivity.
Qed.

(** [Object.entries] lists the entries of a mapped object in the order
    of the object. *)
Lemma Object_entries_mapV {V W} (f : V -> W) (o : object V) :
  Object_entries (mapV f o) = mapV f (Object_entries o).
Proof.
  unfold Object_entries.
  rewrite (filter_mapV f isArrayIndex),
          (filter_mapV f (fun k => negb (isArrayIndex k))).
  unfold mapV at 3. rewrite map_app. f_equal.
  unfold mapV. apply Array_sort_map. reflexivity.
Qed.

End Sorting.

Section Tail.

Import Store Layout.

Lemma mapM_alloc {X} (f : X -> obj) : forall l h,
  mapM l (fun x => alloc (f x)) h
  = (Normal (map VRef (seq (length h) (length l))), h ++ map f l).
Proof.
  induction l as [| x l IH]; intros h; simpl.
  - rewrite app_nil_r. reflexivity.
  - unfold bind at 1. unfold alloc at 1. unfold bind at 1.
    rewrite IH. unfold ret. rewrite length_app, Nat.add_1_r.
    rewrite <- app_assoc. reflexivity.
Qed.

Lemma mapM_run {A B} (f : A -> M B) (g : A -> B) h : forall l,
  (forall x, In x l -> f x h = (Normal (g x), h)) ->
  mapM l f h = (Normal (map g l), h).
Proof.
  induction l as [| x l IH]; intros H; simpl; [reflexivity |].
  rewrite (bind_run _ _ _ _ _ (H x (or_introl eq_refl))).
  rewrite (bind_run _ _ _ _ _ (IH (fun y Hy => H y (or_intror Hy)))).
  reflexivity.
Qed.

Lemma mapM_map {A B C} (u : A -> B) (f : B -> M C) : forall l h,
  mapM (map u l) f h = mapM l (fun x => f (u x)) h.
Proof.
  induction l as [| x l IH]; intros h; simpl; [reflexivity |].
  unfold bind at 1 3. destruct (f (u x) h) as [[c | e] h1]; [| reflexivity].
  unfold bind. rewrite IH. reflexivity.
Qed.

Lemma nth_error_suffix {A} (h X : list A) j :
  nth_error (h ++ X) (length h + j) = nth_error X j.
Proof.
  rewrite nth_error_app2 by lia. f_equal. lia.
Qed.

Lemma upd_suffix h X j o :
  upd (h ++ X) (length h + j) o = h ++ upd X j o.
Proof.
  rewrite upd_app by lia. f_equal. f_equal. lia.
Qed.

Lemma nth_error_static {A} (h X : list A) l o :
  nth_error h l = Some o -> nth_error (h ++ X) l = Some o.
Proof.
  intros H. rewrite nth_error_app1 by exact (nth_error_lt _ _ _ H). exact H.
Qed.

Lemma entryHeld_app h X x : entryHeld h x -> entryHeld (h ++ X) x.
Proof.
  intros [H1 [H2 H3]]. repeat split; apply nth_error_static; assumption.
Qed.

(** [Object.entries] in the store: a pair for every entry, then the
    array of the pairs. *)
Lemma run_entries h l fields :
  nth_error h l = Some (Obj fields) ->
  entries (VRef l) h
  = (Normal (VRef (length (h ++ map pairObj (Object_entries fields)))),
     (h ++ map pairObj (Object_entries fields))
       ++ [Arr (map Some
                  (map VRef (seq (length h)
                               (length (Object_entries fields)))))]).
Proof.
  intros H. unfold entries.
  rewrite (bind_run _ _ _ _ _ (run_load _ _ _ H)).
  change (fun kv : string * value =>
            alloc (Arr [Some (VString (fst kv)); Some (snd kv)]))
    with (fun kv => alloc (pairObj kv)).
  rewrite (bind_run _ _ _ _ _ (mapM_alloc pairObj _ h)).
  reflexivity.
Qed.

(** The data count the comparator reads from a pair. *)
Lemma run_dataCountOf h x :
  entryHeld h x ->
  dataCountOf (VRef (fst x)) h
  = (Normal (dataCount (rowData (entryRow x))), h).
Proof.
  intros [Hp [Hd _]]. unfold dataCountOf.
  rewrite (bind_run _ _ _ _ _ (run_getIndex _ _ _ 1 Hp)).
  cbn [pairObj nth slot snd].
  rewrite (bind_run _ _ _ _ _ (run_getProp _ _ _ "dataCount" Hd)).
  reflexivity.
Qed.

(** The sort in the store sorts the pairs as the value-passing sort
    sorts the entries. *)
Lemma run_sort hs (IE : list placedEntry) :
  Forall (entryHeld hs) IE ->
  sortByDecreasingDataCount (VRef (length hs))
    (hs ++ [Arr (map (fun x => Some (VRef (fst x))) IE)])
  = (Normal tt,
     hs ++ [Arr (map (fun x => Some (VRef (fst x)))
                   (Array_sort byPlacedDataCount IE))]).
Proof.
  intros Hheld. unfold sortByDecreasingDataCount.
  assert (Ha : nth_error (hs ++ [Arr (map (fun x => Some (VRef (fst x))) IE)])
                 (length hs)
               = Some (Arr (map (fun x => Some (VRef (fst x))) IE)))
    by apply nth_error_last.
  rewrite (bind_run _ _ _ _ _ (run_elements _ _ _ Ha)).
  rewrite map_map. cbn [slot].
  assert (Ekeyed :
    mapM (map (fun x : placedEntry => VRef (fst x)) IE)
      (fun item => c <~ dataCountOf item ;; ret (item, c))
      (hs ++ [Arr (map (fun x => Some (VRef (fst x))) IE)])
    = (Normal (map (fun x : placedEntry =>
                      (VRef (fst x), dataCount (rowData (entryRow x)))) IE),
       hs ++ [Arr (map (fun x => Some (VRef (fst x))) IE)])).
  { rewrite mapM_map. apply mapM_run. intros x Hx.
    rewrite Forall_forall in Hheld.
    rewrite (bind_run _ _ _ _ _
               (run_dataCountOf _ x (entryHeld_app _ _ _ (Hheld x Hx)))).
    reflexivity. }
  rewrite (bind_run _ _ _ _ _ Ekeyed).
  rewrite run_store by (rewrite length_app; simpl; lia).
  f_equal.
  rewrite (Array_sort_map
             (fun x : placedEntry =>
                (VRef (fst x), dataCount (rowData (entryRow x))))
             _ byPlacedDataCount) by reflexivity.
  rewrite map_map. cbn [fst].
  rewrite <- (Nat.add_0_r (length hs)) at 1.
  rewrite upd_suffix. reflexivity.
Qed.

Lemma run_alloc o h : alloc o h = (Normal (VRef (length h)), h ++ [o]).
Proof. reflexivity. Qed.

(** The loop that collects the labels and the rows of the sorted
    entries. *)
Lemma run_collect hs A : forall (L : list placedEntry) ys rs,
  Forall (entryHeld hs) L ->
  forM (map (fun x : placedEntry => VRef (fst x)) L)
    (fun sortedDataItem _ =>
       k <~ getIndex sortedDataItem 0 ;;
       _ <~ push (VRef (length hs + 1)) k ;;
       d <~ getIndex sortedDataItem 1 ;;
       r <~ getProp d "row" ;;
       push (VRef (length hs + 2)) r)
    tt (hs ++ [A; Arr ys; Arr rs])
  = (Normal tt,
     hs ++ [A;
            Arr (ys ++ map (fun x => Some (VString (entryKey x))) L);
            Arr (rs ++ map (fun x => Some (VRef (rowLoc (entryRow x)))) L)]).
Proof.
  induction L as [| x L IH]; intros ys rs Hheld.
  - simpl. rewrite !app_nil_r. reflexivity.
  - apply Forall_cons_iff in Hheld. destruct Hheld as [[Hp [Hd Hr]] HL].
    cbn [map forM]. rewrite !bind_bind.
    rewrite (bind_run _ _ _ _ _
               (run_getIndex _ _ _ 0 (nth_error_static _ _ _ _ Hp))).
    cbn [pairObj nth slot fst]. rewrite !bind_bind.
    assert (Hy : nth_error (hs ++ [A; Arr ys; Arr rs]) (length hs + 1)
                 = Some (Arr ys)) by (rewrite nth_error_suffix; reflexivity).
    rewrite (bind_run _ _ _ _ _ (run_push _ _ _ _ Hy)).
    rewrite upd_suffix. unfold upd at 1. cbn [firstn skipn app].
    rewrite !bind_bind.
    rewrite (bind_run _ _ _ _ _
               (run_getIndex _ _ _ 1 (nth_error_static _ _ _ _ Hp))).
    cbn [pairObj nth slot snd]. rewrite !bind_bind.
    rewrite (bind_run _ _ _ _ _
               (run_getProp _ _ _ "row" (nth_error_static _ _ _ _ Hd))).
    cbn [rowObj getOwn String.eqb Ascii.eqb Bool.eqb].
    assert (Hrs : nth_error
                    (hs ++ [A; Arr (ys ++ [Some (VString (entryKey x))]);
                            Arr rs])
                    (length hs + 2)
                  = Some (Arr rs)) by (rewrite nth_error_suffix; reflexivity).
    rewrite (bind_run _ _ _ _ _ (run_push _ _ _ _ Hrs)).
    rewrite upd_suffix. unfold upd at 1. cbn [firstn skipn app].
    rewrite (IH _ _ HL). rewrite <- !app_assoc. reflexivity.
Qed.

(** ** Reading the result back *)

Lemma run_readStrings h l xs :
  nth_error h l = Some (Arr (map (fun s => Some (VString s)) xs)) ->
  readStrings (VRef l) h = (Normal xs, h).
Proof.
  intros H. unfold readStrings.
  rewrite (bind_run _ _ _ _ _ (run_elements _ _ _ H)).
  rewrite map_map, mapM_map. cbn [slot].
  rewrite (mapM_run _ (fun s => s) h xs) by reflexivity.
  rewrite map_id. reflexivity.
Qed.

Lemma run_readRow h l r :
  nth_error h l = Some (Arr (map cellValue r)) ->
  readRow (VRef l) h = (Normal r, h).
Proof.
  intros H. unfold readRow.
  rewrite (bind_run _ _ _ _ _ (run_load _ _ _ H)).
  rewrite mapM_map.
  rewrite (mapM_run _ (fun c => c) h r).
  - rewrite map_id. reflexivity.
  - intros [s |] _; reflexivity.
Qed.

Lemma run_readParentLabel h l q :
  nth_error h l = Some (parentObj q) ->
  readParentLabel (VRef l) h = (Normal q, h).
Proof.
  intros H. unfold readParentLabel.
  rewrite (bind_run _ _ _ _ _ (run_getProp _ _ _ "label" H)).
  cbn [parentObj getOwn String.eqb Ascii.eqb Bool.eqb].
  unfold asString at 1. unfold ret at 1. unfold bind at 1.
  rewrite (bind_run _ _ _ _ _ (run_getProp _ _ _ "colSpan" H)).
  cbn [parentObj getOwn String.eqb Ascii.eqb Bool.eqb].
  destruct q. reflexivity.
Qed.

(** A result object whose arrays the store holds reads back as the
    table of those arrays. *)
Lemma run_readCompareTableProps h l lx ly lp lr xs ys
  (ps : list (loc * CompareTable.xParentLabel)) (rs : list placedRow) :
  nth_error h l
  = Some (Obj [("xLabels", VRef lx); ("yLabels", VRef ly);
               ("xParentLabels", VRef lp); ("rows", VRef lr)]) ->
  nth_error h lx = Some (Arr (map (fun s => Some (VString s)) xs)) ->
  nth_error h ly = Some (Arr (map (fun s => Some (VString s)) ys)) ->
  nth_error h lp = Some (Arr (map (fun q => Some (VRef (fst q))) ps)) ->
  Forall (fun q => nth_error h (fst q) = Some (parentObj (snd q))) ps ->
  nth_error h lr = Some (Arr (map (fun e => Some (VRef (rowLoc e))) rs)) ->
  Forall (fun e => nth_error h (rowLoc e) = Some (rowArr e)) rs ->
  readCompareTableProps (VRef l) h
  = (Normal {| CompareTable.xLabels := xs;
               CompareTable.yLabels := ys;
               CompareTable.xParentLabels := map snd ps;
               CompareTable.rows := map (fun e => row (rowData e)) rs |},
     h).
Proof.
  intros Hl Hx Hy Hp Hps Hr Hrs. unfold readCompareTableProps.
  rewrite (bind_run _ _ _ _ _ (run_getProp _ _ _ "xLabels" Hl)).
  cbn [getOwn String.eqb Ascii.eqb Bool.eqb].
  rewrite (bind_run _ _ _ _ _ (run_readStrings _ _ _ Hx)).
  rewrite (bind_run _ _ _ _ _ (run_getProp _ _ _ "yLabels" Hl)).
  cbn [getOwn String.eqb Ascii.eqb Bool.eqb].
  rewrite (bind_run _ _ _ _ _ (run_readStrings _ _ _ Hy)).
  rewrite (bind_run _ _ _ _ _ (run_getProp _ _ _ "xParentLabels" Hl)).
  cbn [getOwn String.eqb Ascii.eqb Bool.eqb].
  rewrite (bind_run _ _ _ _ _ (run_elements _ _ _ Hp)).
  assert (Eps : mapM (map slot (map (fun q : loc * CompareTable.xParentLabel =>
                                       Some (VRef (fst q))) ps))
                  readParentLabel h
                = (Normal (map snd ps), h)).
  { rewrite map_map, mapM_map. cbn [slot]. apply mapM_run.
    intros q Hq. apply run_readParentLabel.
    exact (proj1 (Forall_forall _ _) Hps q Hq). }
  rewrite (bind_run _ _ _ _ _ Eps).
  rewrite (bind_run _ _ _ _ _ (run_getProp _ _ _ "rows" Hl)).
  cbn [getOwn String.eqb Ascii.eqb Bool.eqb].
  rewrite (bind_run _ _ _ _ _ (run_elements _ _ _ Hr)).
  assert (Ers : mapM (map slot (map (fun e : placedRow =>
                                       Some (VRef (rowLoc e))) rs))
                  readRow h
                = (Normal (map (fun e => row (rowData e)) rs), h)).
  { rewrite map_map, mapM_map. cbn [slot]. apply mapM_run.
    intros e He. apply run_readRow.
    exact (proj1 (Forall_forall _ _) Hrs e He). }
  rewrite (bind_run _ _ _ _ _ Ers). reflexivity.
Qed.

(** The objects of a block of allocations. *)
Lemma block_held {X} (f : X -> obj) : forall l h x,
  In x (combine (seq (length h) (length l)) l) ->
  nth_error (h ++ map f l) (fst x) = Some (f (snd x)).
Proof.
  induction l as [| a l IH]; intros h x Hin; [contradiction |].
  cbn [length seq combine] in Hin. destruct Hin as [<- | Hin].
  - simpl. rewrite nth_error_app2 by lia. rewrite Nat.sub_diag. reflexivity.
  - specialize (IH (h ++ [f a]) x).
    rewrite length_app, Nat.add_1_r, <- app_assoc in IH. exact (IH Hin).
Qed.

Lemma map_fst_combine_seq {X} (l : list X) a :
  map fst (combine (seq a (length l)) l) = seq a (length l).
Proof.
  revert a. induction l as [| x l IH]; intros a; simpl; [reflexivity |].
  rewrite IH. reflexivity.
Qed.

Lemma map_snd_combine_seq {X} (l : list X) a :
  map snd (combine (seq a (length l)) l) = l.
Proof.
  revert a. induction l as [| x l IH]; intros a; simpl; [reflexivity |].
  rewrite IH. reflexivity.
Qed.

End Tail.

Section Refinement.

Abbreviation pureGetScalarTableData := getScalarTableData (only parsing).
Abbreviation pureGetCompareTableProps := getCompareTableProps (only parsing).

Import Store Layout.

(** The entries of a held table, each with the place [Object.entries]
    gives its pair. *)
Lemma entries_held h0 h1 p t :
  extends h0 h1 (footprint p t) ->
  Forall
    (entryHeld
       (h1 ++ map pairObj
                (Object_entries
                   (mapV (fun e => VRef (dataLoc e)) (rowsOf t)))))
    (combine (seq (length h1) (length (Object_entries (rowsOf t))))
             (Object_entries (rowsOf t))).
Proof.
  intros Hext. apply Forall_forall. intros x Hin.
  assert (Hrow : In (snd x) (rowsOf t)).
  { eapply Permutation_in; [apply Object_entries_Permutation |].
    rewrite <- (map_snd_combine_seq (Object_entries (rowsOf t)) (length h1)).
    apply in_map. exact Hin. }
  rewrite Object_entries_mapV. unfold mapV. rewrite map_map.
  split; [| split].
  - exact (block_held
             (fun kv : string * placedRow =>
                pairObj (fst kv, VRef (dataLoc (snd kv)))) _ _ _ Hin).
  - apply nth_error_static. apply (extends_holds _ _ _ _ _ Hext).
    unfold footprint, rowObjects. apply in_or_app. right.
    apply in_flat_map. exists (snd x). split; [exact Hrow |].
    left. reflexivity.
  - apply nth_error_static. apply (extends_holds _ _ _ _ _ Hext).
    unfold footprint, rowObjects. apply in_or_app. right.
    apply in_flat_map. exists (snd x). split; [exact Hrow |].
    right. left. reflexivity.
Qed.

(** The assembler after the aggregation: from a held table it builds a
    result that reads back as the sorted rows of the table. *)
Lemma run_assembler h0 input n d v h1 :
  Store.getScalarTableData input n h0 = (Normal v, h1) ->
  tableHeld h0 d v h1 ->
  fst (bind (Store.getCompareTableProps input n) readCompareTableProps h0)
  = Normal
      {| CompareTable.xLabels := xLabels d;
         CompareTable.yLabels :=
           map fst (Array_sort byDecreasingDataCount
                      (Object_entries (dataMap d)));
         CompareTable.xParentLabels := xParentLabels d;
         CompareTable.rows :=
           map (fun e => row (snd e))
               (Array_sort byDecreasingDataCount
                  (Object_entries (dataMap d))) |}.
Proof.
  intros Hrun (p & t & lt & -> & Hlt & Hext & Hlabels & Hparents & Hmap).
  unfold Store.getCompareTableProps. rewrite bind_bind.
  rewrite (bind_run _ _ _ _ _ Hrun). rewrite !bind_bind.
  rewrite (bind_run _ _ _ _ _ (run_getProp _ _ _ "dataMap" Hlt)).
  cbn [getOwn String.eqb Ascii.eqb Bool.eqb]. rewrite !bind_bind.
  rewrite (bind_run _ _ _ _ _ (run_entries _ _ _ (dataMap_held _ _ _ _ Hext))).
  pose proof (entries_held _ _ _ _ Hext) as Hheld.
  set (hs := h1 ++ map pairObj
                     (Object_entries
                        (mapV (fun e => VRef (dataLoc e)) (rowsOf t)))) in *.
  set (IE := combine (seq (length h1) (length (Object_entries (rowsOf t))))
                     (Object_entries (rowsOf t))) in *.
  assert (EA : map Some
                 (map VRef
                    (seq (length h1)
                       (length
                          (Object_entries
                             (mapV (fun e : placedRow => VRef (dataLoc e))
                                (rowsOf t))))))
               = map (fun x : placedEntry => Some (VRef (fst x))) IE).
  { rewrite Object_entries_mapV. unfold mapV. rewrite length_map, map_map.
    transitivity (map (fun l => Some (VRef l)) (map fst IE)).
    - unfold IE. rewrite map_fst_combine_seq. reflexivity.
    - rewrite map_map. reflexivity. }
  rewrite EA. clear EA. rewrite !bind_bind.
  rewrite (bind_run _ _ _ _ _ (run_sort hs IE Hheld)).
  assert (Hsorted : Forall (entryHeld hs) (Array_sort byPlacedDataCount IE)).
  { apply Forall_forall. intros x Hx.
    apply (proj1 (Forall_forall _ _) Hheld).
    eapply Permutation_in; [apply Array_sort_Permutation | exact Hx]. }
  set (SI := Array_sort byPlacedDataCount IE) in *.
  rewrite !bind_bind.
  rewrite (bind_run _ _ _ _ _ (run_alloc _ _)). rewrite !bind_bind.
  rewrite (bind_run _ _ _ _ _ (run_alloc _ _)). rewrite !bind_bind.
  rewrite !length_app. cbn [length]. rewrite <- !app_assoc. cbn [app].
  rewrite <- Nat.add_assoc. cbn [Nat.add].
  assert (Hitems : nth_error
                     (hs ++ [Arr (map (fun x : placedEntry =>
                                         Some (VRef (fst x))) SI);
                             Arr []; Arr []])
                     (length hs)
                   = Some (Arr (map (fun x : placedEntry =>
                                       Some (VRef (fst x))) SI))).
  { rewrite nth_error_app2 by lia. rewrite Nat.sub_diag. reflexivity. }
  rewrite (bind_run _ _ _ _ _ (run_elements _ _ _ Hitems)).
  rewrite map_map. cbn [slot]. rewrite !bind_bind.
  rewrite (bind_run _ _ _ _ _ (run_collect hs _ SI [] [] Hsorted)).
  cbn [app]. rewrite !bind_bind.
  assert (Hlt' : nth_error hs lt = Some
      (Obj [("xLabels", VRef (xLabelsAt p));
            ("xParentLabels", VRef (xParentLabelsAt p));
            ("dataMap", VRef (dataMapAt p))]))
    by (apply nth_error_static; exact Hlt).
  rewrite (bind_run _ _ _ _ _
             (run_getProp _ _ _ "xLabels" (nth_error_static _ _ _ _ Hlt'))).
  cbn [getOwn String.eqb Ascii.eqb Bool.eqb]. rewrite !bind_bind.
  rewrite (bind_run _ _ _ _ _
             (run_getProp _ _ _ "xParentLabels"
                (nth_error_static _ _ _ _ Hlt'))).
  cbn [getOwn String.eqb Ascii.eqb Bool.eqb].
  rewrite (bind_run _ _ _ _ _ (run_alloc _ _)).
  assert (Esorted :
            Array_sort byDecreasingDataCount (Object_entries (dataMap d))
            = map (fun x : placedEntry => (entryKey x, rowData (entryRow x)))
                  SI).
  { rewrite <- Hmap. unfold dataMapOf. rewrite Object_entries_mapV.
    unfold mapV.
    rewrite <- (map_snd_combine_seq (Object_entries (rowsOf t)) (length h1))
      at 1.
    fold IE. rewrite map_map. apply Array_sort_map. reflexivity. }
  rewrite Esorted, !map_map. cbn [fst snd].
  rewrite (run_readCompareTableProps _ _
             (xLabelsAt p) (length hs + 1) (xParentLabelsAt p) (length hs + 2)
             (labels t) (map entryKey SI) (parents t) (map entryRow SI)).
  - cbn [fst]. rewrite Hlabels, Hparents, !map_map. reflexivity.
  - rewrite nth_error_app2 by lia. rewrite Nat.sub_diag. reflexivity.
  - do 2 apply nth_error_static. unfold hs. apply nth_error_static.
    apply (extends_holds _ _ _ _ _ Hext).
    unfold footprint, front. apply in_or_app. left. apply in_or_app. left.
    left. reflexivity.
  - apply nth_error_static. rewrite nth_error_suffix. cbn [nth_error].
    rewrite map_map. reflexivity.
  - do 2 apply nth_error_static. unfold hs. apply nth_error_static.
    apply (extends_holds _ _ _ _ _ Hext).
    unfold footprint, front. apply in_or_app. left. apply in_or_app. left.
    right. left. reflexivity.
  - apply Forall_forall. intros q Hq.
    do 2 apply nth_error_static. unfold hs. apply nth_error_static.
    apply (extends_holds _ _ _ _ _ Hext).
    unfold footprint, front. apply in_or_app. left. apply in_or_app. right.
    exact (in_map (fun q => (fst q, parentObj (snd q))) _ _ Hq).
  - apply nth_error_static. rewrite nth_error_suffix. cbn [nth_error].
    rewrite map_map. reflexivity.
  - apply Forall_forall. intros e He. apply in_map_iff in He.
    destruct He as [x [<- Hx]].
    do 2 apply nth_error_static.
    exact (proj2 (proj2 (proj1 (Forall_forall _ _) Hsorted x Hx))).
Qed.

(** Refinement of the assembler.  Whenever the store holds an input
    that reads as the run artifacts [ras], [Store.getCompareTableProps],
    which builds the table by mutating objects and arrays of the store as
    the source does, leaves a result that reads back as exactly what
    [getCompareTableProps] returns on [ras], and throws the same exception
    when that one throws.  The store may hold anything else, and the
    objects of the input may be shared. *)
Theorem getCompareTableProps_refines (input : value) (h : heap)
  (ras : list RunArtifact) (n : Z) :
  fst (readRunArtifacts input h) = Normal ras ->
  fst (bind (Store.getCompareTableProps input n) readCompareTableProps h)
  = pureGetCompareTableProps ras n.
Proof.
  intros Hread. unfold readRunArtifacts in Hread.
  apply bind_inv_reader in Hread; [| apply reader_elements].
  destruct Hread as [items [Hitems Hmap]].
  apply mapM_reads in Hmap; [| apply reader_readRunArtifact].
  pose proof (sim_getScalarTableData h input items ras n Hitems Hmap) as Hsim.
  rewrite getCompareTableProps_sorted. unfold simulates in Hsim.
  destruct (pureGetScalarTableData ras n) as [d | e].
  - destruct Hsim as (v & h1 & Hrun & Hheld).
    exact (run_assembler _ _ _ _ _ _ Hrun Hheld).
  - destruct Hsim as [h' Hrun].
    unfold Store.getCompareTableProps. rewrite bind_bind.
    rewrite (bind_throws _ _ _ _ _ Hrun). reflexivity.
Qed.

Lemma getCompareTableProps_refines_witness :
  fst (readRunArtifacts Sample.accF1Input Sample.accF1Store)
  = Normal Sample.accF1 /\
  fst (bind (Store.getCompareTableProps Sample.accF1Input 2)
         readCompareTableProps Sample.accF1Store)
  = pureGetCompareTableProps Sample.accF1 2.
Proof.
  split; [reflexivity |].
  apply getCompareTableProps_refines. reflexivity.
Defined.

End Refinement.

(* ================================================================== *)
(** * The path map is built in place                                   *)
(* ================================================================== *)

Section PathStore.

Abbreviation pureGetValidArtifacts := getValidArtifacts (only parsing).
Abbreviation pureGetFullArtifactPath := getFullArtifactPath (only parsing).
Abbreviation pureGetRocCurveId := getRocCurveId (only parsing).
Abbreviation pureGetValidRocCurveArtifactData :=
  getValidRocCurveArtifactData (only parsing).

Import Store Layout PathLayout.

Variable h0 : heap.

Lemma keeps_refl b h : keeps b h h.
Proof. intros l o _ H. exact H. Qed.

Lemma keeps_trans b h1 h2 h3 : keeps b h1 h2 -> keeps b h2 h3 -> keeps b h1 h3.
Proof. intros H12 H23 l o Hl H. exact (H23 _ _ Hl (H12 _ _ Hl H)). Qed.

Lemma keeps_app b h added : keeps b h (h ++ added).
Proof. intros l o _ H. apply nth_error_static. exact H. Qed.

Lemma keeps_paths ext ext' created :
  keeps (length h0) (pathStore h0 ext created) (pathStore h0 ext' created).
Proof.
  intros l o Hl. unfold pathStore.
  rewrite !nth_error_app2 by lia.
  destruct (l - length h0) as [| j] eqn:E; [lia |]. simpl. trivial.
Qed.

Lemma pathStore_app ext created added :
  pathStore h0 ext created ++ added = pathStore h0 ext (created ++ added).
Proof. unfold pathStore. rewrite <- app_assoc. reflexivity. Qed.

Lemma pathStore_map ext created :
  nth_error (pathStore h0 ext created) (length h0)
  = Some (Obj (mapV pathRef ext)).
Proof.
  unfold pathStore. rewrite nth_error_app2 by lia.
  rewrite Nat.sub_diag. reflexivity.
Qed.

Lemma pathStore_upd ext created o :
  upd (pathStore h0 ext created) (length h0) o = h0 ++ o :: created.
Proof.
  unfold pathStore.
  rewrite <- (Nat.add_0_r (length h0)) at 1. rewrite upd_suffix.
  reflexivity.
Qed.

Lemma pathHeld_keeps h h' e :
  keeps (length h0) h h' ->
  pathHeld (length h0) h e -> pathHeld (length h0) h' e.
Proof.
  intros Hk [Hb H]. split; [exact Hb |].
  intros j o Hj. apply Hk; [lia |]. exact (H j o Hj).
Qed.

Lemma listHeld_keeps {X} (R R' : value -> X -> Prop) h h' v xs :
  (forall u x, R u x -> R' u x) ->
  keeps (length h0) h h' ->
  listHeld (length h0) R h v xs -> listHeld (length h0) R' h' v xs.
Proof.
  intros HR Hk (l & vs & -> & Hb & Hl & Hvs).
  exists l, vs. split; [reflexivity | split; [exact Hb |]].
  split; [exact (Hk _ _ Hb Hl) |].
  eapply Forall2_impl; [| exact Hvs]. exact HR.
Qed.

(** ** Reading the input *)

Lemma reads_run v la added :
  reads h0 v la ->
  readLinkedArtifact v (h0 ++ added) = (Normal la, h0 ++ added).
Proof.
  intros H. apply reader_run_app; [apply reader_readLinkedArtifact | exact H].
Qed.

Lemma reads_artifact v la added :
  reads h0 v la ->
  getProp v "artifact" (h0 ++ added)
  = (Normal (VArtifact (artifact la)), h0 ++ added).
Proof.
  unfold reads, readLinkedArtifact. intros H.
  apply bind_inv_reader in H; [| apply reader_getProp].
  destruct H as [e [_ H]].
  apply bind_inv_reader in H;
    [| destruct e; try apply reader_throw; apply reader_ret].
  destruct H as [e' [_ H]].
  apply bind_inv_reader in H; [| apply reader_getProp].
  destruct H as [a [Ha H]].
  apply bind_inv_reader in H;
    [| destruct a; try apply reader_throw; apply reader_ret].
  destruct H as [a' [Ha' H]].
  inversion H; subst la. cbn [artifact].
  destruct a; try discriminate Ha'. inversion Ha'; subst a'.
  apply reader_run_app; [apply reader_getProp | exact Ha].
Qed.

(** ** The valid artifacts of an execution *)

(** A loop that pushes the elements it accepts to the array created
    last. *)
Lemma push_loop (created : heap) (body : value -> unit -> M unit)
  (accepts : LinkedArtifact -> bool) :
  (forall v la acc,
      reads h0 v la ->
      body v tt ((h0 ++ created) ++ [Arr (map Some acc)])
      = (Normal tt,
         (h0 ++ created)
           ++ [Arr (map Some (if accepts la then acc ++ [v] else acc))])) ->
  forall items las accv accp,
    Forall2 (reads h0) items las ->
    Forall2 (reads h0) accv accp ->
    exists vs,
      forM items body tt ((h0 ++ created) ++ [Arr (map Some accv)])
      = (Normal tt, (h0 ++ created) ++ [Arr (map Some vs)]) /\
      Forall2 (reads h0) vs (accp ++ filter accepts las).
Proof.
  intros Hbody items las accv accp Hitems. revert accv accp.
  induction Hitems as [| v la items las Hv Hitems IH]; intros accv accp Hacc.
  - exists accv. rewrite app_nil_r. split; [reflexivity | exact Hacc].
  - cbn [forM filter]. rewrite (bind_run _ _ _ _ _ (Hbody v la accv Hv)).
    destruct (accepts la).
    + destruct (IH (accv ++ [v]) (accp ++ [la])) as [vs [E Hvs]].
      { apply Forall2_app; [exact Hacc | constructor; [exact Hv | constructor]]. }
      exists vs. split; [exact E |]. rewrite <- app_assoc in Hvs. exact Hvs.
    + exact (IH accv accp Hacc).
Qed.

Lemma run_getValidArtifacts created eav ea :
  fst (readExecutionArtifact eav h0) = Normal ea ->
  exists vs,
    Store.getValidArtifacts eav (h0 ++ created)
    = (Normal (VRef (length (h0 ++ created))),
       (h0 ++ created) ++ [Arr (map Some vs)]) /\
    Forall2 (reads h0) vs (pureGetValidArtifacts ea).
Proof.
  intros Hea. apply readExecutionArtifact_inv in Hea.
  destruct Hea as (lasv & items & _ & Hlas & Hitems & Hread).
  rewrite getValidArtifacts_eq_filter.
  unfold Store.getValidArtifacts.
  rewrite (bind_run _ _ _ _ _ (run_alloc _ _)).
  rewrite <- app_assoc.
  rewrite (bind_run _ _ _ _ _
             (reader_run_app _ _ _ _ (reader_getProp _ _) Hlas)).
  rewrite (bind_run _ _ _ _ _
             (reader_run_app _ _ _ _ (reader_elements _) Hitems)).
  rewrite app_assoc.
  match goal with
  | |- context [forM items ?body tt] =>
      destruct (push_loop created body hasConfidenceMetrics) with
        (items := items) (las := linkedArtifacts ea)
        (accv := @nil value) (accp := @nil LinkedArtifact)
        as [vs [E Hvs]]
  end.
  - intros v la acc Hv. rewrite <- app_assoc.
    rewrite (bind_run _ _ _ _ _ (reads_artifact _ _ _ Hv)).
    unfold asArtifact at 1. unfold ret at 1. unfold bind at 1.
    cbv zeta.
    change (mlmd.Artifact.getCustomPropertiesMap (artifact la))
      with (customPropertiesOf la).
    rewrite ToBoolean_confidenceMetrics. rewrite app_assoc.
    destruct (hasConfidenceMetrics la); [| reflexivity].
    assert (Hlast : nth_error ((h0 ++ created) ++ [Arr (map Some acc)])
                      (length (h0 ++ created))
                    = Some (Arr (map Some acc))).
    { rewrite nth_error_app2 by lia. rewrite Nat.sub_diag. reflexivity. }
    rewrite (run_push _ _ _ _ Hlast).
    rewrite <- (Nat.add_0_r (length (h0 ++ created))) at 1.
    rewrite upd_suffix. unfold upd. cbn [firstn skipn app].
    rewrite map_app. reflexivity.
  - exact Hread.
  - constructor.
  - exists vs. cbn [map] in E. rewrite (bind_run _ _ _ _ _ E).
    split; [reflexivity | exact Hvs].
Qed.

(** ** Rules of the simulation *)

Lemma sim_bind {A B A' B'} (pure : completion A) (k : A -> completion B)
  (m : M A') (k' : A' -> M B') h
  (R : A -> A' -> heap -> Prop) (Q : B -> B' -> heap -> Prop) :
  simulates pure (m h) R ->
  (forall a a' h', R a a' h' -> simulates (k a) (k' a' h') Q) ->
  simulates (JS.bind pure k) (bind m k' h) Q.
Proof.
  intros Hm Hk. destruct pure as [a | e]; simpl in *.
  - destruct Hm as (a' & h' & E & HR).
    rewrite (bind_run _ _ _ _ _ E). exact (Hk _ _ _ HR).
  - destruct Hm as [h' E]. exists h'. exact (bind_throws _ _ _ _ _ E).
Qed.

Lemma sim_then {A A' B'} (pure : completion A) (m : M A') (k' : A' -> M B')
  h (R : A -> A' -> heap -> Prop) (Q : A -> B' -> heap -> Prop) :
  simulates pure (m h) R ->
  (forall a a' h', R a a' h' -> simulates (Normal a) (k' a' h') Q) ->
  simulates pure (bind m k' h) Q.
Proof.
  intros Hm Hk. destruct pure as [a | e]; simpl in *.
  - destruct Hm as (a' & h' & E & HR).
    rewrite (bind_run _ _ _ _ _ E). exact (Hk _ _ _ HR).
  - destruct Hm as [h' E]. exists h'. exact (bind_throws _ _ _ _ _ E).
Qed.

Lemma sim_weaken {A B} (pure : completion A) (run : completion B * heap)
  (R R' : A -> B -> heap -> Prop) :
  (forall a b h, R a b h -> R' a b h) ->
  simulates pure run R -> simulates pure run R'.
Proof.
  intros HR H. destruct pure as [a | e]; simpl in *; [| exact H].
  destruct H as (b & h' & E & Hb). exists b, h'.
  split; [exact E | exact (HR _ _ _ Hb)].
Qed.

(** A loop over a shared state. *)
Lemma sim_forM {A Av S} (b : nat) (I : S -> heap -> Prop)
  (R : Av -> A -> Prop) (body : A -> S -> completion S)
  (body' : Av -> unit -> M unit) :
  (forall av a s h,
      R av a -> I s h ->
      simulates (body a s) (body' av tt h)
                (fun s' _ h' => I s' h' /\ keeps b h h')) ->
  forall avs xs s h,
    Forall2 R avs xs -> I s h ->
    simulates (forOf xs body s) (forM avs body' tt h)
              (fun s' _ h' => I s' h' /\ keeps b h h').
Proof.
  intros Hbody avs xs s h Hxs. revert s h.
  induction Hxs as [| av a avs xs Ha Hxs IH]; intros s h Hs.
  - exists tt, h. split; [reflexivity |]. split; [exact Hs | apply keeps_refl].
  - cbn [forOf forM]. eapply sim_bind; [exact (Hbody _ _ _ _ Ha Hs) |].
    intros s' [] h' [Hs' Hk]. cbv beta.
    eapply sim_weaken; [| exact (IH _ _ Hs')].
    intros s2 _ h2 [Hs2 Hk2]. split; [exact Hs2 |].
    exact (keeps_trans _ _ _ _ Hk Hk2).
Qed.

(** A [map] whose callback changes a shared state: the results stay
    what they are while the later calls run. *)
Lemma sim_mapM {A Av B S} (b : nat) (I : S -> heap -> Prop)
  (R : Av -> A -> Prop) (RB : heap -> value -> B -> Prop)
  (f : A -> S -> completion (B * S)) (g : Av -> M value) :
  (forall h h' v x, keeps b h h' -> RB h v x -> RB h' v x) ->
  (forall av a s h,
      R av a -> I s h ->
      simulates (f a s) (g av h)
                (fun bs v h' =>
                   I (snd bs) h' /\ RB h' v (fst bs) /\ keeps b h h')) ->
  forall avs xs s h,
    Forall2 R avs xs -> I s h ->
    simulates (mapS xs f s) (mapM avs g h)
              (fun r vs h' =>
                 I (snd r) h' /\ Forall2 (RB h') vs (fst r) /\ keeps b h h').
Proof.
  intros Hstable Hf avs xs s h Hxs. revert s h.
  induction Hxs as [| av a avs xs Ha Hxs IH]; intros s h Hs.
  - exists [], h. split; [reflexivity |].
    split; [exact Hs | split; [constructor | apply keeps_refl]].
  - cbn [mapS mapM]. eapply sim_bind; [exact (Hf _ _ _ _ Ha Hs) |].
    intros bs v h' (Hs' & Hv & Hk). cbv beta.
    eapply sim_bind; [exact (IH _ _ Hs') |].
    intros r vs h2 (Hs2 & Hvs & Hk2). cbv beta.
    exists (v :: vs), h2. split; [reflexivity |]. cbn [fst snd].
    split; [exact Hs2 |]. split.
    + constructor; [exact (Hstable _ _ _ _ Hk2 Hv) | exact Hvs].
    + exact (keeps_trans _ _ _ _ Hk Hk2).
Qed.

(** ** One path *)

Lemma length_pathStore ext created :
  length (pathStore h0 ext created) = length h0 + S (length created).
Proof. unfold pathStore. rewrite length_app. reflexivity. Qed.

(** The callback of the loop over the valid artifacts: the path is
    created and stored under the id of the artifact. *)
Lemma sim_path rav ra eav ea v la m h :
  fst (getProp rav "run" h0) = Normal (VRun (run ra)) ->
  fst (getProp eav "execution" h0) = Normal (VExecution (execution ea)) ->
  reads h0 v la ->
  pathsHeld h0 m h ->
  simulates
    (path <- pureGetFullArtifactPath (run ra) (execution ea) la ;;
     Normal (JS.set m (pureGetRocCurveId la) path))
    ((key <~ Store.getRocCurveId v ;;
      r <~ getProp rav "run" ;;
      r <~ asRun r ;;
      e <~ getProp eav "execution" ;;
      e <~ asExecution e ;;
      path <~ Store.getFullArtifactPath r e v ;;
      setProp (VRef (length h0)) key path) h)
    (fun m' _ h' => pathsHeld h0 m' h' /\ keeps (length h0) h h').
Proof.
  intros Hrun Hexe Hv (ext & created & -> & Hheld & <-).
  unfold Store.getRocCurveId. rewrite bind_bind.
  unfold pathStore at 1.
  rewrite (bind_run _ _ _ _ _ (reads_run _ _ _ Hv)).
  rewrite (bind_run (ret (pureGetRocCurveId la)) _ _ _ _ eq_refl).
  rewrite (bind_run _ _ _ _ _
             (reader_run_app _ _ _ _ (reader_getProp _ _) Hrun)).
  rewrite (bind_run (asRun (VRun (run ra))) _ _ _ _ eq_refl).
  rewrite (bind_run _ _ _ _ _
             (reader_run_app _ _ _ _ (reader_getProp _ _) Hexe)).
  rewrite (bind_run (asExecution (VExecution (execution ea))) _ _ _ _
             eq_refl).
  unfold Store.getFullArtifactPath. rewrite ?bind_bind.
  rewrite (bind_run _ _ _ _ _ (reads_run _ _ _ Hv)).
  destruct (pureGetFullArtifactPath (run ra) (execution ea) la)
    as [path | ex].
  - rewrite ?bind_bind.
    rewrite (bind_run (lift (Normal path)) _ _ _ _ eq_refl).
    unfold allocNameId. rewrite ?bind_bind.
    fold (pathStore h0 ext created).
    set (h := pathStore h0 ext created).
    rewrite (bind_run _ _ _ _ _ (run_alloc _ _)). rewrite ?bind_bind.
    rewrite (bind_run _ _ _ _ _ (run_alloc _ _)). rewrite ?bind_bind.
    rewrite (bind_run _ _ _ _ _ (run_alloc _ _)). rewrite ?bind_bind.
    rewrite (bind_run _ _ _ _ _ (run_alloc _ _)).
    rewrite !length_app. cbn [length]. rewrite <- !app_assoc. cbn [app].
    rewrite <- !Nat.add_assoc. cbn [Nat.add].
    fold (nameObj (FullArtifactPath.run path)).
    fold (nameObj (FullArtifactPath.execution path)).
    fold (nameObj (FullArtifactPath.artifact path)).
    fold (pathObjects (length h) path).
    unfold h at 2. rewrite pathStore_app.
    rewrite (run_setProp _ _ _ _ _ (pathStore_map _ _)).
    rewrite pathStore_upd.
    change (VRef (length h + 3)) with (pathRef (length h, path)).
    rewrite (set_mapV pathRef).
    fold (pathStore h0 (JS.set ext (pureGetRocCurveId la) (length h, path))
            (created ++ pathObjects (length h) path)).
    assert (Hk : keeps (length h0) h
                   (pathStore h0
                      (JS.set ext (pureGetRocCurveId la) (length h, path))
                      (created ++ pathObjects (length h) path))).
    { apply (keeps_trans _ _ (h ++ pathObjects (length h) path));
        [apply keeps_app |].
      unfold h at 1. rewrite pathStore_app. apply keeps_paths. }
    cbn [JS.bind]. exists tt. eexists. split; [reflexivity |].
    split; [| exact Hk].
    exists (JS.set ext (pureGetRocCurveId la) (length h, path)),
           (created ++ pathObjects (length h) path).
    split; [reflexivity |]. split.
    + apply Forall_forall. intros [k e] Hin. apply In_set in Hin.
      destruct Hin as [E | Hin].
      * inversion E; subst k e. cbn [snd]. split.
        -- cbn [fst]. unfold h. rewrite length_pathStore. lia.
        -- intros j o Hj. cbn [fst snd] in *.
           apply (keeps_paths ext); [unfold h; rewrite length_pathStore; lia |].
           rewrite <- pathStore_app. fold h.
           rewrite nth_error_suffix. exact Hj.
      * apply (pathHeld_keeps _ _ _ Hk).
        exact (proj1 (Forall_forall _ _) Hheld _ Hin).
    + unfold pathsOf. symmetry.
      exact (set_mapV snd ext (pureGetRocCurveId la) (length h, path)).
  - rewrite ?bind_bind.
    rewrite (bind_throws (lift (Throw ex)) _ _ ex _ eq_refl).
    cbn [JS.bind]. eexists. reflexivity.
Qed.

(** ** The callbacks of the two maps *)

Lemma pathsHeld_app m h added :
  pathsHeld h0 m h -> pathsHeld h0 m (h ++ added).
Proof.
  intros (ext & created & -> & Hheld & Hm).
  exists ext, (created ++ added).
  split; [apply pathStore_app | split; [| exact Hm]].
  eapply Forall_impl; [| exact Hheld].
  intros kv. apply pathHeld_keeps. apply keeps_app.
Qed.

Lemma pathsHeld_beyond m h : pathsHeld h0 m h -> length h0 < length h.
Proof.
  intros (ext & created & -> & _). rewrite length_pathStore. lia.
Qed.

Lemma pathsHeld_extends m h : pathsHeld h0 m h -> exists added, h = h0 ++ added.
Proof. intros (ext & created & -> & _). eexists. reflexivity. Qed.

(** The callback of the map over the execution artifacts of a run. *)
Lemma sim_execution rav ra eav ea m h :
  fst (getProp rav "run" h0) = Normal (VRun (run ra)) ->
  fst (readExecutionArtifact eav h0) = Normal ea ->
  pathsHeld h0 m h ->
  simulates
    (let validArtifacts := pureGetValidArtifacts ea in
     fullArtifactPathMap <-
       forOf validArtifacts
         (fun validArtifact fullArtifactPathMap =>
            path <- pureGetFullArtifactPath (run ra) (execution ea)
                      validArtifact ;;
            Normal (JS.set fullArtifactPathMap
                      (pureGetRocCurveId validArtifact) path))
         m ;;
     Normal (validArtifacts, fullArtifactPathMap))
    ((validArtifacts <~ Store.getValidArtifacts eav ;;
      valid <~ elements validArtifacts ;;
      _ <~ forM valid
             (fun validArtifact _ =>
                key <~ Store.getRocCurveId validArtifact ;;
                r <~ getProp rav "run" ;;
                r <~ asRun r ;;
                e <~ getProp eav "execution" ;;
                e <~ asExecution e ;;
                path <~ Store.getFullArtifactPath r e validArtifact ;;
                setProp (VRef (length h0)) key path)
             tt ;;
      ret validArtifacts) h)
    (fun bs v h' =>
       pathsHeld h0 (snd bs) h' /\
       listHeld (length h0) (reads h0) h' v (fst bs) /\
       keeps (length h0) h h').
Proof.
  intros Hrun Hea Hm. cbv zeta.
  destruct (pathsHeld_extends _ _ Hm) as [added Eh].
  destruct (run_getValidArtifacts added eav ea Hea) as [vs [E Hvs]].
  rewrite <- Eh in E. rewrite (bind_run _ _ _ _ _ E).
  assert (Hlast : nth_error (h ++ [Arr (map Some vs)]) (length h)
                  = Some (Arr (map Some vs))).
  { rewrite nth_error_app2 by lia. rewrite Nat.sub_diag. reflexivity. }
  rewrite (bind_run _ _ _ _ _ (run_elements _ _ _ Hlast)).
  rewrite map_slot_Some.
  pose proof (readExecutionArtifact_inv _ _ _ Hea) as (_ & _ & Hexe & _).
  eapply sim_bind.
  - apply (sim_forM (length h0) (pathsHeld h0) (reads h0)).
    + intros v la s hx Hv Hs. exact (sim_path rav ra eav ea v la s hx Hrun Hexe Hv Hs).
    + exact Hvs.
    + apply pathsHeld_app. exact Hm.
  - intros m' [] h' [Hm' Hk]. cbv beta.
    exists (VRef (length h)), h'. split; [reflexivity |]. cbn [fst snd].
    split; [exact Hm' |]. split.
    + exists (length h), vs. split; [reflexivity |].
      split; [exact (pathsHeld_beyond _ _ Hm) |].
      split; [| exact Hvs].
      apply Hk; [exact (pathsHeld_beyond _ _ Hm) | exact Hlast].
    + apply (keeps_trans _ _ (h ++ [Arr (map Some vs)]));
        [apply keeps_app | exact Hk].
Qed.

(** The callback of the map over the run artifacts. *)
Lemma sim_run rav ra m h :
  fst (readRunArtifact rav h0) = Normal ra ->
  pathsHeld h0 m h ->
  simulates
    (mapS (executionArtifacts ra)
       (fun executionArtifact fullArtifactPathMap =>
          let validArtifacts := pureGetValidArtifacts executionArtifact in
          fullArtifactPathMap <-
            forOf validArtifacts
              (fun validArtifact fullArtifactPathMap =>
                 path <- pureGetFullArtifactPath (run ra)
                           (execution executionArtifact) validArtifact ;;
                 Normal (JS.set fullArtifactPathMap
                           (pureGetRocCurveId validArtifact) path))
              fullArtifactPathMap ;;
          Normal (validArtifacts, fullArtifactPathMap))
       m)
    ((eas <~ getProp rav "executionArtifacts" ;;
      executionArtifacts <~ elements eas ;;
      mapped <~ mapM executionArtifacts
        (fun executionArtifact =>
           validArtifacts <~ Store.getValidArtifacts executionArtifact ;;
           valid <~ elements validArtifacts ;;
           _ <~ forM valid
                  (fun validArtifact _ =>
                     key <~ Store.getRocCurveId validArtifact ;;
                     r <~ getProp rav "run" ;;
                     r <~ asRun r ;;
                     e <~ getProp executionArtifact "execution" ;;
                     e <~ asExecution e ;;
                     path <~ Store.getFullArtifactPath r e validArtifact ;;
                     setProp (VRef (length h0)) key path)
                  tt ;;
           ret validArtifacts) ;;
      alloc (Arr (map Some mapped))) h)
    (fun bs v h' =>
       pathsHeld h0 (snd bs) h' /\
       listHeld (length h0) (listHeld (length h0) (reads h0) h') h' v (fst bs)
       /\ keeps (length h0) h h').
Proof.
  intros Hra Hm.
  destruct (readRunArtifact_inv _ _ _ Hra) as (easv & items & Hrun & Heas & Hitems & Hread).
  destruct (pathsHeld_extends _ _ Hm) as [added Eh]. rewrite Eh.
  rewrite (bind_run _ _ _ _ _
             (reader_run_app _ _ _ _ (reader_getProp _ _) Heas)).
  rewrite (bind_run _ _ _ _ _
             (reader_run_app _ _ _ _ (reader_elements _) Hitems)).
  rewrite <- Eh.
  eapply sim_then.
  - apply (sim_mapM (length h0) (pathsHeld h0)
             (fun x ea => fst (readExecutionArtifact x h0) = Normal ea)
             (fun hx => listHeld (length h0) (reads h0) hx)).
    + intros hx hx' v xs Hk. apply listHeld_keeps; [trivial | exact Hk].
    + intros eav ea s hx Hea Hs.
      exact (sim_execution rav ra eav ea s hx Hrun Hea Hs).
    + exact Hread.
    + exact Hm.
  - intros r vs h' (Hm' & Hvs & Hk). cbv beta.
    exists (VRef (length h')), (h' ++ [Arr (map Some vs)]).
    split; [reflexivity |].
    split; [apply pathsHeld_app; exact Hm' |]. split.
    + exists (length h'), vs. split; [reflexivity |].
      split; [exact (pathsHeld_beyond _ _ Hm') |].
      split; [rewrite nth_error_app2 by lia; rewrite Nat.sub_diag;
              reflexivity |].
      eapply Forall2_impl; [| exact Hvs].
      intros v xs. apply listHeld_keeps; [trivial | apply keeps_app].
    + apply (keeps_trans _ _ h'); [exact Hk | apply keeps_app].
Qed.

(** ** Flattening and reading back *)

Lemma mapM_exists {A B X} (f : A -> M B) (P : A -> X -> Prop)
  (Q : B -> X -> Prop) h :
  (forall v x, P v x -> exists r, f v h = (Normal r, h) /\ Q r x) ->
  forall vs xs,
    Forall2 P vs xs ->
    exists rs, mapM vs f h = (Normal rs, h) /\ Forall2 Q rs xs.
Proof.
  intros Hf vs xs Hvs.
  induction Hvs as [| v x vs xs Hv Hvs IH].
  - exists []. split; [reflexivity | constructor].
  - destruct (Hf _ _ Hv) as [r [Er Hr]]. destruct IH as [rs [Ers Hrs]].
    exists (r :: rs). cbn [mapM].
    rewrite (bind_run _ _ _ _ _ Er), (bind_run _ _ _ _ _ Ers).
    split; [reflexivity | constructor; assumption].
Qed.

Lemma mapM_Forall2 {A B} (f : A -> M B) h vs xs :
  Forall2 (fun v x => f v h = (Normal x, h)) vs xs ->
  mapM vs f h = (Normal xs, h).
Proof.
  intros Hvs. induction Hvs as [| v x vs xs Hv Hvs IH]; [reflexivity |].
  cbn [mapM]. rewrite (bind_run _ _ _ _ _ Hv), (bind_run _ _ _ _ _ IH).
  reflexivity.
Qed.

Lemma run_elements_held {X} b (R : value -> X -> Prop) h v xs :
  listHeld b R h v xs ->
  exists vs, elements v h = (Normal vs, h) /\ Forall2 R vs xs.
Proof.
  intros (l & vs & -> & _ & Hl & Hvs). exists vs.
  rewrite (run_elements _ _ _ Hl), map_slot_Some.
  split; [reflexivity | exact Hvs].
Qed.

Lemma Forall2_concat {A B} (R : A -> B -> Prop) rs xss :
  Forall2 (Forall2 R) rs xss -> Forall2 R (concat rs) (concat xss).
Proof.
  intros H. induction H as [| r xs rs xss Hr H IH]; simpl; [constructor |].
  apply Forall2_app; assumption.
Qed.

Lemma Forall2_concat_concat {A B} (R : A -> B -> Prop) rs xsss :
  Forall2 (fun r xss => Forall2 R r (concat xss)) rs xsss ->
  Forall2 R (concat rs) (concat (concat xsss)).
Proof.
  intros H. induction H as [| r xss rs xsss Hr H IH]; simpl; [constructor |].
  rewrite concat_app. apply Forall2_app; assumption.
Qed.

(** [flatMapDeep] on the arrays the two maps return. *)
Lemma run_flatMapDeep {X} b (R : value -> X -> Prop) h v xsss :
  listHeld b (listHeld b (listHeld b R h) h) h v xsss ->
  exists flat,
    flatMapDeep v h
    = (Normal (VRef (length h)), h ++ [Arr (map Some flat)]) /\
    Forall2 R flat (concat (concat xsss)).
Proof.
  intros Hv. unfold flatMapDeep.
  destruct (run_elements_held _ _ _ _ _ Hv) as [vs [Evs Hvs]].
  rewrite (bind_run _ _ _ _ _ Evs).
  destruct (mapM_exists
              (fun inner =>
                 arrays <~ elements inner ;;
                 parts <~ mapM arrays elements ;;
                 ret (concat parts))
              (listHeld b (listHeld b R h) h)
              (fun r xss => Forall2 R r (concat xss)) h) with
    (vs := vs) (xs := xsss) as [rs [Ers Hrs]].
  - intros inner xss Hinner.
    destruct (run_elements_held _ _ _ _ _ Hinner) as [arrays [Ea Ha]].
    rewrite (bind_run _ _ _ _ _ Ea).
    destruct (mapM_exists elements (listHeld b R h) (Forall2 R) h) with
      (vs := arrays) (xs := xss) as [parts [Ep Hp]].
    + intros u xs Hu. exact (run_elements_held _ _ _ _ _ Hu).
    + exact Ha.
    + exists (concat parts). rewrite (bind_run _ _ _ _ _ Ep).
      split; [reflexivity | apply Forall2_concat; exact Hp].
  - exact Hvs.
  - exists (concat rs). rewrite (bind_run _ _ _ _ _ Ers).
    split; [reflexivity | apply Forall2_concat_concat; exact Hrs].
Qed.

Lemma run_readNameId h l n :
  nth_error h l = Some (nameObj n) -> readNameId (VRef l) h = (Normal n, h).
Proof.
  intros H. unfold readNameId.
  rewrite (bind_run _ _ _ _ _ (run_getProp _ _ _ "name" H)).
  cbn [nameObj getOwn String.eqb Ascii.eqb Bool.eqb].
  rewrite (bind_run (asString (VString (name n))) _ _ _ _ eq_refl).
  rewrite (bind_run _ _ _ _ _ (run_getProp _ _ _ "id" H)).
  cbn [nameObj getOwn String.eqb Ascii.eqb Bool.eqb].
  destruct n. reflexivity.
Qed.

Lemma run_readFullArtifactPath b h e :
  pathHeld b h e -> readFullArtifactPath (pathRef e) h = (Normal (snd e), h).
Proof.
  intros [_ H]. destruct e as [l path]. cbn [fst snd pathRef] in *.
  pose proof (H 0 _ eq_refl) as H0. rewrite Nat.add_0_r in H0.
  pose proof (H 1 _ eq_refl) as H1.
  pose proof (H 2 _ eq_refl) as H2.
  pose proof (H 3 _ eq_refl) as H3.
  unfold readFullArtifactPath.
  rewrite (bind_run _ _ _ _ _ (run_getProp _ _ _ "run" H3)).
  cbn [getOwn String.eqb Ascii.eqb Bool.eqb].
  rewrite (bind_run _ _ _ _ _ (run_readNameId _ _ _ H0)).
  rewrite (bind_run _ _ _ _ _ (run_getProp _ _ _ "execution" H3)).
  cbn [getOwn String.eqb Ascii.eqb Bool.eqb].
  rewrite (bind_run _ _ _ _ _ (run_readNameId _ _ _ H1)).
  rewrite (bind_run _ _ _ _ _ (run_getProp _ _ _ "artifact" H3)).
  cbn [getOwn String.eqb Ascii.eqb Bool.eqb].
  rewrite (bind_run _ _ _ _ _ (run_readNameId _ _ _ H2)).
  destruct path. reflexivity.
Qed.

Lemma run_readFullArtifactPathMap b h l ext :
  nth_error h l = Some (Obj (mapV pathRef ext)) ->
  Forall (fun kv => pathHeld b h (snd kv)) ext ->
  readFullArtifactPathMap (VRef l) h = (Normal (pathsOf ext), h).
Proof.
  intros Hl Hext. unfold readFullArtifactPathMap.
  rewrite (bind_run _ _ _ _ _ (run_load _ _ _ Hl)).
  unfold mapV at 1. rewrite mapM_map. cbn [fst snd].
  apply mapM_run. intros [k e] Hin.
  rewrite (bind_run _ _ _ _ _
             (run_readFullArtifactPath _ _ _
                (proj1 (Forall_forall _ _) Hext _ Hin))).
  reflexivity.
Qed.

Lemma pathsHeld_initial : pathsHeld h0 [] (h0 ++ [Obj []]).
Proof.
  exists [], []. split; [reflexivity | split; [constructor | reflexivity]].
Qed.

(** Refinement of the collector of ROC curves.  Whenever the store
    holds an input that reads as the run artifacts [ras],
    [Store.getValidRocCurveArtifactData], which fills the one path map its
    callbacks share and flattens the arrays they return, leaves a result
    that reads back as exactly what [getValidRocCurveArtifactData] returns
    on [ras], and throws the same exception when that one throws. *)
Theorem getValidRocCurveArtifactData_refines (input : value)
  (ras : list RunArtifact) :
  fst (readRunArtifacts input h0) = Normal ras ->
  fst (bind (Store.getValidRocCurveArtifactData input)
         readRocCurveArtifactData h0)
  = pureGetValidRocCurveArtifactData ras.
Proof.
  intros Hread. unfold readRunArtifacts in Hread.
  apply bind_inv_reader in Hread; [| apply reader_elements].
  destruct Hread as [items [Hitems Hmap]].
  apply mapM_reads in Hmap; [| apply reader_readRunArtifact].
  unfold Store.getValidRocCurveArtifactData, pureGetValidRocCurveArtifactData.
  rewrite bind_bind.
  rewrite (bind_run _ _ _ _ _ (run_alloc _ _)). rewrite ?bind_bind.
  rewrite (bind_run _ _ _ _ _
             (reader_run_app _ _ _ _ (reader_elements _) Hitems)).
  rewrite ?bind_bind.
  match goal with
  | |- fst (bind (mapM items ?g) _ _) = JS.bind (mapS ras ?f []) _ =>
      pose proof
        (sim_mapM (length h0) (pathsHeld h0)
           (fun v ra => fst (readRunArtifact v h0) = Normal ra)
           (fun hx =>
              listHeld (length h0) (listHeld (length h0) (reads h0) hx) hx)
           f g) as Hsim;
      specialize (Hsim
        (fun hx hx' v xs Hk =>
           listHeld_keeps _ _ hx hx' v xs
             (fun u x => listHeld_keeps _ _ hx hx' u x (fun _ _ H => H) Hk)
             Hk)
        (fun av a s hx Ha Hs => sim_run av a s hx Ha Hs)
        items ras [] (h0 ++ [Obj []]) Hmap pathsHeld_initial);
      match type of Hsim with
      | simulates ?pure _ _ =>
          change (mapS ras f []) with pure;
          unfold simulates in Hsim; revert Hsim;
          destruct pure as [r | ex]; intros Hsim
      end
  end.
  - destruct Hsim as (vs & h1 & E & Hm & Hvs & _). cbn [JS.bind].
    rewrite (bind_run _ _ _ _ _ E). rewrite ?bind_bind.
    rewrite (bind_run _ _ _ _ _ (run_alloc _ _)). rewrite ?bind_bind.
    destruct (run_flatMapDeep (length h0) (reads h0)
                (h1 ++ [Arr (map Some vs)]) (VRef (length h1)) (fst r))
      as [flat [Eflat Hflat]].
    { exists (length h1), vs. split; [reflexivity |].
      split; [exact (pathsHeld_beyond _ _ Hm) |].
      split; [rewrite nth_error_app2 by lia; rewrite Nat.sub_diag;
              reflexivity |].
      eapply Forall2_impl; [| exact Hvs].
      intros v xss. apply listHeld_keeps; [| apply keeps_app].
      intros u xs. apply listHeld_keeps; [trivial | apply keeps_app]. }
    rewrite (bind_run _ _ _ _ _ Eflat).
    rewrite (bind_run _ _ _ _ _ (run_alloc _ _)).
    destruct Hm as (ext & created & -> & Hheld & Hpaths).
    set (h1 := pathStore h0 ext created) in *.
    set (h2 := h1 ++ [Arr (map Some vs)]) in *.
    set (h3 := h2 ++ [Arr (map Some flat)]) in *.
    set (result := Obj [("validLinkedArtifacts", VRef (length h2));
                        ("fullArtifactPathMap", VRef (length h0))]).
    assert (Hk : keeps (length h0) h1 (h3 ++ [result])).
    { apply (keeps_trans _ _ h3); [| apply keeps_app].
      apply (keeps_trans _ _ h2); apply keeps_app. }
    assert (Hresult : nth_error (h3 ++ [result]) (length h3) = Some result).
    { rewrite nth_error_app2 by lia. rewrite Nat.sub_diag. reflexivity. }
    assert (Hflat' : nth_error (h3 ++ [result]) (length h2)
                     = Some (Arr (map Some flat))).
    { apply nth_error_static. unfold h3.
      rewrite nth_error_app2 by lia. rewrite Nat.sub_diag. reflexivity. }
    assert (Hmap' : nth_error (h3 ++ [result]) (length h0)
                    = Some (Obj (mapV pathRef ext))).
    { do 3 apply nth_error_static. apply pathStore_map. }
    assert (Hreads : mapM flat readLinkedArtifact (h3 ++ [result])
                     = (Normal (concat (concat (fst r))), h3 ++ [result])).
    { apply mapM_Forall2. eapply Forall2_impl; [| exact Hflat].
      intros v la Hv. unfold h3, h2, h1, pathStore.
      rewrite <- !app_assoc. exact (reads_run _ _ _ Hv). }
    unfold readRocCurveArtifactData.
    rewrite (bind_run _ _ _ _ _
               (run_getProp _ _ _ "validLinkedArtifacts" Hresult)).
    cbn [getOwn String.eqb Ascii.eqb Bool.eqb].
    rewrite (bind_run _ _ _ _ _ (run_elements _ _ _ Hflat')).
    rewrite map_slot_Some.
    rewrite (bind_run _ _ _ _ _ Hreads).
    rewrite (bind_run _ _ _ _ _
               (run_getProp _ _ _ "fullArtifactPathMap" Hresult)).
    cbn [getOwn String.eqb Ascii.eqb Bool.eqb].
    rewrite (bind_run _ _ _ _ _
               (run_readFullArtifactPathMap (length h0) _ _ ext Hmap'
                  (Forall_impl _
                     (fun kv => pathHeld_keeps _ _ (snd kv) Hk) Hheld))).
    cbn [ret fst]. rewrite Hpaths. reflexivity.
  - destruct Hsim as [h' E]. cbn [JS.bind].
    rewrite (bind_throws _ _ _ _ _ E). reflexivity.
Qed.

End PathStore.

Lemma getValidRocCurveArtifactData_refines_witness :
  fst (Store.readRunArtifacts Sample.curvesInput Sample.curvesStore)
  = Normal Sample.curves /\
  fst (Store.bind (Store.getValidRocCurveArtifactData Sample.curvesInput)
         Store.readRocCurveArtifactData Sample.curvesStore)
  = getValidRocCurveArtifactData Sample.curves.
Proof.
  split; [reflexivity |].
  apply getValidRocCurveArtifactData_refines. reflexivity.
Defined.
